(** * A verified model of the website crawler's core

The development embeds the crawl engine of the repository
(URL frontier, fetch retry loop, extractor pipeline, text, link and
image extractors, robots cache, parser clean-up, report, validators,
orchestrator loop) as Rocq functions and proves the properties its
specification states about them, and further properties of the code.

Conventions.  A Python [str] is a Rocq [string]; the model follows
CPython 3.11 on ASCII text, which is what a URL consists of, and a
percent-decoded query component is kept as the UTF-8 bytes of the
decoded text.  Python [int] is [Z].  A Python [set] of strings is a
[gset string], a list used as an array is a [list] with stdpp's
lookup and insert, an insertion-ordered [dict] is an association list
with unique keys. *)

From Stdlib Require Import ZArith List Lia Ascii String Bool Permutation Sorted Floats.
From stdpp Require Import gmap strings list pretty.

Set Warnings "-register-all,-clear-no-such-hyp".

(** ** Python string primitives *)

Module PyStr.

Local Open Scope nat_scope.

Definition code (c : ascii) : nat := nat_of_ascii c.

(** [str.isspace] on code points below 128. *)
Definition isspace (c : ascii) : bool :=
  let n := code c in
  ((9 <=? n) && (n <=? 13)) || ((28 <=? n) && (n <=? 32)).

Definition isupper (c : ascii) : bool := (65 <=? code c) && (code c <=? 90).
Definition islower (c : ascii) : bool := (97 <=? code c) && (code c <=? 122).
Definition isalpha (c : ascii) : bool := isupper c || islower c.
Definition isdigit (c : ascii) : bool := (48 <=? code c) && (code c <=? 57).
Definition isascii (c : ascii) : bool := code c <? 128.

Definition lower_char (c : ascii) : ascii :=
  if isupper c then ascii_of_nat (code c + 32) else c.

(** [s.lower()] *)
Fixpoint lower (s : string) : string :=
  match s with
  | EmptyString => EmptyString
  | String c r => String (lower_char c) (lower r)
  end.

(** [s.lstrip(chars)] for the set of characters recognised by [p]. *)
Fixpoint lstrip_by (p : ascii -> bool) (s : string) : string :=
  match s with
  | EmptyString => EmptyString
  | String c r => if p c then lstrip_by p r else s
  end.

Fixpoint rstrip_by (p : ascii -> bool) (s : string) : string :=
  match s with
  | EmptyString => EmptyString
  | String c r =>
      match rstrip_by p r with
      | EmptyString => if p c then EmptyString else String c EmptyString
      | r' => String c r'
      end
  end.

(** [s.strip()] *)
Definition strip (s : string) : string := rstrip_by isspace (lstrip_by isspace s).

(** [s.replace(c, "")] for a one-character [c]. *)
Fixpoint remove_char (c : ascii) (s : string) : string :=
  match s with
  | EmptyString => EmptyString
  | String d r => if Ascii.eqb c d then remove_char c r else String d (remove_char c r)
  end.

(** [s.replace(c, d)] for one-character [c] and [d]. *)
Fixpoint replace_char (c d : ascii) (s : string) : string :=
  match s with
  | EmptyString => EmptyString
  | String e r => String (if Ascii.eqb c e then d else e) (replace_char c d r)
  end.

(** [c in s] *)
Fixpoint contains (c : ascii) (s : string) : bool :=
  match s with
  | EmptyString => false
  | String d r => Ascii.eqb c d || contains c r
  end.

(** [s.partition(c)]: [None] when [c] does not occur, otherwise the text
    before and after its first occurrence. *)
Fixpoint partition (c : ascii) (s : string) : option (string * string) :=
  match s with
  | EmptyString => None
  | String d r =>
      if Ascii.eqb c d then Some (EmptyString, r)
      else match partition c r with
           | Some (a, b) => Some (String d a, b)
           | None => None
           end
  end.

(** [s.rpartition(c)]: [None] when [c] does not occur, otherwise the text
    before and after its last occurrence. *)
Fixpoint rpartition (c : ascii) (s : string) : option (string * string) :=
  match s with
  | EmptyString => None
  | String d r =>
      match rpartition c r with
      | Some (a, b) => Some (String d a, b)
      | None => if Ascii.eqb c d then Some (EmptyString, r) else None
      end
  end.

(** [s.rpartition(c)[2]] *)
Definition after_last (c : ascii) (s : string) : string :=
  match rpartition c s with Some (_, b) => b | None => s end.

(** The longest prefix of [s] whose characters all fail [p], and the rest. *)
Fixpoint break_at (p : ascii -> bool) (s : string) : string * string :=
  match s with
  | EmptyString => (EmptyString, EmptyString)
  | String c r =>
      if p c then (EmptyString, s)
      else let '(a, b) := break_at p r in (String c a, b)
  end.

(** [int(s)] for a string of decimal digits. *)
Definition int10 (s : string) : N :=
  fold_left (fun acc c => 10 * acc + (N_of_ascii c - 48))%N (list_ascii_of_string s) 0%N.

(** [s.split(c)] for a one-character separator. *)
Fixpoint split (c : ascii) (s : string) : list string :=
  match s with
  | EmptyString => [EmptyString]
  | String d r =>
      match split c r with
      | f :: fs => if Ascii.eqb c d then EmptyString :: f :: fs else String d f :: fs
      | [] => [String d EmptyString]
      end
  end.

(** [sep.join(parts)] *)
Fixpoint join (sep : string) (parts : list string) : string :=
  match parts with
  | [] => EmptyString
  | [p] => p
  | p :: ps => p +:+ sep +:+ join sep ps
  end.

(** [s in l] for a list of strings. *)
Definition in_list (s : string) (l : list string) : bool := existsb (String.eqb s) l.

(** [s.startswith(p)] *)
Definition startswith (p s : string) : bool := String.prefix p s.

(** [all(p(c) for c in s)] *)
Fixpoint all_chars (p : ascii -> bool) (s : string) : bool :=
  match s with
  | EmptyString => true
  | String c r => p c && all_chars p r
  end.

(** Truthiness of a string: [bool(s)]. *)
Definition nonempty (s : string) : bool :=
  match s with EmptyString => false | _ => true end.

(** [re.sub(c+, c, s)]: every run of the character [c] becomes one [c];
    [prev] tells whether the character just before [s] was a [c]. *)
Fixpoint collapse_from (c : ascii) (prev : bool) (s : string) : string :=
  match s with
  | EmptyString => EmptyString
  | String d r =>
      if Ascii.eqb c d
      then (if prev then collapse_from c true r else String d (collapse_from c true r))
      else String d (collapse_from c false r)
  end.

Definition collapse_runs (c : ascii) (s : string) : string := collapse_from c false s.

End PyStr.

(** ** The standard library's [ipaddress] check used by [urlsplit]

[urlsplit] validates a bracketed host with [ipaddress.ip_address];
only acceptance matters, so the model decides validity and does not
build the address. *)

Module IpAddress.
Import PyStr.
Local Open Scope nat_scope.

Definition ishex (c : ascii) : bool :=
  isdigit c || ((97 <=? code c) && (code c <=? 102)) || ((65 <=? code c) && (code c <=? 70)).

(** [IPv4Address._parse_octet] does not raise. *)
Definition octet_ok (o : string) : bool :=
  nonempty o && all_chars isdigit o && (String.length o <=? 3)
  && negb (negb (String.eqb o "0") && startswith "0" o)
  && (int10 o <=? 255)%N.

(** [IPv4Address(s)] does not raise. *)
Definition ipv4_ok (s : string) : bool :=
  negb (contains "/" s) && nonempty s
  && (let octets := split "." s in (length octets =? 4) && forallb octet_ok octets).

(** [IPv6Address._parse_hextet] does not raise. *)
Definition hextet_ok (h : string) : bool :=
  all_chars ishex h && (String.length h <=? 4) && nonempty h.

(** Indices [1 .. len-2] of [parts] holding an empty string. *)
Definition interior_empty (parts : list string) : list nat :=
  filter (fun i => bool_decide (1 <= i /\ i + 1 < length parts /\ parts !! i = Some ""))
         (seq 0 (length parts)).

(** [IPv6Address._ip_int_from_string(ip_str)] does not raise. *)
Definition ipv6_parts_ok (ip_str : string) : bool :=
  nonempty ip_str &&
  (let parts := split ":" ip_str in
   (3 <=? length parts) &&
   (let last_part := List.last parts "" in
    let v4 := contains "." last_part in
    (negb v4 || ipv4_ok last_part) &&
    (let parts := if v4 then (removelast parts ++ ["0"; "0"])%list else parts in
     (length parts <=? 9) &&
     match interior_empty parts with
     | [] =>
         (length parts =? 8) && nonempty (List.hd "" parts)
         && nonempty (List.last parts "") && forallb hextet_ok parts
     | [skip_index] =>
         let head_empty := negb (nonempty (List.hd "" parts)) in
         let tail_empty := negb (nonempty (List.last parts "")) in
         let parts_hi := if head_empty then skip_index - 1 else skip_index in
         let parts_lo := if tail_empty then length parts - skip_index - 1 - 1
                         else length parts - skip_index - 1 in
         negb (head_empty && negb (parts_hi =? 0))
         && negb (tail_empty && negb (parts_lo =? 0))
         && (parts_hi + parts_lo <=? 7)
         && forallb hextet_ok (firstn parts_hi parts)
         && forallb hextet_ok (skipn (length parts - parts_lo) parts)
     | _ => false
     end))).

(** [IPv6Address(s)] does not raise. *)
Definition ipv6_ok (s : string) : bool :=
  negb (contains "/" s) &&
  match partition "%" s with
  | None => ipv6_parts_ok s
  | Some (addr, scope_id) =>
      nonempty scope_id && negb (contains "%" scope_id) && ipv6_parts_ok addr
  end.

(** [ipaddress.ip_address(s)] returns an [IPv6Address]: the IPv4 parser is
    tried first and, when it accepts, the result is not an IPv6 address. *)
Definition is_ipv6_address (s : string) : bool := negb (ipv4_ok s) && ipv6_ok s.

End IpAddress.

(** ** The standard library's [urllib.parse] *)

Module UrlLib.
Import PyStr.
Local Open Scope nat_scope.

Definition uses_netloc : list string :=
  [""; "ftp"; "http"; "gopher"; "nntp"; "telnet"; "imap"; "wais"; "file";
   "mms"; "https"; "shttp"; "snews"; "prospero"; "rtsp"; "rtspu"; "rsync";
   "svn"; "svn+ssh"; "sftp"; "nfs"; "git"; "git+ssh"; "ws"; "wss"].

Definition uses_params : list string :=
  [""; "ftp"; "hdl"; "prospero"; "http"; "imap"; "https"; "shttp"; "rtsp";
   "rtspu"; "sip"; "sips"; "mms"; "sftp"; "tel"].

(** [c in scheme_chars] *)
Definition scheme_char (c : ascii) : bool :=
  isalpha c || isdigit c || contains c "+-.".

(** [c in _WHATWG_C0_CONTROL_OR_SPACE] *)
Definition c0_control_or_space (c : ascii) : bool := code c <=? 32.

(** [urlsplit]'s result; [urlparse] adds [params]. *)
Record ParseResult := mkParseResult {
  scheme : string;
  netloc : string;
  path : string;
  params : string;
  query : string;
  fragment : string
}.

(** [_check_bracketed_host(hostname)] does not raise.  The IPvFuture
    pattern is [v], one or more hex digits, a dot, one or more characters
    other than a newline. *)
Definition check_bracketed_host (hostname : string) : bool :=
  match hostname with
  | String "v" rest =>
      let '(digits, tail) := break_at (fun c => negb (IpAddress.ishex c)) rest in
      nonempty digits &&
      match tail with
      | String "." more => nonempty more && negb (contains "010" more)
      | _ => false
      end
  | _ => IpAddress.is_ipv6_address hostname
  end.

(** [_check_bracketed_netloc(netloc)] does not raise. *)
Definition check_bracketed_netloc (netloc : string) : bool :=
  let hostname_and_port := after_last "@" netloc in
  match partition "[" hostname_and_port with
  | Some (before_bracket, bracketed) =>
      negb (nonempty before_bracket) &&
      (let '(hostname, port) :=
         match partition "]" bracketed with
         | Some hp => hp
         | None => (bracketed, "")
         end in
       negb (nonempty port && negb (startswith ":" port))
       && check_bracketed_host hostname)
  | None =>
      let hostname :=
        match partition ":" hostname_and_port with
        | Some (h, _) => h
        | None => hostname_and_port
        end in
      check_bracketed_host hostname
  end.

(** [urlsplit(url)]; [None] stands for the [ValueError] it raises on a
    malformed bracketed host.  [_checknetloc] only acts on a non-ASCII
    host and is not modelled. *)
Definition urlsplit (url : string) : option ParseResult :=
  let url := lstrip_by c0_control_or_space url in
  let url := remove_char "010" (remove_char "013" (remove_char "009" url)) in
  let '(scheme, url) :=
    match partition ":" url with
    | Some (String c0 _ as before, after) =>
        if isascii c0 && isalpha c0 && all_chars scheme_char before
        then (lower before, after)
        else ("", url)
    | _ => ("", url)
    end in
  let split_rest (netloc url : string) :=
    let '(url, fragment) :=
      match partition "#" url with Some uf => uf | None => (url, "") end in
    let '(url, query) :=
      match partition "?" url with Some uq => uq | None => (url, "") end in
    mkParseResult scheme netloc url "" query fragment in
  match url with
  | String "/" (String "/" rest) =>
      let '(netloc, url) := break_at (fun c => contains c "/?#") rest in
      let open_br := contains "[" netloc in
      let close_br := contains "]" netloc in
      if (open_br && negb close_br) || (close_br && negb open_br) then None
      else if open_br && close_br && negb (check_bracketed_netloc netloc) then None
      else Some (split_rest netloc url)
  | _ => Some (split_rest "" url)
  end.

(** [_splitparams(url)] *)
Definition _splitparams (url : string) : string * string :=
  match rpartition "/" url with
  | Some (head, tail) =>
      match partition ";" tail with
      | Some (before, after) => (head +:+ "/" +:+ before, after)
      | None => (url, "")
      end
  | None =>
      match partition ";" url with
      | Some ba => ba
      | None => (url, "")
      end
  end.

(** [urlparse(url)] *)
Definition urlparse (url : string) : option ParseResult :=
  match urlsplit url with
  | None => None
  | Some r =>
      if in_list (scheme r) uses_params && contains ";" (path r)
      then let '(url, params) := _splitparams (path r) in
           Some (mkParseResult (scheme r) (netloc r) url params (query r) (fragment r))
      else Some r
  end.

(** [urlunsplit((scheme, netloc, url, query, fragment))] *)
Definition urlunsplit (scheme netloc url query fragment : string) : string :=
  let url :=
    if nonempty netloc
       || (nonempty scheme && in_list scheme uses_netloc
           && negb (startswith "//" url))
    then "//" +:+ netloc
         +:+ (if nonempty url && negb (startswith "/" url) then "/" +:+ url else url)
    else url in
  let url := if nonempty scheme then scheme +:+ ":" +:+ url else url in
  let url := if nonempty query then url +:+ "?" +:+ query else url in
  if nonempty fragment then url +:+ "#" +:+ fragment else url.

(** [urlunparse((scheme, netloc, url, params, query, fragment))] *)
Definition urlunparse (scheme netloc url params query fragment : string) : string :=
  let url := if nonempty params then url +:+ ";" +:+ params else url in
  urlunsplit scheme netloc url query fragment.

(** *** Percent decoding *)

Definition hexval (c : ascii) : option nat :=
  let n := code c in
  if isdigit c then Some (n - 48)
  else if (65 <=? n) && (n <=? 70) then Some (n - 55)
  else if (97 <=? n) && (n <=? 102) then Some (n - 87)
  else None.

(** One piece after a [%] in [unquote_to_bytes]. *)
Definition unquote_item (item : string) : string :=
  match item with
  | String a (String b rest) =>
      match hexval a, hexval b with
      | Some x, Some y => String (ascii_of_nat (16 * x + y)) rest
      | _, _ => "%" +:+ item
      end
  | _ => "%" +:+ item
  end.

(** [unquote_to_bytes(string)] *)
Definition unquote_to_bytes (s : string) : string :=
  match split "%" s with
  | [] => ""
  | first :: items => first +:+ String.concat "" (map unquote_item items)
  end.

(** The UTF-8 bytes of U+FFFD, the replacement character. *)
Definition replacement : string :=
  String (ascii_of_nat 239) (String (ascii_of_nat 191) (String (ascii_of_nat 189) "")).

Definition is_continuation (c : ascii) : bool := (128 <=? code c) && (code c <=? 191).

(** The second byte allowed after the lead byte [b] of a three- or
    four-byte sequence. *)
Definition second_ok (b c : ascii) : bool :=
  let lo := if code b =? 224 then 160 else if code b =? 240 then 144 else 128 in
  let hi := if code b =? 237 then 159 else if code b =? 244 then 143 else 191 in
  (lo <=? code c) && (code c <=? hi).

(** [bytes.decode("utf-8", "replace")], seen on the UTF-8 bytes of the
    result: well-formed sequences are kept and every maximal ill-formed
    part becomes one replacement character. *)
Fixpoint utf8_replace (s : string) : string :=
  match s with
  | EmptyString => EmptyString
  | String b r =>
      let n := code b in
      if n <? 128 then String b (utf8_replace r)
      else if (n <? 194) || (244 <? n) then replacement +:+ utf8_replace r
      else if n <? 224 then
        match r with
        | String c1 r1 =>
            if is_continuation c1 then String b (String c1 (utf8_replace r1))
            else replacement +:+ utf8_replace r
        | EmptyString => replacement
        end
      else if n <? 240 then
        match r with
        | String c1 r1 =>
            if second_ok b c1 then
              match r1 with
              | String c2 r2 =>
                  if is_continuation c2
                  then String b (String c1 (String c2 (utf8_replace r2)))
                  else replacement +:+ utf8_replace r1
              | EmptyString => replacement
              end
            else replacement +:+ utf8_replace r
        | EmptyString => replacement
        end
      else
        match r with
        | String c1 r1 =>
            if second_ok b c1 then
              match r1 with
              | String c2 r2 =>
                  if is_continuation c2 then
                    match r2 with
                    | String c3 r3 =>
                        if is_continuation c3
                        then String b (String c1 (String c2 (String c3 (utf8_replace r3))))
                        else replacement +:+ utf8_replace r2
                    | EmptyString => replacement
                    end
                  else replacement +:+ utf8_replace r1
              | EmptyString => replacement
              end
            else replacement +:+ utf8_replace r
        | EmptyString => replacement
        end
  end.

(** [unquote(string)] with the default [encoding="utf-8"],
    [errors="replace"]. *)
Definition unquote (s : string) : string :=
  if contains "%" s then utf8_replace (unquote_to_bytes s) else s.

(** [parse_qsl(qs, keep_blank_values=True)] *)
Definition parse_qsl (qs : string) : list (string * string) :=
  let query_args := if nonempty qs then split "&" qs else [] in
  flat_map
    (fun name_value =>
       if nonempty name_value then
         let '(n, v) :=
           match partition "=" name_value with
           | Some nv => nv
           | None => (name_value, "")
           end in
         [(unquote (replace_char "+" " " n), unquote (replace_char "+" " " v))]
       else [])
    query_args.

(** A [dict] from strings to lists of strings, in insertion order. *)
Definition qdict := list (string * list string).

(** [d[name].append(value)] if [name in d], else [d[name] = [value]]. *)
Fixpoint dict_append (d : qdict) (name value : string) : qdict :=
  match d with
  | [] => [(name, [value])]
  | (k, vs) :: d' =>
      if String.eqb name k then (k, (vs ++ [value])%list) :: d'
      else (k, vs) :: dict_append d' name value
  end.

(** [parse_qs(qs, keep_blank_values=True)] *)
Definition parse_qs (qs : string) : qdict :=
  fold_left (fun d nv => dict_append d (fst nv) (snd nv)) (parse_qsl qs) [].

(** *** Percent encoding *)

Definition always_safe (c : ascii) : bool :=
  isalpha c || isdigit c || contains c "_.-~".

Definition hexdigit (n : nat) : ascii :=
  if n <? 10 then ascii_of_nat (48 + n) else ascii_of_nat (55 + n).

(** What [quote_plus] writes for one byte. *)
Definition quote_byte (c : ascii) : string :=
  if always_safe c then String c ""
  else if Ascii.eqb c " " then "+"
  else String "%" (String (hexdigit (code c / 16)) (String (hexdigit (code c mod 16)) "")).

(** [quote_plus(string)] *)
Fixpoint quote_plus (s : string) : string :=
  match s with
  | EmptyString => EmptyString
  | String c r => quote_byte c +:+ quote_plus r
  end.

(** [urlencode(query, doseq=True)] for a dict of lists of strings. *)
Definition urlencode (query : qdict) : string :=
  join "&"
    (flat_map (fun kv => map (fun elt => quote_plus (fst kv) +:+ "=" +:+ quote_plus elt) (snd kv))
              query).

End UrlLib.

(** ** The standard library's [hashlib.sha256]

[URLFrontier._hash] is [hashlib.sha256(url.encode()).hexdigest()]:
SHA-256 as in FIPS 180-4 over the UTF-8 bytes, printed as 64
lower-case hex digits. *)

Module Sha256.
Local Open Scope N_scope.

Definition mask32 : N := 4294967295.
Definition add32 (x y : N) : N := N.land (x + y) mask32.
Definition rotr (n x : N) : N :=
  N.lor (N.shiftr x n) (N.land (N.shiftl x (32 - n)) mask32).

Definition Ch (x y z : N) : N := N.lxor (N.land x y) (N.land (N.lxor x mask32) z).
Definition Maj (x y z : N) : N :=
  N.lxor (N.lxor (N.land x y) (N.land x z)) (N.land y z).
Definition big_sigma0 (x : N) : N := N.lxor (N.lxor (rotr 2 x) (rotr 13 x)) (rotr 22 x).
Definition big_sigma1 (x : N) : N := N.lxor (N.lxor (rotr 6 x) (rotr 11 x)) (rotr 25 x).
Definition small_sigma0 (x : N) : N := N.lxor (N.lxor (rotr 7 x) (rotr 18 x)) (N.shiftr x 3).
Definition small_sigma1 (x : N) : N := N.lxor (N.lxor (rotr 17 x) (rotr 19 x)) (N.shiftr x 10).

Definition round_constants : list N :=
  [1116352408; 1899447441; 3049323471; 3921009573; 961987163; 1508970993;
   2453635748; 2870763221; 3624381080; 310598401; 607225278; 1426881987;
   1925078388; 2162078206; 2614888103; 3248222580; 3835390401; 4022224774;
   264347078; 604807628; 770255983; 1249150122; 1555081692; 1996064986;
   2554220882; 2821834349; 2952996808; 3210313671; 3336571891; 3584528711;
   113926993; 338241895; 666307205; 773529912; 1294757372; 1396182291;
   1695183700; 1986661051; 2177026350; 2456956037; 2730485921; 2820302411;
   3259730800; 3345764771; 3516065817; 3600352804; 4094571909; 275423344;
   430227734; 506948616; 659060556; 883997877; 958139571; 1322822218;
   1537002063; 1747873779; 1955562222; 2024104815; 2227730452; 2361852424;
   2428436474; 2756734187; 3204031479; 3329325298].

Definition initial_hash : list N :=
  [1779033703; 3144134277; 1013904242; 2773480762; 1359893119; 2600822924;
   528734635; 1541459225].

(** The message followed by the bit 1, zeros, and its bit length on 64
    bits, a multiple of 64 bytes in all. *)
Definition pad (msg : list N) : list N :=
  let len := N.of_nat (length msg) in
  let zeros := (119 - len mod 64) mod 64 in
  let bitlen := 8 * len in
  (msg ++ [128] ++ repeat 0 (N.to_nat zeros)
       ++ map (fun i => N.land (N.shiftr bitlen (8 * (7 - N.of_nat i))) 255) (seq 0 8))%list.

(** Big-endian 32-bit words of a byte list whose length is a multiple of 4. *)
Fixpoint words (bytes : list N) : list N :=
  match bytes with
  | b0 :: b1 :: b2 :: b3 :: rest =>
      (N.shiftl b0 24 + N.shiftl b1 16 + N.shiftl b2 8 + b3) :: words rest
  | _ => []
  end.

(** The message schedule: [n] more words appended to [w]. *)
Fixpoint schedule (n : nat) (w : list N) : list N :=
  match n with
  | O => w
  | S n' =>
      let t := length w in
      let at_ i := nth (t - i) w 0 in
      schedule n'
        (w ++ [add32 (add32 (small_sigma1 (at_ 2%nat)) (at_ 7%nat))
                     (add32 (small_sigma0 (at_ 15%nat)) (at_ 16%nat))])%list
  end.

Definition state : Type := N * N * N * N * N * N * N * N.

Definition round (s : state) (kw : N * N) : state :=
  let '(a, b, c, d, e, f, g, h) := s in
  let t1 := add32 (add32 (add32 h (big_sigma1 e)) (add32 (Ch e f g) (fst kw))) (snd kw) in
  let t2 := add32 (big_sigma0 a) (Maj a b c) in
  (add32 t1 t2, a, b, c, add32 d t1, e, f, g).

(** One 16-word block folded into the hash state. *)
Definition compress (s : state) (block : list N) : state :=
  let '(a, b, c, d, e, f, g, h) := s in
  let '(a', b', c', d', e', f', g', h') :=
    fold_left round (combine round_constants (schedule 48 block)) s in
  (add32 a a', add32 b b', add32 c c', add32 d d',
   add32 e e', add32 f f', add32 g g', add32 h h').

Fixpoint blocks (n : nat) (ws : list N) : list (list N) :=
  match n with
  | O => []
  | S n' => firstn 16 ws :: blocks n' (skipn 16 ws)
  end.

Definition digest_words (msg : list N) : list N :=
  let ws := words (pad msg) in
  let s0 : state :=
    match initial_hash with
    | [a; b; c; d; e; f; g; h] => (a, b, c, d, e, f, g, h)
    | _ => (0, 0, 0, 0, 0, 0, 0, 0)
    end in
  let '(a, b, c, d, e, f, g, h) :=
    fold_left compress (blocks (length ws / 16) ws) s0 in
  [a; b; c; d; e; f; g; h].

Definition hexchar (n : N) : ascii :=
  if n <? 10 then ascii_of_N (48 + n) else ascii_of_N (87 + n).

Definition hex_word (w : N) : string :=
  string_of_list_ascii
    (map (fun i => hexchar (N.land (N.shiftr w (4 * (7 - N.of_nat i))) 15)) (seq 0 8)).

(** [hashlib.sha256(s.encode()).hexdigest()] *)
Definition hexdigest (s : string) : string :=
  String.concat "" (map hex_word (digest_words (map N_of_ascii (list_ascii_of_string s)))).

End Sha256.

(** ** The standard library's [heapq]

A heap is a Python list; [heap[i]] is read with the default [newitem],
the item the loop holds, every index used being inside the list.  The
loops run on a fuel that the lemmas [siftdown_loop_fuel] and
[siftup_loop_exit] show to be enough. *)

Module Heapq.
Section Heapq.
Context {A : Type} (lt : A -> A -> bool).
Local Open Scope nat_scope.

(** The loop of [_siftdown]: parents move down until [newitem] fits. *)
Fixpoint siftdown_loop (fuel : nat) (heap : list A) (startpos pos : nat)
         (newitem : A) : list A :=
  match fuel with
  | O => <[pos := newitem]> heap
  | S fuel' =>
      if startpos <? pos then
        let parentpos := (pos - 1) / 2 in
        let parent := nth parentpos heap newitem in
        if lt newitem parent
        then siftdown_loop fuel' (<[pos := parent]> heap) startpos parentpos newitem
        else <[pos := newitem]> heap
      else <[pos := newitem]> heap
  end.

(** [_siftdown(heap, startpos, pos)] *)
Definition _siftdown (heap : list A) (startpos pos : nat) : list A :=
  match heap !! pos with
  | Some newitem => siftdown_loop pos heap startpos pos newitem
  | None => heap
  end.

(** [heappush(heap, item)] *)
Definition heappush (heap : list A) (item : A) : list A :=
  _siftdown (heap ++ [item]) 0 (length heap).

(** The loop of [_siftup]: the smaller child moves up until a leaf is
    reached; returns the list and the leaf position. *)
Fixpoint siftup_loop (fuel : nat) (heap : list A) (endpos pos : nat)
         (newitem : A) : list A * nat :=
  match fuel with
  | O => (heap, pos)
  | S fuel' =>
      let childpos := 2 * pos + 1 in
      if childpos <? endpos then
        let rightpos := childpos + 1 in
        let childpos :=
          if (rightpos <? endpos)
             && negb (lt (nth childpos heap newitem) (nth rightpos heap newitem))
          then rightpos else childpos in
        siftup_loop fuel' (<[pos := nth childpos heap newitem]> heap) endpos childpos newitem
      else (heap, pos)
  end.

(** [_siftup(heap, pos)] *)
Definition _siftup (heap : list A) (pos : nat) : list A :=
  match heap !! pos with
  | Some newitem =>
      let endpos := length heap in
      let '(heap, leaf) := siftup_loop endpos heap endpos pos newitem in
      _siftdown (<[leaf := newitem]> heap) pos leaf
  | None => heap
  end.

(** [heappop(heap)]: the popped item and the list left; [None] is the
    [IndexError] of popping an empty list. *)
Definition heappop (heap : list A) : option (A * list A) :=
  match last heap with
  | None => None
  | Some lastelt =>
      match removelast heap with
      | [] => Some (lastelt, [])
      | returnitem :: rest =>
          Some (returnitem, _siftup (lastelt :: rest) 0)
      end
  end.

End Heapq.
End Heapq.

(** ** Outcomes of Python calls *)

(** A call either returns a value or raises an exception, of which the
    model keeps the message [str(exc)]. *)
Inductive outcome (A : Type) : Type :=
| Returns (a : A)
| Raises (message : string).
Arguments Returns {A} a.
Arguments Raises {A} message.

(** ** [app/frontier.py] *)

Module Frontier.
Import PyStr UrlLib.

(** [_STRIP_PARAMS], the prefixes of the regular expression
    [^(utm_|fbclid|gclid|mc_|ref|source|campaign)]. *)
Definition _STRIP_PARAMS : list string :=
  ["utm_"; "fbclid"; "gclid"; "mc_"; "ref"; "source"; "campaign"].

(** One literal of the pattern against the start of [s] under
    [re.IGNORECASE]; returns what follows the matched character.  Besides
    the two ASCII cases, [i] matches U+0130 and U+0131 and [s] matches
    U+017F, two bytes each in UTF-8. *)
Definition match_literal (p : ascii) (s : string) : option string :=
  match s with
  | EmptyString => None
  | String c r =>
      if Ascii.eqb (lower_char c) p then Some r
      else
        match r with
        | String c2 r2 =>
            if (Ascii.eqb p "i" && (code c =? 196)%nat
                && ((code c2 =? 176)%nat || (code c2 =? 177)%nat))
               || (Ascii.eqb p "s" && (code c =? 197)%nat && (code c2 =? 191)%nat)
            then Some r2 else None
        | EmptyString => None
        end
  end.

Fixpoint match_literals (pattern s : string) : bool :=
  match pattern with
  | EmptyString => true
  | String p rest =>
      match match_literal p s with
      | Some s' => match_literals rest s'
      | None => false
      end
  end.

(** [_STRIP_PARAMS.match(k)] is not [None]. *)
Definition strip_params_match (k : string) : bool :=
  existsb (fun prefix => match_literals prefix k) _STRIP_PARAMS.

(** The dict comprehension of [normalize_url]. *)
Definition filter_params (qs : qdict) : qdict :=
  List.filter (fun kv => negb (strip_params_match (fst kv))) qs.

(** The path block of [normalize_url]: runs of slashes collapsed, an empty
    path replaced by [/]. *)
Definition clean_path (path : string) : string :=
  let path := collapse_runs "/" (if nonempty path then path else "/") in
  if nonempty path then path else "/".

(** The query block of [normalize_url]. *)
Definition clean_query (query : string) : string :=
  if nonempty query
  then urlencode (filter_params (parse_qs query))
  else "".

(** [URLFrontier.normalize_url(url)]; [None] is Python's [None]. *)
Definition normalize_url (url : string) : option string :=
  match urlparse (strip url) with
  | None => None
  | Some parsed =>
      if negb (in_list (scheme parsed) ["http"; "https"]) then None
      else if negb (nonempty (netloc parsed)) then None
      else
        let scheme := lower (scheme parsed) in
        let netloc := lower (netloc parsed) in
        let path := clean_path (path parsed) in
        let query := clean_query (query parsed) in
        Some (urlunparse scheme netloc path (params parsed) query "")
  end.


(** The distinct keys of [ks] in order of first occurrence. *)
Fixpoint first_occurrences (ks : list string) : list string :=
  match ks with
  | [] => []
  | k :: rest => k :: List.filter (fun k' => negb (String.eqb k' k)) (first_occurrences rest)
  end.






(** [QueueEntry]: a dataclass ordered on [depth] alone. *)
Record QueueEntry := mkEntry { depth : Z; url : string }.

(** [QueueEntry.__lt__] *)
Definition entry_lt (a b : QueueEntry) : bool := (depth a <? depth b)%Z.

Record URLFrontier := mkFrontier {
  allowed_domains : gset string;
  max_depth : Z;
  _queue : list QueueEntry;
  _visited : gset string;
  _enqueued : gset string
}.

(** [URLFrontier(allowed_domains, max_depth)] *)
Definition new (domains : list string) (max_depth : Z) : URLFrontier :=
  mkFrontier (list_to_set (map lower domains)) max_depth [] ∅ ∅.

(** [URLFrontier._hash(url)] *)
Definition _hash (url : string) : string := Sha256.hexdigest url.

(** [re.sub(r"^www\.", "", domain)] *)
Definition strip_www (domain : string) : string :=
  match domain with
  | String "w" (String "w" (String "w" (String "." rest))) => rest
  | _ => domain
  end.

(** [URLFrontier._domain_allowed(url)]; it raises when [urlparse] does. *)
Definition _domain_allowed (f : URLFrontier) (url : string) : outcome bool :=
  match urlparse url with
  | None => Raises "Invalid IPv6 URL"
  | Some parsed =>
      let domain := lower (netloc parsed) in
      let bare := strip_www domain in
      Returns (bool_decide (domain ∈ allowed_domains f)
               || bool_decide (bare ∈ allowed_domains f))
  end.

(** [URLFrontier.add_url(url, depth)]: the returned boolean and the
    frontier afterwards; nothing is changed when the call raises. *)
Definition add_url (f : URLFrontier) (url : string) (depth : Z)
  : outcome bool * URLFrontier :=
  match normalize_url url with
  | None => (Returns false, f)
  | Some norm =>
      let url_hash := _hash norm in
      if (max_depth f <? depth)%Z then (Returns false, f)
      else if bool_decide (url_hash ∈ _visited f) || bool_decide (url_hash ∈ _enqueued f)
      then (Returns false, f)
      else
        match _domain_allowed f norm with
        | Raises e => (Raises e, f)
        | Returns false => (Returns false, f)
        | Returns true =>
            (Returns true,
             mkFrontier (allowed_domains f) (max_depth f)
                        (Heapq.heappush entry_lt (_queue f) (mkEntry depth norm))
                        (_visited f)
                        ({[ url_hash ]} ∪ _enqueued f))
        end
  end.

(** The loop of [get_next] on the queue: pops until an entry whose hash
    is not visited, or until the queue is empty. *)
Fixpoint get_next_loop (fuel : nat) (queue : list QueueEntry) (visited : gset string)
  : option (string * Z) * list QueueEntry :=
  match fuel with
  | O => (None, queue)
  | S fuel' =>
      match Heapq.heappop entry_lt queue with
      | None => (None, queue)
      | Some (entry, queue') =>
          if bool_decide (_hash (url entry) ∈ visited)
          then get_next_loop fuel' queue' visited
          else (Some (url entry, depth entry), queue')
      end
  end.

(** [URLFrontier.get_next()] *)
Definition get_next (f : URLFrontier) : option (string * Z) * URLFrontier :=
  let '(r, queue) := get_next_loop (length (_queue f)) (_queue f) (_visited f) in
  (r, mkFrontier (allowed_domains f) (max_depth f) queue (_visited f) (_enqueued f)).

(** [self.normalize_url(url) or url] *)
Definition normalized_or_raw (url : string) : string :=
  match normalize_url url with
  | Some norm => if nonempty norm then norm else url
  | None => url
  end.

(** [URLFrontier.mark_visited(url)] *)
Definition mark_visited (f : URLFrontier) (url : string) : URLFrontier :=
  mkFrontier (allowed_domains f) (max_depth f) (_queue f)
             ({[ _hash (normalized_or_raw url) ]} ∪ _visited f) (_enqueued f).

(** [URLFrontier.is_visited(url)] *)
Definition is_visited (f : URLFrontier) (url : string) : bool :=
  bool_decide (_hash (normalized_or_raw url) ∈ _visited f).

(** A call on one frontier, and what it gave back. *)
Inductive call :=
| AddUrl (url : string) (depth : Z)
| GetNext
| MarkVisited (url : string).

Inductive reply :=
| Added (r : outcome bool)
| Next (r : option (string * Z))
| Marked.

Definition step (f : URLFrontier) (c : call) : reply * URLFrontier :=
  match c with
  | AddUrl u d => let '(r, f') := add_url f u d in (Added r, f')
  | GetNext => let '(r, f') := get_next f in (Next r, f')
  | MarkVisited u => (Marked, mark_visited f u)
  end.

(** A sequence of calls on one frontier: the replies in order and the
    frontier at the end. *)
Fixpoint run (f : URLFrontier) (cs : list call) : list reply * URLFrontier :=
  match cs with
  | [] => ([], f)
  | c :: cs' =>
      let '(r, f') := step f c in
      let '(rs, f'') := run f' cs' in
      (r :: rs, f'')
  end.

(** The entries [get_next] returned in a run, oldest first. *)
Fixpoint returned (rs : list reply) : list (string * Z) :=
  match rs with
  | [] => []
  | Next (Some e) :: rs' => e :: returned rs'
  | _ :: rs' => returned rs'
  end.

(** The entries a run enqueued, in insertion order: the stored URL and the
    depth of every [add_url] that returned [True]. *)
Fixpoint enqueued_entries (cs : list call) (rs : list reply) : list (string * Z) :=
  match cs, rs with
  | AddUrl u d :: cs', Added (Returns true) :: rs' =>
      (default u (normalize_url u), d) :: enqueued_entries cs' rs'
  | _ :: cs', _ :: rs' => enqueued_entries cs' rs'
  | _, _ => []
  end.

(** "The depths of entries returned by successive [get_next] calls are
    non-decreasing." *)
Definition depths_nondecreasing (rs : list reply) : Prop :=
  Sorted Z.le (map snd (returned rs)).

(** "Among entries enqueued with equal depth, [get_next] returns them in
    their insertion order." *)
Definition fifo_within_depth (cs : list call) (rs : list reply) : Prop :=
  forall (i j i' j' : nat) (u v : string) (d : Z),
    (i < j)%nat ->
    enqueued_entries cs rs !! i = Some (u, d) ->
    enqueued_entries cs rs !! j = Some (v, d) ->
    returned rs !! i' = Some (u, d) ->
    returned rs !! j' = Some (v, d) ->
    (i' < j')%nat.

(** The breadth-first discipline of the crawler, which enqueues the links
    of a page one level below it: no [add_url] asks for a depth smaller
    than [floor], the depth of the entry [get_next] returned last. *)
Fixpoint bfs_discipline (floor : option Z) (cs : list call) (rs : list reply) : Prop :=
  match cs, rs with
  | AddUrl _ d :: cs', _ :: rs' =>
      match floor with Some fl => (fl <= d)%Z | None => True end
      /\ bfs_discipline floor cs' rs'
  | GetNext :: cs', Next (Some (_, d)) :: rs' => bfs_discipline (Some d) cs' rs'
  | _ :: cs', _ :: rs' => bfs_discipline floor cs' rs'
  | _, _ => True
  end.

End Frontier.

(** ** Effects of the fetcher: an error-and-trace monad

A computation gives an [outcome] and the list of the effects it had,
in order. *)

Module Eff.

Inductive event :=
| StaticFetch (url : string)     (** one call of [_fetch_static] *)
| DynamicFetch (url : string)    (** one call of [_fetch_dynamic] *)
| Sleep (seconds : Z).           (** [await asyncio.sleep(seconds)] *)

Definition M (A : Type) : Type := outcome A * list event.

Definition ret {A} (a : A) : M A := (Returns a, []).
Definition raise {A} (message : string) : M A := (Raises message, []).
Definition emit (e : event) : M unit := (Returns tt, [e]).

Definition bind {A B} (m : M A) (k : A -> M B) : M B :=
  match fst m with
  | Returns a => let m' := k a in (fst m', (snd m ++ snd m')%list)
  | Raises e => (Raises e, snd m)
  end.

(** [try: body  except Exception as exc: handler(str(exc))] *)
Definition try_except {A} (body : M A) (handler : string -> M A) : M A :=
  match fst body with
  | Returns a => body
  | Raises e => let m' := handler e in (fst m', (snd body ++ snd m')%list)
  end.

Module Notations.
Notation "'let*' x ':=' m 'in' k" := (bind m (fun x => k))
  (at level 10, x name, m at level 100, k at level 200).
End Notations.

End Eff.

(** ** [app/config.py] *)

Module Config.

(** [CrawlConfig], the validated configuration of one job. *)
Record CrawlConfig := mkConfig {
  start_url : string;
  max_depth : Z;
  page_limit : Z;
  rate_limit : float;
  allowed_domains : list string;
  save_raw_html : bool;
  output_dir : string;
  output_format : string;
  user_agents : list string;
  respect_robots : bool;
  dynamic_fallback : bool;
  request_timeout : Z;
  max_retries : Z;
  min_image_size : Z;
  download_images : bool
}.

(** [CrawlConfig.set_defaults]: an empty [allowed_domains] is filled from
    the start URL, whose [urlparse] the validator has already accepted. *)
Definition set_defaults (c : CrawlConfig) : CrawlConfig :=
  match allowed_domains c, UrlLib.urlparse (start_url c) with
  | [], Some parsed =>
      let domain := UrlLib.netloc parsed in
      let bare := Frontier.strip_www domain in
      mkConfig (start_url c) (max_depth c) (page_limit c) (rate_limit c)
               ([domain; bare] ++ if String.eqb bare domain then [] else ["www." +:+ bare])
               (save_raw_html c) (output_dir c) (output_format c) (user_agents c)
               (respect_robots c) (dynamic_fallback c) (request_timeout c)
               (max_retries c) (min_image_size c) (download_images c)
  | _, _ => c
  end.

End Config.

Import Config.

(** ** [app/fetcher.py] *)

Module Fetcher.
Import PyStr Eff Eff.Notations.

Inductive fetch_method := static | dynamic.

Record FetchResult := mkFetchResult {
  url : string;
  status_code : Z;
  html : string;
  headers : list (string * string);
  response_time : float;
  method : fetch_method;
  error : option string
}.

(** [FetchResult.ok], as the truth value the callers test. *)
Definition ok (r : FetchResult) : bool :=
  (200 <=? status_code r)%Z && (status_code r <? 400)%Z
  && nonempty (html r)
  && negb (match error r with Some e => nonempty e | None => false end).

(** What the network does, as far as one call of [fetch] sees it:
    [static_attempt n] is the outcome of the [n]-th call of
    [_fetch_static], [js_heavy] is [_looks_js_heavy], and
    [dynamic_result] is what [_fetch_dynamic] returns (it catches its own
    exceptions). *)
Record world := mkWorld {
  static_attempt : nat -> outcome FetchResult;
  js_heavy : string -> bool;
  dynamic_result : FetchResult
}.

(** [range(n)] *)
Definition range (n : Z) : list Z := map Z.of_nat (seq 0 (Z.to_nat n)).

Section WithWorld.
Variable w : world.

Definition _fetch_static (url : string) (call : Z) : M FetchResult :=
  let* _ := emit (StaticFetch url) in (static_attempt w (Z.to_nat call), []).

(** The [for attempt in range(max_retries + 1)] loop and the [return]
    after it. *)
Fixpoint retry_loop (url : string) (attempts : list Z) (last_error : string)
  : M FetchResult :=
  match attempts with
  | [] => ret (mkFetchResult url 0 "" [] 0%float static (Some last_error))
  | attempt :: rest =>
      try_except
        (_fetch_static url attempt)
        (fun exc =>
           let last_error := exc in
           let wait := Z.min (2 ^ attempt) 30 in
           let* _ := emit (Sleep wait) in
           retry_loop url rest last_error)
  end.

(** [PageFetcher._fetch_with_retries(url, retries)] *)
Definition _fetch_with_retries (config : CrawlConfig) (url : string)
           (retries : option Z) : M FetchResult :=
  let max_retries :=
    match retries with Some r => r | None => max_retries config end in
  retry_loop url (range (max_retries + 1)) "".

Definition _fetch_dynamic (url : string) : M FetchResult :=
  let* _ := emit (DynamicFetch url) in ret (dynamic_result w).

(** [PageFetcher.fetch(url)] *)
Definition fetch (config : CrawlConfig) (url : string) : M FetchResult :=
  let* result := _fetch_with_retries config url None in
  if ok result && dynamic_fallback config && js_heavy w (html result)
  then let* dyn_result := _fetch_dynamic url in
       if ok dyn_result then ret dyn_result else ret result
  else ret result.

End WithWorld.

(** The effects of [k] attempts that raise: each fetch is followed by a
    sleep of [min(2 ** attempt, 30)] seconds. *)
Definition backoff_trace (url : string) (k : nat) : list event :=
  flat_map (fun attempt => [StaticFetch url; Sleep (Z.min (2 ^ Z.of_nat attempt) 30)])
           (seq 0 k).

Definition is_static_fetch (e : event) : bool :=
  match e with StaticFetch _ => true | _ => false end.

(** The [FetchResult] returned once the retries are used up. *)
Definition exhausted (url last_error : string) : FetchResult :=
  mkFetchResult url 0 "" [] 0%float static (Some last_error).

End Fetcher.

(** ** The parsed page: BeautifulSoup's tree *)

Module Soup.
Import PyStr.

(** A [NavigableString], a string [get_text] skips (a comment, a
    declaration), or a [Tag] with its attributes and children. *)
Inductive node :=
| Text (s : string)
| Comment (s : string)
| Tag (name : string) (attrs : list (string * string)) (children : list node).

(** [node.descendants]: everything below [n], in document order. *)
Fixpoint descendants (n : node) : list node :=
  match n with
  | Tag _ _ children => flat_map (fun c => c :: descendants c) children
  | _ => []
  end.

Definition is_tag_named (name : string) (n : node) : bool :=
  match n with
  | Tag name' _ _ => String.eqb name name'
  | _ => false
  end.

(** [soup.find_all(name)] *)
Definition find_all (soup : node) (name : string) : list node :=
  List.filter (is_tag_named name) (descendants soup).

(** One string of [_all_strings(strip=True)]. *)
Definition stripped_string (n : node) : list string :=
  match n with
  | Text s => let s := strip s in if nonempty s then [s] else []
  | _ => []
  end.

(** [tag.get_text(strip=True)] *)
Definition get_text_strip (tag : node) : string :=
  String.concat "" (flat_map stripped_string (descendants tag)).

(** [tag.get(key)] *)
Definition get (tag : node) (key : string) : option string :=
  match tag with
  | Tag _ attrs _ =>
      match List.find (fun kv => String.eqb key (fst kv)) attrs with
      | Some kv => Some (snd kv)
      | None => None
      end
  | _ => None
  end.

End Soup.

(** ** [app/extractors/text.py]: the headings *)

Module TextExtractor.
Import PyStr Soup.

(** One entry of the headings list, the dict [{"level": .., "text": ..}]. *)
Record heading := mkHeading { level : Z; text : string }.

(** [range(1, 7)] *)
Definition levels : list Z := [1; 2; 3; 4; 5; 6]%Z.

(** [f"h{level}"] *)
Definition heading_tag (level : Z) : string := "h" +:+ pretty level.

(** The body of the inner loop: the heading a tag contributes. *)
Definition heading_of (level : Z) (tag : node) : list heading :=
  let text := get_text_strip tag in
  if nonempty text then [mkHeading level text] else [].

(** [TextExtractor._get_headings(soup)] *)
Definition _get_headings (soup : node) : list heading :=
  flat_map (fun level => flat_map (heading_of level) (find_all soup (heading_tag level)))
           levels.

(** The level a tag name stands for: [Some l] for [h1] to [h6]. *)
Definition heading_level (name : string) : option Z :=
  List.find (fun l => String.eqb (heading_tag l) name) levels.

(** The specification's headings list: every [h1] to [h6] element whose
    text is not empty, tagged with its level, in document order. *)
Definition heading_of_node (n : node) : list heading :=
  match n with
  | Tag name _ _ =>
      match heading_level name with
      | Some l => heading_of l n
      | None => []
      end
  | _ => []
  end.

Definition document_order_headings (soup : node) : list heading :=
  flat_map heading_of_node (descendants soup).

(** The headings of one level, in the order they have in [hs]. *)
Definition of_level (l : Z) (hs : list heading) : list heading :=
  List.filter (fun h => (level h =? l)%Z) hs.

End TextExtractor.

(** ** [app/extractors/image.py] *)

Module ImageExtractor.
Import PyStr Soup.

(** The image metadata dict. *)
Record ImageRecord := mkImageRecord {
  image_path : string;
  source_page : string;
  alt_text : string;
  image_url : string
}.

Record t := mkImageExtractor {
  images_dir : string;
  min_size : Z;
  download : bool;
  _seen_hashes : gset string;
  _seen_urls : gset string
}.

(** [os.path.join(a, b)] on a POSIX system. *)
Definition path_join (a b : string) : string :=
  if startswith "/" b then b
  else if negb (nonempty a) || String.eqb (after_last "/" a) "" && contains "/" a
  then a +:+ b
  else a +:+ "/" +:+ b.

(** [ImageExtractor(output_dir, min_size=100, download=True)]; an
    argument left out is [None]. *)
Definition new (output_dir : string) (min_size : option Z) (download : option bool) : t :=
  mkImageExtractor (path_join output_dir "images")
                   (default 100%Z min_size) (default true download) ∅ ∅.

(** What lies outside the extractor: the HTTP client, the optional
    imaging libraries, and the file system. *)
Record world := mkWorld {
  http_get : string -> outcome (Z * string);  (** status and body of a GET *)
  HAS_IMAGEHASH : bool;                       (** whether PIL and imagehash import *)
  image_size : string -> outcome (Z * Z);     (** [Image.open(BytesIO(data)).size] *)
  phash : string -> outcome string;           (** [str(imagehash.phash(img))] *)
  write_file : string -> string -> outcome unit  (** [makedirs] and the write *)
}.

Section WithUrljoin.
  (** [urllib.parse.urljoin], of the standard library. *)
Variable urljoin : string -> string -> string.

(** [a or b]: the first truthy value, for optional strings. *)
Definition or_else (a b : option string) : option string :=
  match a with
  | Some s => if nonempty s then a else b
  | None => b
  end.

(** The loop of [_find_image_urls] over the [<img>] tags. *)
Fixpoint find_loop (imgs : list node) (page_url : string)
         (seen : gset string) (found : list (string * string))
  : list (string * string) * gset string :=
  match imgs with
  | [] => (found, seen)
  | img :: rest =>
      let src :=
        default "" (or_else (or_else (or_else (get img "src") (get img "data-src"))
                                     (get img "data-lazy-src"))
                            (Some "")) in
      if negb (nonempty src) || startswith "data:" src
      then find_loop rest page_url seen found
      else
        let abs_url := urljoin page_url src in
        let alt := default "" (or_else (get img "alt") (Some "")) in
        if bool_decide (abs_url ∈ seen)
        then find_loop rest page_url seen found
        else find_loop rest page_url ({[ abs_url ]} ∪ seen)
                       (found ++ [(abs_url, strip alt)])%list
  end.

  (** [ImageExtractor._find_image_urls(soup, page_url)] *)
Definition _find_image_urls (self : t) (soup : node) (page_url : string)
  : list (string * string) * t :=
  let '(found, seen) := find_loop (find_all soup "img") page_url (_seen_urls self) [] in
  (found, mkImageExtractor (images_dir self) (min_size self) (download self)
                           (_seen_hashes self) seen).
End WithUrljoin.

(** [data[i:j]] *)
Definition slice (i j : nat) (data : string) : string :=
  String.substring i (j - i) data.

(** [s.endswith(suffix)] *)
Definition endswith (suffix s : string) : bool :=
  (String.length suffix <=? String.length s)%nat
  && String.eqb (String.substring (String.length s - String.length suffix)
                                  (String.length suffix) s) suffix.

Definition png_magic : string :=
  String (ascii_of_nat 137) ("PNG" +:+ String (ascii_of_nat 13)
     (String (ascii_of_nat 10) (String (ascii_of_nat 26) (String (ascii_of_nat 10) "")))).
Definition jpeg_magic : string :=
  String (ascii_of_nat 255) (String (ascii_of_nat 216) "").

(** [ImageExtractor._guess_ext(url, data)]; it raises when [urlparse] does. *)
Definition _guess_ext (url data : string) : outcome string :=
  match UrlLib.urlparse url with
  | None => Raises "Invalid IPv6 URL"
  | Some parsed =>
      let path := lower (UrlLib.path parsed) in
      match List.find (fun ext => endswith ext path)
                      [".jpg"; ".jpeg"; ".png"; ".gif"; ".webp"; ".svg"; ".bmp"; ".ico"] with
      | Some ext => Returns ext
      | None =>
          if String.eqb (slice 0 8 data) png_magic then Returns ".png"
          else if String.eqb (slice 0 2 data) jpeg_magic then Returns ".jpg"
          else if String.eqb (slice 0 4 data) "GIF8" then Returns ".gif"
          else if String.eqb (slice 0 4 data) "RIFF" && String.eqb (slice 8 12 data) "WEBP"
          then Returns ".webp"
          else Returns ".jpg"
      end
  end.

(** The size filter and perceptual dedup of [_process_image], the inner
    [try]: [None] when the image is dropped, otherwise the extractor with
    the hash recorded (unchanged when PIL fails). *)
Definition size_and_dedup (self : t) (w : world) (data : string) : option t :=
  match image_size w data with
  | Raises _ => Some self
  | Returns (width, height) =>
      if (width <? min_size self)%Z || (height <? min_size self)%Z then None
      else
        match phash w data with
        | Raises _ => Some self
        | Returns h =>
            if bool_decide (h ∈ _seen_hashes self) then None
            else Some (mkImageExtractor (images_dir self) (min_size self) (download self)
                                        ({[ h ]} ∪ _seen_hashes self) (_seen_urls self))
        end
  end.

(** The saving part of [_process_image]; any exception is caught by the
    outer [except] and gives [None]. *)
Definition save_image (self : t) (w : world) (url page_url alt data : string)
  : option ImageRecord :=
  match UrlLib.urlparse page_url with
  | None => None
  | Some parsed =>
      let domain := UrlLib.netloc parsed in
      let domain_dir := path_join (images_dir self) (replace_char ":" "_" domain) in
      let content_hash := slice 0 16 (Sha256.hexdigest data) in
      match _guess_ext url data with
      | Raises _ => None
      | Returns ext =>
          let filepath := path_join domain_dir (content_hash +:+ ext) in
          match write_file w filepath data with
          | Raises _ => None
          | Returns _ => Some (mkImageRecord filepath page_url alt url)
          end
      end
  end.

(** [ImageExtractor._process_image(url, page_url, alt)]: the record or
    [None], the extractor afterwards, and the GET requests issued. *)
Definition _process_image (self : t) (w : world) (url page_url alt : string)
  : option ImageRecord * t * list string :=
  if negb (download self)
  then (Some (mkImageRecord "" page_url alt url), self, [])
  else
    match http_get w url with
    | Raises _ => (None, self, [url])
    | Returns (status, data) =>
        if negb (status =? 200)%Z then (None, self, [url])
        else if negb (nonempty data) then (None, self, [url])
        else if HAS_IMAGEHASH w then
          match size_and_dedup self w data with
          | None => (None, self, [url])
          | Some self' => (save_image self' w url page_url alt data, self', [url])
          end
        else (save_image self w url page_url alt data, self, [url])
    end.

(** The tasks of [extract], run one after the other in list order. *)
Fixpoint process_all (self : t) (w : world) (page_url : string)
         (image_urls : list (string * string))
  : list ImageRecord * t * list string :=
  match image_urls with
  | [] => ([], self, [])
  | (url, alt) :: rest =>
      let '(r, self', reqs) := _process_image self w url page_url alt in
      let '(rs, self'', reqs') := process_all self' w page_url rest in
      ((match r with Some d => [d] | None => [] end ++ rs)%list, self'', (reqs ++ reqs')%list)
  end.

(** [ImageExtractor.extract(soup, page_url)] *)
Definition extract (urljoin : string -> string -> string) (self : t) (w : world)
           (soup : node) (page_url : string) : list ImageRecord * t * list string :=
  let '(image_urls, self') := _find_image_urls urljoin self soup page_url in
  process_all self' w page_url image_urls.

(** [extract] called on the pages of a job, one after the other, on one
    instance: the image URLs collected, the GET requests issued, and the
    instance at the end. *)
Fixpoint extract_pages (urljoin : string -> string -> string) (self : t) (w : world)
         (pages : list (node * string)) : list string * list string * t :=
  match pages with
  | [] => ([], [], self)
  | (soup, page_url) :: rest =>
      let collected := map fst (fst (_find_image_urls urljoin self soup page_url)) in
      let '(_, self', requests) := extract urljoin self w soup page_url in
      let '(collected', requests', self'') := extract_pages urljoin self' w rest in
      ((collected ++ collected')%list, (requests ++ requests')%list, self'')
  end.

End ImageExtractor.

(** ** [app/extractors/__init__.py] *)

Module ExtractorPipeline.

(** The dict [TextExtractor.extract] returns. *)
Record PageRecord := mkPageRecord {
  page_url : string;
  title : string;
  headings : list TextExtractor.heading;
  content : string;
  meta_description : string
}.

(** [ExtractionResult]; [text_data = None] is the empty dict. *)
Record ExtractionResult := mkResult {
  text_data : option PageRecord;
  images : list ImageExtractor.ImageRecord;
  internal_links : list string;
  external_links : list string
}.

(** [ExtractionResult()] *)
Definition empty_result : ExtractionResult := mkResult None [] [] [].

Record t := mkPipeline {
  image_extractor : ImageExtractor.t;
  link_allowed_domains : gset string
}.

(** [ExtractorPipeline(output_dir, allowed_domains)]: the image extractor
    is built from [output_dir] alone. *)
Definition new (output_dir : string) (allowed_domains : option (list string)) : t :=
  mkPipeline (ImageExtractor.new output_dir None None)
             (list_to_set (map PyStr.lower (default [] allowed_domains))).

(** What the three extractor calls of one [run] do: the text and link
    extractors return or raise, the image extractor also leaves its
    instance in a new state. *)
Record calls := mkCalls {
  text_extract : outcome (option PageRecord);
  image_extract : ImageExtractor.t -> outcome (list ImageExtractor.ImageRecord) * ImageExtractor.t;
  link_extract : outcome (list string * list string)
}.

(** [try: result.field = body  except Exception as exc: logger.error(..)]:
    the assignment is made when the call returns and skipped when it
    raises. *)
Definition try_assign {A} (body : outcome A) (result : ExtractionResult)
           (assign : A -> ExtractionResult -> ExtractionResult) : ExtractionResult :=
  match body with
  | Returns a => assign a result
  | Raises _ => result
  end.

Definition set_text_data (td : option PageRecord) (r : ExtractionResult) :=
  mkResult td (images r) (internal_links r) (external_links r).
Definition set_images (l : list ImageExtractor.ImageRecord) (r : ExtractionResult) :=
  mkResult (text_data r) l (internal_links r) (external_links r).
Definition set_links (ie : list string * list string) (r : ExtractionResult) :=
  mkResult (text_data r) (images r) (fst ie) (snd ie).

(** [ExtractorPipeline.run(url, soup, readable_text)]: what it returns or
    raises, and the pipeline afterwards. *)
Definition run (self : t) (c : calls) : outcome ExtractionResult * t :=
  let result := empty_result in
  let result := try_assign (text_extract c) result set_text_data in
  let '(imgs, extractor) := image_extract c (image_extractor self) in
  let result := try_assign imgs result set_images in
  let result := try_assign (link_extract c) result set_links in
  (Returns result, mkPipeline extractor (link_allowed_domains self)).

(** What an extractor contributes: its value when it returns, the empty
    default when it raises. *)
Definition contribution {A} (o : outcome A) (empty : A) : A :=
  match o with Returns a => a | Raises _ => empty end.

End ExtractorPipeline.

(** ** [app/crawler.py] *)

Module Crawler.
Import PyStr.

(** [DataStructurer], the accumulator. *)
Record DataStructurer := mkStructurer {
  _pages : list ExtractorPipeline.PageRecord;
  _images : list ImageExtractor.ImageRecord;
  _external_links : list string;
  _errors : list (string * string)
}.

Definition add_error (s : DataStructurer) (url error : string) : DataStructurer :=
  mkStructurer (_pages s) (_images s) (_external_links s) (_errors s ++ [(url, error)]).

Record t := mkCrawler {
  config : CrawlConfig;
  structurer : DataStructurer;
  frontier : Frontier.URLFrontier;
  extractor_pipeline : ExtractorPipeline.t;
  raw_storage : bool
}.

(** [Crawler(config, structurer)] *)
Definition new (config : CrawlConfig) (structurer : DataStructurer) : t :=
  mkCrawler config structurer
            (Frontier.new (Config.allowed_domains config) (Config.max_depth config))
            (ExtractorPipeline.new (output_dir config) (Some (Config.allowed_domains config)))
            (save_raw_html config).

(** What one page's processing meets outside the crawler. *)
Record page_world := mkPageWorld {
  can_fetch : outcome bool;                    (** [await self.robots.can_fetch(url)] *)
  network : Fetcher.world;                     (** behind [fetcher.fetch(url)] *)
  parse : outcome Soup.node;                   (** [self.parser.parse(...)], its soup *)
  extractors : ExtractorPipeline.calls         (** the three extractor calls *)
}.

Definition with_structurer (c : t) (s : DataStructurer) : t :=
  mkCrawler (config c) s (frontier c) (extractor_pipeline c) (raw_storage c).

Definition with_frontier (c : t) (f : Frontier.URLFrontier) : t :=
  mkCrawler (config c) (structurer c) f (extractor_pipeline c) (raw_storage c).

Definition with_pipeline (c : t) (p : ExtractorPipeline.t) : t :=
  mkCrawler (config c) (structurer c) (frontier c) p (raw_storage c).

(** [for link in extraction.internal_links: self.frontier.add_url(link, depth + 1)];
    an exception of [add_url] leaves the loop. *)
Fixpoint enqueue_links (f : Frontier.URLFrontier) (links : list string) (depth : Z)
  : outcome unit * Frontier.URLFrontier :=
  match links with
  | [] => (Returns tt, f)
  | link :: rest =>
      match Frontier.add_url f link (depth + 1) with
      | (Raises e, f') => (Raises e, f')
      | (Returns _, f') => enqueue_links f' rest depth
      end
  end.

(** The accumulation block of [_process_url]. *)
Definition accumulate (s : DataStructurer) (e : ExtractorPipeline.ExtractionResult)
  : DataStructurer :=
  mkStructurer
    (match ExtractorPipeline.text_data e with
     | Some page => _pages s ++ [page]
     | None => _pages s
     end)
    (_images s ++ ExtractorPipeline.images e)
    (_external_links s ++ ExtractorPipeline.external_links e)
    (_errors s).

(** [Crawler._process_url(url, depth, fetcher)]: whether the page counts,
    or the exception that escapes, and the crawler afterwards. *)
Definition _process_url (c : t) (w : page_world) (url : string) (depth : Z)
  : outcome bool * t :=
  if respect_robots (config c)
     && match can_fetch w with Returns allowed => negb allowed | Raises _ => false end
  then (Returns false, c)
  else
    match fst (Fetcher.fetch (network w) (config c) url) with
    | Raises exc =>
        (Returns false, with_structurer c (add_error (structurer c) url ("Fetch error: " +:+ exc)))
    | Returns result =>
        if negb (Fetcher.ok result)
        then (Returns false,
              with_structurer c
                (add_error (structurer c) url
                   ("HTTP " +:+ pretty (Fetcher.status_code result) +:+ ": "
                    +:+ match Fetcher.error result with
                        | Some e => if nonempty e then e else "Bad status"
                        | None => "Bad status"
                        end)))
        else
          match parse w with
          | Raises exc =>
              (Returns false,
               with_structurer c (add_error (structurer c) url ("Parse error: " +:+ exc)))
          | Returns _ =>
              let '(extraction, pipeline) :=
                ExtractorPipeline.run (extractor_pipeline c) (extractors w) in
              let c := with_pipeline c pipeline in
              match extraction with
              | Raises exc =>
                  (Returns false,
                   with_structurer c
                     (add_error (structurer c) url ("Extraction error: " +:+ exc)))
              | Returns extraction =>
                  let c := with_structurer c (accumulate (structurer c) extraction) in
                  let '(r, f) :=
                    enqueue_links (frontier c)
                                  (ExtractorPipeline.internal_links extraction) depth in
                  match r with
                  | Raises e => (Raises e, with_frontier c f)
                  | Returns _ => (Returns true, with_frontier c f)
                  end
              end
          end
    end.

(** One turn of the [while] loop of [crawl]. *)
Inductive turn :=
| LimitReached                     (** [pages_crawled < page_limit] is false *)
| FrontierExhausted (c : t)       (** [get_next()] gave [None]: [break] *)
| Processed (url : string) (depth : Z) (success : bool) (c : t) (pages_crawled : Z)
| Escaped (message : string) (c : t).   (** an exception leaves [crawl] *)

Definition crawl_turn (w : page_world) (c : t) (pages_crawled : Z) : turn :=
  if (pages_crawled <? page_limit (config c))%Z then
    match Frontier.get_next (frontier c) with
    | (None, f) => FrontierExhausted (with_frontier c f)
    | (Some (url, depth), f) =>
        match _process_url (with_frontier c f) w url depth with
        | (Raises e, c') => Escaped e c'
        | (Returns success, c') =>
            let pages_crawled := if success then (pages_crawled + 1)%Z else pages_crawled in
            Processed url depth success
                      (with_frontier c' (Frontier.mark_visited (frontier c') url))
                      pages_crawled
        end
    end
  else LimitReached.

(** The crawl so far: the pages processed, oldest first, with whether
    each counted. *)
Record progress := mkProgress {
  crawler : t;
  pages_crawled : Z;
  processed : list (string * Z * bool);
  running : bool
}.

(** [Crawler.crawl()] up to the start of the loop: the seed is added. *)
Definition crawl_start (c : t) : progress :=
  match Frontier.add_url (frontier c) (start_url (config c)) 0 with
  | (Raises _, f) => mkProgress (with_frontier c f) 0 [] false
  | (Returns _, f) => mkProgress (with_frontier c f) 0 [] true
  end.

(** At most [n] more turns of the loop; [world k] is what the [k]-th
    processed page meets. *)
Fixpoint crawl_turns (n : nat) (world : nat -> page_world) (p : progress) : progress :=
  match n with
  | O => p
  | S n' =>
      if running p then
        match crawl_turn (world (length (processed p))) (crawler p) (pages_crawled p) with
        | LimitReached => mkProgress (crawler p) (pages_crawled p) (processed p) false
        | FrontierExhausted c => mkProgress c (pages_crawled p) (processed p) false
        | Escaped _ c => mkProgress c (pages_crawled p) (processed p) false
        | Processed url depth success c pc =>
            crawl_turns n' world
              (mkProgress c pc (processed p ++ [(url, depth, success)]) true)
        end
      else p
  end.

(** The page at [url] passes every stage: robots does not block it (the
    check is off, or it allows the URL, or it fails and the crawler goes
    on), the fetch returns a result that is [ok], and the parse returns. *)
Definition page_counts (config : CrawlConfig) (w : page_world) (url : string) : Prop :=
  (respect_robots config = false \/ can_fetch w <> Returns false)
  /\ (exists result,
        fst (Fetcher.fetch (network w) config url) = Returns result
        /\ Fetcher.ok result = true)
  /\ (exists soup, parse w = Returns soup).

(** The URLs of the pages processed so far. *)
Definition processed_urls (p : progress) : list string :=
  map (fun e => fst (fst e)) (processed p).

(** The number of pages processed so far that counted. *)
Definition successes (p : progress) : Z :=
  Z.of_nat (length (List.filter (fun e : string * Z * bool => snd e) (processed p))).

End Crawler.

(** ** The standard library's [re], for the patterns of the repository *)

Module Re.
Import PyStr.
Local Open Scope nat_scope.

(** The regular expressions the extractors use: character classes,
    literals under [re.IGNORECASE], sequence, alternation, [+], [?] and
    [$]. *)
Inductive re :=
| Eps
| Chr (p : ascii -> bool)
| Lit (c : ascii)
| Seq (a b : re)
| Alt (a b : re)
| Plus (a : re)
| Opt (a : re)
| Eos.

(** The literal [c] of a pattern against the start of [s] under
    [re.IGNORECASE]; returns what follows the matched character.  Besides
    the two ASCII cases, [i] matches U+0130 and U+0131, [s] matches U+017F
    and [k] matches U+212A, given here by their UTF-8 bytes. *)
Definition match_lit (c : ascii) (s : string) : option string :=
  match s with
  | EmptyString => None
  | String d r =>
      if Ascii.eqb (lower_char d) (lower_char c) then Some r
      else
        match r with
        | String d2 r2 =>
            if (Ascii.eqb (lower_char c) "i" && (code d =? 196)
                && ((code d2 =? 176) || (code d2 =? 177)))
               || (Ascii.eqb (lower_char c) "s" && (code d =? 197) && (code d2 =? 191))
            then Some r2
            else
              match r2 with
              | String d3 r3 =>
                  if Ascii.eqb (lower_char c) "k" && (code d =? 226) && (code d2 =? 132)
                     && (code d3 =? 170)
                  then Some r3 else None
              | EmptyString => None
              end
        | EmptyString => None
        end
  end.

(** [r] matches a prefix of [s] and [k] accepts what follows; [again]
    is the matcher to use for one more round of a [+]. *)
Fixpoint matches_with (again : re -> string -> (string -> bool) -> bool)
         (r : re) (s : string) (k : string -> bool) : bool :=
  match r with
  | Eps => k s
  | Chr p => match s with String c s' => p c && k s' | EmptyString => false end
  | Lit c => match match_lit c s with Some s' => k s' | None => false end
  | Seq a b => matches_with again a s (fun s' => matches_with again b s' k)
  | Alt a b => matches_with again a s k || matches_with again b s k
  | Plus a => matches_with again a s (fun s' => again (Plus a) s' k || k s')
  | Opt a => matches_with again a s k || k s
  | Eos =>
      match s with
      | EmptyString => k s
      | String c EmptyString => Ascii.eqb c "010" && k s
      | _ => false
      end
  end.

(** The matcher with at most [fuel] further rounds of a [+]. *)
Fixpoint matches (fuel : nat) : re -> string -> (string -> bool) -> bool :=
  match fuel with
  | O => matches_with (fun _ _ _ => false)
  | S fuel' => matches_with (matches fuel')
  end.

(** [pattern.match(s)] is not [None] *)
Definition match_ (r : re) (s : string) : bool :=
  matches (S (String.length s)) r s (fun _ => true).

(** [pattern.search(s)] is not [None] *)
Fixpoint search (r : re) (s : string) : bool :=
  match_ r s
  || match s with
     | String _ s' => search r s'
     | EmptyString => false
     end.

(** A literal string. *)
Fixpoint lits (s : string) : re :=
  match s with
  | EmptyString => Eps
  | String c EmptyString => Lit c
  | String c r => Seq (Lit c) (lits r)
  end.

(** [a|b|...] *)
Fixpoint alts (l : list re) : re :=
  match l with
  | [] => Chr (fun _ => false)
  | [r] => r
  | r :: l' => Alt r (alts l')
  end.

(** [\s] on code points below 128. *)
Definition space : re := Chr isspace.

(** What [re.sub] writes for a pending run of class characters. *)
Definition flush (min : nat) (repl run : string) : string :=
  if nonempty run then (if min <=? String.length run then repl else run) else "".

(** [re.sub(pattern, repl, s)] where the pattern is [min] or more
    characters of the class [p]: every maximal run of at least [min] such
    characters becomes [repl]; [run] is the run pending before [s]. *)
Fixpoint sub_runs_from (p : ascii -> bool) (min : nat) (repl run s : string) : string :=
  match s with
  | EmptyString => flush min repl run
  | String c r =>
      if p c then sub_runs_from p min repl (run +:+ String c "") r
      else flush min repl run +:+ String c (sub_runs_from p min repl "" r)
  end.

Definition sub_runs (p : ascii -> bool) (min : nat) (repl s : string) : string :=
  sub_runs_from p min repl "" s.

End Re.

(** ** [app/extractors/link.py] *)

Module LinkExtractor.
Import PyStr UrlLib Soup Re.

(** [_SKIP_PATTERNS], compiled with [re.IGNORECASE]. *)
Definition _SKIP_PATTERNS : re :=
  alts [lits "login"; lits "logout"; lits "signin"; lits "signup"; lits "register";
        lits "auth"; lits "admin";
        lits "cart"; lits "checkout"; lits "account"; lits "password"; lits "reset";
        lits "unsubscribe";
        lits "facebook.com"; lits "twitter.com"; lits "instagram.com"; lits "linkedin.com";
        lits "youtube.com"; lits "mailto:"; lits "tel:"; lits "javascript:";
        Seq (Lit "#") Eos].

Definition _SKIP_EXTENSIONS : list string :=
  [".pdf"; ".doc"; ".docx"; ".xls"; ".xlsx"; ".ppt"; ".pptx";
   ".zip"; ".tar"; ".gz"; ".rar"; ".7z";
   ".mp3"; ".mp4"; ".avi"; ".mov"; ".wmv";
   ".exe"; ".dmg"; ".apk"].

Record t := mkLinkExtractor { allowed_domains : gset string }.

(** [LinkExtractor(allowed_domains)] *)
Definition new (domains : list string) : t :=
  mkLinkExtractor (list_to_set (map lower domains)).

(** [LinkExtractor._get_extension(path)] *)
Definition _get_extension (path : string) : string :=
  if contains "." (after_last "/" path)
  then "." +:+ lower (after_last "." path)
  else "".

(** [soup.find_all("a", href=True)] *)
Definition anchors (soup : node) : list node :=
  List.filter (fun a => match get a "href" with Some _ => true | None => false end)
              (find_all soup "a").

(** [list(dict.fromkeys(l))]: the distinct items in order of first
    occurrence. *)
Definition fromkeys (l : list string) : list string := Frontier.first_occurrences l.

Section WithUrljoin.
  (** [urllib.parse.urljoin], of the standard library. *)
Variable urljoin : string -> string -> string.

(** The loop of [extract] over the anchors; it raises when [urlparse]
    does. *)
Fixpoint classify (self : t) (page_url : string) (tags : list node)
         (internal external : list string) : outcome (list string * list string) :=
  match tags with
  | [] => Returns (internal, external)
  | a_tag :: rest =>
      let href := strip (default "" (get a_tag "href")) in
      if negb (nonempty href) then classify self page_url rest internal external
      else
        let abs_url := urljoin page_url href in
        match urlparse abs_url with
        | None => Raises "Invalid IPv6 URL"
        | Some parsed =>
            if negb (in_list (scheme parsed) ["http"; "https"])
            then classify self page_url rest internal external
            else if search _SKIP_PATTERNS abs_url
            then classify self page_url rest internal external
            else if in_list (_get_extension (path parsed)) _SKIP_EXTENSIONS
            then classify self page_url rest internal external
            else
              let domain := lower (netloc parsed) in
              let bare_domain := Frontier.strip_www domain in
              if bool_decide (domain ∈ allowed_domains self)
                 || bool_decide (bare_domain ∈ allowed_domains self)
              then classify self page_url rest (internal ++ [abs_url])%list external
              else classify self page_url rest internal (external ++ [abs_url])%list
        end
  end.

(** [LinkExtractor.extract(soup, page_url)] *)
Definition extract (self : t) (soup : node) (page_url : string)
  : outcome (list string * list string) :=
  match classify self page_url (anchors soup) [] [] with
  | Raises e => Raises e
  | Returns (internal, external) => Returns (fromkeys internal, fromkeys external)
  end.

End WithUrljoin.

(** A link that [extract] lets through. *)
Definition passes_filters (abs_url : string) : bool :=
  match urlparse abs_url with
  | None => false
  | Some parsed =>
      in_list (scheme parsed) ["http"; "https"]
      && negb (search _SKIP_PATTERNS abs_url)
      && negb (in_list (_get_extension (path parsed)) _SKIP_EXTENSIONS)
  end.

(** The domain test of [extract]. *)
Definition is_internal (self : t) (abs_url : string) : bool :=
  match urlparse abs_url with
  | None => false
  | Some parsed =>
      let domain := lower (netloc parsed) in
      bool_decide (domain ∈ allowed_domains self)
      || bool_decide (Frontier.strip_www domain ∈ allowed_domains self)
  end.

(** The words of [_SKIP_PATTERNS]. *)
Definition skip_words : list string :=
  ["login"; "logout"; "signin"; "signup"; "register"; "auth"; "admin";
   "cart"; "checkout"; "account"; "password"; "reset"; "unsubscribe";
   "facebook.com"; "twitter.com"; "instagram.com"; "linkedin.com";
   "youtube.com"; "mailto:"; "tel:"; "javascript:"].

End LinkExtractor.

(** ** [app/extractors/text.py]: title, description and content *)

Module TextFields.
Import PyStr Soup Re.

(** [soup.find(name)] *)
Definition find (soup : node) (name : string) : option node :=
  List.head (find_all soup name).

(** [TextExtractor._get_title(soup)] *)
Definition _get_title (soup : node) : string :=
  match find soup "title" with
  | Some tag => get_text_strip tag
  | None =>
      match find soup "h1" with
      | Some h1 => get_text_strip h1
      | None => ""
      end
  end.

(** [soup.find("meta", attrs={key: ...})] for a test on the attribute's
    value. *)
Definition find_meta (soup : node) (key : string) (test : string -> bool) : option node :=
  List.find (fun m => match get m key with Some v => test v | None => false end)
            (find_all soup "meta").

(** [meta.get("content")] when it is truthy. *)
Definition content_of (meta : option node) : option string :=
  match meta with
  | Some m =>
      match get m "content" with
      | Some c => if nonempty c then Some c else None
      | None => None
      end
  | None => None
  end.

(** [TextExtractor._get_meta_description(soup)] *)
Definition _get_meta_description (soup : node) : string :=
  match content_of (find_meta soup "name" (search (lits "description"))) with
  | Some c => strip c
  | None =>
      match content_of (find_meta soup "property" (String.eqb "og:description")) with
      | Some c => strip c
      | None => ""
      end
  end.

(** The pattern [noise] of [_clean_text], compiled with
    [re.IGNORECASE]. *)
Definition noise : re :=
  alts [Seq (lits "accept") (Seq (Plus space) (Seq (lits "cookie") (Opt (Lit "s"))));
        Seq (lits "cookie") (Seq (Plus space) (lits "policy"));
        Seq (lits "we") (Seq (Plus space) (Seq (lits "use") (Seq (Plus space) (lits "cookies"))));
        Seq (lits "privacy") (Seq (Plus space) (lits "policy"));
        Seq (lits "terms") (Seq (Plus space) (Seq (lits "of") (Seq (Plus space)
             (Alt (lits "service") (lits "use")))));
        Seq (lits "subscribe") (Seq (Plus space) (Seq (lits "to") (Seq (Plus space)
             (lits "newsletter"))));
        Seq (lits "sign") (Seq (Plus space) (Seq (lits "up") (Seq (Plus space) (lits "for"))))].

Definition is_blank (c : ascii) : bool := Ascii.eqb c " " || Ascii.eqb c "009".
Definition is_newline (c : ascii) : bool := Ascii.eqb c "010".

(** [TextExtractor._clean_text(text)] *)
Definition _clean_text (text : string) : string :=
  if negb (nonempty text) then ""
  else
    let text := sub_runs is_blank 1 " " text in
    let text := sub_runs is_newline 3 (String "010" (String "010" "")) text in
    let lines := split "010" text in
    let cleaned := List.filter (fun l => negb (search noise l)) lines in
    strip (join (String "010" "") cleaned).

(** [TextExtractor.extract(soup, readable_text, url)] *)
Definition extract (soup : node) (readable_text url : string)
  : ExtractorPipeline.PageRecord :=
  ExtractorPipeline.mkPageRecord url (_get_title soup) (TextExtractor._get_headings soup)
                                 (_clean_text readable_text) (_get_meta_description soup).

End TextFields.

(** ** [app/parser.py]: the cleaned soup *)

Module HtmlParser.
Import PyStr Soup.

(** [HtmlParser.STRIP_TAGS] *)
Definition STRIP_TAGS : list string := ["script"; "style"; "noscript"; "iframe"; "svg"].

(** [for tag in soup.find_all(tag_name): tag.decompose()]: every element
    named [tag_name] leaves the tree with all it contains. *)
Fixpoint decompose_all (tag_name : string) (n : node) : node :=
  match n with
  | Tag name attrs children =>
      Tag name attrs
          (flat_map (fun c => if is_tag_named tag_name c then []
                              else [decompose_all tag_name c])
                    children)
  | _ => n
  end.

(** The loop of [parse] over [STRIP_TAGS]. *)
Definition cleaned_soup (soup : node) : node :=
  fold_left (fun s tag_name => decompose_all tag_name s) STRIP_TAGS soup.

End HtmlParser.

(** ** [app/structurer.py]: the report and the file names *)

Module Structurer.
Import PyStr UrlLib Re Crawler.

(** A JSON number: Python's [int] or [float]. *)
Inductive number :=
| Int (n : Z)
| Float (x : float).

(** The dict [generate_report] returns. *)
Record Report := mkReport {
  total_pages : Z;
  failed_pages : Z;
  total_images : Z;
  external_links : Z;
  time_taken_seconds : number;
  errors : list (string * string)
}.

Section WithRound.
  (** [round(x, 2)] on floats, of the interpreter. *)
Variable round2 : float -> float.

(** [DataStructurer.generate_report()], for the structurer's lists and
    its [_start_time] and [_end_time]. *)
Definition generate_report (s : DataStructurer) (_start_time _end_time : float) : Report :=
  let elapsed :=
    if PrimFloat.eqb _end_time 0%float then Int 0
    else Float (round2 (PrimFloat.sub _end_time _start_time)) in
  mkReport (Z.of_nat (length (_pages s)))
           (Z.of_nat (length (_errors s)))
           (Z.of_nat (length (_images s)))
           (Z.of_nat (size (list_to_set (_external_links s) : gset string)))
           elapsed
           (take 100 (_errors s)).

End WithRound.

Definition is_alnum (c : ascii) : bool := isalpha c || isdigit c.
Definition is_underscore (c : ascii) : bool := Ascii.eqb c "_".

(** [DataStructurer._url_to_slug(url)]; it raises when [urlparse] does. *)
Definition _url_to_slug (url : string) : outcome string :=
  match urlparse url with
  | None => Raises "Invalid IPv6 URL"
  | Some parsed =>
      let path := netloc parsed +:+ path parsed in
      let slug :=
        lower (rstrip_by is_underscore
                 (lstrip_by is_underscore
                    (sub_runs (fun c => negb (is_alnum c)) 1 "_" path))) in
      let slug := String.substring 0 80 slug in
      Returns (if nonempty slug then slug else "index")
  end.

(** The branch [_write_df] takes: the path it writes, or the
    [ValueError] for a format it does not know. *)
Definition _write_df_path (output_dir name fmt : string) : outcome string :=
  if String.eqb fmt "parquet" then Returns (ImageExtractor.path_join output_dir (name +:+ ".parquet"))
  else if String.eqb fmt "csv" then Returns (ImageExtractor.path_join output_dir (name +:+ ".csv"))
  else if String.eqb fmt "jsonl" then Returns (ImageExtractor.path_join output_dir (name +:+ ".jsonl"))
  else Raises ("Unsupported format: " +:+ fmt).

End Structurer.

(** ** [app/config.py]: the field validators *)

Module Validators.
Import PyStr UrlLib.

(** [CrawlConfig.validate_url(v)] *)
Definition validate_url (v : string) : outcome string :=
  match urlparse v with
  | None => Raises "Invalid IPv6 URL"
  | Some parsed =>
      if negb (in_list (scheme parsed) ["http"; "https"])
      then Raises ("URL scheme must be http or https, got '" +:+ scheme parsed +:+ "'")
      else if negb (nonempty (netloc parsed))
      then Raises "URL must have a valid domain."
      else Returns (strip v)
  end.

(** [CrawlConfig.validate_format(v)] *)
Definition validate_format (v : string) : outcome string :=
  let v := strip (lower v) in
  if negb (in_list v ["parquet"; "csv"; "jsonl"])
  then Raises ("output_format must be parquet|csv|jsonl, got '" +:+ v +:+ "'")
  else Returns v.

End Validators.

(** ** [app/api.py]: the request validator *)

Module Api.
Import PyStr UrlLib.

(** [CrawlRequest.validate_url(v)] *)
Definition validate_url (v : string) : outcome string :=
  match urlparse (strip v) with
  | None => Raises "Invalid IPv6 URL"
  | Some parsed =>
      if negb (in_list (scheme parsed) ["http"; "https"])
      then Raises "URL must start with http:// or https://"
      else if negb (nonempty (netloc parsed))
      then Raises "Invalid URL"
      else Returns (strip v)
  end.

End Api.

(** ** [app/robots.py] *)

Module RobotsChecker.
Import PyStr UrlLib.

Section WithParser.
  (** [urllib.robotparser.RobotFileParser], of the standard library: a
      parsed robots.txt, the rules it answers with and its crawl delay. *)
Variable RobotFileParser : Type.
Variable parse : string -> outcome RobotFileParser.
Variable rp_can_fetch : RobotFileParser -> string -> string -> outcome bool.
Variable rp_crawl_delay : RobotFileParser -> string -> outcome (option Z).

  (** What the GET of a robots.txt URL gives: the status and the text, or
      an exception. *)
Variable http_get : string -> outcome (Z * string).

(** The checker; a delay [float(delay)] is kept as the integer
    [crawl_delay] gave. *)
Record t := mkRobotsChecker {
  user_agent : string;
  _cache : gmap string (option RobotFileParser);
  _delays : gmap string (option Z)
}.

(** [RobotsChecker(user_agent)] *)
Definition new (user_agent : string) : t := mkRobotsChecker user_agent ∅ ∅.

(** [RobotsChecker._domain(url)] *)
Definition _domain (url : string) : outcome string :=
  match urlparse url with
  | None => Raises "Invalid IPv6 URL"
  | Some parsed => Returns (lower (netloc parsed))
  end.

(** The part of [_get_parser] inside its [try]: the parser and the delay
    to record when robots.txt loads, [None] when the status is not 200 or
    anything raises. *)
Definition load (self : t) (robots_url : string)
  : option (RobotFileParser * option Z) :=
  match http_get robots_url with
  | Returns (status, text) =>
      if (status =? 200)%Z then
        match parse text with
        | Returns rp =>
            Some (rp, match rp_crawl_delay rp (user_agent self) with
                      | Returns (Some delay) =>
                          if (delay =? 0)%Z then None else Some delay
                      | _ => None
                      end)
        | Raises _ => None
        end
      else None
  | Raises _ => None
  end.

(** [RobotsChecker._get_parser(url)]: the parser or [None], the checker
    afterwards, and the robots.txt URLs requested. *)
Definition _get_parser (self : t) (url : string)
  : outcome (option RobotFileParser) * t * list string :=
  match _domain url with
  | Raises e => (Raises e, self, [])
  | Returns domain =>
      match _cache self !! domain with
      | Some cached => (Returns cached, self, [])
      | None =>
          match urlparse url with
          | None => (Raises "Invalid IPv6 URL", self, [])
          | Some parsed =>
              let robots_url := scheme parsed +:+ "://" +:+ domain +:+ "/robots.txt" in
              match load self robots_url with
              | Some (rp, delay) =>
                  (Returns (Some rp),
                   mkRobotsChecker (user_agent self)
                                   (<[domain := Some rp]> (_cache self))
                                   (<[domain := delay]> (_delays self)),
                   [robots_url])
              | None =>
                  (Returns None,
                   mkRobotsChecker (user_agent self)
                                   (<[domain := None]> (_cache self))
                                   (<[domain := None]> (_delays self)),
                   [robots_url])
              end
          end
      end
  end.

(** [RobotsChecker.can_fetch(url)] *)
Definition can_fetch (self : t) (url : string) : outcome bool * t * list string :=
  match _get_parser self url with
  | (Raises e, self', requests) => (Raises e, self', requests)
  | (Returns None, self', requests) => (Returns true, self', requests)
  | (Returns (Some rp), self', requests) =>
      (rp_can_fetch rp (user_agent self) url, self', requests)
  end.

(** [RobotsChecker.get_crawl_delay(url)] *)
Definition get_crawl_delay (self : t) (url : string)
  : outcome (option Z) * t * list string :=
  match _domain url with
  | Raises e => (Raises e, self, [])
  | Returns domain =>
      match _delays self !! domain with
      | Some delay => (Returns delay, self, [])
      | None =>
          match _get_parser self url with
          | (Raises e, self', requests) => (Raises e, self', requests)
          | (Returns _, self', requests) =>
              (Returns (default None (_delays self' !! domain)), self', requests)
          end
      end
  end.

(** A sequence of [can_fetch] calls on one checker: the answers, the
    checker at the end, and the robots.txt URLs requested. *)
Fixpoint can_fetch_all (self : t) (urls : list string)
  : list (outcome bool) * t * list string :=
  match urls with
  | [] => ([], self, [])
  | url :: rest =>
      let '(answer, self', requests) := can_fetch self url in
      let '(answers, self'', requests') := can_fetch_all self' rest in
      (answer :: answers, self'', (requests ++ requests')%list)
  end.

End WithParser.

End RobotsChecker.

(** ** Vocabulary of the proofs *)

(** *** The heap order *)

Module HeapOrder.
Section HeapOrder.
Context {A : Type} (key : A -> Z).

(** [c] is a child position of [p]. *)
Definition child_of (c p : nat) : Prop := c = 2 * p + 1 \/ c = 2 * p + 2.

(** The heap invariant of [heapq]: no item is smaller than its parent. *)
Definition heap_ordered (h : list A) : Prop :=
  forall p c a b, child_of c p -> h !! p = Some a -> h !! c = Some b ->
                  (key a <= key b)%Z.

(** The invariant of the [_siftdown] loop for [startpos = 0]: the list is
    ordered everywhere except around the hole at [pos], the items below
    the hole are not smaller than [x] nor than the item above the hole. *)
Record hole_above (h : list A) (pos : nat) (x : A) : Prop := {
  ha_rest : forall p c a b, child_of c p -> c <> pos -> p <> pos ->
            h !! p = Some a -> h !! c = Some b -> (key a <= key b)%Z;
  ha_below : forall c b, child_of c pos -> h !! c = Some b -> (key x <= key b)%Z;
  ha_skip : forall g c a b, child_of pos g -> child_of c pos ->
            h !! g = Some a -> h !! c = Some b -> (key a <= key b)%Z
}.

(** The invariant of the [_siftup] loop: the list is ordered on every edge
    that does not leave the hole at [pos], and the items below the hole are
    not smaller than the item above it. *)
Record hole_below (h : list A) (pos : nat) : Prop := {
  hb_rest : forall p c a b, child_of c p -> p <> pos ->
            h !! p = Some a -> h !! c = Some b -> (key a <= key b)%Z;
  hb_skip : forall g c a b, child_of pos g -> child_of c pos ->
            h !! g = Some a -> h !! c = Some b -> (key a <= key b)%Z
}.

End HeapOrder.
End HeapOrder.

(** *** The frontier *)

Module FrontierOrder.
Import Frontier.

(** The queue is ordered as a heap on [depth]. *)
Definition queue_ordered (q : list QueueEntry) : Prop := HeapOrder.heap_ordered depth q.

(** [d] is not below the depth [get_next] returned last, if any. *)
Definition above_floor (floor : option Z) (d : Z) : Prop :=
  match floor with Some fl => (fl <= d)%Z | None => True end.

(** The hashes of the queued entries. *)
Definition queued_hashes (f : URLFrontier) : list string :=
  map (fun e => _hash (url e)) (_queue f).

(** The URLs already delivered and the queued entries have pairwise
    distinct hashes, all recorded as enqueued. *)
Definition delivered_once (f : URLFrontier) (delivered : list string) : Prop :=
  NoDup (map _hash delivered ++ queued_hashes f)
  /\ forall h, h ∈ map _hash delivered ++ queued_hashes f -> h ∈ _enqueued f.

End FrontierOrder.

(** *** The crawl loop *)

Module CrawlOrder.
Import Frontier FrontierOrder Crawler.

(** What holds of the crawl after any number of turns. *)
Record crawl_inv (cfg : CrawlConfig) (world : nat -> page_world) (p : progress) : Prop := {
  ci_config : config (crawler p) = cfg;
  ci_count : pages_crawled p = successes p;
  ci_gates : forall k url depth success,
      processed p !! k = Some (url, depth, success) ->
      (success = true <-> page_counts cfg (world k) url);
  ci_visited : forall url, url ∈ processed_urls p ->
                           is_visited (frontier (crawler p)) url = true;
  ci_once : delivered_once (frontier (crawler p)) (processed_urls p)
}.

End CrawlOrder.

(** *** Worlds used as examples *)

Module Examples.

(** A job on [https://example.com/] with the default settings. *)
Definition example_config (max_retries min_image_size : Z) : CrawlConfig :=
  set_defaults
    (mkConfig "https://example.com/" 3 100 1%float [] true "site_dataset" "parquet"
              ["Mozilla/5.0"] true true 30 max_retries min_image_size true).

(** A network where every static fetch is refused. *)
Definition always_refused : Fetcher.world :=
  Fetcher.mkWorld (fun attempt => Raises ("refused " +:+ pretty attempt))
                  (fun _ => false)
                  (Fetcher.exhausted "" "").

(** A world where every image downloads and decodes to 150 by 150 pixels. *)
Definition medium_images : ImageExtractor.world :=
  ImageExtractor.mkWorld (fun _ => Returns (200%Z, "GIF89a"))
                         true
                         (fun _ => Returns (150%Z, 150%Z))
                         (fun _ => Returns "c3c3c3c3c3c3c3c3")
                         (fun _ _ => Returns tt).

End Examples.

(** *** The frontier's ledger *)

Module FrontierLedger.
Import Frontier.

(** The hashes of the entries a run enqueued. *)
Definition accepted_hashes (cs : list call) (rs : list reply) : list string :=
  map (fun e => _hash (fst e)) (enqueued_entries cs rs).

(** An entry that [add_url] may put in the queue of [f]: a normalised
    URL of an allowed domain, within the depth bound. *)
Definition admissible (f : URLFrontier) (e : string * Z) : Prop :=
  (snd e <= max_depth f)%Z
  /\ _domain_allowed f (fst e) = Returns true
  /\ exists raw, normalize_url raw = Some (fst e).

End FrontierLedger.

(** *** The crawl's ledger *)

Module CrawlLedger.
Import Config Frontier Crawler.

(** The depths of the pages processed so far, oldest first. *)
Definition processed_depths (p : progress) : list Z :=
  map (fun e => snd (fst e)) (processed p).

(** The robots gate at the head of [_process_url] returns [False]. *)
Definition robots_blocks (config : CrawlConfig) (w : page_world) : bool :=
  respect_robots config
  && match can_fetch w with Returns allowed => negb allowed | Raises _ => false end.

(** The URLs of the processed pages that did not count although robots
    let them through; [k] is the index of the first page of [l]. *)
Fixpoint failed_urls (config : CrawlConfig) (world : nat -> page_world) (k : nat)
         (l : list (string * Z * bool)) : list string :=
  match l with
  | [] => []
  | (url, _, success) :: l' =>
      ((if success || robots_blocks config (world k) then [] else [url])
       ++ failed_urls config world (S k) l')%list
  end.

(** A page the crawl may process under [cfg]: a normalised URL of an
    allowed domain, at a depth from 0 to [max_depth]. *)
Definition within_bounds (cfg : CrawlConfig) (u : string) (d : Z) : Prop :=
  (0 <= d <= Config.max_depth cfg)%Z
  /\ _domain_allowed (Frontier.new (Config.allowed_domains cfg) (Config.max_depth cfg)) u
     = Returns true
  /\ exists raw, normalize_url raw = Some u.

(** What the frontier of a running crawl keeps true from turn to turn. *)
Record queue_inv (cfg : CrawlConfig) (p : progress) : Prop := {
  qi_domains : allowed_domains (frontier (crawler p))
               = allowed_domains (Frontier.new (Config.allowed_domains cfg)
                                               (Config.max_depth cfg));
  qi_depth : max_depth (frontier (crawler p)) = Config.max_depth cfg;
  qi_heap : FrontierOrder.queue_ordered (_queue (frontier (crawler p)));
  qi_queue : forall e, e ∈ _queue (frontier (crawler p)) ->
                       within_bounds cfg (url e) (depth e);
  qi_floor : forall d e, d ∈ processed_depths p -> e ∈ _queue (frontier (crawler p)) ->
                         (d <= depth e)%Z;
  qi_seed : processed p = [] ->
            forall e, e ∈ _queue (frontier (crawler p)) ->
                      depth e = 0%Z /\ normalize_url (start_url cfg) = Some (url e)
}.

(** What the breadth-first crawl keeps true from turn to turn. *)
Record bfs_inv (cfg : CrawlConfig) (p : progress) : Prop := {
  bi_config : config (crawler p) = cfg;
  bi_queue : running p = true -> queue_inv cfg p;
  bi_sorted : StronglySorted Z.le (processed_depths p);
  bi_processed : forall u d b, (u, d, b) ∈ processed p -> within_bounds cfg u d;
  bi_first : forall u d b, processed p !! 0%nat = Some (u, d, b) ->
                           d = 0%Z /\ normalize_url (start_url cfg) = Some u
}.

(** What the accounts of the crawl keep true from turn to turn. *)
Record ledger_inv (cfg : CrawlConfig) (s : DataStructurer) (world : nat -> page_world)
       (p : progress) : Prop := {
  li_config : config (crawler p) = cfg;
  li_limit : (pages_crawled p <= Z.max 0 (page_limit cfg))%Z;
  li_nonneg : (0 <= pages_crawled p)%Z;
  li_errors : map fst (_errors (structurer (crawler p)))
              = (map fst (_errors s) ++ failed_urls cfg world 0 (processed p))%list;
  li_pages : (Z.of_nat (length (_pages (structurer (crawler p))))
              <= Z.of_nat (length (_pages s))
                 + (if running p then pages_crawled p else Z.max 0 (page_limit cfg)))%Z
}.

End CrawlLedger.

(** *** The hosts a robots checker has met *)

Module RobotsLedger.
Import UrlLib RobotsChecker.

(** The hosts of the URLs that [_domain] reads. *)
Definition hosts (urls : list string) : gset string :=
  list_to_set (omap (fun url => match _domain url with
                                | Returns domain => Some domain
                                | Raises _ => None
                                end) urls).

End RobotsLedger.

(** *** Shapes of strings *)

Module Shape.

(** The character [c] occurs twice in a row in [s]. *)
Fixpoint doubled (c : ascii) (s : string) : bool :=
  match s with
  | String a (String b _ as rest) => (Ascii.eqb a c && Ascii.eqb b c) || doubled c rest
  | _ => false
  end.

(** The characters of a slug: lower-case letters, digits and [_]. *)
Definition slug_char (c : ascii) : bool :=
  PyStr.islower c || PyStr.isdigit c || Ascii.eqb c "_".

(** Every character of [s] satisfies [q] and no two [r] follow each
    other. *)
Definition well_shaped (r : ascii) (q : ascii -> bool) (s : string) : Prop :=
  PyStr.all_chars q s = true /\ doubled r s = false.

(** The characters [re.sub] leaves when runs of blanks become one
    space: no tab, and spaces. *)
Definition not_tab (c : ascii) : bool :=
  negb (TextFields.is_blank c) || Ascii.eqb c " ".

(** A regular expression without [$]. *)
Fixpoint no_eos (r : Re.re) : bool :=
  match r with
  | Re.Eos => false
  | Re.Seq a b | Re.Alt a b => no_eos a && no_eos b
  | Re.Plus a | Re.Opt a => no_eos a
  | _ => true
  end.

(** [urlsplit] accepts the brackets of the host [nl]. *)
Definition bracket_ok (nl : string) : bool :=
  negb ((PyStr.contains "[" nl && negb (PyStr.contains "]" nl))
        || (PyStr.contains "]" nl && negb (PyStr.contains "[" nl)))
  && negb (PyStr.contains "[" nl && PyStr.contains "]" nl
           && negb (UrlLib.check_bracketed_netloc nl)).

End Shape.

(** *** What the image extractor sees of an image *)

Module ImageLedger.
Import ImageExtractor.

(** The size and the perceptual hash of the image behind [url], when it
    downloads and the imaging libraries decode it. *)
Definition decoded (w : world) (url : string) : option (Z * Z * string) :=
  match http_get w url with
  | Returns (_, data) =>
      match image_size w data, phash w data with
      | Returns (width, height), Returns h => Some (width, height, h)
      | _, _ => None
      end
  | Raises _ => None
  end.

End ImageLedger.

(** *** More worlds used as examples *)

Module Scenes.

(** A page that robots allows and whose every fetch is refused. *)
Definition unreachable_page : Crawler.page_world :=
  Crawler.mkPageWorld (Returns true) Examples.always_refused (Raises "unused")
                      (ExtractorPipeline.mkCalls (Raises "unused")
                                                 (fun e => (Raises "unused", e))
                                                 (Raises "unused")).

(** Two images of 150 by 150 pixels that look alike, and a third of 40
    by 40. *)
Definition gallery : ImageExtractor.world :=
  ImageExtractor.mkWorld
    (fun url => Returns (200%Z, url))
    true
    (fun data => if String.eqb data "https://example.com/icon.png"
                 then Returns (40%Z, 40%Z) else Returns (150%Z, 150%Z))
    (fun data => if String.eqb data "https://example.com/icon.png"
                 then Returns "00ff00ff00ff00ff" else Returns "c3c3c3c3c3c3c3c3")
    (fun _ _ => Returns tt).

(** [urljoin] on the absolute references of [link_page]: the reference
    itself. *)
Definition urljoin_absolute (_base href : string) : string := href.

(** A page with four links: one internal, one external, one to a login
    page, and the first one again. *)
Definition link_page : Soup.node :=
  Soup.Tag "body" []
    [Soup.Tag "a" [("href", "https://example.com/docs")] [Soup.Text "Docs"];
     Soup.Tag "a" [("href", " https://other.org/about ")] [];
     Soup.Tag "a" [("href", "https://example.com/login")] [];
     Soup.Tag "p" [] [Soup.Tag "a" [("href", "https://example.com/docs")] []];
     Soup.Tag "a" [("name", "top")] []].

(** A site whose robots.txt cannot be downloaded; the parser is never
    reached. *)
Definition robots_unreachable (_url : string) : outcome (Z * string) :=
  Raises "ClientConnectorError".

Definition no_parser (_text : string) : outcome unit := Raises "unused".
Definition no_rule (_rp : unit) (_agent _url : string) : outcome bool := Raises "unused".
Definition no_delay (_rp : unit) (_agent : string) : outcome (option Z) := Raises "unused".

(** A job that leaves [allowed_domains] to [set_defaults]. *)
Definition plain_job : Config.CrawlConfig :=
  Config.mkConfig "https://Example.com/docs" 2 10 1%float [] true "out" "csv"
                  ["Mozilla/5.0"] true true 30 2 100 true.

End Scenes.

(** * Proofs *)

Module HeapqFacts.
Import HeapOrder.
Section HeapqFacts.
Context {A : Type} (lt : A -> A -> bool) (key : A -> Z).
Hypothesis lt_key : forall a b, lt a b = (key a <? key b)%Z.

Lemma parent_child (pos : nat) : 0 < pos -> child_of pos ((pos - 1) / 2).
Proof.
  intros Hpos. unfold child_of.
  pose proof (Nat.div_mod_eq (pos - 1) 2) as Hd.
  pose proof (Nat.mod_upper_bound (pos - 1) 2) as Hm. lia.
Qed.

Lemma nth_lookup_Some (h : list A) (i : nat) (d a : A) :
  h !! i = Some a -> nth i h d = a.
Proof. intros H. rewrite nth_lookup, H. reflexivity. Qed.

(** Replacing the item at [i] by [x] trades one for the other. *)
Lemma insert_Permutation (h : list A) (i : nat) (a x : A) :
  h !! i = Some a -> a :: <[i := x]> h ≡ₚ x :: h.
Proof.
  intros Hi. pose proof (lookup_lt_Some _ _ _ Hi) as Hlt.
  rewrite insert_take_drop by exact Hlt.
  rewrite <- (take_drop_middle h i a Hi) at 3.
  rewrite !Permutation_middle. apply Permutation_app_head, perm_swap.
Qed.

(** Writing [h[j]] at [i] and [x] at [j] is [x] written at [i], reordered. *)
Lemma move_Permutation (h : list A) (i j : nat) (a b x : A) :
  i <> j -> h !! i = Some a -> h !! j = Some b ->
  <[j := x]> (<[i := b]> h) ≡ₚ <[i := x]> h.
Proof.
  intros Hne Hi Hj.
  apply (Permutation_cons_inv (a := b)), (Permutation_cons_inv (a := a)).
  assert (Hj' : <[i := b]> h !! j = Some b)
    by (rewrite list_lookup_insert_ne by exact Hne; exact Hj).
  etransitivity; [apply perm_skip, (insert_Permutation _ j b x Hj')|].
  etransitivity; [apply perm_swap|].
  etransitivity; [apply perm_skip, (insert_Permutation h i a b Hi)|].
  etransitivity; [apply perm_swap|].
  symmetry. etransitivity; [apply perm_swap|].
  apply perm_skip, (insert_Permutation h i a x Hi).
Qed.

(** *** [_siftdown] *)

(** Any fuel of at least [pos] runs the loop to its end. *)
Lemma siftdown_loop_fuel (fuel fuel' : nat) (h : list A) (startpos pos : nat) (x : A) :
  pos <= fuel -> pos <= fuel' ->
  Heapq.siftdown_loop lt fuel h startpos pos x = Heapq.siftdown_loop lt fuel' h startpos pos x.
Proof.
  revert fuel' h pos. induction fuel as [|fuel IH]; intros fuel' h pos Hle Hle'.
  - replace pos with 0 by lia. destruct fuel'; reflexivity.
  - destruct fuel' as [|fuel'].
    + replace pos with 0 by lia. reflexivity.
    + cbn [Heapq.siftdown_loop].
      destruct (startpos <? pos) eqn:Hsp; [|reflexivity].
      apply Nat.ltb_lt in Hsp.
      destruct (lt x _); [|reflexivity].
      pose proof (parent_child pos ltac:(lia)) as Hc. unfold child_of in Hc.
      set (pp := (pos - 1) / 2) in *; clearbody pp. apply IH; lia.
Qed.

Lemma siftdown_loop_length (fuel : nat) (h : list A) (startpos pos : nat) (x : A) :
  length (Heapq.siftdown_loop lt fuel h startpos pos x) = length h.
Proof.
  revert h pos. induction fuel as [|fuel IH]; intros h pos; cbn [Heapq.siftdown_loop].
  - apply length_insert.
  - destruct (startpos <? pos); [|apply length_insert].
    destruct (lt x _); [|apply length_insert].
    rewrite IH. apply length_insert.
Qed.

Lemma siftdown_loop_Permutation (fuel : nat) (h : list A) (startpos pos : nat) (x : A) :
  pos < length h ->
  Heapq.siftdown_loop lt fuel h startpos pos x ≡ₚ <[pos := x]> h.
Proof.
  revert h pos. induction fuel as [|fuel IH]; intros h pos Hlt;
    cbn [Heapq.siftdown_loop]; [reflexivity|].
  destruct (startpos <? pos) eqn:Hsp; [|reflexivity].
  apply Nat.ltb_lt in Hsp.
  destruct (lt x _); [|reflexivity].
  pose proof (parent_child pos ltac:(lia)) as Hc. unfold child_of in Hc.
  set (pp := (pos - 1) / 2) in *; clearbody pp.
  destruct (lookup_lt_is_Some_2 h pos Hlt) as [a Ha].
  destruct (lookup_lt_is_Some_2 h pp ltac:(lia)) as [b Hb].
  rewrite (nth_lookup_Some _ _ _ _ Hb).
  rewrite IH by (rewrite length_insert; lia).
  apply (move_Permutation h pos pp a b x); [lia|exact Ha|exact Hb].
Qed.

Lemma hole_filled (h : list A) (pos : nat) (x : A) :
  hole_above key h pos x ->
  (forall g a, child_of pos g -> h !! g = Some a -> (key a <= key x)%Z) ->
  heap_ordered key (<[pos := x]> h).
Proof.
  intros [Hrest Hbelow Hskip] Habove p c a b Hc Hp Hcb.
  assert (c <> p) by (unfold child_of in Hc; lia).
  destruct (decide (c = pos)) as [->|Hcpos].
  - rewrite list_lookup_insert_ne in Hp by congruence.
    apply list_lookup_insert_Some in Hcb as [(_ & <- & _)|(? & _)]; [|congruence].
    eapply Habove; eauto.
  - rewrite list_lookup_insert_ne in Hcb by congruence.
    destruct (decide (p = pos)) as [->|Hppos].
    + apply list_lookup_insert_Some in Hp as [(_ & <- & _)|(? & _)]; [|congruence].
      eapply Hbelow; eauto.
    + rewrite list_lookup_insert_ne in Hp by congruence. eapply Hrest; eauto.
Qed.

Lemma siftdown_loop_heap (fuel : nat) (h : list A) (pos : nat) (x : A) :
  pos <= fuel -> pos < length h -> hole_above key h pos x ->
  heap_ordered key (Heapq.siftdown_loop lt fuel h 0 pos x).
Proof.
  revert h pos. induction fuel as [|fuel IH]; intros h pos Hfuel Hlen Hinv.
  - simpl. apply hole_filled; [exact Hinv|].
    intros g a Hg. unfold child_of in Hg. lia.
  - cbn [Heapq.siftdown_loop]. destruct (0 <? pos) eqn:Hpos.
    + apply Nat.ltb_lt in Hpos.
      pose proof (parent_child pos Hpos) as Hc.
      set (pp := (pos - 1) / 2) in *; clearbody pp.
      assert (Hpp : pp < pos) by (unfold child_of in Hc; lia).
      destruct (lookup_lt_is_Some_2 h pp ltac:(lia)) as [parent Hparent].
      rewrite (nth_lookup_Some _ _ _ _ Hparent).
      destruct (lt x parent) eqn:Hlt; rewrite lt_key in Hlt.
      * apply Z.ltb_lt in Hlt.
        apply IH; [lia|rewrite length_insert; lia|].
        destruct Hinv as [Hrest Hbelow Hskip]. split.
        -- intros p c a b Hcp Hcne Hpne Hp Hcb.
           destruct (decide (c = pos)) as [->|Hcpos].
           ++ unfold child_of in *. lia.
           ++ rewrite list_lookup_insert_ne in Hcb by congruence.
              destruct (decide (p = pos)) as [->|Hppos].
              ** apply list_lookup_insert_Some in Hp as [(_ & <- & _)|(? & _)]; [|congruence].
                 eapply Hskip; eauto.
              ** rewrite list_lookup_insert_ne in Hp by congruence. eapply Hrest; eauto.
        -- intros c b Hcp Hcb.
           destruct (decide (c = pos)) as [->|Hcpos].
           ++ apply list_lookup_insert_Some in Hcb as [(_ & <- & _)|(? & _)]; [|congruence]. lia.
           ++ rewrite list_lookup_insert_ne in Hcb by congruence.
              assert (key parent <= key b)%Z; [|lia].
              eapply (Hrest pp c); eauto. lia.
        -- intros g c a b Hg Hcp Hga Hcb.
           assert (g <> pos) by (unfold child_of in *; lia).
           rewrite list_lookup_insert_ne in Hga by congruence.
           assert (key a <= key parent)%Z by (eapply (Hrest g pp); eauto; lia).
           destruct (decide (c = pos)) as [->|Hcpos].
           ++ apply list_lookup_insert_Some in Hcb as [(_ & <- & _)|(? & _)]; [|congruence]. lia.
           ++ rewrite list_lookup_insert_ne in Hcb by congruence.
              assert (key parent <= key b)%Z; [|lia].
              eapply (Hrest pp c); eauto. lia.
      * apply Z.ltb_ge in Hlt. apply hole_filled; [exact Hinv|].
        intros g a Hg Hga. assert (g = pp) as -> by (unfold child_of in *; lia).
        rewrite Hparent in Hga. injection Hga as <-. lia.
    + apply Nat.ltb_ge in Hpos. apply hole_filled; [exact Hinv|].
      intros g a Hg. unfold child_of in Hg. lia.
Qed.

(** *** [heappush] *)

Lemma heappush_length (h : list A) (x : A) :
  length (Heapq.heappush lt h x) = S (length h).
Proof.
  unfold Heapq.heappush, Heapq._siftdown.
  rewrite lookup_app_r, Nat.sub_diag by lia. cbn [lookup list_lookup].
  rewrite siftdown_loop_length, length_app. simpl. lia.
Qed.

Lemma heappush_Permutation (h : list A) (x : A) :
  Heapq.heappush lt h x ≡ₚ x :: h.
Proof.
  unfold Heapq.heappush, Heapq._siftdown.
  rewrite lookup_app_r, Nat.sub_diag by lia. cbn [lookup list_lookup].
  rewrite siftdown_loop_Permutation by (rewrite length_app; simpl; lia).
  rewrite list_insert_id; [symmetry; apply Permutation_cons_append|].
  rewrite lookup_app_r, Nat.sub_diag by lia. reflexivity.
Qed.

Lemma heappush_heap (h : list A) (x : A) :
  heap_ordered key h -> heap_ordered key (Heapq.heappush lt h x).
Proof.
  intros Hh. unfold Heapq.heappush, Heapq._siftdown.
  rewrite lookup_app_r, Nat.sub_diag by lia. cbn [lookup list_lookup].
  apply siftdown_loop_heap; [lia|rewrite length_app; simpl; lia|].
  split.
  - intros p c a b Hc Hcne Hpne Hp Hcb.
    assert (c < length (h ++ [x])) by (eapply lookup_lt_Some; eauto).
    rewrite length_app in *. simpl in *.
    rewrite lookup_app_l in Hcb by lia.
    rewrite lookup_app_l in Hp by (unfold child_of in Hc; lia).
    eapply Hh; eauto.
  - intros c b Hc Hcb. apply lookup_lt_Some in Hcb.
    rewrite length_app in Hcb. simpl in Hcb. unfold child_of in Hc. lia.
  - intros g c a b _ Hc _ Hcb. apply lookup_lt_Some in Hcb.
    rewrite length_app in Hcb. simpl in Hcb. unfold child_of in Hc. lia.
Qed.

(** *** [_siftup] *)

(** With fuel for every level below [pos], the loop ends at a leaf, keeps
    the items, and leaves a list ordered around the leaf. *)
Lemma siftup_loop_spec (fuel : nat) (h : list A) (pos : nat) (x : A) :
  length h <= fuel + pos -> pos < length h ->
  match Heapq.siftup_loop lt fuel h (length h) pos x with
  | (h', leaf) =>
      length h' = length h /\ leaf < length h /\ length h <= 2 * leaf + 1
      /\ <[leaf := x]> h' ≡ₚ <[pos := x]> h
      /\ (hole_below key h pos -> hole_below key h' leaf)
  end.
Proof.
  revert h pos. induction fuel as [|fuel IH]; intros h pos Hfuel Hpos; [lia|].
  cbn [Heapq.siftup_loop].
  destruct (2 * pos + 1 <? length h) eqn:Hchild.
  2:{ apply Nat.ltb_ge in Hchild.
      split; [reflexivity|]. split; [lia|]. split; [lia|]. split; [reflexivity|auto]. }
  apply Nat.ltb_lt in Hchild.
  set (m := if (2 * pos + 1 + 1 <? length h) && negb (lt (nth (2 * pos + 1) h x) (nth (2 * pos + 1 + 1) h x))
            then 2 * pos + 1 + 1 else 2 * pos + 1).
  destruct (lookup_lt_is_Some_2 h (2 * pos + 1) Hchild) as [l Hl].
  assert (Hm : child_of m pos /\ m < length h /\
               forall c b, child_of c pos -> h !! c = Some b ->
                           (key (nth m h x) <= key b)%Z).
  { subst m. destruct (2 * pos + 1 + 1 <? length h) eqn:Hright; cbn [andb].
    - apply Nat.ltb_lt in Hright.
      destruct (lookup_lt_is_Some_2 h (2 * pos + 1 + 1) Hright) as [r Hr].
      rewrite (nth_lookup_Some _ _ _ _ Hl), (nth_lookup_Some _ _ _ _ Hr), lt_key.
      destruct (key l <? key r)%Z eqn:Hlr; cbn [negb].
      + apply Z.ltb_lt in Hlr. split; [left; lia|]. split; [lia|].
        intros c b [->| ->] Hcb; rewrite (nth_lookup_Some _ _ _ _ Hl).
        * rewrite Hl in Hcb. injection Hcb as <-. lia.
        * replace (2 * pos + 2) with (2 * pos + 1 + 1) in Hcb by lia.
          rewrite Hr in Hcb. injection Hcb as <-. lia.
      + apply Z.ltb_ge in Hlr. split; [right; lia|]. split; [lia|].
        intros c b [->| ->] Hcb; rewrite (nth_lookup_Some _ _ _ _ Hr).
        * rewrite Hl in Hcb. injection Hcb as <-. lia.
        * replace (2 * pos + 2) with (2 * pos + 1 + 1) in Hcb by lia.
          rewrite Hr in Hcb. injection Hcb as <-. lia.
    - apply Nat.ltb_ge in Hright. split; [left; lia|]. split; [lia|].
      intros c b [->| ->] Hcb; rewrite (nth_lookup_Some _ _ _ _ Hl).
      + rewrite Hl in Hcb. injection Hcb as <-. lia.
      + apply lookup_lt_Some in Hcb. lia. }
  clearbody m. destruct Hm as (Hmc & Hmlt & Hmin).
  assert (Hmpos : pos < m) by (unfold child_of in Hmc; lia).
  destruct (lookup_lt_is_Some_2 h m Hmlt) as [vm Hvm].
  rewrite (nth_lookup_Some _ _ _ _ Hvm) in *.
  destruct (lookup_lt_is_Some_2 h pos Hpos) as [vp Hvp].
  specialize (IH (<[pos := vm]> h) m).
  rewrite length_insert in IH.
  destruct (Heapq.siftup_loop lt fuel (<[pos := vm]> h) (length h) m x) as [h' leaf].
  destruct IH as (Hlen & Hleaf & Hend & Hperm & Hinv); [lia|lia|].
  split; [exact Hlen|]. split; [exact Hleaf|]. split; [exact Hend|]. split.
  - rewrite Hperm. apply (move_Permutation h pos m vp vm x); [lia|exact Hvp|exact Hvm].
  - intros [Hrest Hskip]. apply Hinv. split.
    + intros p c a b Hcp Hpne Hp Hcb.
      destruct (decide (p = pos)) as [->|Hppos].
      * apply list_lookup_insert_Some in Hp as [(_ & <- & _)|(? & _)]; [|congruence].
        rewrite list_lookup_insert_ne in Hcb by (unfold child_of in Hcp; lia).
        eapply Hmin; eauto.
      * rewrite list_lookup_insert_ne in Hp by congruence.
        destruct (decide (c = pos)) as [->|Hcpos].
        -- apply list_lookup_insert_Some in Hcb as [(_ & <- & _)|(? & _)]; [|congruence].
           eapply (Hskip p m); eauto.
        -- rewrite list_lookup_insert_ne in Hcb by congruence. eapply Hrest; eauto.
    + intros g c a b Hg Hc Hga Hcb.
      assert (g = pos) as -> by (unfold child_of in *; lia).
      apply list_lookup_insert_Some in Hga as [(_ & <- & _)|(? & _)]; [|congruence].
      rewrite list_lookup_insert_ne in Hcb by (unfold child_of in *; lia).
      eapply (Hrest m c); eauto. lia.
Qed.

Lemma siftup_root_spec (h : list A) (x : A) :
  h !! 0 = Some x ->
  length (Heapq._siftup lt h 0) = length h
  /\ Heapq._siftup lt h 0 ≡ₚ h
  /\ (hole_below key h 0 -> heap_ordered key (Heapq._siftup lt h 0)).
Proof.
  intros Hx. unfold Heapq._siftup. rewrite Hx.
  pose proof (lookup_lt_Some _ _ _ Hx) as Hlen.
  pose proof (siftup_loop_spec (length h) h 0 x ltac:(lia) Hlen) as Hspec.
  destruct (Heapq.siftup_loop lt (length h) h (length h) 0 x) as [h' leaf].
  destruct Hspec as (Hlen' & Hleaf & Hend & Hperm & Hinv).
  unfold Heapq._siftdown.
  rewrite list_lookup_insert_eq by lia.
  split; [rewrite siftdown_loop_length, length_insert; exact Hlen'|].
  split.
  - rewrite siftdown_loop_Permutation by (rewrite length_insert; lia).
    rewrite list_insert_insert_eq, Hperm. rewrite list_insert_id; auto.
  - intros Hh. specialize (Hinv Hh). destruct Hinv as [Hrest Hskip].
    apply siftdown_loop_heap; [lia|rewrite length_insert; lia|].
    split.
    + intros p c a b Hc Hcne Hpne Hp Hcb.
      rewrite list_lookup_insert_ne in Hp, Hcb by congruence. eapply Hrest; eauto.
    + intros c b Hc Hcb. apply lookup_lt_Some in Hcb.
      rewrite length_insert in Hcb. unfold child_of in Hc. lia.
    + intros g c a b _ Hc _ Hcb. apply lookup_lt_Some in Hcb.
      rewrite length_insert in Hcb. unfold child_of in Hc. lia.
Qed.

(** *** [heappop] *)

(** The root of an ordered heap is a smallest item. *)
Lemma heap_root_min (h : list A) (r : A) :
  heap_ordered key h -> h !! 0 = Some r ->
  forall i a, h !! i = Some a -> (key r <= key a)%Z.
Proof.
  intros Hh Hr i. induction i as [i IH] using lt_wf_ind. intros a Ha.
  destruct i as [|i'].
  - rewrite Hr in Ha. injection Ha as <-. lia.
  - pose proof (parent_child (S i') ltac:(lia)) as Hc.
    set (pp := (S i' - 1) / 2) in *; clearbody pp.
    assert (Hpp : pp < S i') by (unfold child_of in Hc; lia).
    destruct (lookup_lt_is_Some_2 h pp) as [p Hp].
    { apply lookup_lt_Some in Ha. lia. }
    specialize (IH pp Hpp p Hp). specialize (Hh pp (S i') p a Hc Hp Ha). lia.
Qed.

Lemma heappop_None (h : list A) : Heapq.heappop lt h = None <-> h = [].
Proof.
  unfold Heapq.heappop. split.
  - destruct (last h) eqn:Hlast.
    + destruct (removelast h); discriminate.
    + intros _. apply last_None in Hlast. exact Hlast.
  - intros ->. reflexivity.
Qed.

Lemma heappop_spec (h : list A) (x : A) (h' : list A) :
  Heapq.heappop lt h = Some (x, h') ->
  h ≡ₚ x :: h' /\ S (length h') = length h
  /\ (heap_ordered key h ->
      heap_ordered key h' /\ forall a, a ∈ h -> (key x <= key a)%Z).
Proof.
  unfold Heapq.heappop. destruct (last h) as [lastelt|] eqn:Hlast; [|discriminate].
  apply last_Some in Hlast as [front ->].
  rewrite removelast_last.
  destruct front as [|r rest]; intros [= <- <-].
  - simpl. split; [reflexivity|]. split; [reflexivity|].
    intros _. split; [intros p c a b _ Hp; discriminate|].
    intros a Ha. apply list_elem_of_singleton in Ha as ->. lia.
  - destruct (siftup_root_spec (lastelt :: rest) lastelt eq_refl) as (Hlen & Hperm & Hheap).
    split; [|split].
    + rewrite Hperm. simpl. apply perm_skip. symmetry. apply Permutation_cons_append.
    + rewrite Hlen, length_app. simpl. lia.
    + intros Hh. split.
      * apply Hheap. split.
        -- intros p c a b Hc Hpne Hp Hcb.
           assert (c <> 0) by (unfold child_of in Hc; lia).
           apply (Hh p c a b Hc).
           ++ destruct p; [congruence|]. simpl in *. apply lookup_app_l_Some. exact Hp.
           ++ destruct c; [congruence|]. simpl in *. apply lookup_app_l_Some. exact Hcb.
        -- intros g c a b Hg. unfold child_of in Hg. lia.
      * intros a Ha. apply list_elem_of_lookup in Ha as [i Hi].
        eapply heap_root_min; eauto.
Qed.

End HeapqFacts.
End HeapqFacts.

Module FrontierFacts.
Import Frontier HeapOrder HeapqFacts FrontierOrder.

Lemma entry_lt_depth (a b : QueueEntry) : entry_lt a b = (depth a <? depth b)%Z.
Proof. reflexivity. Qed.

(** *** [get_next] *)

(** A fuel of the queue's length runs the loop of [get_next] to its end. *)
Lemma get_next_loop_fuel (fuel fuel' : nat) (q : list QueueEntry) (visited : gset string) :
  length q <= fuel -> length q <= fuel' ->
  get_next_loop fuel q visited = get_next_loop fuel' q visited.
Proof.
  revert fuel' q. induction fuel as [|fuel IH]; intros fuel' q Hle Hle'.
  - destruct q; [|simpl in Hle; lia]. destruct fuel'; reflexivity.
  - destruct fuel' as [|fuel'].
    + destruct q; [|simpl in Hle'; lia]. reflexivity.
    + cbn [get_next_loop].
      destruct (Heapq.heappop entry_lt q) as [[entry q']|] eqn:Hpop; [|reflexivity].
      destruct (heappop_spec entry_lt depth entry_lt_depth q entry q' Hpop) as (_ & Hlen & _).
      destruct (bool_decide _); [|reflexivity].
      apply IH; lia.
Qed.

(** What one [get_next] does to the queue: the entries popped on the way
    were all visited, the one returned is not, and nothing left in the
    queue is shallower than it. *)
Lemma get_next_loop_spec (fuel : nat) (q : list QueueEntry) (visited : gset string) :
  length q <= fuel ->
  match get_next_loop fuel q visited with
  | (Some (u, d), q') =>
      exists skipped,
        (q ≡ₚ skipped ++ (mkEntry d u :: q'))
        /\ (_hash u ∉ visited)
        /\ (forall e, e ∈ skipped -> _hash (url e) ∈ visited)
        /\ (queue_ordered q ->
            queue_ordered q' /\ forall e, e ∈ q' -> (d <= depth e)%Z)
  | (None, q') => q' = [] /\ forall e, e ∈ q -> _hash (url e) ∈ visited
  end.
Proof.
  revert q. induction fuel as [|fuel IH]; intros q Hle.
  - destruct q; [|simpl in Hle; lia]. simpl. split; [reflexivity|].
    intros e He. apply elem_of_nil in He as [].
  - cbn [get_next_loop].
    destruct (Heapq.heappop entry_lt q) as [[entry q1]|] eqn:Hpop.
    + destruct (heappop_spec entry_lt depth entry_lt_depth q entry q1 Hpop)
        as (Hperm & Hlen & Hheap).
      destruct (bool_decide (_hash (url entry) ∈ visited)) eqn:Hvis.
      * apply bool_decide_eq_true in Hvis.
        specialize (IH q1 ltac:(lia)).
        destruct (get_next_loop fuel q1 visited) as [[[u d]|] q'].
        -- destruct IH as (skipped & Hperm' & Hnot & Hskipped & Hord).
           exists (entry :: skipped). split; [|split; [|split]].
           ++ rewrite Hperm, Hperm'. reflexivity.
           ++ exact Hnot.
           ++ intros e He. apply elem_of_cons in He as [->|He]; auto.
           ++ intros Hq. apply Hord. apply Hheap, Hq.
        -- destruct IH as (-> & Hall). split; [reflexivity|].
           intros e He. rewrite Hperm in He.
           apply elem_of_cons in He as [->|He]; auto.
      * apply bool_decide_eq_false in Hvis.
        exists []. simpl. destruct entry as [d u]. simpl in *.
        split; [exact Hperm|]. split; [exact Hvis|]. split.
        -- intros e He. apply elem_of_nil in He as [].
        -- intros Hq. destruct (Hheap Hq) as [Hq1 Hmin]. split; [exact Hq1|].
           intros e He. apply (Hmin e). rewrite Hperm. apply elem_of_cons. right. exact He.
    + apply (heappop_None entry_lt) in Hpop. subst q. split; [reflexivity|].
      intros e He. apply elem_of_nil in He as [].
Qed.

Lemma get_next_spec (f : URLFrontier) :
  match get_next f with
  | (Some (u, d), f') =>
      allowed_domains f' = allowed_domains f /\ max_depth f' = max_depth f
      /\ _visited f' = _visited f /\ _enqueued f' = _enqueued f
      /\ exists skipped,
          (_queue f ≡ₚ skipped ++ (mkEntry d u :: _queue f'))
          /\ (_hash u ∉ _visited f)
          /\ (queue_ordered (_queue f) ->
              queue_ordered (_queue f') /\ forall e, e ∈ _queue f' -> (d <= depth e)%Z)
  | (None, f') =>
      f' = mkFrontier (allowed_domains f) (max_depth f) [] (_visited f) (_enqueued f)
  end.
Proof.
  unfold get_next.
  pose proof (get_next_loop_spec (length (_queue f)) (_queue f) (_visited f) ltac:(lia)) as H.
  destruct (get_next_loop _ _ _) as [[[u d]|] q'].
  - destruct H as (skipped & Hperm & Hnot & _ & Hord). simpl.
    repeat (split; [reflexivity|]). exists skipped. auto.
  - destruct H as [-> _]. reflexivity.
Qed.

(** *** [add_url] *)

(** A URL whose hash is visited is refused and nothing changes. *)
Lemma add_url_visited (f : URLFrontier) (u n : string) (d : Z) :
  normalize_url u = Some n -> _hash n ∈ _visited f ->
  add_url f u d = (Returns false, f).
Proof.
  intros Hn Hv. unfold add_url. rewrite Hn.
  destruct (max_depth f <? d)%Z; [reflexivity|].
  rewrite (bool_decide_eq_true_2 _ Hv). reflexivity.
Qed.

(** What an [add_url] call can do: nothing, or push one entry that was
    neither visited nor enqueued, within the depth bound. *)
Lemma add_url_spec (f : URLFrontier) (u : string) (d : Z) :
  match add_url f u d with
  | (Returns true, f') =>
      exists n, normalize_url u = Some n
        /\ (_hash n ∉ _visited f) /\ (_hash n ∉ _enqueued f) /\ (d <= max_depth f)%Z
        /\ f' = mkFrontier (allowed_domains f) (max_depth f)
                           (Heapq.heappush entry_lt (_queue f) (mkEntry d n))
                           (_visited f) ({[ _hash n ]} ∪ _enqueued f)
  | (_, f') => f' = f
  end.
Proof.
  unfold add_url. destruct (normalize_url u) as [n|]; [|reflexivity].
  destruct (max_depth f <? d)%Z eqn:Hd; [reflexivity|]. apply Z.ltb_ge in Hd.
  destruct (bool_decide (_hash n ∈ _visited f)) eqn:Hv; [reflexivity|].
  destruct (bool_decide (_hash n ∈ _enqueued f)) eqn:He; [reflexivity|].
  apply bool_decide_eq_false in Hv, He. cbn [orb].
  destruct (_domain_allowed f n) as [[|]|]; try reflexivity.
  exists n. auto.
Qed.

(** The visited set only grows. *)
Lemma step_visited (f : URLFrontier) (c : call) (h : string) :
  h ∈ _visited f -> h ∈ _visited (snd (step f c)).
Proof.
  intros Hh. destruct c as [u d| |u]; simpl.
  - pose proof (add_url_spec f u d) as H.
    destruct (add_url f u d) as [[[|]|] f']; simpl; try (subst f'; exact Hh).
    destruct H as (n & _ & _ & _ & _ & ->). exact Hh.
  - pose proof (get_next_spec f) as H.
    destruct (get_next f) as [[[u d]|] f']; simpl.
    + destruct H as (_ & _ & -> & _). exact Hh.
    + subst f'. exact Hh.
  - apply elem_of_union_r, Hh.
Qed.

Lemma run_cons (f : URLFrontier) (c : call) (cs : list call) :
  run f (c :: cs) = (fst (step f c) :: fst (run (snd (step f c)) cs),
                     snd (run (snd (step f c)) cs)).
Proof.
  simpl. destruct (step f c) as [r f']. simpl. destruct (run f' cs). reflexivity.
Qed.

Lemma run_visited (f : URLFrontier) (cs : list call) (h : string) :
  h ∈ _visited f -> h ∈ _visited (snd (run f cs)).
Proof.
  revert f. induction cs as [|c cs IH]; intros f Hh; [exact Hh|].
  rewrite run_cons. simpl. apply IH, step_visited, Hh.
Qed.

(** C1. Once a hash is in the visited set, whatever calls follow, no
    [get_next] returns a URL with that hash, every [add_url] of a URL that
    normalises to that hash returns [False] and leaves the frontier as it
    was, and the hash stays visited. *)
Theorem visited_never_returned_nor_enqueued
        (f : URLFrontier) (h : string) (cs : list call) :
  h ∈ _visited f ->
  (forall u d, Next (Some (u, d)) ∈ fst (run f cs) -> _hash u <> h)
  /\ (forall k u d n,
        cs !! k = Some (AddUrl u d) -> normalize_url u = Some n -> _hash n = h ->
        fst (run f cs) !! k = Some (Added (Returns false))
        /\ snd (run f (take (S k) cs)) = snd (run f (take k cs)))
  /\ h ∈ _visited (snd (run f cs)).
Proof.
  intros Hh. split; [|split; [|apply run_visited, Hh]].
  - revert f Hh. induction cs as [|c cs IH]; intros f Hh u d Hin.
    + simpl in Hin. apply elem_of_nil in Hin as [].
    + rewrite run_cons in Hin. simpl in Hin.
      apply elem_of_cons in Hin as [Hhead|Htail].
      * destruct c as [u' d'| |u']; simpl in Hhead.
        -- destruct (add_url f u' d'); discriminate.
        -- pose proof (get_next_spec f) as Hspec.
           destruct (get_next f) as [[[u1 d1]|] f']; simpl in Hhead; [|discriminate].
           injection Hhead as <- <-.
           destruct Hspec as (_ & _ & _ & _ & skipped & _ & Hnot & _).
           intros Heq. apply Hnot. rewrite Heq. exact Hh.
        -- discriminate.
      * eapply IH; [|exact Htail]. apply step_visited, Hh.
  - revert f Hh. induction cs as [|c cs IH]; intros f Hh k u d n Hk Hn Hhash.
    + discriminate.
    + destruct k as [|k].
      * simpl in Hk. injection Hk as ->.
        rewrite run_cons. cbn [take]. rewrite run_cons. simpl.
        rewrite (add_url_visited f u n d Hn) by (rewrite Hhash; exact Hh).
        split; reflexivity.
      * simpl in Hk. rewrite run_cons. cbn [take]. rewrite !run_cons. simpl.
        apply (IH (snd (step f c)) (step_visited f c h Hh) k u d n Hk Hn Hhash).
Qed.

Lemma visited_never_returned_nor_enqueued_witness :
  let f := mark_visited (new ["example.com"] 3) "https://example.com/page" in
  let h := _hash (normalized_or_raw "https://example.com/page") in
  h ∈ _visited f
  /\ fst (run f [AddUrl "https://example.com/page#top" 0; GetNext])
     !! 0 = Some (Added (Returns false)).
Proof.
  intros f h.
  assert (Hh : h ∈ _visited f) by (apply elem_of_union_l, elem_of_singleton; reflexivity).
  split; [exact Hh|].
  apply (proj1 (proj2 (visited_never_returned_nor_enqueued
                         f h [AddUrl "https://example.com/page#top" 0; GetNext] Hh))
               0 "https://example.com/page#top" 0%Z "https://example.com/page");
    [reflexivity|vm_compute; reflexivity|vm_compute; reflexivity].
Defined.

(** *** Order of the depths returned *)

Lemma run_depths_sorted (cs : list call) (f : URLFrontier) (floor : option Z) :
  queue_ordered (_queue f) ->
  (forall e, e ∈ _queue f -> above_floor floor (depth e)) ->
  bfs_discipline floor cs (fst (run f cs)) ->
  StronglySorted Z.le (map snd (returned (fst (run f cs))))
  /\ Forall (above_floor floor) (map snd (returned (fst (run f cs)))).
Proof.
  revert f floor. induction cs as [|c cs IH]; intros f floor Hord Hfloor Hdisc.
  - simpl. split; constructor.
  - rewrite run_cons in Hdisc |- *. cbn [fst] in *.
    destruct c as [u d| |u].
    + cbn [step] in *. pose proof (add_url_spec f u d) as Hspec.
      destruct (add_url f u d) as [r f'] eqn:Hadd. cbn [fst snd returned] in *.
      destruct Hdisc as [Hd Hdisc].
      assert (Hf' : queue_ordered (_queue f')
                    /\ forall e, e ∈ _queue f' -> above_floor floor (depth e)).
      { destruct r as [[|]|]; try (subst f'; split; assumption).
        destruct Hspec as (n & _ & _ & _ & _ & ->). cbn [_queue]. split.
        - apply heappush_heap; [exact entry_lt_depth|exact Hord].
        - intros e He. rewrite (heappush_Permutation entry_lt) in He.
          apply elem_of_cons in He as [->|He]; [exact Hd|auto]. }
      destruct Hf' as [Hord' Hfloor']. apply (IH f' floor Hord' Hfloor' Hdisc).
    + cbn [step] in *. pose proof (get_next_spec f) as Hspec.
      destruct (get_next f) as [[[u d]|] f'] eqn:Hnext; cbn [fst snd returned map] in *.
      * destruct Hspec as (_ & _ & _ & _ & skipped & Hperm & _ & Hq).
        destruct (Hq Hord) as [Hord' Hmin].
        destruct (IH f' (Some d) Hord' Hmin Hdisc) as [Hsorted Hall].
        split.
        -- constructor; [exact Hsorted|exact Hall].
        -- constructor.
           ++ apply (Hfloor (mkEntry d u)). rewrite Hperm.
              apply elem_of_app. right. apply elem_of_cons. left. reflexivity.
           ++ eapply Forall_impl; [exact Hall|]. intros d' Hd'. simpl in Hd'.
              assert (above_floor floor d).
              { apply (Hfloor (mkEntry d u)). rewrite Hperm.
                apply elem_of_app. right. apply elem_of_cons. left. reflexivity. }
              destruct floor; simpl in *; lia.
      * subst f'. apply IH; [intros p c a b _ Hp; discriminate| |exact Hdisc].
        intros e He. apply elem_of_nil in He as [].
    + cbn [step fst snd returned bfs_discipline] in *.
      apply (IH (mark_visited f u) floor Hord Hfloor Hdisc).
Qed.

(** The queue stays ordered as a heap, whatever the calls. *)
Lemma run_queue_ordered (cs : list call) (f : URLFrontier) :
  queue_ordered (_queue f) -> queue_ordered (_queue (snd (run f cs))).
Proof.
  revert f. induction cs as [|c cs IH]; intros f Hord; [exact Hord|].
  rewrite run_cons. cbn [snd]. apply IH.
  destruct c as [u d| |u]; cbn [step].
  - pose proof (add_url_spec f u d) as Hspec.
    destruct (add_url f u d) as [[[|]|] f']; cbn [snd]; try (subst f'; exact Hord).
    destruct Hspec as (n & _ & _ & _ & _ & ->). cbn [_queue].
    apply heappush_heap; [exact entry_lt_depth|exact Hord].
  - pose proof (get_next_spec f) as Hspec.
    destruct (get_next f) as [[[u d]|] f']; cbn [snd].
    + destruct Hspec as (_ & _ & _ & _ & skipped & _ & _ & Hq). apply Hq, Hord.
    + subst f'. intros p c a b _ Hp; discriminate.
  - exact Hord.
Qed.

(** C3, as amended.  On a frontier that starts empty, after any calls of
    [add_url], [get_next] and [mark_visited]: the entry a [get_next]
    returns was queued, and its depth is least among the queued entries,
    those left in the queue and those of the queue before the call that
    were not marked visited; and when no [add_url] asks for a depth below
    that of the entry [get_next] returned last, the depths returned by
    successive [get_next] calls are non-decreasing.  Nothing is promised
    on the order of entries of equal depth. *)
Theorem get_next_depths_nondecreasing
        (domains : list string) (maxd : Z) (cs : list call) :
  (forall u d f',
      get_next (snd (run (new domains maxd) cs)) = (Some (u, d), f') ->
      mkEntry d u ∈ _queue (snd (run (new domains maxd) cs))
      /\ (forall e, e ∈ _queue f' -> (d <= depth e)%Z)
      /\ (forall e, e ∈ _queue (snd (run (new domains maxd) cs)) ->
                    _hash (url e) ∉ _visited (snd (run (new domains maxd) cs)) ->
                    (d <= depth e)%Z))
  /\ (bfs_discipline None cs (fst (run (new domains maxd) cs)) ->
      depths_nondecreasing (fst (run (new domains maxd) cs))).
Proof.
  split.
  - intros u d f' Hnext. set (f := snd (run (new domains maxd) cs)) in *.
    assert (Hord : queue_ordered (_queue f))
      by (apply run_queue_ordered; intros p c a b _ Hp; discriminate).
    unfold get_next in Hnext.
    pose proof (get_next_loop_spec (length (_queue f)) (_queue f) (_visited f) ltac:(lia))
      as Hspec.
    destruct (get_next_loop _ _ _) as [[[u1 d1]|] q']; [|discriminate].
    injection Hnext as -> -> <-. cbn [_queue].
    destruct Hspec as (skipped & Hperm & _ & Hskipped & Hq).
    destruct (Hq Hord) as [_ Hmin].
    split; [|split; [exact Hmin|]].
    + rewrite Hperm. apply elem_of_app. right. apply elem_of_cons. left. reflexivity.
    + intros e He Hfresh. rewrite Hperm in He.
      apply elem_of_app in He as [He|He]; [destruct (Hfresh (Hskipped e He))|].
      apply elem_of_cons in He as [->|He]; [cbn [depth]; lia|exact (Hmin e He)].
  - intros Hdisc. apply StronglySorted_Sorted.
    apply (run_depths_sorted cs (new domains maxd) None); [| |exact Hdisc].
    + intros p c a b _ Hp; discriminate.
    + intros e He. apply elem_of_nil in He as [].
Qed.

Lemma get_next_depths_nondecreasing_witness :
  let cs := [AddUrl "https://example.com/deep" 3; AddUrl "https://example.com/shallow" 1;
             AddUrl "https://example.com/mid" 2; GetNext;
             AddUrl "https://example.com/child" 2; GetNext; GetNext; GetNext] in
  bfs_discipline None cs (fst (run (new ["example.com"] 5) cs))
  /\ depths_nondecreasing (fst (run (new ["example.com"] 5) cs)).
Proof.
  intros cs.
  assert (H : bfs_discipline None cs (fst (run (new ["example.com"] 5) cs)))
    by (vm_compute; repeat split; discriminate).
  split; [exact H|].
  exact (proj2 (get_next_depths_nondecreasing ["example.com"] 5 cs) H).
Defined.

(** C3, as stated, fails twice.  Four URLs enqueued at one depth come out
    first, third, second: the heap compares depths alone.  And a URL added
    at depth 1 after the entry of depth 3 was returned comes out next, so
    the depths returned go 3 then 1. *)
Lemma fifo_and_monotone_depth_fail :
  (let cs := [AddUrl "https://example.com/a" 0; AddUrl "https://example.com/b" 0;
              AddUrl "https://example.com/c" 0; AddUrl "https://example.com/d" 0;
              GetNext; GetNext; GetNext] in
   ~ fifo_within_depth cs (fst (run (new ["example.com"] 5) cs)))
  /\ (let cs := [AddUrl "https://example.com/a" 3; GetNext;
                 AddUrl "https://example.com/b" 1; GetNext] in
      ~ depths_nondecreasing (fst (run (new ["example.com"] 5) cs))).
Proof.
  split; intros cs H.
  - specialize (H 1%nat 2%nat 2%nat 1%nat
                  "https://example.com/b" "https://example.com/c" 0%Z).
    assert (2 < 1)%nat; [|lia].
    apply H; [lia| | | |]; vm_compute; reflexivity.
  - unfold depths_nondecreasing in H.
    assert (Heq : map snd (returned (fst (run (new ["example.com"] 5) cs))) = [3; 1]%Z)
      by (vm_compute; reflexivity).
    rewrite Heq in H. inversion H as [|? ? _ Hrel]; subst.
    inversion Hrel; subst. lia.
Qed.

End FrontierFacts.

Module QueryFacts.
Import PyStr UrlLib Frontier.


Lemma in_filter_differs (k x : string) (l : list string) :
  In x (List.filter (fun k' : string => negb (String.eqb k' k)) l) <-> In x l /\ x <> k.
Proof.
  rewrite filter_In. destruct (String.eqb_spec x k); simpl; intuition congruence.
Qed.





(** *** Keys in order of first occurrence *)

Lemma first_occurrences_In (ks : list string) (k : string) :
  In k (first_occurrences ks) <-> In k ks.
Proof.
  induction ks as [|k' ks IH]; [reflexivity|]. simpl.
  rewrite in_filter_differs, IH.
  destruct (String.eqb_spec k k'); intuition congruence.
Qed.

Lemma NoDup_filter' {A} (p : A -> bool) (l : list A) :
  List.NoDup l -> List.NoDup (List.filter p l).
Proof.
  induction 1 as [|x l Hx Hl IH]; simpl; [constructor|].
  destruct (p x); [|exact IH]. constructor; [|exact IH].
  rewrite filter_In. tauto.
Qed.

Lemma first_occurrences_NoDup (ks : list string) : List.NoDup (first_occurrences ks).
Proof.
  induction ks as [|k ks IH]; simpl; constructor.
  - rewrite in_filter_differs. tauto.
  - apply NoDup_filter', IH.
Qed.





(** *** [parse_qs] builds the grouped dict *)







(** *** The filter, and what [urlencode] writes *)








(** *** Grouping keeps the parameters, and their order when keys differ *)








(** C5 fails on the code: the fragment is removed after the surrounding
    white space was stripped, so a space before [#] ends the result, and
    normalising the result strips it. *)
Theorem normalize_url_not_idempotent :
  normalize_url "https://example.com/docs #intro" = Some "https://example.com/docs "
  /\ normalize_url "https://example.com/docs " = Some "https://example.com/docs"
  /\ (let f := new ["example.com"] 3 in
      let '(_, f) := add_url f "https://example.com/docs #intro" 0 in
      let '(_, f) := add_url f "https://example.com/docs" 1 in
      let '(first, f) := get_next f in
      let f := mark_visited f "https://example.com/docs " in
      first = Some ("https://example.com/docs ", 0%Z)
      /\ fst (get_next f) = None).
Proof. vm_compute. repeat split; reflexivity. Qed.

End QueryFacts.

Module HeadingFacts.
Import Soup TextExtractor.

Lemma heading_level_tag (l : Z) :
  In l levels -> heading_level (heading_tag l) = Some l.
Proof.
  intros Hl. unfold levels in Hl. simpl in Hl.
  repeat (destruct Hl as [<-|Hl]; [vm_compute; reflexivity|]). destruct Hl.
Qed.

Lemma heading_level_Some (name : string) (l : Z) :
  heading_level name = Some l -> In l levels /\ heading_tag l = name.
Proof.
  intros H. apply find_some in H as [Hin Heq].
  apply String.eqb_eq in Heq. auto.
Qed.

Lemma heading_of_level (l : Z) (n : node) (h : heading) :
  In h (heading_of l n) -> level h = l.
Proof.
  unfold heading_of. destruct (PyStr.nonempty _); [|intros []].
  intros [<-|[]]. reflexivity.
Qed.

Lemma of_level_same (l : Z) (n : node) : of_level l (heading_of l n) = heading_of l n.
Proof.
  unfold heading_of, of_level. destruct (PyStr.nonempty _); [|reflexivity].
  simpl. rewrite Z.eqb_refl. reflexivity.
Qed.

Lemma of_level_other (l l' : Z) (n : node) : l' <> l -> of_level l (heading_of l' n) = [].
Proof.
  intros Hne. unfold heading_of, of_level. destruct (PyStr.nonempty _); [|reflexivity].
  simpl. destruct (Z.eqb_spec l' l); [contradiction|reflexivity].
Qed.

Lemma of_level_app (l : Z) (a b : list heading) :
  of_level l (a ++ b) = (of_level l a ++ of_level l b)%list.
Proof. apply List.filter_app. Qed.

(** The tags [find_all] selects for one level give the headings of that
    level among the document-order headings. *)
Lemma level_pass (l : Z) (nodes : list node) :
  In l levels ->
  flat_map (heading_of l) (List.filter (is_tag_named (heading_tag l)) nodes)
  = of_level l (flat_map heading_of_node nodes).
Proof.
  intros Hl. induction nodes as [|n nodes IH]; [reflexivity|].
  cbn [List.filter flat_map]. rewrite of_level_app, <- IH.
  destruct n as [s|s|name attrs children]; cbn [is_tag_named heading_of_node]; try reflexivity.
  destruct (String.eqb_spec (heading_tag l) name) as [<-|Hne].
  - rewrite (heading_level_tag l Hl), of_level_same. reflexivity.
  - destruct (heading_level name) as [l'|] eqn:Hl'; [|reflexivity].
    apply heading_level_Some in Hl' as [_ Hl'].
    rewrite of_level_other; [reflexivity|]. intros ->. contradiction.
Qed.

Lemma document_order_levels (soup : node) (h : heading) :
  In h (document_order_headings soup) -> In (level h) levels.
Proof.
  unfold document_order_headings. intros H. apply in_flat_map in H as (n & _ & Hn).
  destruct n as [s|s|name attrs children]; try contradiction. cbn [heading_of_node] in Hn.
  destruct (heading_level name) as [l|] eqn:Hl; [|contradiction].
  apply heading_level_Some in Hl as [Hl _].
  apply heading_of_level in Hn as ->. exact Hl.
Qed.

(** Grouping by level reorders a list whose levels are all among [levels]. *)
Lemma group_by_level_Permutation (hs : list heading) :
  (forall h, In h hs -> In (level h) levels) ->
  flat_map (fun l => of_level l hs) levels ≡ₚ hs.
Proof.
  induction hs as [|h hs IH]; intros Hall; [reflexivity|].
  assert (Hh : In (level h) levels) by (apply Hall; left; reflexivity).
  specialize (IH (fun h' H' => Hall h' (or_intror H'))).
  transitivity (h :: flat_map (fun l => of_level l hs) levels);
    [|apply perm_skip, IH].
  clear IH Hall. unfold levels in *. cbn [flat_map of_level List.filter].
  simpl in Hh.
  repeat (destruct Hh as [<-|Hh];
          [cbn [Z.eqb Pos.eqb];
           rewrite ?app_nil_r, <- ?app_comm_cons, <- ?Permutation_middle; reflexivity|]).
  destruct Hh.
Qed.

(** C4, as amended.  The headings list holds exactly the [h1] to [h6]
    elements with non-empty text, each tagged with its level, grouped by
    level from 1 to 6, the elements of one level in document order. *)
Theorem headings_grouped_by_level (soup : node) :
  _get_headings soup
  = flat_map (fun l => of_level l (document_order_headings soup)) levels
  /\ _get_headings soup ≡ₚ document_order_headings soup.
Proof.
  assert (Heq : _get_headings soup
                = flat_map (fun l => of_level l (document_order_headings soup)) levels).
  { unfold _get_headings, find_all, document_order_headings, levels.
    cbn [flat_map]. rewrite !level_pass by (unfold levels; simpl; tauto). reflexivity. }
  split; [exact Heq|].
  rewrite Heq. apply group_by_level_Permutation, document_order_levels.
Qed.

(** C4, as stated, fails: with an [h2] before an [h1] the list starts with
    the [h1], not in document order. *)
Lemma headings_not_in_document_order :
  let soup := Tag "body" [] [Tag "h2" [] [Text "Intro"]; Tag "h1" [] [Text "Title"]] in
  _get_headings soup = [mkHeading 1 "Title"; mkHeading 2 "Intro"]
  /\ document_order_headings soup = [mkHeading 2 "Intro"; mkHeading 1 "Title"]
  /\ _get_headings soup <> document_order_headings soup.
Proof. vm_compute. repeat split; discriminate. Qed.

End HeadingFacts.

Module FetcherFacts.
Import Config Fetcher Eff.

Section WithWorld.
Variable w : world.

(** The loop over the attempts [start .. start + n - 1]: either some
    attempt [start + k] returns after [k] that raised, or all [n] raise. *)
Lemma retry_loop_spec (url : string) (n start : nat) (last_error : string) :
  (exists k r,
      (k < n)%nat
      /\ (forall i, (i < k)%nat -> exists m, static_attempt w (start + i) = Raises m)
      /\ static_attempt w (start + k) = Returns r
      /\ retry_loop w url (map Z.of_nat (seq start n)) last_error
         = (Returns r,
            flat_map (fun a => [StaticFetch url; Sleep (Z.min (2 ^ Z.of_nat a) 30)])
                     (seq start k) ++ [StaticFetch url]))
  \/ ((forall i, (i < n)%nat -> exists m, static_attempt w (start + i) = Raises m)
      /\ exists m,
          (match n with
           | O => m = last_error
           | S n' => static_attempt w (start + n') = Raises m
           end)
          /\ retry_loop w url (map Z.of_nat (seq start n)) last_error
             = (Returns (exhausted url m),
                flat_map (fun a => [StaticFetch url; Sleep (Z.min (2 ^ Z.of_nat a) 30)])
                         (seq start n))).
Proof.
  revert start last_error. induction n as [|n IH]; intros start last_error.
  - right. split; [intros i Hi; lia|]. exists last_error. split; reflexivity.
  - cbn [seq map retry_loop]. unfold _fetch_static, try_except, bind, emit. cbn [fst snd].
    rewrite Nat2Z.id.
    destruct (static_attempt w start) as [r|m] eqn:Hstart; cbn [fst snd].
    + left. exists 0%nat, r. split; [lia|]. split; [intros i Hi; lia|].
      rewrite Nat.add_0_r. split; [exact Hstart|]. reflexivity.
    + destruct (IH (S start) m) as [(k & r & Hk & Hfail & Hok & Heq)|(Hfail & m' & Hm' & Heq)].
      * left. exists (S k), r. split; [lia|]. split; [|split].
        -- intros [|i] Hi.
           ++ rewrite Nat.add_0_r. eauto.
           ++ replace (start + S i)%nat with (S start + i)%nat by lia. apply Hfail. lia.
        -- replace (start + S k)%nat with (S start + k)%nat by lia. exact Hok.
        -- rewrite Heq. reflexivity.
      * right. split.
        -- intros [|i] Hi.
           ++ rewrite Nat.add_0_r. eauto.
           ++ replace (start + S i)%nat with (S start + i)%nat by lia. apply Hfail. lia.
        -- exists m'. split.
           ++ destruct n as [|n'].
              ** subst m'. rewrite Nat.add_0_r. exact Hstart.
              ** replace (start + S n')%nat with (S start + n')%nat by lia. exact Hm'.
           ++ rewrite Heq. reflexivity.
Qed.

Lemma backoff_trace_static (url : string) (k : nat) :
  length (List.filter is_static_fetch (backoff_trace url k)) = k.
Proof.
  unfold backoff_trace. generalize 0%nat. induction k as [|k IH]; intros s; [reflexivity|].
  cbn [seq flat_map app List.filter is_static_fetch length]. rewrite IH. reflexivity.
Qed.

(** C7. With [max_retries >= 0], [_fetch_with_retries] returns and never
    raises; it calls [_fetch_static] at most [max_retries + 1] times, each
    call that raises being followed by a sleep of [min(2 ** attempt, 30)]
    seconds; it returns what the first successful attempt returns, and when
    every attempt raises it returns status 0, empty html and the message of
    the last exception as the error. *)
Theorem fetch_with_retries_never_raises
        (config : CrawlConfig) (url : string) (retries : option Z) :
  let limit := match retries with Some r => r | None => max_retries config end in
  (0 <= limit)%Z ->
  let n := Z.to_nat (limit + 1) in
  exists (k : nat) (result : FetchResult) (events : list event),
    _fetch_with_retries w config url retries = (Returns result, events)
    /\ (length (List.filter is_static_fetch events) <= n)%nat
    /\ (forall i, (i < k)%nat -> exists m, static_attempt w i = Raises m)
    /\ (((k < n)%nat
         /\ static_attempt w k = Returns result
         /\ events = backoff_trace url k ++ [StaticFetch url])
        \/ (k = n
            /\ (exists m, static_attempt w (n - 1) = Raises m
                          /\ result = exhausted url m)
            /\ events = backoff_trace url n)).
Proof.
  intros limit Hlimit n. unfold _fetch_with_retries, range. fold limit. fold n.
  assert (Hn : (0 < n)%nat) by (subst n; lia).
  destruct (retry_loop_spec url n 0 "")
    as [(k & r & Hk & Hfail & Hok & Heq)|(Hfail & m & Hm & Heq)].
  - exists k, r, (backoff_trace url k ++ [StaticFetch url]).
    split; [exact Heq|]. split; [|split; [exact Hfail|left; auto]].
    rewrite List.filter_app, length_app, backoff_trace_static. simpl. lia.
  - exists n, (exhausted url m), (backoff_trace url n).
    split; [exact Heq|]. split; [rewrite backoff_trace_static; lia|].
    split; [exact Hfail|]. right. split; [reflexivity|]. split; [|reflexivity].
    exists m. split; [|reflexivity].
    destruct n as [|n']; [lia|]. replace (S n' - 1)%nat with n' by lia. exact Hm.
Qed.

End WithWorld.

Lemma fetch_with_retries_never_raises_witness :
  let config := Examples.example_config 2 100 in
  (0 <= max_retries config)%Z
  /\ _fetch_with_retries Examples.always_refused config "https://example.com/" None
     = (Returns (exhausted "https://example.com/" "refused 2"),
        backoff_trace "https://example.com/" 3).
Proof.
  intros config. split; [simpl; lia|].
  destruct (fetch_with_retries_never_raises
              Examples.always_refused config "https://example.com/" None ltac:(simpl; lia))
    as (k & result & events & Heq & _ & _ & _).
  rewrite Heq. vm_compute in Heq. injection Heq as <- <-. vm_compute. reflexivity.
Defined.

End FetcherFacts.

Module PipelineFacts.
Import Config ExtractorPipeline.

(** C8. [run] never raises, and every field of its result is the
    contribution of its own extractor alone: the value that extractor
    returned, or the empty default when it raised, whatever the other two
    did. *)
Theorem run_isolates_extractor_failures (self : t) (c : calls) :
  exists result,
    fst (run self c) = Returns result
    /\ text_data result = contribution (text_extract c) None
    /\ images result = contribution (fst (image_extract c (image_extractor self))) []
    /\ internal_links result = fst (contribution (link_extract c) ([], []))
    /\ external_links result = snd (contribution (link_extract c) ([], [])).
Proof.
  unfold run. destruct (image_extract c (image_extractor self)) as [imgs extractor].
  eexists. split; [reflexivity|].
  destruct (text_extract c), imgs, (link_extract c); repeat split.
Qed.

End PipelineFacts.

Module ImageFacts.
Import Config ImageExtractor.

(** The extractor a job uses is built with the default minimum size,
    whatever the job's configuration says. *)
Lemma job_min_size (config : CrawlConfig) (s : Crawler.DataStructurer) :
  min_size (ExtractorPipeline.image_extractor
              (Crawler.extractor_pipeline (Crawler.new config s))) = 100%Z.
Proof. reflexivity. Qed.

(** C9 fails on the code: a job configured with [min_image_size = 200]
    keeps a downloaded image of 150 by 150 pixels, because the pipeline
    builds its image extractor without passing the configured value. *)
Theorem configured_min_image_size_ignored :
  let config := Examples.example_config 3 200 in
  let extractor := ExtractorPipeline.image_extractor
                     (Crawler.extractor_pipeline
                        (Crawler.new config (Crawler.mkStructurer [] [] [] []))) in
  min_image_size config = 200%Z
  /\ fst (fst (_process_image extractor Examples.medium_images
                             "https://example.com/logo.gif" "https://example.com/" "logo"))
     = Some (mkImageRecord "site_dataset/images/example.com/610f5ae4d76e3326.gif"
                           "https://example.com/" "logo" "https://example.com/logo.gif").
Proof. vm_compute. split; reflexivity. Qed.

End ImageFacts.

Module ImageUrlFacts.
Import ImageExtractor.

Section WithUrljoin.
Variable urljoin : string -> string -> string.

(** The loop of [_find_image_urls] appends URLs that are new, pairwise
    distinct, and records them as seen. *)
Lemma find_loop_spec (imgs : list Soup.node) (page_url : string)
      (seen : gset string) (found : list (string * string)) :
  exists fresh,
    fst (find_loop urljoin imgs page_url seen found) = (found ++ fresh)%list
    /\ NoDup (map fst fresh)
    /\ (forall u, u ∈ map fst fresh -> u ∉ seen)
    /\ snd (find_loop urljoin imgs page_url seen found)
       = list_to_set (map fst fresh) ∪ seen.
Proof.
  revert seen found. induction imgs as [|img rest IH]; intros seen found.
  - exists []. simpl. rewrite app_nil_r. split; [reflexivity|].
    split; [constructor|]. split; [intros u Hu; apply elem_of_nil in Hu as []|].
    set_solver.
  - cbn [find_loop].
    destruct (negb _ || _); [apply IH|].
    destruct (bool_decide _) eqn:Hseen; [apply IH|].
    apply bool_decide_eq_false in Hseen.
    match goal with
    | |- context [find_loop urljoin rest page_url ({[ ?a ]} ∪ seen) (found ++ [(?a, ?alt)])] =>
        set (abs_url := a); set (alt_text := alt) in *
    end.
    destruct (IH ({[ abs_url ]} ∪ seen) (found ++ [(abs_url, alt_text)])%list)
      as (fresh & Hfound & Hnodup & Hnew & Hseen').
    exists ((abs_url, alt_text) :: fresh). split; [|split; [|split]].
    + rewrite Hfound, <- app_assoc. reflexivity.
    + cbn [map fst]. apply NoDup_cons. split; [|exact Hnodup].
      intros Hin. apply (Hnew _ Hin). set_solver.
    + intros u Hu. cbn [map fst] in Hu. apply elem_of_cons in Hu as [->|Hu]; [exact Hseen|].
      specialize (Hnew u Hu). set_solver.
    + rewrite Hseen'. cbn [map fst list_to_set]. set_solver.
Qed.

Lemma process_image_spec (self : t) (w : world) (url page_url alt : string) :
  let '(_, self', requests) := _process_image self w url page_url alt in
  _seen_urls self' = _seen_urls self /\ download self' = download self
  /\ requests = if download self then [url] else [].
Proof.
  unfold _process_image. destruct (download self) eqn:Hd; cbn [negb]; [|auto].
  destruct (http_get w url) as [[status data]|]; [|auto].
  destruct (negb (status =? 200)%Z); [auto|].
  destruct (negb (PyStr.nonempty data)); [auto|].
  destruct (HAS_IMAGEHASH w); [|auto].
  unfold size_and_dedup.
  destruct (image_size w data) as [[width height]|]; [|auto].
  destruct ((width <? min_size self)%Z || (height <? min_size self)%Z); [auto|].
  destruct (phash w data) as [h|]; [|auto].
  destruct (bool_decide _); auto.
Qed.

Lemma process_all_spec (image_urls : list (string * string)) (self : t) (w : world)
      (page_url : string) :
  let '(_, self', requests) := process_all self w page_url image_urls in
  _seen_urls self' = _seen_urls self /\ download self' = download self
  /\ requests = if download self then map fst image_urls else [].
Proof.
  revert self. induction image_urls as [|[url alt] rest IH]; intros self.
  - simpl. destruct (download self); auto.
  - cbn [process_all].
    pose proof (process_image_spec self w url page_url alt) as H1.
    destruct (_process_image self w url page_url alt) as [[r self1] reqs1].
    destruct H1 as (Hs1 & Hd1 & Hr1).
    specialize (IH self1).
    destruct (process_all self1 w page_url rest) as [[rs self2] reqs2].
    destruct IH as (Hs2 & Hd2 & Hr2).
    split; [congruence|]. split; [congruence|].
    rewrite Hr1, Hr2, Hd1. destruct (download self); reflexivity.
Qed.

Lemma extract_pages_spec (pages : list (Soup.node * string)) (self : t) (w : world) :
  let '(collected, requests, self') := extract_pages urljoin self w pages in
  NoDup collected
  /\ (forall u, u ∈ collected -> u ∉ _seen_urls self)
  /\ requests = (if download self then collected else []).
Proof.
  revert self. induction pages as [|[soup page_url] rest IH]; intros self.
  - simpl. split; [constructor|]. split; [intros u Hu; apply elem_of_nil in Hu as []|].
    destruct (download self); reflexivity.
  - cbn [extract_pages]. unfold extract, _find_image_urls.
    destruct (find_loop_spec (Soup.find_all soup "img") page_url (_seen_urls self) [])
      as (fresh & Hfound & Hnodup & Hnew & Hseen).
    destruct (find_loop urljoin (Soup.find_all soup "img") page_url (_seen_urls self) [])
      as [found seen]. cbn [fst snd] in *. subst found seen. cbn [app].
    set (self1 := mkImageExtractor _ _ _ _ _).
    pose proof (process_all_spec fresh self1 w page_url) as Hp.
    destruct (process_all self1 w page_url fresh) as [[rs self2] reqs].
    destruct Hp as (Hs2 & Hd2 & Hr2).
    specialize (IH self2).
    destruct (extract_pages urljoin self2 w rest) as [[collected' requests'] self3].
    destruct IH as (Hnodup' & Hnew' & Hreq').
    change (download self1) with (download self) in *.
    change (_seen_urls self1) with (list_to_set (map fst fresh) ∪ _seen_urls self) in Hs2.
    simpl app. split; [|split].
    + apply NoDup_app. split; [exact Hnodup|]. split; [|exact Hnodup'].
      intros u Hu Hu'. apply (Hnew' u Hu'). rewrite Hs2. set_solver.
    + intros u Hu. apply elem_of_app in Hu as [Hu|Hu]; [auto|].
      specialize (Hnew' u Hu). rewrite Hs2 in Hnew'. set_solver.
    + rewrite Hr2, Hreq', Hd2. destruct (download self); reflexivity.
Qed.

(** C10. Over all the [extract] calls made on one [ImageExtractor], each
    absolute image URL is collected at most once and requested at most
    once: a URL seen on an earlier page, or before these calls, is skipped
    on every later page. *)
Theorem image_urls_collected_once (self : t) (w : world)
        (pages : list (Soup.node * string)) :
  let '(collected, requests, _) := extract_pages urljoin self w pages in
  NoDup collected /\ NoDup requests
  /\ (forall u, u ∈ collected -> u ∉ _seen_urls self)
  /\ (forall u, u ∈ requests -> u ∈ collected).
Proof.
  pose proof (extract_pages_spec pages self w) as H.
  destruct (extract_pages urljoin self w pages) as [[collected requests] self'].
  destruct H as (Hnodup & Hnew & ->).
  split; [exact Hnodup|]. split; [|split; [exact Hnew|]].
  - destruct (download self); [exact Hnodup|constructor].
  - intros u Hu. destruct (download self); [exact Hu|apply elem_of_nil in Hu as []].
Qed.

End WithUrljoin.
End ImageUrlFacts.

Module CrawlerFacts.
Import Config Frontier HeapOrder FrontierOrder CrawlOrder FrontierFacts HeapqFacts Crawler.

Lemma add_url_delivered_once (f : URLFrontier) (u : string) (d : Z) (P : list string) :
  delivered_once f P -> delivered_once (snd (add_url f u d)) P.
Proof.
  intros [Hnd Henq]. pose proof (add_url_spec f u d) as Hspec.
  destruct (add_url f u d) as [[[|]|] f']; cbn [snd]; try (subst f'; split; assumption).
  destruct Hspec as (n & _ & _ & Hnew & _ & ->).
  unfold delivered_once, queued_hashes in *. cbn [_queue _enqueued].
  split.
  - rewrite (heappush_Permutation entry_lt (_queue f) (mkEntry d n)). cbn [map url].
    rewrite <- Permutation_middle. apply NoDup_cons. split; [|exact Hnd].
    intros Hin. apply Hnew, Henq, Hin.
  - intros h Hh.
    rewrite (heappush_Permutation entry_lt (_queue f) (mkEntry d n)) in Hh.
    cbn [map url] in Hh. rewrite <- Permutation_middle in Hh.
    apply elem_of_cons in Hh as [->|Hh]; [set_solver|].
    apply elem_of_union_r, Henq, Hh.
Qed.

Lemma get_next_delivered_once (f : URLFrontier) (P : list string) :
  delivered_once f P ->
  match get_next f with
  | (Some (u, _), f') => delivered_once f' (P ++ [u])
  | (None, f') => delivered_once f' P
  end.
Proof.
  intros [Hnd Henq]. pose proof (get_next_spec f) as Hspec.
  destruct (get_next f) as [[[u d]|] f'].
  - destruct Hspec as (_ & _ & _ & Henq' & skipped & Hperm & _ & _).
    unfold delivered_once, queued_hashes in *. rewrite Henq'.
    assert (Hsub : map _hash P ++ map (fun e => _hash (url e)) (_queue f)
                   ≡ₚ map (fun e => _hash (url e)) skipped
                      ++ (map _hash (P ++ [u]) ++ map (fun e => _hash (url e)) (_queue f'))).
    { rewrite Hperm, !map_app. cbn [map url].
      rewrite (Permutation_app_comm (map _ skipped)), <- !app_assoc. cbn [app].
      rewrite (Permutation_app_comm (map _ skipped)). cbn [app].
      rewrite <- !app_assoc. reflexivity. }
    rewrite Hsub in Hnd. apply NoDup_app in Hnd as (_ & _ & Hnd).
    split; [exact Hnd|].
    intros h Hh. apply Henq. rewrite Hsub. apply elem_of_app. right. exact Hh.
  - subst f'. unfold delivered_once, queued_hashes in *. cbn [_queue _enqueued map].
    apply NoDup_app in Hnd as (Hnd & _ & _). rewrite app_nil_r in *.
    split; [exact Hnd|]. intros h Hh. apply Henq, elem_of_app. left. exact Hh.
Qed.

Lemma enqueue_links_spec (links : list string) (f : URLFrontier) (depth : Z) (P : list string) :
  (delivered_once f P -> delivered_once (snd (enqueue_links f links depth)) P)
  /\ (forall h, h ∈ _visited f -> h ∈ _visited (snd (enqueue_links f links depth))).
Proof.
  revert f. induction links as [|link rest IH]; intros f; [split; auto|].
  cbn [enqueue_links].
  pose proof (add_url_delivered_once f link (depth + 1) P) as Hd.
  pose proof (step_visited f (AddUrl link (depth + 1))) as Hv. cbn [step] in Hv.
  destruct (add_url f link (depth + 1)) as [[b|e] f']; cbn [snd] in *.
  - destruct (IH f') as [IHd IHv]. split; auto.
  - split; auto.
Qed.

Lemma robots_gate (config : CrawlConfig) (w : page_world) :
  respect_robots config
  && match can_fetch w with Returns allowed => negb allowed | Raises _ => false end = false
  <-> respect_robots config = false \/ can_fetch w <> Returns false.
Proof.
  destruct (respect_robots config), (can_fetch w) as [[|]|e]; simpl;
    intuition (discriminate || congruence).
Qed.

Ltac crawler_unchanged :=
  cbn [fst snd config frontier with_structurer with_pipeline with_frontier];
  split; [reflexivity|]; split; [auto|]; split; [auto|].

(** What [_process_url] does to the crawler, and when it reports success. *)
Lemma process_url_spec (c : t) (w : page_world) (url : string) (depth : Z) :
  config (snd (_process_url c w url depth)) = config c
  /\ (forall P, delivered_once (frontier c) P ->
                delivered_once (frontier (snd (_process_url c w url depth))) P)
  /\ (forall h, h ∈ _visited (frontier c) ->
                h ∈ _visited (frontier (snd (_process_url c w url depth))))
  /\ (forall success, fst (_process_url c w url depth) = Returns success ->
                      (success = true <-> page_counts (config c) w url)).
Proof.
  unfold _process_url, page_counts.
  pose proof (robots_gate (config c) w) as Hgate.
  destruct (respect_robots (config c) && _) eqn:Hblocked.
  { crawler_unchanged. intros success [= <-]. split; [discriminate|].
    intros [Hr _]. apply Hgate in Hr. discriminate. }
  assert (Hrobots : respect_robots (config c) = false \/ can_fetch w <> Returns false)
    by (apply Hgate; reflexivity).
  clear Hgate Hblocked.
  destruct (fst (Fetcher.fetch (network w) (config c) url)) as [result|exc].
  2:{ crawler_unchanged. intros success [= <-]. split; [discriminate|].
      intros (_ & (r & Hr & _) & _). discriminate. }
  destruct (Fetcher.ok result) eqn:Hok; cbn [negb].
  2:{ crawler_unchanged. intros success [= <-]. split; [discriminate|].
      intros (_ & (r & [= <-] & Hr) & _). congruence. }
  destruct (parse w) as [soup|exc].
  2:{ crawler_unchanged. intros success [= <-]. split; [discriminate|].
      intros (_ & _ & (s & Hs)). discriminate. }
  destruct (ExtractorPipeline.run (extractor_pipeline c) (extractors w))
    as [[extraction|exc] pipeline] eqn:Hrun.
  2:{ exfalso. unfold ExtractorPipeline.run in Hrun.
      destruct (ExtractorPipeline.image_extract _ _) in Hrun. discriminate. }
  cbn [frontier with_structurer with_pipeline].
  pose proof (enqueue_links_spec (ExtractorPipeline.internal_links extraction)
                                 (frontier c) depth) as Hlinks.
  destruct (enqueue_links (frontier c) (ExtractorPipeline.internal_links extraction) depth)
    as [[[]|e'] f'].
  all: cbn [fst snd config frontier with_frontier with_structurer with_pipeline] in *.
  all: (split; [reflexivity|]); (split; [intros P; apply (Hlinks P)|]);
       (split; [apply (Hlinks [])|]); intros success Hs; try discriminate.
  injection Hs as <-. split; [intros _|reflexivity].
  split; [exact Hrobots|]. split; eauto.
Qed.

(** One completed turn of the loop. *)
Lemma crawl_turn_spec (w : page_world) (c : t) (pc : Z)
      (url : string) (depth : Z) (success : bool) (c' : t) (pc' : Z) :
  crawl_turn w c pc = Processed url depth success c' pc' ->
  config c' = config c
  /\ pc' = (if success then pc + 1 else pc)%Z
  /\ (success = true <-> page_counts (config c) w url)
  /\ is_visited (frontier c') url = true
  /\ (forall h, h ∈ _visited (frontier c) -> h ∈ _visited (frontier c'))
  /\ (forall P, delivered_once (frontier c) P -> delivered_once (frontier c') (P ++ [url])).
Proof.
  unfold crawl_turn. destruct (pc <? page_limit (config c))%Z; [|discriminate].
  pose proof (get_next_spec (frontier c)) as Hnext.
  pose proof (fun P => get_next_delivered_once (frontier c) P) as Honce.
  destruct (get_next (frontier c)) as [[[u d]|] f]; [|discriminate].
  destruct Hnext as (_ & _ & Hvis & _).
  pose proof (process_url_spec (with_frontier c f) w u d) as Hspec.
  destruct (_process_url (with_frontier c f) w u d) as [[ok|e] c1]; [|discriminate].
  cbn [fst snd config frontier with_frontier] in Hspec.
  destruct Hspec as (Hconfig & Hdel & Hvisited & Hgates).
  intros [= <- <- <- <- <-]. cbn [config frontier with_frontier].
  split; [exact Hconfig|]. split; [reflexivity|]. split; [apply Hgates; reflexivity|].
  split; [|split].
  - unfold is_visited, mark_visited. cbn [_visited].
    apply bool_decide_eq_true_2, elem_of_union_l, elem_of_singleton. reflexivity.
  - intros h Hh. unfold mark_visited. cbn [_visited].
    apply elem_of_union_r, Hvisited. rewrite Hvis. exact Hh.
  - intros P HP. specialize (Honce P HP). apply Hdel in Honce.
    unfold delivered_once, queued_hashes, mark_visited in *. exact Honce.
Qed.

Lemma crawl_start_inv (cfg : CrawlConfig) (s : DataStructurer) (world : nat -> page_world) :
  crawl_inv cfg world (crawl_start (new cfg s)).
Proof.
  unfold crawl_start.
  pose proof (add_url_delivered_once (frontier (new cfg s)) (start_url cfg) 0 []) as Hd.
  cbn [config new] in *.
  destruct (add_url _ (start_url cfg) 0) as [[b|e] f]; cbn [snd] in Hd.
  all: split; cbn [crawler pages_crawled processed config with_frontier frontier];
    [reflexivity|reflexivity|intros k url depth success Hk; discriminate
    |intros url Hu; apply elem_of_nil in Hu as []|].
  all: apply Hd; split; [constructor|intros h Hh; apply elem_of_nil in Hh as []].
Qed.

Lemma crawl_turns_inv (cfg : CrawlConfig) (world : nat -> page_world) (n : nat) (p : progress) :
  crawl_inv cfg world p -> crawl_inv cfg world (crawl_turns n world p).
Proof.
  revert p. induction n as [|n IH]; intros p Hinv; [exact Hinv|].
  cbn [crawl_turns]. destruct (running p); [|exact Hinv].
  pose proof (crawl_turn_spec (world (length (processed p))) (crawler p) (pages_crawled p))
    as Hturn.
  unfold crawl_turn in *.
  destruct Hinv as [Hcfg Hcount Hgates Hvisited Honce].
  destruct (pages_crawled p <? page_limit (config (crawler p)))%Z.
  2:{ split; assumption. }
  pose proof (get_next_spec (frontier (crawler p))) as Hnext.
  pose proof (get_next_delivered_once (frontier (crawler p)) (processed_urls p) Honce)
    as Honce'.
  destruct (get_next (frontier (crawler p))) as [[[u d]|] f].
  2:{ subst f. split; cbn [crawler pages_crawled processed config with_frontier frontier];
        try assumption. }
  pose proof (process_url_spec (with_frontier (crawler p) f)
                               (world (length (processed p))) u d) as Hspec.
  destruct (_process_url (with_frontier (crawler p) f) (world (length (processed p))) u d)
    as [[ok|e] c1].
  2:{ cbn [fst snd config frontier with_frontier] in Hspec.
      destruct Hspec as (Hconfig & Hdel & Hvis & _).
      destruct Hnext as (_ & _ & Hv & _).
      split; cbn [crawler pages_crawled processed]; try assumption.
      - congruence.
      - intros url Hu. specialize (Hvisited url Hu). unfold is_visited in *.
        apply bool_decide_eq_true in Hvisited. apply bool_decide_eq_true_2.
        apply Hvis. rewrite Hv. exact Hvisited.
      - apply Hdel.
        destruct Honce' as [Hnd Henq]. unfold delivered_once, processed_urls in *.
        rewrite !map_app in *. cbn [map] in *. split.
        + rewrite <- app_assoc in Hnd. apply NoDup_app in Hnd as (Hnd1 & Hdisj & Hnd2).
          apply NoDup_app. split; [exact Hnd1|]. split.
          * intros h Hh Hq. apply (Hdisj h Hh). apply elem_of_app. right. exact Hq.
          * apply NoDup_app in Hnd2 as (_ & _ & Hnd2). exact Hnd2.
        + intros h Hh. apply Henq. rewrite <- app_assoc.
          apply elem_of_app in Hh as [Hh|Hh]; apply elem_of_app; [left; exact Hh|].
          right. apply elem_of_app. right. exact Hh. }
  specialize (Hturn u d ok _ _ eq_refl).
  destruct Hturn as (Hconfig & _ & Hgate & Hmarked & Hmono & Hdel).
  apply IH. split; cbn [crawler pages_crawled processed].
  - congruence.
  - unfold successes in *. cbn [processed]. rewrite Hcount.
    rewrite List.filter_app, length_app. cbn [List.filter snd].
    destruct ok; cbn [length]; lia.
  - intros k url depth success Hk.
    apply lookup_app_Some in Hk as [Hk|[Hlen Hk]]; [eauto|].
    destruct (k - length (processed p))%nat eqn:Hdiff; [|discriminate].
    cbn in Hk. injection Hk as <- <- <-.
    replace k with (length (processed p)) by lia. rewrite <- Hcfg. exact Hgate.
  - intros url Hu. unfold processed_urls in Hu. cbn [processed] in Hu.
    rewrite map_app in Hu. apply elem_of_app in Hu as [Hu|Hu].
    + specialize (Hvisited url Hu). unfold is_visited in *.
      apply bool_decide_eq_true in Hvisited. apply bool_decide_eq_true_2.
      apply Hmono, Hvisited.
    + cbn [map fst] in Hu. apply list_elem_of_singleton in Hu as ->. exact Hmarked.
  - unfold processed_urls. cbn [processed]. rewrite map_app. cbn [map fst].
    apply Hdel, Honce.
Qed.

End CrawlerFacts.

Module FrontierLedgerFacts.
Import Frontier HeapOrder HeapqFacts FrontierOrder FrontierFacts FrontierLedger.

(** What an accepted [add_url] knows about the entry it pushes. *)
Lemma add_url_accepts (f : URLFrontier) (u : string) (d : Z) (f' : URLFrontier) :
  add_url f u d = (Returns true, f') ->
  exists n, normalize_url u = Some n
    /\ (_hash n ∉ _visited f) /\ (_hash n ∉ _enqueued f) /\ (d <= max_depth f)%Z
    /\ _domain_allowed f n = Returns true
    /\ f' = mkFrontier (allowed_domains f) (max_depth f)
                       (Heapq.heappush entry_lt (_queue f) (mkEntry d n))
                       (_visited f) ({[ _hash n ]} ∪ _enqueued f).
Proof.
  unfold add_url. destruct (normalize_url u) as [n|]; [|discriminate].
  destruct (max_depth f <? d)%Z eqn:Hd; [discriminate|]. apply Z.ltb_ge in Hd.
  destruct (bool_decide (_hash n ∈ _visited f)) eqn:Hv; [discriminate|].
  destruct (bool_decide (_hash n ∈ _enqueued f)) eqn:He; [discriminate|].
  apply bool_decide_eq_false in Hv, He. cbn [orb].
  destruct (_domain_allowed f n) as [[|]|] eqn:Hdom; try discriminate.
  intros [= <-]. exists n. auto 10.
Qed.

(** A refused or failed [add_url] changes nothing. *)
Lemma add_url_refuses (f : URLFrontier) (u : string) (d : Z) (r : outcome bool)
      (f' : URLFrontier) :
  add_url f u d = (r, f') -> r <> Returns true -> f' = f.
Proof.
  intros Hadd Hr. pose proof (add_url_spec f u d) as Hspec. rewrite Hadd in Hspec.
  destruct r as [[|]|]; [congruence|exact Hspec|exact Hspec].
Qed.

(** The set of enqueued hashes only grows. *)
Lemma step_enqueued (f : URLFrontier) (c : call) (h : string) :
  h ∈ _enqueued f -> h ∈ _enqueued (snd (step f c)).
Proof.
  intros Hh. destruct c as [u d| |u]; simpl.
  - pose proof (add_url_spec f u d) as H.
    destruct (add_url f u d) as [[[|]|] f']; simpl; try (subst f'; exact Hh).
    destruct H as (n & _ & _ & _ & _ & ->). cbn [_enqueued]. set_solver.
  - pose proof (get_next_spec f) as H.
    destruct (get_next f) as [[[u d]|] f']; simpl.
    + destruct H as (_ & _ & _ & -> & _). exact Hh.
    + subst f'. exact Hh.
  - exact Hh.
Qed.

Lemma accepted_hashes_spec (cs : list call) (f : URLFrontier) :
  NoDup (accepted_hashes cs (fst (run f cs)))
  /\ forall h, h ∈ accepted_hashes cs (fst (run f cs)) ->
               (h ∉ _enqueued f) /\ (h ∉ _visited f).
Proof.
  revert f. induction cs as [|c cs IH]; intros f.
  - split; [constructor|]. intros h Hh. apply elem_of_nil in Hh as [].
  - rewrite run_cons. cbn [fst].
    destruct (IH (snd (step f c))) as [IHnd IHnew].
    pose proof (step_enqueued f c) as Hmono.
    pose proof (step_visited f c) as Hmonov.
    destruct c as [u d| |u]; cbn [step] in *.
    + destruct (add_url f u d) as [r f'] eqn:Hadd. cbn [fst snd] in *.
      destruct r as [[|]|].
      * destruct (add_url_accepts f u d f' Hadd) as (n & Hn & Hv & He & _ & _ & Hf').
        unfold accepted_hashes in *. cbn [enqueued_entries map fst]. rewrite Hn.
        cbn [default from_option].
        split.
        -- apply NoDup_cons. split; [|exact IHnd].
           intros Hin. apply IHnew in Hin as [Hin _]. apply Hin.
           subst f'. cbn [_enqueued]. set_solver.
        -- intros h Hh. apply elem_of_cons in Hh as [->|Hh]; [split; assumption|].
           apply IHnew in Hh as [Hh1 Hh2]. split; intros Hc; [apply Hh1|apply Hh2]; auto.
      * unfold accepted_hashes in *. cbn [enqueued_entries].
        rewrite (add_url_refuses f u d _ f' Hadd) in * by discriminate.
        split; [exact IHnd|exact IHnew].
      * unfold accepted_hashes in *. cbn [enqueued_entries].
        rewrite (add_url_refuses f u d _ f' Hadd) in * by discriminate.
        split; [exact IHnd|exact IHnew].
    + destruct (get_next f) as [r f'] eqn:Hnext. cbn [fst snd] in *.
      unfold accepted_hashes in *. cbn [enqueued_entries].
      split; [exact IHnd|].
      intros h Hh. apply IHnew in Hh as [Hh1 Hh2].
      split; intros Hc; [apply Hh1|apply Hh2]; auto.
    + unfold accepted_hashes in *. cbn [enqueued_entries fst snd] in *.
      split; [exact IHnd|].
      intros h Hh. apply IHnew in Hh as [Hh1 Hh2].
      split; intros Hc; [apply Hh1|apply Hh2]; auto.
Qed.

(** Whatever the calls made on a frontier, [add_url] accepts a
    normalised URL at most once, and never one whose hash was enqueued or
    visited before the calls began. *)
Theorem add_url_accepts_each_url_once (f : URLFrontier) (cs : list call) :
  let accepted := accepted_hashes cs (fst (run f cs)) in
  NoDup accepted
  /\ Forall (fun h => (h ∉ _enqueued f) /\ (h ∉ _visited f)) accepted.
Proof.
  intros accepted. destruct (accepted_hashes_spec cs f) as [Hnd Hnew].
  split; [exact Hnd|]. apply Forall_forall. intros h Hh. apply Hnew, Hh.
Qed.


(** *** Nothing is lost, nothing is invented *)

(** When [get_next] gives [None], everything that was queued is visited. *)
Lemma get_next_None (f f' : URLFrontier) :
  get_next f = (None, f') ->
  f' = mkFrontier (allowed_domains f) (max_depth f) [] (_visited f) (_enqueued f)
  /\ forall e, e ∈ _queue f -> _hash (url e) ∈ _visited f.
Proof.
  unfold get_next.
  pose proof (get_next_loop_spec (length (_queue f)) (_queue f) (_visited f) ltac:(lia)) as H.
  destruct (get_next_loop _ _ _) as [[[u d]|] q']; [discriminate|].
  destruct H as [-> Hall]. intros [= <-]. split; [reflexivity|exact Hall].
Qed.

(** When [get_next] returns an entry, the entries it dropped on the way
    were all visited. *)
Lemma get_next_Some (f f' : URLFrontier) (u : string) (d : Z) :
  get_next f = (Some (u, d), f') ->
  _visited f' = _visited f
  /\ exists skipped,
      (_queue f ≡ₚ skipped ++ (mkEntry d u :: _queue f'))
      /\ (_hash u ∉ _visited f)
      /\ (forall e, e ∈ skipped -> _hash (url e) ∈ _visited f).
Proof.
  unfold get_next.
  pose proof (get_next_loop_spec (length (_queue f)) (_queue f) (_visited f) ltac:(lia)) as H.
  destruct (get_next_loop _ _ _) as [[[u1 d1]|] q']; [|discriminate].
  destruct H as (skipped & Hperm & Hnot & Hsk & _). intros [= <- <- <-].
  cbn [_visited _queue]. split; [reflexivity|]. exists skipped. auto.
Qed.

(** The settings of a frontier never change. *)
Lemma step_settings (f : URLFrontier) (c : call) :
  allowed_domains (snd (step f c)) = allowed_domains f
  /\ max_depth (snd (step f c)) = max_depth f.
Proof.
  destruct c as [u d| |u]; cbn [step].
  - pose proof (add_url_spec f u d) as H.
    destruct (add_url f u d) as [[[|]|] f']; cbn [snd]; try (subst f'; split; reflexivity).
    destruct H as (n & _ & _ & _ & _ & ->). split; reflexivity.
  - pose proof (get_next_spec f) as H.
    destruct (get_next f) as [[[u d]|] f']; cbn [snd].
    + destruct H as (-> & -> & _). split; reflexivity.
    + subst f'. split; reflexivity.
  - split; reflexivity.
Qed.

Lemma admissible_settings (f f' : URLFrontier) (e : string * Z) :
  allowed_domains f' = allowed_domains f -> max_depth f' = max_depth f ->
  admissible f' e -> admissible f e.
Proof.
  intros Ha Hm (Hd & Hdom & Hraw). unfold admissible, _domain_allowed in *.
  rewrite Ha, Hm in *. auto.
Qed.

(** Every entry that was queued or that a run accepts is, at the end of
    the run, returned, visited, or still queued. *)
Lemma ledger_complete (cs : list call) (f : URLFrontier) (u : string) (d : Z) :
  mkEntry d u ∈ _queue f \/ (u, d) ∈ enqueued_entries cs (fst (run f cs)) ->
  (u, d) ∈ returned (fst (run f cs))
  \/ _hash u ∈ _visited (snd (run f cs))
  \/ mkEntry d u ∈ _queue (snd (run f cs)).
Proof.
  revert f. induction cs as [|c cs IH]; intros f H.
  - cbn [run fst snd enqueued_entries] in *. destruct H as [H|H]; [auto|].
    apply elem_of_nil in H as [].
  - rewrite run_cons in *. cbn [fst snd] in *.
    destruct c as [u' d'| |u']; cbn [step] in *.
    + destruct (add_url f u' d') as [r f'] eqn:Hadd. cbn [fst snd] in *.
      destruct r as [[|]|].
      * destruct (add_url_accepts f u' d' f' Hadd) as (n & Hn & _ & _ & _ & _ & Hf').
        cbn [enqueued_entries returned] in *. rewrite Hn in H. cbn [default from_option] in H.
        apply IH. destruct H as [H|H].
        -- left. subst f'. cbn [_queue]. rewrite (heappush_Permutation entry_lt).
           apply elem_of_cons. right. exact H.
        -- apply elem_of_cons in H as [[= -> ->]|H]; [|right; exact H].
           left. subst f'. cbn [_queue]. rewrite (heappush_Permutation entry_lt).
           apply elem_of_cons. left. reflexivity.
      * cbn [enqueued_entries returned] in *.
        rewrite (add_url_refuses f u' d' _ f' Hadd) in * by discriminate. apply IH, H.
      * cbn [enqueued_entries returned] in *.
        rewrite (add_url_refuses f u' d' _ f' Hadd) in * by discriminate. apply IH, H.
    + destruct (get_next f) as [[[u1 d1]|] f'] eqn:Hnext; cbn [fst snd] in *.
      * cbn [enqueued_entries returned] in *.
        destruct (get_next_Some f f' u1 d1 Hnext) as (Hvis & skipped & Hperm & _ & Hsk).
        destruct H as [H|H].
        -- rewrite Hperm in H. apply elem_of_app in H as [H|H].
           ++ right. left. apply run_visited. rewrite Hvis. apply (Hsk _ H).
           ++ apply elem_of_cons in H as [[= -> ->]|H].
              ** left. apply elem_of_cons. left. reflexivity.
              ** destruct (IH f' (or_introl H)) as [Hr|Hr]; [|auto].
                 left. apply elem_of_cons. right. exact Hr.
        -- destruct (IH f' (or_intror H)) as [Hr|Hr]; [|auto].
           left. apply elem_of_cons. right. exact Hr.
      * cbn [enqueued_entries returned] in *.
        destruct (get_next_None f f' Hnext) as [Hf' Hall].
        destruct H as [H|H]; [|apply IH; right; exact H].
        right. left. apply run_visited. subst f'. cbn [_visited]. apply (Hall _ H).
    + cbn [enqueued_entries returned fst snd] in *. apply IH.
      destruct H as [H|H]; [left; exact H|right; exact H].
Qed.

(** Every entry a run returns was queued at its start or accepted by one
    of its [add_url] calls, and what it accepts is admissible. *)
Lemma ledger_sound (cs : list call) (f : URLFrontier) :
  (forall e, e ∈ returned (fst (run f cs)) ->
             mkEntry (snd e) (fst e) ∈ _queue f
             \/ e ∈ enqueued_entries cs (fst (run f cs)))
  /\ (forall e, e ∈ enqueued_entries cs (fst (run f cs)) -> admissible f e).
Proof.
  revert f. induction cs as [|c cs IH]; intros f.
  - split; intros e He; apply elem_of_nil in He as [].
  - rewrite run_cons. cbn [fst snd].
    destruct (IH (snd (step f c))) as [IHr IHa].
    destruct (step_settings f c) as [Hsa Hsm].
    destruct c as [u' d'| |u']; cbn [step] in *.
    + destruct (add_url f u' d') as [r f'] eqn:Hadd. cbn [fst snd] in *.
      destruct r as [[|]|].
      * destruct (add_url_accepts f u' d' f' Hadd) as (n & Hn & _ & _ & Hd & Hdom & Hf').
        cbn [enqueued_entries returned]. rewrite Hn. cbn [default from_option].
        split.
        -- intros e He. destruct (IHr e He) as [Hq|Ha].
           ++ subst f'. cbn [_queue] in Hq. rewrite (heappush_Permutation entry_lt) in Hq.
              apply elem_of_cons in Hq as [Hq|Hq]; [|left; exact Hq].
              right. apply elem_of_cons. left. destruct e as [e1 e2].
              cbn [fst snd] in Hq. injection Hq as -> ->. reflexivity.
           ++ right. apply elem_of_cons. right. exact Ha.
        -- intros e He. apply elem_of_cons in He as [->|He].
           ++ split; [exact Hd|]. split; [exact Hdom|]. exists u'. exact Hn.
           ++ apply (admissible_settings f f' e Hsa Hsm). apply IHa, He.
      * cbn [enqueued_entries returned].
        rewrite (add_url_refuses f u' d' _ f' Hadd) in * by discriminate.
        split; [exact IHr|exact IHa].
      * cbn [enqueued_entries returned].
        rewrite (add_url_refuses f u' d' _ f' Hadd) in * by discriminate.
        split; [exact IHr|exact IHa].
    + pose proof (get_next_spec f) as Hspec.
      destruct (get_next f) as [[[u1 d1]|] f'] eqn:Hnext; cbn [fst snd] in *.
      * cbn [enqueued_entries returned].
        destruct Hspec as (_ & _ & _ & _ & skipped & Hperm & _ & _).
        split.
        -- intros e He. apply elem_of_cons in He as [->|He].
           ++ left. cbn [fst snd]. rewrite Hperm. apply elem_of_app. right.
              apply elem_of_cons. left. reflexivity.
           ++ destruct (IHr e He) as [Hq|Ha]; [|right; exact Ha].
              left. rewrite Hperm. apply elem_of_app. right.
              apply elem_of_cons. right. exact Hq.
        -- intros e He. apply (admissible_settings f f' e Hsa Hsm). apply IHa, He.
      * cbn [enqueued_entries returned].
        destruct (get_next_None f f' Hnext) as [Hf' _].
        split.
        -- intros e He. destruct (IHr e He) as [Hq|Ha]; [|right; exact Ha].
           subst f'. cbn [_queue] in Hq. apply elem_of_nil in Hq as [].
        -- intros e He. apply (admissible_settings f f' e Hsa Hsm). apply IHa, He.
    + cbn [enqueued_entries returned fst snd] in *. split; [exact IHr|].
      intros e He. apply (admissible_settings f (mark_visited f u') e Hsa Hsm). apply IHa, He.
Qed.

(** No URL gets lost in the frontier: whatever the calls, every entry
    [add_url] accepted has, at the end, been returned by [get_next], or has
    a visited hash, or is still in the queue; so once [get_next] gives
    [None], every accepted entry was returned or is visited. *)
Theorem no_accepted_url_is_lost (f : URLFrontier) (cs : list call) :
  let rs := fst (run f cs) in
  let f' := snd (run f cs) in
  Forall (fun e => e ∈ returned rs
                   \/ _hash (fst e) ∈ _visited f'
                   \/ mkEntry (snd e) (fst e) ∈ _queue f')
         (enqueued_entries cs rs)
  /\ (fst (get_next f') = None ->
      Forall (fun e => e ∈ returned rs \/ _hash (fst e) ∈ _visited f')
             (enqueued_entries cs rs)).
Proof.
  intros rs f'.
  assert (H : forall e, e ∈ enqueued_entries cs rs ->
                        e ∈ returned rs \/ _hash (fst e) ∈ _visited f'
                        \/ mkEntry (snd e) (fst e) ∈ _queue f').
  { intros [u d] He. apply (ledger_complete cs f u d). right. exact He. }
  split.
  - apply Forall_forall. exact H.
  - intros Hnone. apply Forall_forall. intros e He.
    destruct (H e He) as [Hr|[Hv|Hq]]; [auto|auto|].
    right. destruct (get_next f') as [r f''] eqn:Hnext. cbn [fst] in Hnone. subst r.
    destruct (get_next_None f' f'' Hnext) as [_ Hall]. apply (Hall _ Hq).
Qed.

(** On a frontier that starts empty, [get_next] only returns what
    [add_url] accepted: a normalised URL of an allowed domain, at a depth
    within [max_depth]. *)
Theorem get_next_returns_only_accepted_urls
        (domains : list string) (maxd : Z) (cs : list call) :
  let f0 := new domains maxd in
  let rs := fst (run f0 cs) in
  Forall (fun e => e ∈ enqueued_entries cs rs
                   /\ (snd e <= maxd)%Z
                   /\ _domain_allowed f0 (fst e) = Returns true
                   /\ exists raw, normalize_url raw = Some (fst e))
         (returned rs).
Proof.
  intros f0 rs. destruct (ledger_sound cs f0) as [Hr Ha]. fold rs in Hr, Ha.
  apply Forall_forall. intros e He.
  destruct (Hr e He) as [Hq|Hacc]; [apply elem_of_nil in Hq as []|].
  split; [exact Hacc|]. exact (Ha e Hacc).
Qed.

(** *** The visited set *)

Lemma is_visited_step (f : URLFrontier) (c : call) (u : string) :
  is_visited (snd (step f c)) u = true <->
  is_visited f u = true
  \/ exists v, c = MarkVisited v
               /\ _hash (normalized_or_raw v) = _hash (normalized_or_raw u).
Proof.
  unfold is_visited. rewrite !bool_decide_eq_true.
  destruct c as [u' d'| |u']; cbn [step].
  - pose proof (add_url_spec f u' d') as H.
    destruct (add_url f u' d') as [[[|]|] f']; cbn [snd].
    + destruct H as (n & _ & _ & _ & _ & ->). cbn [_visited].
      split; [auto|]. intros [H|(v & Hv & _)]; [exact H|discriminate].
    + subst f'. split; [auto|]. intros [H|(v & Hv & _)]; [exact H|discriminate].
    + subst f'. split; [auto|]. intros [H|(v & Hv & _)]; [exact H|discriminate].
  - pose proof (get_next_spec f) as H.
    destruct (get_next f) as [[[u1 d1]|] f']; cbn [snd].
    + destruct H as (_ & _ & -> & _).
      split; [auto|]. intros [H|(v & Hv & _)]; [exact H|discriminate].
    + subst f'. cbn [_visited].
      split; [auto|]. intros [H|(v & Hv & _)]; [exact H|discriminate].
  - unfold mark_visited. cbn [snd _visited]. rewrite elem_of_union, elem_of_singleton.
    split.
    + intros [H|H]; [|auto]. right. exists u'. split; [reflexivity|]. symmetry. exact H.
    + intros [H|(v & [= <-] & Hv)]; [auto|]. left. symmetry. exact Hv.
Qed.

(** A URL is reported visited exactly when it was so before, or when a
    [mark_visited] call was given a URL with the same hash after
    normalisation: [add_url] and [get_next] never mark anything. *)
Theorem is_visited_iff_marked (f : URLFrontier) (cs : list call) (u : string) :
  is_visited (snd (run f cs)) u = true <->
  is_visited f u = true
  \/ exists v, MarkVisited v ∈ cs
               /\ _hash (normalized_or_raw v) = _hash (normalized_or_raw u).
Proof.
  revert f. induction cs as [|c cs IH]; intros f.
  - cbn [run snd]. split; [auto|]. intros [H|(v & Hv & _)]; [exact H|].
    apply elem_of_nil in Hv as [].
  - rewrite run_cons. cbn [snd]. rewrite IH, is_visited_step. split.
    + intros [[H|(v & -> & Hv)]|(v & Hin & Hv)]; [auto| |].
      * right. exists v. split; [apply elem_of_cons; left; reflexivity|exact Hv].
      * right. exists v. split; [apply elem_of_cons; right; exact Hin|exact Hv].
    + intros [H|(v & Hin & Hv)]; [auto|].
      apply elem_of_cons in Hin as [Heq|Hin].
      * left. right. exists v. split; [symmetry; exact Heq|exact Hv].
      * right. exists v. split; assumption.
Qed.

End FrontierLedgerFacts.

Module CrawlLedgerFacts.
Import Config Frontier HeapOrder FrontierOrder HeapqFacts FrontierFacts.
Import FrontierLedger FrontierLedgerFacts Crawler CrawlOrder CrawlLedger.

(** *** What a page does to the frontier *)

(** The links of a page enter the queue one level below it, and only
    when [add_url] finds them admissible. *)
Lemma enqueue_links_queue (links : list string) (f : URLFrontier) (d : Z) :
  let f' := snd (enqueue_links f links d) in
  allowed_domains f' = allowed_domains f
  /\ max_depth f' = max_depth f
  /\ (queue_ordered (_queue f) -> queue_ordered (_queue f'))
  /\ (forall e, e ∈ _queue f' ->
        e ∈ _queue f \/ (depth e = (d + 1)%Z /\ admissible f (url e, depth e)))
  /\ (length (_queue f) <= length (_queue f'))%nat.
Proof.
  revert f. induction links as [|link rest IH]; intros f; cbn [enqueue_links snd].
  - repeat split; auto.
  - destruct (add_url f link (d + 1)) as [r f1] eqn:Hadd.
    destruct r as [[|]|e0].
    + destruct (add_url_accepts f link (d + 1) f1 Hadd)
        as (n & Hn & _ & _ & Hd & Hdom & Hf1).
      destruct (IH f1) as (Ha & Hm & Hord & Hq & Hlen).
      assert (Ha1 : allowed_domains f1 = allowed_domains f) by (subst f1; reflexivity).
      assert (Hm1 : max_depth f1 = max_depth f) by (subst f1; reflexivity).
      split; [congruence|]. split; [congruence|]. split; [|split].
      * intros Ho. apply Hord. subst f1. cbn [_queue].
        apply heappush_heap; [exact entry_lt_depth|exact Ho].
      * intros e He. destruct (Hq e He) as [He1|[Hde Hadm]].
        -- subst f1. cbn [_queue] in He1. rewrite (heappush_Permutation entry_lt) in He1.
           apply elem_of_cons in He1 as [->|He1]; [|left; exact He1].
           right. cbn [depth url]. split; [reflexivity|].
           split; [exact Hd|]. split; [exact Hdom|]. exists link. exact Hn.
        -- right. split; [exact Hde|]. apply (admissible_settings f f1 _ Ha1 Hm1 Hadm).
      * etransitivity; [|exact Hlen]. subst f1. cbn [_queue].
        rewrite heappush_length. lia.
    + rewrite (add_url_refuses f link (d + 1) _ f1 Hadd) by discriminate. apply IH.
    + rewrite (add_url_refuses f link (d + 1) _ f1 Hadd) by discriminate.
      cbn [snd]. repeat split; auto.
Qed.

(** What [_process_url] leaves behind, by the way it ends. *)
Lemma process_url_effect (c : t) (w : page_world) (u : string) (d : Z) :
  let r := _process_url c w u d in
  config (snd r) = config c
  /\ match fst r with
     | Returns false =>
         frontier (snd r) = frontier c
         /\ _pages (structurer (snd r)) = _pages (structurer c)
         /\ (if robots_blocks (config c) w
             then _errors (structurer (snd r)) = _errors (structurer c)
             else exists msg,
                 _errors (structurer (snd r)) = (_errors (structurer c) ++ [(u, msg)])%list)
     | _ =>
         robots_blocks (config c) w = false
         /\ _errors (structurer (snd r)) = _errors (structurer c)
         /\ (exists links,
                frontier (snd r) = snd (enqueue_links (frontier c) links d))
         /\ (exists page,
                _pages (structurer (snd r)) = (_pages (structurer c) ++ page)%list
                /\ (length page <= 1)%nat)
     end.
Proof.
  unfold _process_url. fold (robots_blocks (config c) w).
  destruct (robots_blocks (config c) w) eqn:Hblocked.
  { cbn [fst snd]. repeat split; reflexivity. }
  destruct (fst (Fetcher.fetch (network w) (config c) u)) as [result|exc].
  2:{ cbn [fst snd config frontier structurer with_structurer add_error _pages _errors].
      repeat split; eauto. }
  destruct (Fetcher.ok result); cbn [negb].
  2:{ cbn [fst snd config frontier structurer with_structurer add_error _pages _errors].
      repeat split; eauto. }
  destruct (parse w) as [soup|exc].
  2:{ cbn [fst snd config frontier structurer with_structurer add_error _pages _errors].
      repeat split; eauto. }
  destruct (ExtractorPipeline.run (extractor_pipeline c) (extractors w))
    as [[extraction|exc] pipeline] eqn:Hrun.
  2:{ exfalso. unfold ExtractorPipeline.run in Hrun.
      destruct (ExtractorPipeline.image_extract _ _) in Hrun. discriminate. }
  cbn [frontier with_structurer with_pipeline].
  assert (Hpages : exists page,
             _pages (accumulate (structurer c) extraction)
             = (_pages (structurer c) ++ page)%list /\ (length page <= 1)%nat).
  { unfold accumulate. cbn [_pages].
    destruct (ExtractorPipeline.text_data extraction) as [page|].
    - exists [page]. split; [reflexivity|simpl; lia].
    - exists []. rewrite app_nil_r. split; [reflexivity|simpl; lia]. }
  destruct (enqueue_links (frontier c) (ExtractorPipeline.internal_links extraction) d)
    as [[[]|e'] f'] eqn:Hlinks.
  all: cbn [fst snd config frontier structurer with_frontier with_structurer with_pipeline].
  all: split; [reflexivity|]; split; [reflexivity|]; split; [reflexivity|]; split;
    [exists (ExtractorPipeline.internal_links extraction); rewrite Hlinks; reflexivity
    |exact Hpages].
Qed.

(** A turn that processes a page: the page comes from [get_next], and
    the queue afterwards is what [get_next] left plus the links of the
    page. *)
Lemma crawl_turn_effect (w : page_world) (c : t) (pc : Z)
      (u : string) (d : Z) (success : bool) (c' : t) (pc' : Z) :
  crawl_turn w c pc = Processed u d success c' pc' ->
  exists f1 links,
    get_next (frontier c) = (Some (u, d), f1)
    /\ (pc < page_limit (config c))%Z
    /\ config c' = config c
    /\ pc' = (if success then pc + 1 else pc)%Z
    /\ _queue (frontier c') = _queue (snd (enqueue_links f1 links d))
    /\ allowed_domains (frontier c') = allowed_domains (snd (enqueue_links f1 links d))
    /\ max_depth (frontier c') = max_depth (snd (enqueue_links f1 links d))
    /\ (success = false -> _queue (frontier c') = _queue f1).
Proof.
  unfold crawl_turn. destruct (pc <? page_limit (config c))%Z eqn:Hlim; [|discriminate].
  apply Z.ltb_lt in Hlim.
  destruct (get_next (frontier c)) as [[[u1 d1]|] f1]; [|discriminate].
  pose proof (process_url_effect (with_frontier c f1) w u1 d1) as Heff.
  destruct (_process_url (with_frontier c f1) w u1 d1) as [[ok|e] c1]; [|discriminate].
  cbn [fst snd config frontier structurer with_frontier] in Heff.
  intros [= <- <- <- <- <-]. cbn [config frontier with_frontier mark_visited].
  destruct Heff as [Hconfig Heff]. destruct ok.
  - destruct Heff as (_ & _ & (links & Hf) & _).
    exists f1, links. rewrite Hf. repeat split; auto. discriminate.
  - destruct Heff as (Hf & _). exists f1, []. rewrite Hf. repeat split; auto.
Qed.


(** *** Breadth-first order and bounds *)

Lemma StronglySorted_snoc (l : list Z) (d : Z) :
  StronglySorted Z.le l -> (forall x, x ∈ l -> (x <= d)%Z) ->
  StronglySorted Z.le (l ++ [d]).
Proof.
  induction 1 as [|x l Hl IH Hx]; intros Hle; cbn [app].
  - repeat constructor.
  - constructor.
    + apply IH. intros y Hy. apply Hle. apply elem_of_cons. right. exact Hy.
    + apply Forall_app. split; [exact Hx|].
      constructor; [|constructor]. apply Hle. apply elem_of_cons. left. reflexivity.
Qed.

Lemma domain_allowed_settings (f f' : URLFrontier) (u : string) :
  allowed_domains f' = allowed_domains f -> _domain_allowed f' u = _domain_allowed f u.
Proof. intros H. unfold _domain_allowed. rewrite H. reflexivity. Qed.

Lemma crawl_start_bfs (cfg : CrawlConfig) (s : DataStructurer) :
  bfs_inv cfg (crawl_start (new cfg s)).
Proof.
  unfold crawl_start. cbn [config new frontier].
  destruct (add_url (Frontier.new (Config.allowed_domains cfg) (Config.max_depth cfg))
                    (start_url cfg) 0) as [r f] eqn:Hadd.
  assert (Hq : queue_inv cfg (mkProgress (with_frontier (new cfg s) f) 0 [] true)).
  { destruct r as [[|]|exc].
    - destruct (add_url_accepts _ _ _ _ Hadd) as (n & Hn & _ & _ & Hd & Hdom & ->).
      split; cbn [crawler frontier with_frontier processed allowed_domains max_depth _queue
                  Frontier.new].
      + reflexivity.
      + reflexivity.
      + apply heappush_heap; [exact entry_lt_depth|]. intros p c a b _ Hp. discriminate.
      + intros e He. rewrite (heappush_Permutation entry_lt) in He.
        apply elem_of_cons in He as [->|He]; [|apply elem_of_nil in He as []].
        cbn [url depth]. split; [cbn [max_depth Frontier.new] in Hd; lia|].
        split; [exact Hdom|]. exists (start_url cfg). exact Hn.
      + intros d e Hd'. apply elem_of_nil in Hd' as [].
      + intros _ e He. rewrite (heappush_Permutation entry_lt) in He.
        apply elem_of_cons in He as [->|He]; [|apply elem_of_nil in He as []].
        cbn [url depth]. split; [reflexivity|exact Hn].
    - rewrite (add_url_refuses _ _ _ _ _ Hadd) by discriminate.
      split; cbn [crawler frontier with_frontier processed allowed_domains max_depth _queue
                  Frontier.new];
        try reflexivity; try (intros e He; apply elem_of_nil in He as []).
      + intros p c a b _ Hp. discriminate.
      + intros d e Hd'. apply elem_of_nil in Hd' as [].
      + intros _ e He. apply elem_of_nil in He as [].
    - rewrite (add_url_refuses _ _ _ _ _ Hadd) by discriminate.
      split; cbn [crawler frontier with_frontier processed allowed_domains max_depth _queue
                  Frontier.new];
        try reflexivity; try (intros e He; apply elem_of_nil in He as []).
      + intros p c a b _ Hp. discriminate.
      + intros d e Hd'. apply elem_of_nil in Hd' as [].
      + intros _ e He. apply elem_of_nil in He as []. }
  assert (Hrest : forall run,
             (run = true -> queue_inv cfg (mkProgress (with_frontier (new cfg s) f) 0 [] run)) ->
             bfs_inv cfg (mkProgress (with_frontier (new cfg s) f) 0 [] run)).
  { intros run Hrun. split; cbn [crawler config with_frontier new running processed].
    - reflexivity.
    - exact Hrun.
    - constructor.
    - intros u d b' H. apply elem_of_nil in H as [].
    - intros u d b' H. discriminate. }
  destruct r as [b|exc]; apply Hrest; [intros _; exact Hq|discriminate].
Qed.

Lemma crawl_turns_bfs (cfg : CrawlConfig) (world : nat -> page_world) (n : nat)
      (p : progress) :
  bfs_inv cfg p -> bfs_inv cfg (crawl_turns n world p).
Proof.
  revert p. induction n as [|n IH]; intros p Hinv; [exact Hinv|].
  cbn [crawl_turns]. destruct (running p) eqn:Hrun; [|exact Hinv].
  destruct Hinv as [Hcfg Hqueue Hsorted Hproc Hfirst].
  specialize (Hqueue Hrun).
  destruct (crawl_turn (world (length (processed p))) (crawler p) (pages_crawled p))
    as [|c|u d success c pc|msg c] eqn:Hturn.
  - split; cbn [crawler running processed]; auto; discriminate.
  - split; cbn [crawler running processed]; auto; try discriminate.
    unfold crawl_turn in Hturn.
    destruct (_ <? _)%Z; [|discriminate].
    destruct (get_next (frontier (crawler p))) as [[[u1 d1]|] f1]; [|].
    + destruct (_process_url _ _ _ _) as [[?|?] ?]; discriminate.
    + injection Hturn as <-. cbn [config with_frontier]. exact Hcfg.
  - apply IH.
    destruct (crawl_turn_effect _ _ _ _ _ _ _ _ Hturn)
      as (f1 & links & Hnext & _ & Hconfig & _ & Hq & Ha & Hm & _).
    pose proof (get_next_spec (frontier (crawler p))) as Hspec. rewrite Hnext in Hspec.
    destruct Hspec as (Ha1 & Hm1 & _ & _ & skipped & Hperm & _ & Hmin).
    destruct Hqueue as [Qd Qm Qh Qq Qf Qs].
    destruct (Hmin Qh) as [Hord1 Hleast].
    destruct (enqueue_links_queue links f1 d) as (Ha2 & Hm2 & Hord2 & Hnew & _).
    assert (Hpopped : mkEntry d u ∈ _queue (frontier (crawler p))).
    { rewrite Hperm. apply elem_of_app. right. apply elem_of_cons. left. reflexivity. }
    assert (Hkept : forall e, e ∈ _queue f1 -> e ∈ _queue (frontier (crawler p))).
    { intros e He. rewrite Hperm. apply elem_of_app. right. apply elem_of_cons. right.
      exact He. }
    pose proof (Qq _ Hpopped) as Hud. cbn [url depth] in Hud.
    assert (Hdepths : processed_depths
                        (mkProgress c pc (processed p ++ [(u, d, success)]) true)
                      = (processed_depths p ++ [d])%list).
    { unfold processed_depths. cbn [processed]. rewrite map_app. reflexivity. }
    split; cbn [crawler running processed].
    + congruence.
    + intros _. split; cbn [crawler processed].
      * rewrite Ha, Ha2, Ha1. exact Qd.
      * rewrite Hm, Hm2, Hm1. exact Qm.
      * rewrite Hq. apply Hord2, Hord1.
      * intros e He. rewrite Hq in He. destruct (Hnew e He) as [He1|[Hde Hadm]].
        -- apply Qq, Hkept, He1.
        -- destruct Hadm as (Hmax & Hdom & Hraw). cbn [fst snd] in *.
           destruct Hud as (Hd0 & _ & _).
           split; [rewrite Hm1, Qm in Hmax; lia|]. split; [|exact Hraw].
           rewrite <- Hdom. symmetry. apply domain_allowed_settings.
           rewrite Ha1. exact Qd.
      * intros d0 e Hd0 He. rewrite Hdepths in Hd0. rewrite Hq in He.
        assert (Hde : (d <= depth e)%Z).
        { destruct (Hnew e He) as [He1|[Hde _]]; [apply Hleast, He1|lia]. }
        apply elem_of_app in Hd0 as [Hd0|Hd0].
        -- specialize (Qf d0 _ Hd0 Hpopped). cbn [depth] in Qf. lia.
        -- apply list_elem_of_singleton in Hd0 as ->. exact Hde.
      * intros Hnil. destruct (processed p); discriminate.
    + rewrite Hdepths. apply StronglySorted_snoc; [exact Hsorted|].
      intros x Hx. apply (Qf x _ Hx Hpopped).
    + intros u0 d0 b0 H0. apply elem_of_app in H0 as [H0|H0]; [eauto|].
      apply list_elem_of_singleton in H0. injection H0 as -> -> ->. exact Hud.
    + intros u0 d0 b0 H0. destruct (processed p) as [|x l] eqn:Hp.
      * cbn in H0. injection H0 as <- <- <-. apply (Qs eq_refl _ Hpopped).
      * apply (Hfirst u0 d0 b0). exact H0.
  - split; cbn [crawler running processed]; auto; try discriminate.
    unfold crawl_turn in Hturn.
    destruct (_ <? _)%Z; [|discriminate].
    destruct (get_next (frontier (crawler p))) as [[[u1 d1]|] f1]; [|discriminate].
    pose proof (process_url_effect (with_frontier (crawler p) f1)
                                   (world (length (processed p))) u1 d1) as [Hc _].
    destruct (_process_url _ _ _ _) as [[?|?] c1]; [discriminate|].
    injection Hturn as _ <-. cbn [snd config with_frontier] in Hc. congruence.
Qed.

(** The crawl is breadth-first and stays within its bounds: whatever the
    pages contain, the pages are processed in non-decreasing order of
    depth; every processed page has a depth from 0 to [max_depth] and a
    normalised URL whose domain the frontier allows; and the first page
    processed is the start URL, normalised, at depth 0. *)
Theorem crawl_is_breadth_first_within_bounds
        (cfg : CrawlConfig) (s : DataStructurer) (world : nat -> page_world) (n : nat) :
  let p := crawl_turns n world (crawl_start (new cfg s)) in
  Sorted Z.le (processed_depths p)
  /\ Forall (fun e : string * Z * bool =>
               let '(u, d, _) := e in
               (0 <= d <= Config.max_depth cfg)%Z
               /\ _domain_allowed (frontier (new cfg s)) u = Returns true
               /\ exists raw, normalize_url raw = Some u)
            (processed p)
  /\ match processed p with
     | [] => True
     | (u, d, _) :: _ => d = 0%Z /\ normalize_url (start_url cfg) = Some u
     end.
Proof.
  intros p.
  destruct (crawl_turns_bfs cfg world n _ (crawl_start_bfs cfg s))
    as [_ _ Hsorted Hproc Hfirst]. fold p in Hsorted, Hproc, Hfirst.
  split; [apply StronglySorted_Sorted, Hsorted|]. split.
  - apply Forall_forall. intros [[u d] b] He. exact (Hproc u d b He).
  - destruct (processed p) as [|[[u d] b] l]; [exact I|]. apply (Hfirst u d b). reflexivity.
Qed.


(** *** The accounts of the crawl *)

Lemma failed_urls_app (cfg : CrawlConfig) (world : nat -> page_world)
      (l l' : list (string * Z * bool)) (k : nat) :
  failed_urls cfg world k (l ++ l')
  = (failed_urls cfg world k l ++ failed_urls cfg world (k + length l) l')%list.
Proof.
  revert k. induction l as [|[[u d] b] l IH]; intros k; cbn [app failed_urls length].
  - rewrite Nat.add_0_r. reflexivity.
  - rewrite IH, <- app_assoc. replace (S k + length l)%nat with (k + S (length l))%nat by lia.
    reflexivity.
Qed.

(** The failed URLs are among the processed ones, in their order. *)
Lemma failed_urls_sublist (cfg : CrawlConfig) (world : nat -> page_world)
      (l : list (string * Z * bool)) (k : nat) :
  failed_urls cfg world k l `sublist_of` map (fun e => fst (fst e)) l.
Proof.
  revert k. induction l as [|[[u d] b] l IH]; intros k; cbn [failed_urls map fst].
  - constructor.
  - destruct (b || robots_blocks cfg (world k)); cbn [app].
    + apply sublist_cons, IH.
    + apply sublist_skip, IH.
Qed.

(** The accounts after a turn that processes a page. *)
Lemma crawl_turn_accounts (w : page_world) (c : t) (pc : Z)
      (u : string) (d : Z) (success : bool) (c' : t) (pc' : Z) :
  crawl_turn w c pc = Processed u d success c' pc' ->
  (pc < page_limit (config c))%Z
  /\ config c' = config c
  /\ pc' = (if success then pc + 1 else pc)%Z
  /\ map fst (_errors (structurer c'))
     = (map fst (_errors (structurer c))
        ++ if success || robots_blocks (config c) w then [] else [u])%list
  /\ (Z.of_nat (length (_pages (structurer c')))
      <= Z.of_nat (length (_pages (structurer c))) + (if success then 1 else 0))%Z.
Proof.
  unfold crawl_turn. destruct (pc <? page_limit (config c))%Z eqn:Hlim; [|discriminate].
  apply Z.ltb_lt in Hlim.
  destruct (get_next (frontier c)) as [[[u1 d1]|] f1]; [|discriminate].
  pose proof (process_url_effect (with_frontier c f1) w u1 d1) as Heff.
  destruct (_process_url (with_frontier c f1) w u1 d1) as [[ok|e] c1]; [|discriminate].
  cbn [fst snd config frontier structurer with_frontier] in Heff.
  intros [= <- <- <- <- <-]. cbn [config structurer with_frontier].
  destruct Heff as [Hconfig Heff].
  split; [exact Hlim|]. split; [exact Hconfig|]. split; [reflexivity|].
  destruct ok; cbn [orb].
  - destruct Heff as (_ & -> & _ & (page & -> & Hlen)).
    rewrite app_nil_r, length_app. split; [reflexivity|lia].
  - destruct Heff as (_ & -> & Herr).
    split; [|lia].
    destruct (robots_blocks (config c) w).
    + rewrite Herr, app_nil_r. reflexivity.
    + destruct Herr as (msg & ->). rewrite map_app. reflexivity.
Qed.

(** The accounts after a turn that ends the loop. *)
Lemma crawl_turn_stops (w : page_world) (c : t) (pc : Z) :
  match crawl_turn w c pc with
  | LimitReached => True
  | FrontierExhausted c' =>
      config c' = config c /\ structurer c' = structurer c
  | Escaped _ c' =>
      (pc < page_limit (config c))%Z
      /\ config c' = config c
      /\ _errors (structurer c') = _errors (structurer c)
      /\ (length (_pages (structurer c')) <= length (_pages (structurer c)) + 1)%nat
  | Processed _ _ _ _ _ => True
  end.
Proof.
  unfold crawl_turn. destruct (pc <? page_limit (config c))%Z eqn:Hlim; [|exact I].
  apply Z.ltb_lt in Hlim.
  destruct (get_next (frontier c)) as [[[u1 d1]|] f1]; [|split; reflexivity].
  pose proof (process_url_effect (with_frontier c f1) w u1 d1) as Heff.
  destruct (_process_url (with_frontier c f1) w u1 d1) as [[ok|e] c1]; [exact I|].
  cbn [fst snd config frontier structurer with_frontier] in Heff.
  destruct Heff as (Hconfig & _ & Herr & _ & (page & Hpage & Hlen)).
  split; [exact Hlim|]. split; [exact Hconfig|]. split; [exact Herr|].
  rewrite Hpage, length_app. lia.
Qed.

Lemma crawl_start_ledger (cfg : CrawlConfig) (s : DataStructurer)
      (world : nat -> page_world) :
  ledger_inv cfg s world (crawl_start (new cfg s)).
Proof.
  unfold crawl_start.
  destruct (add_url _ (start_url (config (new cfg s))) 0) as [[b|exc] f].
  all: split; cbn [crawler pages_crawled processed running config structurer
                   with_frontier new failed_urls];
    [reflexivity|lia|lia|rewrite app_nil_r; reflexivity|lia].
Qed.

Lemma crawl_turns_ledger (cfg : CrawlConfig) (s : DataStructurer)
      (world : nat -> page_world) (n : nat) (p : progress) :
  ledger_inv cfg s world p -> ledger_inv cfg s world (crawl_turns n world p).
Proof.
  revert p. induction n as [|n IH]; intros p Hinv; [exact Hinv|].
  cbn [crawl_turns]. destruct (running p) eqn:Hrun; [|exact Hinv].
  destruct Hinv as [Hcfg Hlimit Hnonneg Herrors Hpages]. rewrite Hrun in Hpages.
  pose proof (crawl_turn_stops (world (length (processed p))) (crawler p) (pages_crawled p))
    as Hstop.
  destruct (crawl_turn (world (length (processed p))) (crawler p) (pages_crawled p))
    as [|c|u d success c pc|msg c] eqn:Hturn.
  - split; cbn [crawler pages_crawled processed running]; auto. lia.
  - destruct Hstop as [Hc Hs].
    split; cbn [crawler pages_crawled processed running]; auto; try congruence.
    rewrite Hs. lia.
  - apply IH.
    destruct (crawl_turn_accounts _ _ _ _ _ _ _ _ Hturn)
      as (Hlim & Hconfig & -> & Herr & Hpg).
    rewrite Hcfg in Hlim, Herr.
    split; cbn [crawler pages_crawled processed running].
    + congruence.
    + destruct success; lia.
    + destruct success; lia.
    + rewrite Herr, Herrors, failed_urls_app, <- app_assoc. cbn [failed_urls Nat.add].
      rewrite app_nil_r. reflexivity.
    + destruct success; lia.
  - destruct Hstop as (Hlim & Hc & He & Hp). rewrite Hcfg in Hlim.
    split; cbn [crawler pages_crawled processed running]; auto; try congruence.
    lia.
Qed.

(** The page limit holds: whatever the pages contain, the counter of
    crawled pages stays between 0 and [page_limit], and the crawl adds at
    most [page_limit] page records to the structurer. *)
Theorem crawl_respects_page_limit
        (cfg : CrawlConfig) (s : DataStructurer) (world : nat -> page_world) (n : nat) :
  let p := crawl_turns n world (crawl_start (new cfg s)) in
  (0 <= pages_crawled p <= Z.max 0 (page_limit cfg))%Z
  /\ (Z.of_nat (length (_pages (structurer (crawler p))))
      <= Z.of_nat (length (_pages s)) + Z.max 0 (page_limit cfg))%Z.
Proof.
  intros p.
  destruct (crawl_turns_ledger cfg s world n _ (crawl_start_ledger cfg s world))
    as [_ Hlimit Hnonneg _ Hpages]. fold p in Hlimit, Hnonneg, Hpages.
  split; [lia|]. destruct (running p); lia.
Qed.

(** Every failed page is logged once: the URLs of the error log are
    those it had at the start followed by the URL of every processed page
    that did not count although robots let it through, in processing
    order and without repetition; a page blocked by robots and a page
    that counted leave no error. *)
Theorem every_failed_page_is_logged_once
        (cfg : CrawlConfig) (s : DataStructurer) (world : nat -> page_world) (n : nat) :
  let p := crawl_turns n world (crawl_start (new cfg s)) in
  map fst (_errors (structurer (crawler p)))
  = (map fst (_errors s) ++ failed_urls cfg world 0 (processed p))%list
  /\ NoDup (failed_urls cfg world 0 (processed p)).
Proof.
  intros p.
  destruct (crawl_turns_ledger cfg s world n _ (crawl_start_ledger cfg s world))
    as [_ _ _ Herrors _]. fold p in Herrors.
  split; [exact Herrors|].
  destruct (CrawlerFacts.crawl_turns_inv cfg world n _
              (CrawlerFacts.crawl_start_inv cfg s world)) as [_ _ _ _ [Hnd _]].
  fold p in Hnd. apply NoDup_app in Hnd as (Hnd & _ & _).
  apply (NoDup_fmap_1 _hash) in Hnd.
  exact (sublist_NoDup _ _ Hnd (failed_urls_sublist cfg world (processed p) 0)).
Qed.

(** *** Termination *)

Lemma crawl_turns_stopped (world : nat -> page_world) (n : nat) (p : progress) :
  running p = false -> crawl_turns n world p = p.
Proof. intros H. destruct n; [reflexivity|]. cbn [crawl_turns]. rewrite H. reflexivity. Qed.

Lemma crawl_turns_add (world : nat -> page_world) (n m : nat) (p : progress) :
  crawl_turns (n + m) world p = crawl_turns m world (crawl_turns n world p).
Proof.
  revert p. induction n as [|n IH]; intros p; [reflexivity|].
  cbn [Nat.add crawl_turns]. destruct (running p) eqn:Hrun.
  - destruct (crawl_turn _ _ _); try (rewrite crawl_turns_stopped; reflexivity).
    apply IH.
  - rewrite crawl_turns_stopped; [reflexivity|exact Hrun].
Qed.

(** Every turn either counts a page or shortens the queue. *)
Lemma crawl_turns_halt (world : nat -> page_world) (a b : nat) (p : progress) :
  Z.to_nat (page_limit (config (crawler p)) - pages_crawled p) = a ->
  length (_queue (frontier (crawler p))) = b ->
  exists n, running (crawl_turns n world p) = false.
Proof.
  revert b p. induction a as [a IHa] using lt_wf_ind.
  induction b as [b IHb] using lt_wf_ind. intros p Ha Hb.
  destruct (running p) eqn:Hrun; [|exists 0%nat; exact Hrun].
  destruct (crawl_turn (world (length (processed p))) (crawler p) (pages_crawled p))
    as [|c|u d success c pc|msg c] eqn:Hturn.
  1,2,4: exists 1%nat; cbn [crawl_turns]; rewrite Hrun, Hturn; reflexivity.
  destruct (crawl_turn_effect _ _ _ _ _ _ _ _ Hturn)
    as (f1 & links & Hnext & Hlim & Hconfig & Hpc & _ & _ & _ & Hfail).
  set (p' := mkProgress c pc (processed p ++ [(u, d, success)]) true).
  assert (Hstep : forall n, crawl_turns (S n) world p = crawl_turns n world p').
  { intros n. cbn [crawl_turns]. rewrite Hrun, Hturn. reflexivity. }
  assert (Hp' : exists n, running (crawl_turns n world p') = false).
  { destruct success.
    - apply (IHa (Z.to_nat (page_limit (config (crawler p')) - pages_crawled p')))
        with (b := length (_queue (frontier (crawler p')))); [|reflexivity|reflexivity].
      subst p'. cbn [crawler pages_crawled]. rewrite Hconfig, Hpc. lia.
    - apply (IHb (length (_queue (frontier (crawler p'))))); [| |reflexivity].
      + subst p'. cbn [crawler]. rewrite (Hfail eq_refl).
        pose proof (get_next_spec (frontier (crawler p))) as Hspec.
        rewrite Hnext in Hspec.
        destruct Hspec as (_ & _ & _ & _ & skipped & Hperm & _).
        rewrite <- Hb, Hperm, length_app. cbn [length]. lia.
      + subst p'. cbn [crawler pages_crawled]. rewrite Hconfig, Hpc. exact Ha. }
  destruct Hp' as [n Hn]. exists (S n). rewrite Hstep. exact Hn.
Qed.

(** The crawl loop terminates: whatever the pages contain, after some
    number of turns the loop has stopped, and further turns change
    nothing.  A page that counts uses up the page limit, and a page that
    does not count adds no link, so the queue gets shorter. *)
Theorem crawl_terminates
        (cfg : CrawlConfig) (s : DataStructurer) (world : nat -> page_world) :
  exists n,
    running (crawl_turns n world (crawl_start (new cfg s))) = false
    /\ forall m, (n <= m)%nat ->
                 crawl_turns m world (crawl_start (new cfg s))
                 = crawl_turns n world (crawl_start (new cfg s)).
Proof.
  destruct (crawl_turns_halt world _ _ (crawl_start (new cfg s)) eq_refl eq_refl)
    as [n Hn].
  exists n. split; [exact Hn|].
  intros m Hm. replace m with (n + (m - n))%nat by lia.
  rewrite crawl_turns_add. apply crawl_turns_stopped, Hn.
Qed.

End CrawlLedgerFacts.

(** ** Facts on the string primitives *)

Module PyStrFacts.
Import PyStr.

Lemma append_cons (d : ascii) (a b : string) : String d a +:+ b = String d (a +:+ b).
Proof. reflexivity. Qed.

Lemma append_nil (b : string) : "" +:+ b = b.
Proof. reflexivity. Qed.

Lemma append_assoc (a b c : string) : (a +:+ b) +:+ c = a +:+ (b +:+ c).
Proof. induction a as [|d a IH]; [reflexivity|]. rewrite !append_cons, IH. reflexivity. Qed.

Lemma startswith_append (p s : string) : startswith p (p +:+ s) = true.
Proof.
  unfold startswith. induction p as [|c p IH]; [destruct s; reflexivity|].
  rewrite append_cons. cbn [String.prefix]. destruct (ascii_dec c c); [exact IH|contradiction].
Qed.

Lemma contains_app (c : ascii) (a b : string) :
  contains c (a +:+ b) = contains c a || contains c b.
Proof.
  induction a as [|d a IH]; [reflexivity|].
  rewrite append_cons. cbn [contains]. rewrite IH, orb_assoc. reflexivity.
Qed.

Lemma partition_Some (c : ascii) (s a b : string) :
  partition c s = Some (a, b) -> s = a +:+ String c b /\ contains c a = false.
Proof.
  revert a b. induction s as [|d s IH]; intros a b; cbn [partition]; [discriminate|].
  destruct (Ascii.eqb_spec c d) as [->|Hne].
  - intros [= <- <-]. split; reflexivity.
  - destruct (partition c s) as [[a' b']|]; [|discriminate].
    intros [= <- <-]. destruct (IH a' b' eq_refl) as [-> Ha].
    split; [reflexivity|]. cbn [contains]. rewrite Ha, orb_false_r.
    apply Ascii.eqb_neq. exact Hne.
Qed.

Lemma partition_None (c : ascii) (s : string) :
  partition c s = None -> contains c s = false.
Proof.
  induction s as [|d s IH]; cbn [partition contains]; [reflexivity|].
  destruct (Ascii.eqb c d); [discriminate|].
  destruct (partition c s) as [[a b]|]; [discriminate|]. intros _. apply IH. reflexivity.
Qed.

Lemma rpartition_Some (c : ascii) (s a b : string) :
  rpartition c s = Some (a, b) -> s = a +:+ String c b /\ contains c b = false.
Proof.
  revert a b. induction s as [|d s IH]; intros a b; cbn [rpartition]; [discriminate|].
  destruct (rpartition c s) as [[a' b']|] eqn:Hr.
  - intros [= <- <-]. destruct (IH a' b' eq_refl) as [-> Hb]. split; [reflexivity|exact Hb].
  - destruct (Ascii.eqb_spec c d) as [->|Hne]; [|discriminate].
    intros [= <- <-]. split; [reflexivity|].
    clear IH. induction s as [|e s IHs]; [reflexivity|].
    cbn [rpartition contains] in *.
    destruct (rpartition d s) as [[? ?]|]; [discriminate|].
    destruct (Ascii.eqb d e); [discriminate|]. apply IHs. reflexivity.
Qed.

(** A part of a string holds no character the string does not hold. *)
Lemma contains_app_false (c : ascii) (a b : string) :
  contains c (a +:+ b) = false -> contains c a = false /\ contains c b = false.
Proof. rewrite contains_app. apply orb_false_elim. Qed.

Lemma contains_cons_false (c d : ascii) (s : string) :
  contains c (String d s) = false -> contains c s = false.
Proof. cbn [contains]. intros H. apply orb_false_elim in H as [_ H]. exact H. Qed.

Lemma break_at_app (p : ascii -> bool) (s : string) :
  s = fst (break_at p s) +:+ snd (break_at p s).
Proof.
  induction s as [|c s IH]; [reflexivity|]. cbn [break_at].
  destruct (p c); [reflexivity|].
  destruct (break_at p s) as [a b]. cbn [fst snd] in *. rewrite append_cons. congruence.
Qed.

Lemma break_at_fst (p : ascii -> bool) (s : string) (c : ascii) :
  p c = true -> contains c (fst (break_at p s)) = false.
Proof.
  intros Hc. induction s as [|d s IH]; [reflexivity|]. cbn [break_at].
  destruct (p d) eqn:Hd; [reflexivity|].
  destruct (break_at p s) as [a b]. cbn [fst contains] in *. rewrite IH, orb_false_r.
  apply Ascii.eqb_neq. intros ->. congruence.
Qed.

Lemma break_at_stop (p : ascii -> bool) (a : string) (c : ascii) (b : string) :
  (forall d, contains d a = true -> p d = false) -> p c = true ->
  break_at p (a +:+ String c b) = (a, String c b).
Proof.
  intros Ha Hc. induction a as [|d a IH]; rewrite ?append_cons, ?append_nil; cbn [break_at].
  - rewrite Hc. reflexivity.
  - rewrite (Ha d) by (cbn [contains]; rewrite Ascii.eqb_refl; reflexivity).
    rewrite IH; [reflexivity|].
    intros e He. apply Ha. cbn [contains]. rewrite He. apply orb_true_r.
Qed.

Lemma break_at_all (p : ascii -> bool) (a : string) :
  (forall d, contains d a = true -> p d = false) -> break_at p a = (a, "").
Proof.
  intros Ha. induction a as [|d a IH]; cbn [break_at]; [reflexivity|].
  rewrite (Ha d) by (cbn [contains]; rewrite Ascii.eqb_refl; reflexivity).
  rewrite IH; [reflexivity|].
  intros e He. apply Ha. cbn [contains]. rewrite He. apply orb_true_r.
Qed.

(** Lower-casing neither adds nor removes a character that is not a
    letter. *)
Lemma contains_lower (c : ascii) (s : string) :
  isalpha c = false -> contains c (lower s) = contains c s.
Proof.
  intros Hc. induction s as [|d s IH]; [reflexivity|]. cbn [lower contains].
  rewrite IH. f_equal. unfold lower_char.
  destruct (isupper d) eqn:Hd; [|reflexivity].
  destruct (Ascii.eqb_spec c d) as [->|Hne].
  - unfold isalpha in Hc. rewrite Hd in Hc. discriminate.
  - apply Ascii.eqb_neq. intros ->.
    unfold isupper, code in Hd. apply andb_true_iff in Hd as [H1 H2].
    apply Nat.leb_le in H1, H2.
    unfold isalpha, isupper, islower, code in Hc.
    rewrite nat_ascii_embedding in Hc by lia.
    apply orb_false_elim in Hc as [_ Hc].
    apply andb_false_iff in Hc as [Hc|Hc]; apply Nat.leb_gt in Hc; lia.
Qed.

Lemma nonempty_lower (s : string) : nonempty (lower s) = nonempty s.
Proof. destruct s; reflexivity. Qed.

Lemma contains_collapse (c d : ascii) (prev : bool) (s : string) :
  contains d s = false -> contains d (collapse_from c prev s) = false.
Proof.
  revert prev. induction s as [|e s IH]; intros prev; cbn [collapse_from contains];
    [reflexivity|].
  intros H. apply orb_false_elim in H as [He Hs].
  destruct (Ascii.eqb c e), prev; cbn [contains]; rewrite ?He, ?IH; auto.
Qed.

Lemma contains_join (c : ascii) (sep : string) (parts : list string) :
  contains c sep = false -> Forall (fun p => contains c p = false) parts ->
  contains c (join sep parts) = false.
Proof.
  intros Hsep. induction 1 as [|p ps Hp Hps IH]; [reflexivity|].
  cbn [join]. destruct ps as [|q qs]; [exact Hp|].
  rewrite !contains_app, Hp, Hsep, IH. reflexivity.
Qed.

(** *** Runs of one character *)

Lemma collapse_from_doubled (c : ascii) (prev : bool) (s : string) :
  Shape.doubled c (collapse_from c prev s) = false
  /\ (prev = true -> forall r, collapse_from c prev s <> String c r).
Proof.
  revert prev. induction s as [|d s IH]; intros prev; cbn [collapse_from].
  - split; [reflexivity|discriminate].
  - destruct (Ascii.eqb_spec c d) as [<-|Hne].
    + destruct (IH true) as [IH1 IH2]. specialize (IH2 eq_refl).
      assert (Hcons : Shape.doubled c (String c (collapse_from c true s)) = false).
      { cbn [Shape.doubled]. destruct (collapse_from c true s) as [|e r] eqn:He;
          [reflexivity|].
        rewrite Ascii.eqb_refl. cbn [andb].
        destruct (Ascii.eqb_spec e c) as [->|_]; [exfalso; apply (IH2 r); reflexivity|].
        exact IH1. }
      destruct prev; [split; [exact IH1|intros _; exact IH2]|].
      split; [exact Hcons|discriminate].
    + destruct (IH false) as [IH1 _]. split.
      * cbn [Shape.doubled]. destruct (collapse_from c false s) as [|e r] eqn:He;
          [reflexivity|].
        destruct (Ascii.eqb_spec d c) as [->|_]; [contradiction|]. exact IH1.
      * intros _ r [= <-]. contradiction.
Qed.

(** Collapsing twice is collapsing once. *)
Lemma collapse_from_fixed (c : ascii) (prev : bool) (s : string) :
  Shape.doubled c s = false ->
  (prev = true -> forall r, s <> String c r) ->
  collapse_from c prev s = s.
Proof.
  revert prev. induction s as [|d s IH]; intros prev Hd Hp; [reflexivity|].
  cbn [collapse_from].
  destruct (Ascii.eqb_spec c d) as [<-|Hne].
  - destruct prev; [exfalso; apply (Hp eq_refl s); reflexivity|].
    f_equal. apply IH.
    + destruct s as [|e r]; [reflexivity|]. cbn [Shape.doubled] in Hd.
      apply orb_false_elim in Hd as [_ Hd]. exact Hd.
    + intros _ r ->. cbn [Shape.doubled] in Hd. rewrite Ascii.eqb_refl in Hd. discriminate.
  - f_equal. apply IH; [|discriminate].
    destruct s as [|e r]; [reflexivity|]. cbn [Shape.doubled] in Hd.
    apply orb_false_elim in Hd as [_ Hd]. exact Hd.
Qed.

(** Collapsing removes occurrences of [c] and nothing else. *)
Lemma remove_collapse (c : ascii) (prev : bool) (s : string) :
  remove_char c (collapse_from c prev s) = remove_char c s.
Proof.
  revert prev. induction s as [|d s IH]; intros prev; cbn [collapse_from remove_char];
    [reflexivity|].
  destruct (Ascii.eqb c d) eqn:Hd.
  - destruct prev; cbn [remove_char]; rewrite ?Hd; apply IH.
  - cbn [remove_char]. rewrite Hd, IH. reflexivity.
Qed.

End PyStrFacts.

(** ** Facts on [urllib.parse] *)

Module UrlFacts.
Import PyStr UrlLib PyStrFacts.

(** The anatomy of a URL that [urlsplit] accepts. *)
Lemma urlsplit_inv (url : string) (r : ParseResult) :
  urlsplit url = Some r ->
  let cleaned := remove_char "010" (remove_char "013" (remove_char "009"
                   (lstrip_by c0_control_or_space url))) in
  exists body nl rest before_hash,
    ((exists before,
         partition ":" cleaned = Some (before, body) /\ scheme r = lower before
         /\ nonempty before = true /\ all_chars scheme_char before = true)
     \/ (scheme r = "" /\ body = cleaned))
    /\ ((body = "//" +:+ nl +:+ rest
         /\ break_at (fun c => contains c "/?#") (nl +:+ rest) = (nl, rest)
         /\ Shape.bracket_ok nl = true)
        \/ (nl = "" /\ rest = body /\ startswith "//" body = false))
    /\ netloc r = nl
    /\ (partition "#" rest = Some (before_hash, fragment r)
        \/ (partition "#" rest = None /\ before_hash = rest /\ fragment r = ""))
    /\ (partition "?" before_hash = Some (path r, query r)
        \/ (partition "?" before_hash = None /\ path r = before_hash /\ query r = ""))
    /\ params r = "".
Proof.
  intros H cleaned. unfold urlsplit in H. fold cleaned in H.
  set (pick := match partition ":" cleaned with
               | Some (String c0 _ as before, after) =>
                   if isascii c0 && isalpha c0 && all_chars scheme_char before
                   then (lower before, after)
                   else ("", cleaned)
               | _ => ("", cleaned)
               end) in H.
  assert (Hpick : (exists before,
                      partition ":" cleaned = Some (before, snd pick)
                      /\ fst pick = lower before
                      /\ nonempty before = true /\ all_chars scheme_char before = true)
                  \/ (fst pick = "" /\ snd pick = cleaned)).
  { subst pick. destruct (partition ":" cleaned) as [[[|c0 before] after]|]; auto.
    destruct (isascii c0 && isalpha c0 && all_chars scheme_char (String c0 before)) eqn:Hc;
      auto.
    left. exists (String c0 before). cbn [fst snd]. repeat split; auto.
    apply andb_true_iff in Hc as [_ Hc]. exact Hc. }
  destruct pick as [sch body]. cbn [fst snd] in Hpick.
  assert (Htail : forall nl rest,
             Some (let '(url1, fragment) :=
                     match partition "#" rest with Some uf => uf | None => (rest, "") end in
                   let '(url2, query) :=
                     match partition "?" url1 with Some uq => uq | None => (url1, "") end in
                   mkParseResult sch nl url2 "" query fragment) = Some r ->
             exists before_hash,
               scheme r = sch /\ netloc r = nl
               /\ (partition "#" rest = Some (before_hash, fragment r)
                   \/ (partition "#" rest = None /\ before_hash = rest /\ fragment r = ""))
               /\ (partition "?" before_hash = Some (path r, query r)
                   \/ (partition "?" before_hash = None /\ path r = before_hash
                       /\ query r = ""))
               /\ params r = "").
  { intros nl rest Hr.
    destruct (partition "#" rest) as [[u1 fr]|] eqn:Hh.
    - destruct (partition "?" u1) as [[u2 q]|] eqn:Hq; injection Hr as <-;
        exists u1; cbn [scheme netloc path query fragment params]; rewrite Hq; auto 10.
    - destruct (partition "?" rest) as [[u2 q]|] eqn:Hq; injection Hr as <-;
        exists rest; cbn [scheme netloc path query fragment params]; rewrite Hq; auto 10. }
  assert (Hdefault : startswith "//" body = false ->
                     Some (let '(url1, fragment) :=
                             match partition "#" body with
                             | Some uf => uf | None => (body, "") end in
                           let '(url2, query) :=
                             match partition "?" url1 with
                             | Some uq => uq | None => (url1, "") end in
                           mkParseResult sch "" url2 "" query fragment) = Some r ->
                     exists body0 nl rest before_hash,
                       ((exists before,
                            partition ":" cleaned = Some (before, body0)
                            /\ scheme r = lower before
                            /\ nonempty before = true
                            /\ all_chars scheme_char before = true)
                        \/ (scheme r = "" /\ body0 = cleaned))
                       /\ ((body0 = "//" +:+ nl +:+ rest
                            /\ break_at (fun c => contains c "/?#") (nl +:+ rest) = (nl, rest)
                            /\ Shape.bracket_ok nl = true)
                           \/ (nl = "" /\ rest = body0 /\ startswith "//" body0 = false))
                       /\ netloc r = nl
                       /\ (partition "#" rest = Some (before_hash, fragment r)
                           \/ (partition "#" rest = None /\ before_hash = rest
                               /\ fragment r = ""))
                       /\ (partition "?" before_hash = Some (path r, query r)
                           \/ (partition "?" before_hash = None /\ path r = before_hash
                               /\ query r = ""))
                       /\ params r = "").
  { intros Hs Hr. destruct (Htail "" body Hr) as (bh & Hsch & Hnl & Hf & Hq & Hp).
    exists body, "", body, bh. rewrite Hsch. split; [exact Hpick|].
    split; [right; auto|]. auto. }
  destruct body as [|a [|b rest]]; [apply Hdefault; [reflexivity|exact H]| |].
  { destruct a as [[] [] [] [] [] [] [] []]; apply Hdefault; (reflexivity || exact H). }
  destruct a as [[] [] [] [] [] [] [] []];
    try (apply Hdefault; [reflexivity|exact H]).
  destruct b as [[] [] [] [] [] [] [] []];
    try (apply Hdefault; [reflexivity|exact H]).
  clear Hdefault. cbn iota beta in H.
  pose proof (break_at_app (fun c => contains c "/?#") rest) as Happ.
  destruct (break_at (fun c => contains c "/?#") rest) as [nl rest'] eqn:Hb.
  cbn [fst snd] in Happ.
  destruct (contains "[" nl && negb (contains "]" nl)
            || contains "]" nl && negb (contains "[" nl)) eqn:H1; [discriminate|].
  destruct (contains "[" nl && contains "]" nl && negb (check_bracketed_netloc nl)) eqn:H2;
    [discriminate|].
  destruct (Htail nl rest' H) as (bh & Hsch & Hnl & Hf & Hq & Hp).
  exists (String "/" (String "/" rest)), nl, rest', bh. rewrite Hsch.
  split; [exact Hpick|]. split; [|auto].
  left. split; [rewrite Happ; reflexivity|]. split; [rewrite <- Happ; exact Hb|].
  unfold Shape.bracket_ok. rewrite H1, H2. reflexivity.
Qed.

(** [_splitparams] cuts its argument in two. *)
Lemma splitparams_parts (s : string) (c : ascii) :
  contains c s = false ->
  contains c (fst (_splitparams s)) = false /\ contains c (snd (_splitparams s)) = false.
Proof.
  intros Hs. unfold _splitparams.
  destruct (rpartition "/" s) as [[head tail]|] eqn:Hr.
  - apply rpartition_Some in Hr as [-> _].
    apply contains_app_false in Hs as [Hhead Htail].
    pose proof (contains_cons_false _ _ _ Htail) as Htail'.
    destruct (partition ";" tail) as [[before after]|] eqn:Hp; cbn [fst snd].
    + apply partition_Some in Hp as [-> _].
      apply contains_app_false in Htail' as [Hb Ha].
      apply contains_cons_false in Ha.
      rewrite !contains_app, Hhead, Hb. cbn [contains] in *.
      apply orb_false_elim in Htail as [-> _]. split; [reflexivity|exact Ha].
    + rewrite contains_app, Hhead, Htail. auto.
  - destruct (partition ";" s) as [[before after]|] eqn:Hp; cbn [fst snd]; [|auto].
    apply partition_Some in Hp as [-> _].
    apply contains_app_false in Hs as [Hb Ha]. apply contains_cons_false in Ha. auto.
Qed.

Lemma urlparse_inv (url : string) (r : ParseResult) :
  urlparse url = Some r ->
  exists r0, urlsplit url = Some r0
    /\ scheme r = scheme r0 /\ netloc r = netloc r0
    /\ query r = query r0 /\ fragment r = fragment r0
    /\ ((path r = path r0 /\ params r = params r0)
        \/ (path r = fst (_splitparams (path r0))
            /\ params r = snd (_splitparams (path r0)))).
Proof.
  unfold urlparse. destruct (urlsplit url) as [r0|]; [|discriminate].
  destruct (in_list (scheme r0) uses_params && contains ";" (path r0)).
  - destruct (_splitparams (path r0)) as [u p] eqn:Hsp. intros [= <-].
    exists r0. cbn [scheme netloc path params query fragment fst snd].
    repeat (split; [reflexivity|]). right. rewrite Hsp. split; reflexivity.
  - intros [= <-]. exists r0. repeat (split; [reflexivity|]). left. split; reflexivity.
Qed.

(** No part that [urlparse] returns, the fragment apart, holds a [#]. *)
Lemma urlparse_no_hash (url : string) (r : ParseResult) :
  urlparse url = Some r ->
  contains "#" (netloc r) = false /\ contains "#" (path r) = false
  /\ contains "#" (params r) = false.
Proof.
  intros H. destruct (urlparse_inv url r H)
    as (r0 & H0 & _ & Hnl & _ & _ & Hpath).
  destruct (urlsplit_inv url r0 H0)
    as (body & nl & rest & bh & _ & Hbody & Hnl0 & Hfrag & Hquery & Hparams).
  assert (Hnetloc : contains "#" (netloc r0) = false).
  { rewrite Hnl0. destruct Hbody as [(_ & Hb & _)|(-> & _)]; [|reflexivity].
    pose proof (break_at_fst (fun c => contains c "/?#") (nl +:+ rest) "#" eq_refl) as Hf.
    rewrite Hb in Hf. exact Hf. }
  assert (Hbh : contains "#" bh = false).
  { destruct Hfrag as [Hf|(Hf & -> & _)].
    - apply partition_Some in Hf as [_ Hf]. exact Hf.
    - apply partition_None in Hf. exact Hf. }
  assert (Hp0 : contains "#" (path r0) = false).
  { destruct Hquery as [Hq|(_ & -> & _)]; [|exact Hbh].
    apply partition_Some in Hq as [-> _].
    apply contains_app_false in Hbh as [Hbh _]. exact Hbh. }
  rewrite Hnl. split; [exact Hnetloc|].
  destruct Hpath as [[-> ->]|[-> ->]].
  - rewrite Hparams. auto.
  - apply splitparams_parts, Hp0.
Qed.

(** What [quote_plus] writes holds no [#]. *)
Lemma quote_plus_no_hash (s : string) : contains "#" (quote_plus s) = false.
Proof.
  induction s as [|c s IH]; [reflexivity|]. cbn [quote_plus].
  rewrite contains_app, IH, orb_false_r.
  destruct c as [[] [] [] [] [] [] [] []]; vm_compute; reflexivity.
Qed.

Lemma urlencode_no_hash (q : qdict) : contains "#" (urlencode q) = false.
Proof.
  unfold urlencode. apply contains_join; [reflexivity|].
  apply Forall_forall. intros p Hp. apply list_elem_of_In, in_flat_map in Hp as (kv & _ & Hp).
  apply in_map_iff in Hp as (elt & <- & _).
  rewrite !contains_app, !quote_plus_no_hash. reflexivity.
Qed.

End UrlFacts.

(** ** The shape of a normalised URL *)

Module NormalizeFacts.
Import PyStr UrlLib PyStrFacts UrlFacts Frontier.

(** The pieces [normalize_url] puts together. *)
Lemma normalize_url_inv (u n : string) :
  normalize_url u = Some n ->
  exists parsed,
    urlparse (strip u) = Some parsed
    /\ (scheme parsed = "http" \/ scheme parsed = "https")
    /\ nonempty (netloc parsed) = true
    /\ n = urlunparse (scheme parsed) (lower (netloc parsed)) (clean_path (path parsed))
                      (params parsed) (clean_query (query parsed)) "".
Proof.
  unfold normalize_url. destruct (urlparse (strip u)) as [parsed|]; [|discriminate].
  destruct (in_list (scheme parsed) ["http"; "https"]) eqn:Hs; [|discriminate].
  destruct (nonempty (netloc parsed)) eqn:Hn; [|discriminate]. cbn [negb].
  intros [= <-]. exists parsed. split; [reflexivity|].
  assert (Hscheme : scheme parsed = "http" \/ scheme parsed = "https").
  { unfold in_list in Hs. cbn [existsb] in Hs.
    destruct (String.eqb_spec (scheme parsed) "http"); [auto|].
    destruct (String.eqb_spec (scheme parsed) "https"); [auto|discriminate]. }
  split; [exact Hscheme|]. split; [exact Hn|].
  destruct Hscheme as [-> | ->]; reflexivity.
Qed.

Lemma clean_path_nonempty (p : string) : nonempty (clean_path p) = true.
Proof. unfold clean_path. destruct (nonempty (collapse_runs "/" _)) eqn:H; [exact H|reflexivity]. Qed.

(** A URL that normalises comes out with its scheme and [://] in front
    and without fragment: no [#] is left in it. *)
Theorem normalize_url_drops_fragment (u n : string) :
  normalize_url u = Some n ->
  (startswith "http://" n = true \/ startswith "https://" n = true)
  /\ contains "#" n = false.
Proof.
  intros H. destruct (normalize_url_inv u n H) as (parsed & Hp & Hs & Hn & ->).
  destruct (urlparse_no_hash _ _ Hp) as (Hnl & Hpath & Hparams).
  unfold urlunparse, urlunsplit. rewrite nonempty_lower, Hn. cbn [orb].
  assert (Hq : contains "#" (clean_query (query parsed)) = false).
  { unfold clean_query. destruct (nonempty (query parsed)); [|reflexivity].
    apply urlencode_no_hash. }
  assert (Hcp : contains "#" (clean_path (path parsed)) = false).
  { unfold clean_path, collapse_runs.
    destruct (nonempty (collapse_from _ _ _)); [|reflexivity].
    apply contains_collapse. destruct (nonempty (path parsed)); [exact Hpath|reflexivity]. }
  set (url := if nonempty (params parsed)
              then clean_path (path parsed) +:+ ";" +:+ params parsed
              else clean_path (path parsed)).
  assert (Hurl : contains "#" url = false).
  { subst url. destruct (nonempty (params parsed)); [|exact Hcp].
    rewrite !contains_app, Hcp, Hparams. reflexivity. }
  set (tail := if nonempty url && negb (startswith "/" url) then "/" +:+ url else url).
  assert (Htail : contains "#" tail = false).
  { subst tail. destruct (nonempty url && negb (startswith "/" url)); [|exact Hurl].
    rewrite contains_app, Hurl. reflexivity. }
  split.
  - destruct Hs as [-> | ->]; cbn [nonempty];
      destruct (nonempty (clean_query (query parsed))); [left|left|right|right];
      rewrite ?append_assoc;
      first [apply (startswith_append "http://")|apply (startswith_append "https://")].
  - assert (Hs' : contains "#" (scheme parsed) = false) by (destruct Hs as [-> | ->]; reflexivity).
    assert (Hne : nonempty (scheme parsed) = true) by (destruct Hs as [-> | ->]; reflexivity).
    rewrite Hne. cbn [nonempty].
    destruct (nonempty (clean_query (query parsed)));
      rewrite !contains_app, ?Hs', ?Htail, ?Hq, ?contains_lower, ?Hnl by reflexivity;
      reflexivity.
Qed.

Lemma normalize_url_drops_fragment_witness :
  normalize_url "  HTTPS://Example.COM//docs///api?utm_source=news&q=1#install  "
  = Some "https://example.com/docs/api?q=1"
  /\ contains "#" "https://example.com/docs/api?q=1" = false.
Proof.
  assert (H : normalize_url "  HTTPS://Example.COM//docs///api?utm_source=news&q=1#install  "
              = Some "https://example.com/docs/api?q=1") by (vm_compute; reflexivity).
  split; [exact H|].
  exact (proj2 (normalize_url_drops_fragment _ _ H)).
Defined.

(** The path block of [normalize_url] leaves a non-empty path without
    two slashes in a row; it only takes slashes away and changes nothing
    in a path it has already cleaned. *)
Theorem clean_path_collapses_slashes (p : string) :
  Shape.doubled "/" (clean_path p) = false
  /\ nonempty (clean_path p) = true
  /\ remove_char "/" (clean_path p) = remove_char "/" p
  /\ clean_path (clean_path p) = clean_path p.
Proof.
  assert (Hd : Shape.doubled "/" (clean_path p) = false).
  { unfold clean_path, collapse_runs.
    destruct (nonempty (collapse_from _ _ _)) eqn:Hn; [|reflexivity].
    apply collapse_from_doubled. }
  split; [exact Hd|]. split; [apply clean_path_nonempty|]. split.
  - unfold clean_path, collapse_runs.
    destruct (nonempty p) eqn:Hp.
    + destruct (nonempty (collapse_from "/" false p)) eqn:Hn.
      * apply remove_collapse.
      * rewrite <- (remove_collapse "/" false p).
        destruct (collapse_from "/" false p); [reflexivity|discriminate].
    + destruct p; [reflexivity|discriminate].
  - pose proof (clean_path_nonempty p) as Hne.
    unfold clean_path at 1. rewrite Hne. unfold collapse_runs.
    rewrite (collapse_from_fixed "/" false (clean_path p) Hd) by discriminate.
    rewrite Hne. reflexivity.
Qed.

End NormalizeFacts.

Module FetchFallbackFacts.
Import Config PyStr Fetcher Eff FetcherFacts.

(** The retry loop always returns a result. *)
Lemma fetch_with_retries_returns (w : world) (config : CrawlConfig) (url : string)
      (retries : option Z) :
  exists s events, _fetch_with_retries w config url retries = (Returns s, events).
Proof.
  unfold _fetch_with_retries, range.
  set (n := Z.to_nat (_ + 1)).
  destruct (retry_loop_spec w url n 0 "")
    as [(k & r & _ & _ & _ & Heq)|(_ & m & _ & Heq)]; eauto.
Qed.

(** [fetch] returns the static result unless all of this holds: the
    static result is [ok], the fallback is enabled, the page looks
    JS-heavy and the browser's result is [ok]; only then does it return the
    browser's result.  The browser is used at most once, after the static
    attempts, and never when the fallback is off or the static result is
    not [ok]; a result that is [ok] is never traded for one that is not. *)
Theorem fetch_falls_back_only_to_a_good_dynamic_result
        (w : world) (config : CrawlConfig) (url : string) :
  exists (s : FetchResult) (events : list event),
    _fetch_with_retries w config url None = (Returns s, events)
    /\ (let wanted := ok s && dynamic_fallback config && js_heavy w (html s) in
        fetch w config url
        = (Returns (if wanted && ok (dynamic_result w) then dynamic_result w else s),
           (events ++ if wanted then [DynamicFetch url] else [])%list))
    /\ (ok s = true -> exists r, fst (fetch w config url) = Returns r /\ ok r = true).
Proof.
  destruct (fetch_with_retries_returns w config url None) as (s & events & Heq).
  exists s, events. split; [exact Heq|].
  assert (Hfetch : fetch w config url
                   = (Returns (if ok s && dynamic_fallback config && js_heavy w (html s)
                                  && ok (dynamic_result w)
                               then dynamic_result w else s),
                      (events ++ if ok s && dynamic_fallback config && js_heavy w (html s)
                                 then [DynamicFetch url] else [])%list)).
  { unfold fetch, bind. rewrite Heq. cbn [fst snd].
    destruct (ok s && dynamic_fallback config && js_heavy w (html s)); cbn [andb].
    - unfold _fetch_dynamic, bind, emit, ret. cbn [fst snd].
      destruct (ok (dynamic_result w)); cbn [fst snd app]; reflexivity.
    - unfold ret. cbn [fst snd]. reflexivity. }
  split; [exact Hfetch|].
  intros Hok. rewrite Hfetch. cbn [fst].
  destruct (ok s && dynamic_fallback config && js_heavy w (html s) && ok (dynamic_result w))
    eqn:Hw.
  - exists (dynamic_result w). split; [reflexivity|].
    apply andb_true_iff in Hw as [_ Hw]. exact Hw.
  - exists s. split; [reflexivity|exact Hok].
Qed.

End FetchFallbackFacts.

Module FetchErrorFacts.
Import Config PyStr Fetcher Eff FetcherFacts Crawler CrawlLedger.

(** When every attempt to fetch a page raises, the page does not count
    and the error log gets one entry, [HTTP 0:] followed by the message of
    the last exception, or by [Bad status] when that message is empty;
    nothing else changes. *)
Theorem exhausted_fetch_is_logged_as_http_0
        (c : t) (w : page_world) (url : string) (d : Z) (msg : nat -> string) :
  robots_blocks (config c) w = false ->
  (0 <= max_retries (config c))%Z ->
  (forall k, static_attempt (network w) k = Raises (msg k)) ->
  _process_url c w url d
  = (Returns false,
     with_structurer c
       (add_error (structurer c) url
          ("HTTP 0: " +:+ (let e := msg (Z.to_nat (max_retries (config c))) in
                           if nonempty e then e else "Bad status")))).
Proof.
  intros Hrobots Hretries Hall. unfold _process_url.
  fold (robots_blocks (config c) w). rewrite Hrobots.
  assert (Hfetch : fst (fetch (network w) (config c) url)
                   = Returns (exhausted url (msg (Z.to_nat (max_retries (config c)))))).
  { unfold fetch, bind, _fetch_with_retries, range.
    set (n := Z.to_nat (max_retries (config c) + 1)).
    destruct (retry_loop_spec (network w) url n 0 "")
      as [(k & r & _ & _ & Hok & _)|(_ & m & Hm & Heq)].
    - rewrite Hall in Hok. discriminate.
    - rewrite Heq. cbn [fst snd].
      assert (Hn : n = S (Z.to_nat (max_retries (config c)))) by (subst n; lia).
      rewrite Hn in Hm. cbn [Nat.add] in Hm. rewrite Hall in Hm. injection Hm as <-.
      reflexivity. }
  rewrite Hfetch. reflexivity.
Qed.

Lemma exhausted_fetch_is_logged_as_http_0_witness :
  let c := new (Examples.example_config 2 100) (mkStructurer [] [] [] []) in
  _process_url c Scenes.unreachable_page "https://example.com/" 0
  = (Returns false,
     with_structurer c
       (add_error (structurer c) "https://example.com/" "HTTP 0: refused 2")).
Proof.
  intros c.
  exact (exhausted_fetch_is_logged_as_http_0
           c Scenes.unreachable_page "https://example.com/" 0
           (fun k => "refused " +:+ pretty k)
           eq_refl ltac:(vm_compute; discriminate) (fun k => eq_refl)).
Defined.

End FetchErrorFacts.

Module ImageLedgerFacts.
Import PyStr ImageExtractor ImageLedger.

Ltac dropped :=
  split; [reflexivity|]; split; [first [reflexivity|assumption]|]; split; [set_solver|];
  let r := fresh "r" in let Hr := fresh "Hr" in intros r Hr; discriminate.

Lemma save_image_url (self : t) (w : world) (url page_url alt data : string)
      (r : ImageRecord) :
  save_image self w url page_url alt data = Some r -> image_url r = url.
Proof.
  unfold save_image. destruct (UrlLib.urlparse page_url); [|discriminate].
  destruct (_guess_ext url data); [|discriminate].
  destruct (write_file w _ data); [|discriminate]. intros [= <-]. reflexivity.
Qed.

(** One image: the settings stay, the set of seen hashes only grows, and
    an image that is kept and decodes is large enough and has a hash that
    was not seen before and is seen afterwards. *)
Lemma process_image_ledger (self : t) (w : world) (url page_url alt : string) :
  HAS_IMAGEHASH w = true -> download self = true ->
  let '(r, self', _) := _process_image self w url page_url alt in
  min_size self' = min_size self /\ download self' = download self
  /\ _seen_hashes self ⊆ _seen_hashes self'
  /\ forall rec, r = Some rec ->
       image_url rec = url
       /\ forall width height h, decoded w url = Some (width, height, h) ->
            (min_size self <= width)%Z /\ (min_size self <= height)%Z
            /\ (h ∉ _seen_hashes self) /\ (h ∈ _seen_hashes self').
Proof.
  intros Hlib Hdown. unfold _process_image, decoded. rewrite Hdown, Hlib. cbn [negb].
  destruct (http_get w url) as [[status data]|]; [|dropped].
  destruct (negb (status =? 200)%Z); [dropped|].
  destruct (negb (nonempty data)); [dropped|].
  unfold size_and_dedup.
  destruct (image_size w data) as [[width height]|].
  2:{ split; [reflexivity|]. split; [first [reflexivity|assumption]|]. split; [set_solver|].
      intros rec Hr. split; [apply (save_image_url _ _ _ _ _ _ _ Hr)|]. discriminate. }
  destruct ((width <? min_size self)%Z || (height <? min_size self)%Z) eqn:Hsize;
    [dropped|].
  apply orb_false_elim in Hsize as [Hw Hh]. apply Z.ltb_ge in Hw, Hh.
  destruct (phash w data) as [h|].
  2:{ split; [reflexivity|]. split; [first [reflexivity|assumption]|]. split; [set_solver|].
      intros rec Hr. split; [apply (save_image_url _ _ _ _ _ _ _ Hr)|]. discriminate. }
  destruct (bool_decide (h ∈ _seen_hashes self)) eqn:Hseen; [dropped|].
  apply bool_decide_eq_false in Hseen. cbn [min_size download _seen_hashes].
  split; [reflexivity|]. split; [first [reflexivity|assumption]|]. split; [set_solver|].
  intros rec Hr. split; [apply (save_image_url _ _ _ _ _ _ _ Hr)|].
  intros width' height' h' [= <- <- <-]. split; [exact Hw|]. split; [exact Hh|].
  split; [exact Hseen|set_solver].
Qed.

Lemma process_all_ledger (image_urls : list (string * string)) (self : t) (w : world)
      (page_url : string) :
  HAS_IMAGEHASH w = true -> download self = true ->
  let '(records, self', _) := process_all self w page_url image_urls in
  min_size self' = min_size self /\ download self' = download self
  /\ _seen_hashes self ⊆ _seen_hashes self'
  /\ (forall rec width height h,
         rec ∈ records -> decoded w (image_url rec) = Some (width, height, h) ->
         (min_size self <= width)%Z /\ (min_size self <= height)%Z
         /\ (h ∉ _seen_hashes self) /\ (h ∈ _seen_hashes self'))
  /\ NoDup (omap (fun rec => snd <$> decoded w (image_url rec)) records).
Proof.
  intros Hlib. revert self. induction image_urls as [|[url alt] rest IH]; intros self Hdown.
  - cbn [process_all]. split; [reflexivity|]. split; [reflexivity|]. split; [set_solver|].
    split; [|constructor].
    intros rec width height h Hin. apply elem_of_nil in Hin as [].
  - cbn [process_all].
    pose proof (process_image_ledger self w url page_url alt Hlib Hdown) as H1.
    destruct (_process_image self w url page_url alt) as [[r self1] reqs].
    destruct H1 as (Hm1 & Hd1 & Hs1 & Hkept).
    specialize (IH self1 ltac:(congruence)).
    destruct (process_all self1 w page_url rest) as [[records self2] reqs2].
    destruct IH as (Hm2 & Hd2 & Hs2 & Hall & Hnd).
    split; [congruence|]. split; [congruence|]. split; [set_solver|].
    assert (Hrest : forall rec width height h,
               rec ∈ records -> decoded w (image_url rec) = Some (width, height, h) ->
               (min_size self <= width)%Z /\ (min_size self <= height)%Z
               /\ (h ∉ _seen_hashes self) /\ (h ∈ _seen_hashes self2)).
    { intros rec width height h Hin Hdec.
      destruct (Hall rec width height h Hin Hdec) as (Hw & Hh & Hnew & Hseen).
      rewrite Hm1 in Hw, Hh. split; [exact Hw|]. split; [exact Hh|]. split; [set_solver|exact Hseen]. }
    destruct r as [rec0|]; cbn [app]; [|split; [exact Hrest|exact Hnd]].
    destruct (Hkept rec0 eq_refl) as [Hurl Hdec0]. split.
    + intros rec width height h Hin Hdec.
      apply elem_of_cons in Hin as [->|Hin]; [|eauto].
      rewrite Hurl in Hdec. destruct (Hdec0 width height h Hdec) as (Hw & Hh & Hnew & Hseen).
      split; [exact Hw|]. split; [exact Hh|]. split; [exact Hnew|set_solver].
    + cbn [omap list_omap].
      destruct (decoded w (image_url rec0)) as [[[width height] h]|] eqn:Hdec;
        cbn [fmap option_fmap option_map snd]; [|exact Hnd].
      apply NoDup_cons. split; [|exact Hnd].
      intros Hin. apply list_elem_of_omap in Hin as (rec & Hin & Hrec).
      destruct (decoded w (image_url rec)) as [[[width' height'] h']|] eqn:Hdec';
        [|discriminate].
      cbn in Hrec. injection Hrec as ->.
      destruct (Hall rec width' height' h Hin Hdec') as (_ & _ & Hnew & _).
      apply Hnew. rewrite Hurl in Hdec. apply (Hdec0 width height h Hdec).
Qed.

(** With the imaging libraries present and downloads on, the images an
    extractor keeps from one page are large and look different: every kept
    image that decodes has both sides at least [min_size] and a perceptual
    hash the extractor had not seen before, and no two kept images that
    decode have the same perceptual hash. *)
Theorem kept_images_are_large_and_look_different
        (self : t) (w : world) (page_url : string) (image_urls : list (string * string)) :
  HAS_IMAGEHASH w = true -> download self = true ->
  let records := fst (fst (process_all self w page_url image_urls)) in
  Forall (fun rec =>
            forall width height h,
              decoded w (image_url rec) = Some (width, height, h) ->
              (min_size self <= width)%Z /\ (min_size self <= height)%Z
              /\ (h ∉ _seen_hashes self))
         records
  /\ NoDup (omap (fun rec => snd <$> decoded w (image_url rec)) records).
Proof.
  intros Hlib Hdown records.
  pose proof (process_all_ledger image_urls self w page_url Hlib Hdown) as H.
  subst records. destruct (process_all self w page_url image_urls) as [[records self'] reqs].
  cbn [fst]. destruct H as (_ & _ & _ & Hall & Hnd). split; [|exact Hnd].
  apply Forall_forall. intros rec Hin width height h Hdec.
  destruct (Hall rec width height h Hin Hdec) as (Hw & Hh & Hnew & _). auto.
Qed.

Lemma kept_images_are_large_and_look_different_witness :
  let self := new "site_dataset" None None in
  let urls := [("https://example.com/a.png", "a"); ("https://example.com/icon.png", "");
               ("https://example.com/b.png", "b")] in
  map image_url (fst (fst (process_all self Scenes.gallery "https://example.com/" urls)))
  = ["https://example.com/a.png"]
  /\ NoDup (omap (fun rec => snd <$> decoded Scenes.gallery (image_url rec))
                 (fst (fst (process_all self Scenes.gallery "https://example.com/" urls)))).
Proof.
  intros self urls. split; [vm_compute; reflexivity|].
  exact (proj2 (kept_images_are_large_and_look_different
                  self Scenes.gallery "https://example.com/" urls eq_refl eq_refl)).
Defined.

End ImageLedgerFacts.

(** ** Facts on the regular expressions *)

Module ReFacts.
Import PyStr Re PyStrFacts.

Lemma lower_char_idem (c : ascii) : lower_char (lower_char c) = lower_char c.
Proof. destruct c as [[] [] [] [] [] [] [] []]; reflexivity. Qed.

Lemma lower_idem (s : string) : lower (lower s) = lower s.
Proof.
  induction s as [|c s IH]; [reflexivity|]. cbn [lower]. rewrite lower_char_idem, IH.
  reflexivity.
Qed.

Lemma match_lit_same (c d : ascii) (r : string) :
  lower_char d = lower_char c -> match_lit c (String d r) = Some r.
Proof. intros H. cbn [match_lit]. rewrite H, Ascii.eqb_refl. reflexivity. Qed.

(** A literal matches every spelling of itself, whatever the case. *)
Lemma matches_lits (again : re -> string -> (string -> bool) -> bool)
      (w w' b : string) (k : string -> bool) :
  lower w' = lower w -> matches_with again (lits w) (w' +:+ b) k = k b.
Proof.
  revert w'. induction w as [|c w IH]; intros w' Hw.
  - destruct w'; [reflexivity|discriminate].
  - destruct w' as [|d w']; [discriminate|]. cbn [lower] in Hw. injection Hw as Hc Hw.
    rewrite append_cons. cbn [lits]. destruct w as [|c2 w].
    + destruct w'; [|discriminate]. cbn [matches_with]. rewrite append_nil.
      rewrite (match_lit_same c d b Hc). reflexivity.
    + cbn [matches_with]. rewrite (match_lit_same c d _ Hc). apply IH, Hw.
Qed.

Lemma matches_alts (again : re -> string -> (string -> bool) -> bool)
      (l : list re) (r : re) (s : string) (k : string -> bool) :
  In r l -> matches_with again r s k = true -> matches_with again (alts l) s k = true.
Proof.
  induction l as [|r0 l IH]; intros Hin Hr; [destruct Hin|].
  cbn [alts]. destruct l as [|r1 l].
  - destruct Hin as [->|[]]. exact Hr.
  - cbn [matches_with]. destruct Hin as [->|Hin]; [rewrite Hr; reflexivity|].
    rewrite (IH Hin Hr). apply orb_true_r.
Qed.

Lemma search_here (r : re) (s : string) : match_ r s = true -> search r s = true.
Proof. intros H. destruct s; cbn [search]; rewrite H; reflexivity. Qed.

(** A match in a part of a string is a match in the string. *)
Lemma search_suffix (r : re) (a s : string) :
  search r s = true -> search r (a +:+ s) = true.
Proof.
  intros H. induction a as [|c a IH]; [exact H|].
  rewrite append_cons. cbn [search]. rewrite IH. apply orb_true_r.
Qed.

End ReFacts.

(** ** The link extractor *)

Module LinkFacts.
Import PyStr UrlLib Soup Re PyStrFacts ReFacts LinkExtractor.

Lemma skip_patterns_alts :
  _SKIP_PATTERNS = alts (map lits skip_words ++ [Seq (Lit "#") Eos]).
Proof. reflexivity. Qed.

(** The skip filter is a test for substrings, whatever the case: a URL
    that holds one of the words of [_SKIP_PATTERNS] anywhere, in any
    mixture of upper and lower case, matches the pattern and so passes no
    filter. *)
Theorem skip_patterns_match_anywhere (w a w' b : string) :
  In w skip_words -> lower w' = w ->
  search _SKIP_PATTERNS (a +:+ w' +:+ b) = true
  /\ passes_filters (a +:+ w' +:+ b) = false.
Proof.
  intros Hw Hlow.
  assert (Hsearch : search _SKIP_PATTERNS (a +:+ w' +:+ b) = true).
  { apply search_suffix, search_here. unfold match_. cbn [matches].
    rewrite skip_patterns_alts.
    apply (matches_alts _ _ (lits w)).
    - apply in_or_app. left. apply in_map, Hw.
    - apply matches_lits. rewrite <- Hlow. symmetry. apply lower_idem. }
  split; [exact Hsearch|].
  unfold passes_filters. destruct (urlparse _); [|reflexivity].
  rewrite Hsearch. cbn [negb]. rewrite andb_false_r. reflexivity.
Qed.

Lemma skip_patterns_match_anywhere_witness :
  search _SKIP_PATTERNS "https://example.com/blog/AUTHors/7" = true
  /\ passes_filters "https://example.com/blog/AUTHors/7" = false.
Proof.
  exact (skip_patterns_match_anywhere "auth" "https://example.com/blog/" "AUTH" "ors/7"
           ltac:(vm_compute; tauto) eq_refl).
Defined.

Section WithUrljoin.
Variable urljoin : string -> string -> string.

(** What the loop of [extract] adds to its two lists. *)
Lemma classify_spec (self : t) (page_url : string) (tags : list node)
      (internal external i e : list string) :
  classify urljoin self page_url tags internal external = Returns (i, e) ->
  exists i' e',
    i = (internal ++ i')%list /\ e = (external ++ e')%list
    /\ Forall (fun u => passes_filters u = true /\ is_internal self u = true) i'
    /\ Forall (fun u => passes_filters u = true /\ is_internal self u = false) e'.
Proof.
  revert internal external. induction tags as [|a_tag rest IH]; intros internal external.
  - intros [= <- <-]. exists [], []. rewrite !app_nil_r. repeat split; constructor.
  - cbn [classify].
    destruct (negb (nonempty (strip (default "" (get a_tag "href"))))); [apply IH|].
    set (abs_url := urljoin page_url (strip (default "" (get a_tag "href")))).
    destruct (urlparse abs_url) as [parsed|] eqn:Hp; [|discriminate].
    destruct (in_list (scheme parsed) ["http"; "https"]) eqn:Hs; cbn [negb]; [|apply IH].
    destruct (search _SKIP_PATTERNS abs_url) eqn:Hk; [apply IH|].
    destruct (in_list (_get_extension (path parsed)) _SKIP_EXTENSIONS) eqn:He; [apply IH|].
    assert (Hpass : passes_filters abs_url = true).
    { unfold passes_filters. rewrite Hp, Hs, Hk, He. reflexivity. }
    destruct (bool_decide (lower (netloc parsed) ∈ allowed_domains self)
              || bool_decide (Frontier.strip_www (lower (netloc parsed))
                              ∈ allowed_domains self)) eqn:Hd.
    + intros H. destruct (IH _ _ H) as (i' & e' & -> & -> & Hi & He').
      exists (abs_url :: i'), e'. rewrite <- app_assoc. repeat split; auto.
      constructor; [|exact Hi]. split; [exact Hpass|].
      unfold is_internal. rewrite Hp. exact Hd.
    + intros H. destruct (IH _ _ H) as (i' & e' & -> & -> & Hi & He').
      exists i', (abs_url :: e'). rewrite <- app_assoc. repeat split; auto.
      constructor; [|exact He']. split; [exact Hpass|].
      unfold is_internal. rewrite Hp. exact Hd.
Qed.

Lemma fromkeys_Forall (P : string -> Prop) (l : list string) :
  Forall P l -> Forall P (fromkeys l).
Proof.
  intros H. apply Forall_forall. intros u Hu. apply list_elem_of_In in Hu.
  unfold fromkeys in Hu. apply (proj1 (QueryFacts.first_occurrences_In l u)) in Hu.
  rewrite Forall_forall in H. apply H. apply list_elem_of_In. exact Hu.
Qed.

(** For an extractor and a frontier built from the same list of domains,
    as the crawler builds them: the two lists [extract] returns have no
    repetition and nothing in common; every link in them is an http or
    https URL that matches no skip pattern and has no skipped extension;
    the frontier's domain test accepts every internal link and refuses
    every external one. *)
Theorem links_are_filtered_classified_and_unique
        (domains : list string) (maxd : Z) (soup : node) (page_url : string)
        (internal external : list string) :
  extract urljoin (new domains) soup page_url = Returns (internal, external) ->
  NoDup internal /\ NoDup external
  /\ (forall u, u ∈ internal -> u ∉ external)
  /\ Forall (fun u => passes_filters u = true
                      /\ Frontier._domain_allowed (Frontier.new domains maxd) u
                         = Returns true) internal
  /\ Forall (fun u => passes_filters u = true
                      /\ Frontier._domain_allowed (Frontier.new domains maxd) u
                         = Returns false) external.
Proof.
  unfold extract.
  destruct (classify urljoin (new domains) page_url (anchors soup) [] [])
    as [[i e]|] eqn:Hc; [|discriminate].
  intros [= <- <-].
  destruct (classify_spec _ _ _ _ _ _ _ Hc) as (i' & e' & -> & -> & Hi & He).
  cbn [app] in *.
  assert (Hagree : forall u b, passes_filters u = true ->
                               is_internal (new domains) u = b ->
                               Frontier._domain_allowed (Frontier.new domains maxd) u
                               = Returns b).
  { intros u b Hpass <-. unfold passes_filters, is_internal, Frontier._domain_allowed in *.
    destruct (urlparse u); [reflexivity|discriminate]. }
  pose proof (fromkeys_Forall _ _ Hi) as Hi'. pose proof (fromkeys_Forall _ _ He) as He'.
  split; [apply NoDup_ListNoDup, QueryFacts.first_occurrences_NoDup|].
  split; [apply NoDup_ListNoDup, QueryFacts.first_occurrences_NoDup|].
  split; [|split].
  - intros u Hu Hu'. rewrite Forall_forall in Hi', He'.
    destruct (Hi' u Hu) as [_ H1]. destruct (He' u Hu') as [_ H2]. congruence.
  - eapply Forall_impl; [exact Hi'|]. intros u [Hpass Hint]. split; [exact Hpass|].
    apply Hagree; assumption.
  - eapply Forall_impl; [exact He'|]. intros u [Hpass Hint]. split; [exact Hpass|].
    apply Hagree; assumption.
Qed.

End WithUrljoin.

Lemma links_are_filtered_classified_and_unique_witness :
  extract Scenes.urljoin_absolute (new ["example.com"]) Scenes.link_page
          "https://example.com/"
  = Returns (["https://example.com/docs"], ["https://other.org/about"])
  /\ NoDup ["https://example.com/docs"]
  /\ Frontier._domain_allowed (Frontier.new ["example.com"] 3) "https://other.org/about"
     = Returns false.
Proof.
  assert (H : extract Scenes.urljoin_absolute (new ["example.com"]) Scenes.link_page
                      "https://example.com/"
              = Returns (["https://example.com/docs"], ["https://other.org/about"]))
    by (vm_compute; reflexivity).
  split; [exact H|].
  destruct (links_are_filtered_classified_and_unique
              Scenes.urljoin_absolute ["example.com"] 3 _ _ _ _ H)
    as (Hi & _ & _ & _ & He).
  split; [exact Hi|]. inversion He as [|? ? [_ Hext] _]. exact Hext.
Defined.

End LinkFacts.

(** ** Facts on runs, prefixes and suffixes *)

Module RunFacts.
Import PyStr Re PyStrFacts ReFacts.

Lemma all_chars_app (q : ascii -> bool) (a b : string) :
  all_chars q (a +:+ b) = all_chars q a && all_chars q b.
Proof.
  induction a as [|c a IH]; [reflexivity|]. rewrite append_cons. cbn [all_chars].
  rewrite IH, andb_assoc. reflexivity.
Qed.

Lemma doubled_cons2 (c a b : ascii) (s : string) :
  Shape.doubled c (String a (String b s))
  = (Ascii.eqb a c && Ascii.eqb b c) || Shape.doubled c (String b s).
Proof. reflexivity. Qed.

Lemma doubled_cons_other (c d : ascii) (s : string) :
  Ascii.eqb d c = false -> Shape.doubled c (String d s) = Shape.doubled c s.
Proof.
  intros Hd. destruct s as [|e s]; [reflexivity|].
  rewrite doubled_cons2, Hd. reflexivity.
Qed.

(** A string without a doubled [c] has no doubled [c] in its parts. *)
Lemma doubled_app_false (c : ascii) (a b : string) :
  Shape.doubled c (a +:+ b) = false ->
  Shape.doubled c a = false /\ Shape.doubled c b = false.
Proof.
  induction a as [|d a IH]; [auto|]. rewrite append_cons.
  destruct a as [|e a].
  - rewrite append_nil. intros H. split; [reflexivity|].
    destruct b as [|e b]; [reflexivity|]. rewrite doubled_cons2 in H.
    apply orb_false_elim in H as [_ H]. exact H.
  - rewrite append_cons in *. rewrite !doubled_cons2. intros H.
    apply orb_false_elim in H as [H1 H2]. destruct (IH H2) as [Ha Hb].
    split; [|exact Hb]. rewrite H1. exact Ha.
Qed.

(** Two strings without a doubled [c] join into one when [c] does not
    end the first or does not begin the second. *)
Lemma doubled_app (c : ascii) (a b : string) :
  Shape.doubled c a = false -> Shape.doubled c b = false ->
  (forall a', a <> a' +:+ String c "") \/ (forall b', b <> String c b') ->
  Shape.doubled c (a +:+ b) = false.
Proof.
  induction a as [|d a IH]; intros Ha Hb Hsep; [exact Hb|].
  rewrite append_cons. destruct a as [|e a].
  - rewrite append_nil. destruct b as [|e b]; [reflexivity|].
    rewrite doubled_cons2, Hb, orb_false_r.
    destruct (Ascii.eqb_spec d c) as [->|_]; [|reflexivity].
    destruct (Ascii.eqb_spec e c) as [->|_]; [|reflexivity].
    destruct Hsep as [H|H]; [exfalso; apply (H ""); reflexivity
                            |exfalso; apply (H b); reflexivity].
  - rewrite append_cons. rewrite doubled_cons2 in *.
    apply orb_false_elim in Ha as [Ha1 Ha2]. rewrite Ha1. cbn [orb].
    rewrite <- append_cons. apply IH; [exact Ha2|exact Hb|].
    destruct Hsep as [H|H]; [left|right; exact H].
    intros a' Heq. apply (H (String d a')). rewrite append_cons, Heq. reflexivity.
Qed.

Lemma lstrip_suffix (p : ascii -> bool) (s : string) :
  exists a, s = a +:+ lstrip_by p s /\ all_chars p a = true.
Proof.
  induction s as [|c s IH]; [exists ""; auto|]. cbn [lstrip_by].
  destruct (p c) eqn:Hc; [|exists ""; auto].
  destruct IH as (a & Ha & Hp). exists (String c a). rewrite append_cons, <- Ha.
  cbn [all_chars]. rewrite Hc, Hp. auto.
Qed.

Lemma lstrip_head (p : ascii -> bool) (s : string) (c : ascii) (r : string) :
  lstrip_by p s = String c r -> p c = false.
Proof.
  induction s as [|d s IH]; cbn [lstrip_by]; [discriminate|].
  destruct (p d) eqn:Hd; [exact IH|]. intros [= <- <-]. exact Hd.
Qed.

Lemma rstrip_prefix (p : ascii -> bool) (s : string) :
  exists b, s = rstrip_by p s +:+ b /\ all_chars p b = true.
Proof.
  induction s as [|c s IH]; [exists ""; auto|]. cbn [rstrip_by].
  destruct IH as (b & Hb & Hp).
  destruct (rstrip_by p s) as [|d r] eqn:Hr.
  - rewrite append_nil in Hb. subst b. destruct (p c) eqn:Hc.
    + exists (String c s). rewrite append_nil. cbn [all_chars]. rewrite Hc, Hp. auto.
    + exists s. split; [reflexivity|exact Hp].
  - exists b. rewrite append_cons, <- Hb. auto.
Qed.

(** What [rstrip] leaves does not end with a stripped character. *)
Lemma rstrip_last (p : ascii -> bool) (s a : string) (c : ascii) :
  rstrip_by p s = a +:+ String c "" -> p c = false.
Proof.
  revert a. induction s as [|d s IH]; intros a; cbn [rstrip_by].
  - destruct a; discriminate.
  - destruct (rstrip_by p s) as [|e r] eqn:Hr.
    + destruct (p d) eqn:Hd; [destruct a; discriminate|].
      destruct a as [|a0 a]; [intros [= <-]; exact Hd|].
      rewrite append_cons. intros [= _ H]. destruct a; discriminate.
    + destruct a as [|a0 a].
      * rewrite append_nil. intros H. discriminate H.
      * rewrite append_cons. intros [= _ H]. apply (IH a). exact H.
Qed.

Lemma substring_prefix (n : nat) (s : string) :
  exists b, s = String.substring 0 n s +:+ b /\ String.length (String.substring 0 n s) <= n.
Proof.
  revert s. induction n as [|n IH]; intros s.
  - exists s. destruct s; cbn [String.substring String.length]; rewrite ?append_nil; auto.
  - destruct s as [|c s]; [exists ""; cbn; split; [reflexivity|lia]|].
    cbn [String.substring]. destruct (IH s) as (b & Hb & Hlen).
    exists b. rewrite append_cons, <- Hb. cbn [String.length]. split; [reflexivity|lia].
Qed.

(** *** [re.sub] of runs of one or more class characters by one of them *)

Section Runs.
Variable p : ascii -> bool.
Variable r : ascii.
Hypothesis Hr : p r = true.

Let keep (c : ascii) : bool := negb (p c) || Ascii.eqb c r.

Lemma flush_one (run : string) :
  flush 1 (String r "") run = if nonempty run then String r "" else "".
Proof.
  unfold flush. destruct run as [|c run]; [reflexivity|]. reflexivity.
Qed.

Lemma nonempty_snoc (run : string) (c : ascii) : nonempty (run +:+ String c "") = true.
Proof. destruct run; reflexivity. Qed.

(** The result holds characters outside the class and single [r]s, each
    in front of a character outside the class or at the end. *)
Lemma sub_runs_from_shape (run s : string) :
  let out := sub_runs_from p 1 (String r "") run s in
  all_chars keep out = true
  /\ Shape.doubled r out = false
  /\ (nonempty run = false -> forall out', out = String r out' ->
      exists s', s = String r s' \/ exists c, s = String c s' /\ p c = true).
Proof.
  revert run. induction s as [|c s IH]; intros run; cbn [sub_runs_from].
  - rewrite flush_one. destruct (nonempty run) eqn:Hn.
    + cbn. subst keep. cbn. rewrite Hr, Ascii.eqb_refl. cbn.
      repeat split; auto. discriminate.
    + repeat split; auto. discriminate.
  - destruct (p c) eqn:Hc.
    + destruct (IH (run +:+ String c "")) as (Hall & Hd & _).
      split; [exact Hall|]. split; [exact Hd|].
      intros _ out' _. exists s. right. exists c. auto.
    + destruct (IH "") as (Hall & Hd & Hhead). specialize (Hhead eq_refl).
      rewrite flush_one.
      assert (Hcr : Ascii.eqb c r = false).
      { apply Ascii.eqb_neq. intros ->. congruence. }
      assert (Hkeep : keep c = true) by (subst keep; cbn; rewrite Hc; reflexivity).
      destruct (nonempty run) eqn:Hn.
      * rewrite append_cons, append_nil. split; [|split; [|discriminate]].
        -- cbn [all_chars]. rewrite Hkeep, Hall. subst keep. cbn.
           rewrite Hr, Ascii.eqb_refl. reflexivity.
        -- rewrite doubled_cons2, Hcr, andb_false_r. cbn [orb].
           rewrite doubled_cons_other by exact Hcr. exact Hd.
      * rewrite append_nil. split; [|split].
        -- cbn [all_chars]. rewrite Hkeep, Hall. reflexivity.
        -- rewrite doubled_cons_other by exact Hcr. exact Hd.
        -- intros _ out' [= -> _]. rewrite Ascii.eqb_refl in Hcr. discriminate.
Qed.

End Runs.

Lemma well_shaped_prefix (r : ascii) (q : ascii -> bool) (a b : string) :
  Shape.well_shaped r q (a +:+ b) -> Shape.well_shaped r q a.
Proof.
  intros [Hall Hd]. rewrite all_chars_app in Hall. apply andb_true_iff in Hall as [Ha _].
  apply doubled_app_false in Hd as [Hd _]. split; assumption.
Qed.

Lemma well_shaped_suffix (r : ascii) (q : ascii -> bool) (a b : string) :
  Shape.well_shaped r q (a +:+ b) -> Shape.well_shaped r q b.
Proof.
  intros [Hall Hd]. rewrite all_chars_app in Hall. apply andb_true_iff in Hall as [_ Hb].
  apply doubled_app_false in Hd as [_ Hd]. split; assumption.
Qed.

End RunFacts.

(** ** The file names of the readable export *)

Module SlugFacts.
Import PyStr UrlLib Re PyStrFacts ReFacts RunFacts Structurer Shape.

Lemma lower_slug_char (c : ascii) :
  negb (negb (is_alnum c)) || Ascii.eqb c "_" = true -> slug_char (lower_char c) = true.
Proof. destruct c as [[] [] [] [] [] [] [] []]; vm_compute; auto. Qed.

Lemma lower_char_underscore (c : ascii) :
  Ascii.eqb (lower_char c) "_" = Ascii.eqb c "_".
Proof. destruct c as [[] [] [] [] [] [] [] []]; reflexivity. Qed.

Lemma all_chars_lower (s : string) :
  all_chars (fun c => negb (negb (is_alnum c)) || Ascii.eqb c "_") s = true ->
  all_chars slug_char (lower s) = true.
Proof.
  induction s as [|c s IH]; [reflexivity|]. cbn [all_chars lower]. intros H.
  apply andb_true_iff in H as [Hc Hs]. rewrite (lower_slug_char c Hc), (IH Hs). reflexivity.
Qed.

Lemma doubled_lower (s : string) :
  Shape.doubled "_" (lower s) = Shape.doubled "_" s.
Proof.
  induction s as [|c s IH]; [reflexivity|]. destruct s as [|d s]; [reflexivity|].
  cbn [lower] in *. rewrite !doubled_cons2, !lower_char_underscore, IH. reflexivity.
Qed.

Lemma startswith_char (a c : ascii) (s : string) :
  startswith (String a "") (String c s) = Ascii.eqb a c.
Proof.
  unfold startswith. cbn [String.prefix].
  destruct (ascii_dec a c) as [->|Hne].
  - rewrite Ascii.eqb_refl. destruct s; reflexivity.
  - symmetry. apply Ascii.eqb_neq. exact Hne.
Qed.

(** A slug is a safe file name: [_url_to_slug] returns a non-empty
    string of at most 80 characters, all of them lower-case letters,
    digits or [_], that does not begin with [_] and has no two [_] in a
    row. *)
Theorem slug_is_a_safe_file_name (url slug : string) :
  _url_to_slug url = Returns slug ->
  nonempty slug = true
  /\ (String.length slug <= 80)%nat
  /\ all_chars slug_char slug = true
  /\ startswith "_" slug = false
  /\ Shape.doubled "_" slug = false.
Proof.
  unfold _url_to_slug. destruct (urlparse url) as [parsed|]; [|discriminate].
  set (full := netloc parsed +:+ path parsed).
  set (S := sub_runs (fun c => negb (is_alnum c)) 1 "_" full).
  assert (HS : well_shaped "_" (fun c => negb (negb (is_alnum c)) || Ascii.eqb c "_") S).
  { destruct (sub_runs_from_shape (fun c => negb (is_alnum c)) "_" eq_refl "" full)
      as (Hall & Hd & _). split; assumption. }
  destruct (lstrip_suffix is_underscore S) as (a & Ha & _).
  set (L := lstrip_by is_underscore S) in *.
  assert (HL : well_shaped "_" _ L) by (rewrite Ha in HS; apply (well_shaped_suffix _ _ _ _ HS)).
  destruct (rstrip_prefix is_underscore L) as (b & Hb & _).
  set (R := rstrip_by is_underscore L) in *.
  assert (HR : well_shaped "_" _ R) by (rewrite Hb in HL; apply (well_shaped_prefix _ _ _ _ HL)).
  assert (HRhead : forall c r, R = String c r -> Ascii.eqb c "_" = false).
  { intros c r HRc. rewrite HRc, append_cons in Hb.
    apply (lstrip_head is_underscore S c (r +:+ b)). exact Hb. }
  destruct (substring_prefix 80 (lower R)) as (t & Ht & Hlen).
  set (T := String.substring 0 80 (lower R)) in *.
  assert (HW : well_shaped "_" slug_char (lower R)).
  { destruct HR as [Hall Hd]. split; [apply all_chars_lower, Hall|].
    rewrite doubled_lower. exact Hd. }
  assert (HT : well_shaped "_" slug_char T)
    by (rewrite Ht in HW; apply (well_shaped_prefix _ _ _ _ HW)).
  assert (HThead : forall c r, T = String c r -> Ascii.eqb c "_" = false).
  { intros c r HTc. rewrite HTc, append_cons in Ht.
    destruct R as [|c0 R0]; [discriminate|]. cbn [lower] in Ht. injection Ht as Hc _.
    rewrite <- Hc, lower_char_underscore. apply (HRhead c0 R0). reflexivity. }
  intros [= <-]. destruct T as [|c T'] eqn:HTeq; cbn [nonempty].
  - repeat split; try reflexivity. cbn. lia.
  - destruct HT as [Hall Hd]. split; [reflexivity|]. split; [exact Hlen|].
    split; [exact Hall|]. split; [|exact Hd].
    rewrite startswith_char, Ascii.eqb_sym. apply (HThead c T'). reflexivity.
Qed.

Lemma slug_is_a_safe_file_name_witness :
  _url_to_slug "https://Example.com/__Docs//API v2/?page=1" = Returns "example_com_docs_api_v2"
  /\ startswith "_" "example_com_docs_api_v2" = false.
Proof.
  assert (H : _url_to_slug "https://Example.com/__Docs//API v2/?page=1"
              = Returns "example_com_docs_api_v2") by (vm_compute; reflexivity).
  split; [exact H|].
  exact (proj1 (proj2 (proj2 (proj2 (slug_is_a_safe_file_name _ _ H))))).
Defined.

End SlugFacts.

(** ** Facts on the matcher *)

Module MatchFacts.
Import PyStr Re PyStrFacts ReFacts Shape.

Lemma match_lit_extend (c : ascii) (s s' y : string) :
  match_lit c s = Some s' -> match_lit c (s +:+ y) = Some (s' +:+ y).
Proof.
  unfold match_lit. destruct s as [|d r]; [discriminate|]. rewrite append_cons.
  destruct (Ascii.eqb (lower_char d) (lower_char c)); [intros [= <-]; reflexivity|].
  destruct r as [|d2 r2]; [discriminate|]. rewrite append_cons.
  destruct (_ || _); [intros [= <-]; reflexivity|].
  destruct r2 as [|d3 r3]; [discriminate|]. rewrite append_cons.
  destruct (_ && _); [intros [= <-]; reflexivity|discriminate].
Qed.

(** A match of an expression without [$] stays a match when text is
    added behind. *)
Lemma matches_with_extend
      (again again' : re -> string -> (string -> bool) -> bool) (y : string) (r : re) :
  no_eos r = true ->
  (forall r0 s0 k0 k0',
      no_eos r0 = true -> again r0 s0 k0 = true ->
      (forall s1, k0 s1 = true -> k0' (s1 +:+ y) = true) ->
      again' r0 (s0 +:+ y) k0' = true) ->
  forall s k k',
    matches_with again r s k = true ->
    (forall s1, k s1 = true -> k' (s1 +:+ y) = true) ->
    matches_with again' r (s +:+ y) k' = true.
Proof.
  intros Hr Hagain. induction r as [|p|c|a IHa b IHb|a IHa b IHb|a IHa|a IHa|];
    intros s k k' Hm Hk; cbn [matches_with no_eos] in *.
  - apply Hk, Hm.
  - destruct s as [|c s]; [discriminate|]. rewrite append_cons.
    apply andb_true_iff in Hm as [Hp Hm]. rewrite Hp. apply Hk, Hm.
  - destruct (match_lit c s) as [s'|] eqn:Hl; [|discriminate].
    rewrite (match_lit_extend _ _ _ y Hl). apply Hk, Hm.
  - apply andb_true_iff in Hr as [Ha Hb].
    apply (IHa Ha s _ _ Hm). intros s1 H1. apply (IHb Hb s1 _ _ H1 Hk).
  - apply andb_true_iff in Hr as [Ha Hb]. apply orb_true_iff in Hm as [Hm|Hm].
    + rewrite (IHa Ha s _ _ Hm Hk). reflexivity.
    + rewrite (IHb Hb s _ _ Hm Hk). apply orb_true_r.
  - apply (IHa Hr s _ _ Hm). intros s1 H1. apply orb_true_iff in H1 as [H1|H1].
    + rewrite (Hagain (Plus a) s1 k k' Hr H1 Hk). reflexivity.
    + rewrite (Hk s1 H1). apply orb_true_r.
  - apply orb_true_iff in Hm as [Hm|Hm].
    + rewrite (IHa Hr s _ _ Hm Hk). reflexivity.
    + rewrite (Hk s Hm). apply orb_true_r.
  - discriminate.
Qed.

Lemma matches_extend (fuel fuel' : nat) (y : string) (r : re) (s : string)
      (k k' : string -> bool) :
  fuel <= fuel' -> no_eos r = true ->
  matches fuel r s k = true ->
  (forall s1, k s1 = true -> k' (s1 +:+ y) = true) ->
  matches fuel' r (s +:+ y) k' = true.
Proof.
  revert fuel' r s k k'. induction fuel as [|fuel IH]; intros fuel' r s k k' Hle Hr Hm Hk.
  - cbn [matches] in Hm.
    assert (H : forall again', matches_with again' r (s +:+ y) k' = true).
    { intros again'.
      refine (matches_with_extend (fun _ _ _ => false) again' y r Hr _ s k k' Hm Hk).
      intros r0 s0 k0 k0' _ H0. discriminate H0. }
    destruct fuel'; cbn [matches]; apply H.
  - destruct fuel' as [|fuel']; [lia|]. cbn [matches] in *.
    refine (matches_with_extend (matches fuel) (matches fuel') y r Hr _ s k k' Hm Hk).
    intros r0 s0 k0 k0' Hr0 H0 Hk0. apply (IH fuel' r0 s0 k0 k0'); auto. lia.
Qed.

Lemma length_append (a b : string) :
  String.length (a +:+ b) = String.length a + String.length b.
Proof. induction a as [|c a IH]; [reflexivity|]. rewrite append_cons. cbn. lia. Qed.

Lemma match_prefix (r : re) (s y : string) :
  no_eos r = true -> match_ r s = true -> match_ r (s +:+ y) = true.
Proof.
  intros Hr H. unfold match_ in *.
  apply (matches_extend (S (String.length s)) (S (String.length (s +:+ y))) y r s
                        (fun _ => true) (fun _ => true));
    [rewrite length_append; lia|exact Hr|exact H|auto].
Qed.

Lemma search_prefix (r : re) (s y : string) :
  no_eos r = true -> search r s = true -> search r (s +:+ y) = true.
Proof.
  intros Hr. induction s as [|c s IH]; intros H.
  - cbn [search] in H. rewrite orb_false_r in H. apply search_here.
    apply (match_prefix r "" y Hr H).
  - cbn [search] in H. apply orb_true_iff in H as [H|H].
    + apply search_here. apply (match_prefix r _ y Hr H).
    + rewrite append_cons. cbn [search]. rewrite (IH H). apply orb_true_r.
Qed.

End MatchFacts.

(** ** Facts on lines *)

Module LineFacts.
Import PyStr PyStrFacts RunFacts Shape.

Lemma split_nonempty (d : ascii) (s : string) : split d s <> [].
Proof.
  induction s as [|c s IH]; cbn [split]; [discriminate|].
  destruct (split d s) as [|f fs]; [discriminate|]. destruct (Ascii.eqb d c); discriminate.
Qed.

(** The first line of a string is a prefix of it. *)
Lemma split_head (d : ascii) (s f : string) (fs : list string) :
  split d s = f :: fs -> exists rest, s = f +:+ rest.
Proof.
  revert f fs. induction s as [|c s IH]; intros f fs; cbn [split].
  - intros [= <- <-]. exists "". reflexivity.
  - destruct (split d s) as [|f0 fs0] eqn:Hs; [intros [= <- <-]; exists s; reflexivity|].
    destruct (IH f0 fs0 eq_refl) as (rest & ->).
    destruct (Ascii.eqb d c).
    + intros [= <- <-]. exists (String c (f0 +:+ rest)). reflexivity.
    + intros [= <- <-]. exists rest. reflexivity.
Qed.

(** A property of strings that parts inherit holds of every line. *)
Lemma split_Forall (P : string -> Prop) (d : ascii) (s : string) :
  (forall a b, P (a +:+ b) -> P a) -> (forall a b, P (a +:+ b) -> P b) ->
  P s -> Forall P (split d s).
Proof.
  intros Hpre Hsuf. induction s as [|c s IH]; intros Hs; cbn [split].
  - constructor; [exact Hs|constructor].
  - assert (Hs' : P s) by (apply (Hsuf (String c "") s); exact Hs).
    specialize (IH Hs'). destruct (split d s) as [|f fs] eqn:Hsp.
    + constructor; [|constructor]. apply (Hpre (String c "") s). exact Hs.
    + destruct (split_head d s f fs Hsp) as (rest & Hrest).
      inversion IH as [|? ? Hf Hfs]; subst.
      destruct (Ascii.eqb d c).
      * constructor; [|constructor; assumption]. apply (Hpre "" (String c (f +:+ rest))).
        exact Hs.
      * constructor; [|assumption]. apply (Hpre (String c f) rest). exact Hs.
Qed.

(** The lines of a suffix: its first line ends a line of the whole, the
    others are lines of the whole. *)
Lemma split_suffix_Forall (P : string -> Prop) (d : ascii) (a s : string) :
  (forall x y, P (x +:+ y) -> P y) ->
  Forall P (split d (a +:+ s)) -> Forall P (split d s).
Proof.
  intros Hsuf. induction a as [|c a IH]; [auto|].
  rewrite append_cons. cbn [split]. intros H. apply IH.
  destruct (split d (a +:+ s)) as [|f fs] eqn:Hsp; [destruct (split_nonempty _ _ Hsp)|].
  destruct (Ascii.eqb d c).
  - inversion H; subst. assumption.
  - inversion H as [|? ? Hf Hfs]; subst. constructor; [|assumption].
    apply (Hsuf (String c "") f). exact Hf.
Qed.

(** The first line of a string begins the first line of any string it
    begins. *)
Lemma split_head_app (d : ascii) (s b g f : string) (gs fs : list string) :
  split d s = g :: gs -> split d (s +:+ b) = f :: fs -> exists t, f = g +:+ t.
Proof.
  revert g gs f fs. induction s as [|c s IH]; intros g gs f fs Hg Hf.
  - cbn [split] in Hg. injection Hg as <- <-. exists f. reflexivity.
  - rewrite append_cons in Hf. cbn [split] in Hg, Hf.
    destruct (split d (s +:+ b)) as [|f0 fs0] eqn:H0; [destruct (split_nonempty _ _ H0)|].
    destruct (split d s) as [|g0 gs0] eqn:H1; [destruct (split_nonempty _ _ H1)|].
    destruct (IH g0 gs0 f0 fs0 eq_refl eq_refl) as (t & ->).
    destruct (Ascii.eqb d c).
    + injection Hf as <- <-. injection Hg as <- <-. exists "". reflexivity.
    + injection Hf as <- <-. injection Hg as <- <-. exists t. reflexivity.
Qed.

(** The lines of a prefix: its last line begins a line of the whole, the
    others are lines of the whole. *)
Lemma split_prefix_Forall (P : string -> Prop) (d : ascii) (s b : string) :
  (forall x y, P (x +:+ y) -> P x) -> (forall x y, P (x +:+ y) -> P y) ->
  Forall P (split d (s +:+ b)) -> Forall P (split d s).
Proof.
  intros Hpre Hsuf. induction s as [|c s IH].
  - rewrite append_nil. intros H. cbn [split].
    destruct (split d b) as [|f fs] eqn:Hsp; [destruct (split_nonempty _ _ Hsp)|].
    inversion H as [|? ? Hf Hfs]; subst. constructor; [|constructor].
    apply (Hpre "" f). exact Hf.
  - rewrite append_cons. cbn [split]. intros H.
    destruct (split d (s +:+ b)) as [|f fs] eqn:Hsp; [destruct (split_nonempty _ _ Hsp)|].
    destruct (split d s) as [|g gs] eqn:Hsg; [destruct (split_nonempty _ _ Hsg)|].
    destruct (split_head_app d s b g f gs fs Hsg Hsp) as (t & ->).
    destruct (Ascii.eqb d c).
    + inversion H as [|? ? Hf Hfs]; subst. constructor; [exact Hf|]. apply IH, Hfs.
    + inversion H as [|? ? Hf Hfs]; subst.
      assert (Hg : Forall P (g :: gs)).
      { apply IH. constructor; [|exact Hfs]. apply (Hsuf (String c "") (g +:+ t)). exact Hf. }
      inversion Hg; subst. constructor; [|assumption].
      apply (Hpre (String c g) t). exact Hf.
Qed.

(** No line holds the separator. *)
Lemma split_no_sep (d : ascii) (s : string) :
  Forall (fun l => contains d l = false) (split d s).
Proof.
  induction s as [|c s IH]; cbn [split]; [repeat constructor|].
  destruct (split d s) as [|f fs] eqn:Hsp; [destruct (split_nonempty _ _ Hsp)|].
  inversion IH as [|? ? Hf Hfs]; subst.
  destruct (Ascii.eqb d c) eqn:Hdc.
  - constructor; [reflexivity|]. constructor; assumption.
  - constructor; [|assumption]. cbn [contains]. rewrite Hdc, Hf. reflexivity.
Qed.

Lemma split_none (d : ascii) (p : string) : contains d p = false -> split d p = [p].
Proof.
  induction p as [|c p IH]; [reflexivity|]. cbn [contains split]. intros H.
  apply orb_false_elim in H as [Hc Hp]. rewrite (IH Hp), Hc. reflexivity.
Qed.

Lemma split_app_sep (d : ascii) (p x : string) :
  contains d p = false -> split d (p +:+ String d x) = p :: split d x.
Proof.
  induction p as [|c p IH]; intros H.
  - rewrite append_nil. cbn [split].
    destruct (split d x) as [|f fs] eqn:Hsp; [destruct (split_nonempty _ _ Hsp)|].
    rewrite Ascii.eqb_refl. reflexivity.
  - cbn [contains] in H. apply orb_false_elim in H as [Hc Hp].
    rewrite append_cons. cbn [split]. rewrite (IH Hp), Hc. reflexivity.
Qed.

(** Splitting what was joined gives the lines back. *)
Lemma split_join (d : ascii) (ls : list string) :
  ls <> [] -> Forall (fun l => contains d l = false) ls ->
  split d (join (String d "") ls) = ls.
Proof.
  induction ls as [|p ls IH]; [contradiction|]. intros _ H.
  inversion H as [|? ? Hp Hls]; subst. cbn [join]. destruct ls as [|q ls].
  - apply split_none, Hp.
  - rewrite append_cons, append_nil, (split_app_sep d p _ Hp). f_equal.
    apply IH; [discriminate|exact Hls].
Qed.

(** Lines of one shape join into a text of that shape. *)
Lemma join_shape (r d : ascii) (q : ascii -> bool) (ls : list string) :
  q d = true -> Ascii.eqb d r = false ->
  Forall (well_shaped r q) ls -> well_shaped r q (join (String d "") ls).
Proof.
  intros Hq Hd. induction 1 as [|p ls Hp Hls IH]; [split; reflexivity|].
  cbn [join]. destruct ls as [|p2 ls]; [exact Hp|].
  rewrite append_cons, append_nil. destruct Hp as [Hall Hdbl]. destruct IH as [Hall' Hdbl'].
  split.
  - rewrite all_chars_app, Hall. cbn [all_chars]. rewrite Hq, Hall'. reflexivity.
  - apply doubled_app; [exact Hdbl| |].
    + rewrite doubled_cons_other by exact Hd. exact Hdbl'.
    + right. intros b' [= -> _]. rewrite Ascii.eqb_refl in Hd. discriminate.
Qed.

Lemma all_chars_contains (q : ascii -> bool) (c : ascii) (s : string) :
  all_chars q s = true -> q c = false -> contains c s = false.
Proof.
  intros Hs Hc. induction s as [|d s IH]; [reflexivity|]. cbn [all_chars contains] in *.
  apply andb_true_iff in Hs as [Hd Hs]. rewrite (IH Hs), orb_false_r.
  apply Ascii.eqb_neq. intros ->. congruence.
Qed.

(** *** Stripping *)

Lemma lstrip_fixed (p : ascii -> bool) (s : string) :
  (forall c r, s = String c r -> p c = false) -> lstrip_by p s = s.
Proof.
  intros H. destruct s as [|c s]; [reflexivity|]. cbn [lstrip_by].
  rewrite (H c s eq_refl). reflexivity.
Qed.

Lemma rstrip_fixed (p : ascii -> bool) (s : string) :
  (forall a c, s = a +:+ String c "" -> p c = false) -> rstrip_by p s = s.
Proof.
  induction s as [|c s IH]; intros H; [reflexivity|]. cbn [rstrip_by].
  rewrite IH.
  - destruct s as [|d s]; [|reflexivity]. rewrite (H "" c eq_refl). reflexivity.
  - intros a c' Heq. apply (H (String c a) c'). rewrite append_cons, Heq. reflexivity.
Qed.

(** Stripping twice is stripping once. *)
Lemma strip_idem (s : string) : strip (strip s) = strip s.
Proof.
  unfold strip. set (L := lstrip_by isspace s). set (R := rstrip_by isspace L).
  assert (Hhead : forall c r, R = String c r -> isspace c = false).
  { intros c r HR. destruct (rstrip_prefix isspace L) as (b & Hb & _). fold R in Hb.
    rewrite HR, append_cons in Hb. apply (lstrip_head isspace s c _ Hb). }
  rewrite (lstrip_fixed isspace R Hhead).
  apply rstrip_fixed. intros a c HR. apply (rstrip_last isspace L a c HR).
Qed.

(** *** [re.sub] of runs of three or more newlines *)

Lemma flush_newlines (run : string) :
  all_chars TextFields.is_newline run = true ->
  all_chars TextFields.is_newline (Re.flush 3 (String "010" (String "010" "")) run) = true
  /\ nonempty (Re.flush 3 (String "010" (String "010" "")) run) = nonempty run.
Proof.
  intros H. unfold Re.flush. destruct (nonempty run) eqn:Hn; [|auto].
  destruct (3 <=? String.length run)%nat; [auto|]. auto.
Qed.

(** A string of characters other than [r] in front of a string changes
    nothing to its doubled [r]s. *)
Lemma doubled_after (r : ascii) (f x : string) :
  all_chars (fun c => negb (Ascii.eqb c r)) f = true ->
  Shape.doubled r (f +:+ x) = Shape.doubled r x.
Proof.
  induction f as [|c f IH]; intros H; [reflexivity|]. cbn [all_chars] in H.
  apply andb_true_iff in H as [Hc Hf]. rewrite append_cons.
  rewrite doubled_cons_other by (apply negb_true_iff; exact Hc). apply IH, Hf.
Qed.

Lemma doubled_none (r : ascii) (f : string) :
  all_chars (fun c => negb (Ascii.eqb c r)) f = true -> Shape.doubled r f = false.
Proof.
  induction f as [|c f IH]; intros H; [reflexivity|]. cbn [all_chars] in H.
  apply andb_true_iff in H as [Hc Hf].
  rewrite doubled_cons_other by (apply negb_true_iff; exact Hc). apply IH, Hf.
Qed.

Lemma all_chars_impl (q q' : ascii -> bool) (s : string) :
  (forall c, q c = true -> q' c = true) -> all_chars q s = true -> all_chars q' s = true.
Proof.
  intros Himp. induction s as [|c s IH]; [reflexivity|]. cbn [all_chars]. intros H.
  apply andb_true_iff in H as [Hc Hs]. rewrite (Himp c Hc), (IH Hs). reflexivity.
Qed.

Lemma all_chars_snoc (q : ascii -> bool) (s : string) (c : ascii) :
  all_chars q s = true -> q c = true -> all_chars q (s +:+ String c "") = true.
Proof. intros Hs Hc. rewrite all_chars_app, Hs. cbn [all_chars]. rewrite Hc. reflexivity. Qed.

Lemma newline_sub_shape (r : ascii) (q : ascii -> bool) (run s : string) :
  q "010"%char = true -> Ascii.eqb "010" r = false ->
  all_chars TextFields.is_newline run = true ->
  well_shaped r q s ->
  let out := Re.sub_runs_from TextFields.is_newline 3 (String "010" (String "010" "")) run s in
  well_shaped r q out
  /\ forall out', out = String r out' -> run = "" /\ exists s', s = String r s'.
Proof.
  intros Hq Hr. revert run. induction s as [|c s IH]; intros run Hrun Hs;
    cbn [Re.sub_runs_from].
  - destruct (flush_newlines run Hrun) as [Hf Hn].
    set (f := Re.flush 3 _ run) in *. split; [split|].
    + apply (all_chars_impl TextFields.is_newline); [|exact Hf].
      intros c Hc. apply Ascii.eqb_eq in Hc. subst c. exact Hq.
    + apply doubled_none, (all_chars_impl TextFields.is_newline); [|exact Hf].
      intros c Hc. apply Ascii.eqb_eq in Hc. subst c. rewrite Hr. reflexivity.
    + intros out' Hout. exfalso. rewrite Hout in Hf. cbn [all_chars] in Hf.
      apply andb_true_iff in Hf as [Hf _]. apply Ascii.eqb_eq in Hf. subst r.
      rewrite Ascii.eqb_refl in Hr. discriminate.
  - assert (Hs' : well_shaped r q s) by (apply (well_shaped_suffix r q (String c "") s Hs)).
    destruct (TextFields.is_newline c) eqn:Hc.
    + destruct (IH (run +:+ String c "") (all_chars_snoc _ _ _ Hrun Hc) Hs') as [Hw Hhead].
      split; [exact Hw|]. intros out' Hout. destruct (Hhead out' Hout) as [Hnil _].
      destruct run; discriminate.
    + destruct (IH "" eq_refl Hs') as [[Hall Hdbl] Hhead].
      destruct (flush_newlines run Hrun) as [Hf Hn].
      set (f := Re.flush 3 _ run) in *.
      set (out0 := Re.sub_runs_from _ _ _ "" s) in *.
      assert (Hfr : all_chars (fun c => negb (Ascii.eqb c r)) f = true).
      { apply (all_chars_impl TextFields.is_newline); [|exact Hf].
        intros c0 Hc0. apply Ascii.eqb_eq in Hc0. subst c0. rewrite Hr. reflexivity. }
      destruct Hs as [Hsall Hsdbl]. cbn [all_chars] in Hsall.
      apply andb_true_iff in Hsall as [Hqc _].
      split; [split|].
      * rewrite all_chars_app. cbn [all_chars]. rewrite Hqc, Hall, andb_true_r.
        apply (all_chars_impl TextFields.is_newline); [|exact Hf].
        intros c0 Hc0. apply Ascii.eqb_eq in Hc0. subst c0. exact Hq.
      * rewrite (doubled_after r f _ Hfr).
        destruct out0 as [|e o] eqn:Ho; [reflexivity|].
        rewrite doubled_cons2, Hdbl, orb_false_r.
        destruct (Ascii.eqb_spec c r) as [->|_]; [|reflexivity].
        destruct (Ascii.eqb_spec e r) as [->|_]; [|reflexivity].
        destruct (Hhead o eq_refl) as (_ & s' & ->).
        rewrite doubled_cons2, !Ascii.eqb_refl in Hsdbl. discriminate.
      * intros out' Hout. destruct f as [|e f'] eqn:Hfe.
        -- rewrite append_nil in Hout. injection Hout as -> _.
           split; [|exists s; reflexivity].
           destruct run; [reflexivity|]. cbn in Hn. discriminate.
        -- rewrite append_cons in Hout. injection Hout as -> _.
           cbn [all_chars] in Hfr. rewrite Ascii.eqb_refl in Hfr. discriminate.
Qed.

End LineFacts.

(** ** The cleaned text *)

Module CleanTextFacts.
Import PyStr Re PyStrFacts ReFacts RunFacts MatchFacts LineFacts Shape TextFields.

Lemma noise_free_prefix (x y : string) :
  search noise (x +:+ y) = false -> search noise x = false.
Proof.
  intros H. destruct (search noise x) eqn:Hx; [|reflexivity].
  rewrite (search_prefix noise x y eq_refl Hx) in H. discriminate.
Qed.

Lemma noise_free_suffix (x y : string) :
  search noise (x +:+ y) = false -> search noise y = false.
Proof.
  intros H. destruct (search noise y) eqn:Hy; [|reflexivity].
  rewrite (search_suffix noise x y Hy) in H. discriminate.
Qed.

(** The cleaned text is tidy: [_clean_text] returns a text without tab,
    without two spaces in a row and without white space at either end, of
    which no line holds one of the noise phrases. *)
Theorem clean_text_is_tidy (text : string) :
  let cleaned := _clean_text text in
  contains "009" cleaned = false
  /\ doubled " " cleaned = false
  /\ strip cleaned = cleaned
  /\ Forall (fun line => search noise line = false) (split "010" cleaned).
Proof.
  unfold _clean_text. destruct (nonempty text); cbn [negb].
  2:{ repeat split; try reflexivity. constructor; [vm_compute; reflexivity|constructor]. }
  set (t1 := sub_runs is_blank 1 " " text).
  set (t2 := sub_runs is_newline 3 _ t1).
  set (lines := List.filter _ (split "010" t2)).
  set (joined := join _ lines).
  assert (H1 : well_shaped " " not_tab t1).
  { destruct (sub_runs_from_shape is_blank " " eq_refl "" text) as (Hall & Hd & _).
    split; assumption. }
  assert (H2 : well_shaped " " not_tab t2).
  { apply (newline_sub_shape " " not_tab "" t1 eq_refl eq_refl eq_refl H1). }
  assert (Hlines : Forall (fun l => well_shaped " " not_tab l /\ contains "010" l = false
                                    /\ search noise l = false) lines).
  { subst lines. apply Forall_forall. intros l Hl.
    apply list_elem_of_In, filter_In in Hl as [Hl Hn].
    apply negb_true_iff in Hn. apply list_elem_of_In in Hl.
    pose proof (split_Forall (well_shaped " " not_tab) "010" t2
                  (well_shaped_prefix " " not_tab) (well_shaped_suffix " " not_tab) H2) as Hw.
    pose proof (split_no_sep "010" t2) as Hs.
    rewrite Forall_forall in Hw, Hs. auto. }
  assert (HJ : well_shaped " " not_tab joined).
  { apply (join_shape " " "010" not_tab lines eq_refl eq_refl).
    eapply Forall_impl; [exact Hlines|]. intros l (Hl & _). exact Hl. }
  assert (HJn : Forall (fun l => search noise l = false) (split "010" joined)).
  { destruct lines as [|l0 ls] eqn:Hls.
    - subst joined. cbn [join split]. constructor; [vm_compute; reflexivity|constructor].
    - subst joined. rewrite split_join; [|discriminate|].
      + eapply Forall_impl; [exact Hlines|]. intros l (_ & _ & Hl). exact Hl.
      + eapply Forall_impl; [exact Hlines|]. intros l (_ & Hl & _). exact Hl. }
  unfold strip.
  destruct (lstrip_suffix isspace joined) as (a & Ha & _).
  set (L := lstrip_by isspace joined) in *.
  destruct (rstrip_prefix isspace L) as (b & Hb & _).
  set (R := rstrip_by isspace L) in *.
  assert (HL : well_shaped " " not_tab L)
    by (rewrite Ha in HJ; apply (well_shaped_suffix _ _ _ _ HJ)).
  assert (HR : well_shaped " " not_tab R)
    by (rewrite Hb in HL; apply (well_shaped_prefix _ _ _ _ HL)).
  destruct HR as [HRall HRdbl].
  split; [apply (all_chars_contains not_tab _ _ HRall); reflexivity|].
  split; [exact HRdbl|]. split.
  - change (rstrip_by isspace (lstrip_by isspace R)) with (strip R).
    change R with (strip joined). apply strip_idem.
  - apply (split_prefix_Forall _ "010" R b noise_free_prefix noise_free_suffix).
    rewrite <- Hb.
    apply (split_suffix_Forall _ "010" a L noise_free_suffix). rewrite <- Ha. exact HJn.
Qed.

End CleanTextFacts.

(** ** The robots.txt cache *)

Module RobotsFacts.
Import PyStr UrlLib RobotsChecker RobotsLedger.

Section WithParser.
Variable RobotFileParser : Type.
Variable parse : string -> outcome RobotFileParser.
Variable rp_can_fetch : RobotFileParser -> string -> string -> outcome bool.
Variable rp_crawl_delay : RobotFileParser -> string -> outcome (option Z).
Variable http_get : string -> outcome (Z * string).

Abbreviation checker := (t RobotFileParser).
Abbreviation _get_parser := (_get_parser RobotFileParser parse rp_crawl_delay http_get).
Abbreviation can_fetch := (can_fetch RobotFileParser parse rp_can_fetch rp_crawl_delay http_get).
Abbreviation can_fetch_all :=
  (can_fetch_all RobotFileParser parse rp_can_fetch rp_crawl_delay http_get).

(** What one [_get_parser] does to the cache and to the network. *)
Lemma get_parser_effect (self : checker) (url : string) :
  let '(answer, self', requests) := _get_parser self url in
  user_agent _ self' = user_agent _ self
  /\ match _domain url with
     | Raises _ => self' = self /\ requests = []
     | Returns domain =>
         dom (_cache _ self') = dom (_cache _ self) ∪ {[domain]}
         /\ length requests = (if decide (domain ∈ dom (_cache _ self)) then 0 else 1)%nat
     end.
Proof.
  unfold RobotsChecker._get_parser. destruct (_domain url) as [domain|e] eqn:Hd; [|auto].
  destruct (_cache _ self !! domain) as [cached|] eqn:Hc.
  - split; [reflexivity|]. assert (Hin : domain ∈ dom (_cache _ self))
      by (apply elem_of_dom; eauto).
    split; [set_solver|]. destruct (decide _); [reflexivity|contradiction].
  - assert (Hnin : domain ∉ dom (_cache _ self)) by (apply not_elem_of_dom; exact Hc).
    unfold _domain in Hd. destruct (urlparse url) as [parsed|]; [|discriminate].
    destruct (load _ _ _ _ _ _) as [[rp delay]|]; cbn [user_agent _cache];
      (split; [reflexivity|]); rewrite dom_insert_L;
      (split; [set_solver|]); destruct (decide _); [contradiction|reflexivity
                                                    |contradiction|reflexivity].
Qed.

Lemma can_fetch_effect (self : checker) (url : string) :
  let '(answer, self', requests) := can_fetch self url in
  match _domain url with
  | Raises _ => self' = self /\ requests = []
  | Returns domain =>
      dom (_cache _ self') = dom (_cache _ self) ∪ {[domain]}
      /\ length requests = (if decide (domain ∈ dom (_cache _ self)) then 0 else 1)%nat
  end.
Proof.
  unfold RobotsChecker.can_fetch. pose proof (get_parser_effect self url) as H.
  destruct (_get_parser self url) as [[[[rp|]|e] self'] requests]; apply H.
Qed.

Lemma can_fetch_all_effect (urls : list string) (self : checker) :
  let '(answers, self', requests) := can_fetch_all self urls in
  length answers = length urls
  /\ dom (_cache _ self') = dom (_cache _ self) ∪ hosts urls
  /\ (length requests + size (dom (_cache _ self)) = size (dom (_cache _ self')))%nat.
Proof.
  revert self. induction urls as [|url urls IH]; intros self; cbn [RobotsChecker.can_fetch_all].
  - split; [reflexivity|]. split; [unfold hosts; cbn; set_solver|reflexivity].
  - pose proof (can_fetch_effect self url) as H1.
    destruct (can_fetch self url) as [[answer self1] requests1].
    specialize (IH self1).
    destruct (can_fetch_all self1 urls) as [[answers self2] requests2].
    destruct IH as (Hlen & Hdom & Hsize). cbn [length]. split; [lia|].
    unfold hosts in *. cbn [omap list_omap].
    destruct (_domain url) as [domain|e].
    + destruct H1 as [Hdom1 Hreq1]. cbn [list_to_set]. split.
      * rewrite Hdom, Hdom1. set_solver.
      * rewrite length_app, <- Hsize, Hdom1, Hreq1.
        destruct (decide (domain ∈ dom (_cache _ self))) as [Hin|Hnin].
        -- replace (dom (_cache _ self) ∪ {[domain]}) with (dom (_cache _ self))
             by set_solver. lia.
        -- rewrite size_union by set_solver. rewrite size_singleton. lia.
    + destruct H1 as [-> ->]. split; [exact Hdom|exact Hsize].
Qed.

(** One request per host: over any run of [can_fetch] calls on a new
    checker, every call is answered, and the number of robots.txt requests
    is the number of distinct lower-cased hosts among the URLs, whatever
    the downloads and the rules give. *)
Theorem robots_txt_is_requested_once_per_host (agent : string) (urls : list string) :
  let '(answers, _, requests) := can_fetch_all (new _ agent) urls in
  length answers = length urls
  /\ length requests = size (hosts urls).
Proof.
  pose proof (can_fetch_all_effect urls (new _ agent)) as H.
  destruct (can_fetch_all (new _ agent) urls) as [[answers self'] requests].
  destruct H as (Hlen & Hdom & Hsize). split; [exact Hlen|].
  cbn [new _cache] in Hdom, Hsize. rewrite dom_empty_L in Hdom, Hsize.
  rewrite size_empty in Hsize. rewrite Hdom in Hsize.
  replace (∅ ∪ hosts urls) with (hosts urls) in Hsize by set_solver. lia.
Qed.

(** A robots.txt that cannot be loaded opens the host for good: when the
    download raises or its status is not 200, [can_fetch] answers [True]
    after one request, and every later [can_fetch] for a URL of that host
    answers [True] without a request and leaves the checker as it is. *)
Theorem unavailable_robots_txt_allows_the_host
        (self : checker) (url url' : string) (parsed : ParseResult) :
  urlparse url = Some parsed ->
  _cache _ self !! lower (netloc parsed) = None ->
  match http_get (scheme parsed +:+ "://" +:+ lower (netloc parsed) +:+ "/robots.txt") with
  | Returns (status, _) => status <> 200%Z
  | Raises _ => True
  end ->
  _domain url' = _domain url ->
  exists self',
    can_fetch self url
    = (Returns true, self',
       [scheme parsed +:+ "://" +:+ lower (netloc parsed) +:+ "/robots.txt"])
    /\ can_fetch self' url' = (Returns true, self', []).
Proof.
  intros Hp Hc Hget Hsame.
  assert (Hd : _domain url = Returns (lower (netloc parsed)))
    by (unfold _domain; rewrite Hp; reflexivity).
  assert (Hload : load _ parse rp_crawl_delay http_get self
                       (scheme parsed +:+ "://" +:+ lower (netloc parsed) +:+ "/robots.txt")
                  = None).
  { unfold load. destruct (http_get _) as [[status text]|e]; [|reflexivity].
    destruct (Z.eqb_spec status 200); [contradiction|reflexivity]. }
  unfold RobotsChecker.can_fetch, RobotsChecker._get_parser.
  rewrite Hsame, Hd, Hc, Hp, Hload. eexists. split; [reflexivity|].
  cbn [_cache]. rewrite lookup_insert_eq. reflexivity.
Qed.

End WithParser.

Lemma unavailable_robots_txt_allows_the_host_witness :
  exists self',
    can_fetch unit Scenes.no_parser Scenes.no_rule Scenes.no_delay Scenes.robots_unreachable
              (new unit "bot") "https://Example.com/a"
    = (Returns true, self', ["https://example.com/robots.txt"])
    /\ can_fetch unit Scenes.no_parser Scenes.no_rule Scenes.no_delay
                 Scenes.robots_unreachable self' "http://EXAMPLE.com/b?x=1"
       = (Returns true, self', []).
Proof.
  destruct (urlparse "https://Example.com/a") as [parsed|] eqn:Hp;
    [|vm_compute in Hp; discriminate].
  assert (Hparsed : parsed = mkParseResult "https" "Example.com" "/a" "" "" "")
    by (vm_compute in Hp; congruence).
  subst parsed.
  exact (unavailable_robots_txt_allows_the_host
           unit Scenes.no_parser Scenes.no_rule Scenes.no_delay Scenes.robots_unreachable
           (new unit "bot") "https://Example.com/a" "http://EXAMPLE.com/b?x=1" _
           Hp eq_refl I ltac:(vm_compute; reflexivity)).
Defined.

End RobotsFacts.

(** ** The cleaned tree *)

Module ParserFacts.
Import PyStr Soup HtmlParser.

(** Induction on a tree, with the property for all the children of an
    element. *)
Lemma node_induction (P : node -> Prop) :
  (forall s, P (Text s)) -> (forall s, P (Comment s)) ->
  (forall name attrs children, Forall P children -> P (Tag name attrs children)) ->
  forall n, P n.
Proof.
  intros HT HC HG. fix IH 1. intros [s|s|name attrs children]; [apply HT|apply HC|].
  apply HG. induction children as [|c cs IHcs]; constructor; [apply IH|exact IHcs].
Qed.

Lemma decompose_all_name (t t' : string) (n : node) :
  is_tag_named t' (decompose_all t n) = is_tag_named t' n.
Proof. destruct n; reflexivity. Qed.

Lemma decompose_all_string (t : string) (n : node) :
  stripped_string (decompose_all t n) = stripped_string n.
Proof. destruct n; reflexivity. Qed.

(** Removing the elements named [t] leaves none. *)
Lemma decompose_all_none (t : string) (n : node) :
  Forall (fun d => is_tag_named t d = false) (descendants (decompose_all t n)).
Proof.
  induction n as [s|s|name attrs children IH] using node_induction; try constructor.
  cbn [decompose_all descendants].
  induction children as [|c cs IHcs]; [constructor|]. inversion IH as [|? ? Hc Hcs]; subst.
  cbn [flat_map]. destruct (is_tag_named t c) eqn:Hn; cbn [app flat_map]; [apply IHcs, Hcs|].
  constructor; [rewrite decompose_all_name; exact Hn|].
  apply Forall_app. split; [exact Hc|apply IHcs, Hcs].
Qed.

(** Removing the elements named [t] brings in no element named [t']. *)
Lemma decompose_all_keeps (t t' : string) (n : node) :
  Forall (fun d => is_tag_named t' d = false) (descendants n) ->
  Forall (fun d => is_tag_named t' d = false) (descendants (decompose_all t n)).
Proof.
  induction n as [s|s|name attrs children IH] using node_induction; try (intros; constructor).
  cbn [decompose_all descendants].
  induction children as [|c cs IHcs]; [constructor|]. inversion IH as [|? ? Hc Hcs]; subst.
  cbn [flat_map]. intros H. inversion H as [|? ? Hhead Hrest]; subst.
  apply Forall_app in Hrest as [Hdesc Hrest].
  destruct (is_tag_named t c) eqn:Hn; cbn [app flat_map]; [apply IHcs; assumption|].
  constructor; [rewrite decompose_all_name; exact Hhead|].
  apply Forall_app. split; [apply Hc, Hdesc|apply IHcs; assumption].
Qed.

(** Removing elements removes strings and moves none. *)
Lemma decompose_all_strings (t : string) (n : node) :
  flat_map stripped_string (descendants (decompose_all t n))
  `sublist_of` flat_map stripped_string (descendants n).
Proof.
  induction n as [s|s|name attrs children IH] using node_induction; try constructor.
  cbn [decompose_all descendants].
  induction children as [|c cs IHcs]; [constructor|]. inversion IH as [|? ? Hc Hcs]; subst.
  cbn [flat_map app].
  destruct (is_tag_named t c) eqn:Hn; cbn [app flat_map]; rewrite !flat_map_app.
  - do 2 apply sublist_inserts_l. apply IHcs, Hcs.
  - rewrite decompose_all_string.
    apply sublist_app; [reflexivity|]. apply sublist_app; [exact Hc|apply IHcs, Hcs].
Qed.

(** A tree without element named [t] is left as it is. *)
Lemma decompose_all_fixed (t : string) (n : node) :
  Forall (fun d => is_tag_named t d = false) (descendants n) -> decompose_all t n = n.
Proof.
  induction n as [s|s|name attrs children IH] using node_induction; try reflexivity.
  cbn [decompose_all descendants]. intros H. f_equal.
  induction children as [|c cs IHcs]; [reflexivity|]. inversion IH as [|? ? Hc Hcs]; subst.
  cbn [flat_map] in *. inversion H as [|? ? Hhead Hrest]; subst.
  apply Forall_app in Hrest as [Hdesc Hrest].
  rewrite Hhead. cbn [app]. rewrite (Hc Hdesc), (IHcs Hcs Hrest). reflexivity.
Qed.

Local Abbreviation strip_all tags soup :=
  (fold_left (fun s tag_name => decompose_all tag_name s) tags soup).

Lemma strip_all_none (tags : list string) (t : string) (n : node) :
  t ∈ tags \/ Forall (fun d => is_tag_named t d = false) (descendants n) ->
  Forall (fun d => is_tag_named t d = false) (descendants (strip_all tags n)).
Proof.
  revert n. induction tags as [|t0 tags IH]; intros n H; cbn [fold_left].
  - destruct H as [H|H]; [inversion H|exact H].
  - apply IH. destruct H as [H|H].
    + apply elem_of_cons in H as [->|H]; [right; apply decompose_all_none|left; exact H].
    + right. apply decompose_all_keeps, H.
Qed.

Lemma strip_all_strings (tags : list string) (n : node) :
  flat_map stripped_string (descendants (strip_all tags n))
  `sublist_of` flat_map stripped_string (descendants n).
Proof.
  revert n. induction tags as [|t0 tags IH]; intros n; cbn [fold_left];
    [reflexivity|].
  etransitivity; [apply IH|apply decompose_all_strings].
Qed.

Lemma strip_all_fixed (tags : list string) (n : node) :
  (forall t, t ∈ tags -> Forall (fun d => is_tag_named t d = false) (descendants n)) ->
  strip_all tags n = n.
Proof.
  induction tags as [|t0 tags IH]; intros H; cbn [fold_left]; [reflexivity|].
  rewrite decompose_all_fixed by (apply H; constructor).
  apply IH. intros t Ht. apply H. constructor. exact Ht.
Qed.

Lemma filter_none {A : Type} (f : A -> bool) (l : list A) :
  Forall (fun x => f x = false) l -> List.filter f l = [].
Proof.
  induction 1 as [|x l Hx _ IH]; [reflexivity|]. cbn [List.filter]. rewrite Hx. exact IH.
Qed.

(** What [parse] hands to the extractors holds no script, style,
    noscript, iframe or svg element at any depth; its strings are strings
    of the parsed page, in the page's order; and cleaning it again changes
    nothing. *)
Theorem cleaned_soup_has_no_stripped_element (soup : node) :
  Forall (fun name => find_all (cleaned_soup soup) name = []) STRIP_TAGS
  /\ flat_map stripped_string (descendants (cleaned_soup soup))
     `sublist_of` flat_map stripped_string (descendants soup)
  /\ cleaned_soup (cleaned_soup soup) = cleaned_soup soup.
Proof.
  change (cleaned_soup soup) with (strip_all STRIP_TAGS soup).
  assert (Hnone : forall t, t ∈ STRIP_TAGS ->
                            Forall (fun d => is_tag_named t d = false)
                                   (descendants (strip_all STRIP_TAGS soup)))
    by (intros t Ht; apply strip_all_none; left; exact Ht).
  split; [|split].
  - apply Forall_forall. intros t Ht. apply filter_none, Hnone, Ht.
  - apply strip_all_strings.
  - change (cleaned_soup (strip_all STRIP_TAGS soup))
      with (strip_all STRIP_TAGS (strip_all STRIP_TAGS soup)).
    apply strip_all_fixed, Hnone.
Qed.

End ParserFacts.

(** ** The report of a crawl *)

Module ReportFacts.
Import PyStr Config Crawler CrawlLedger Structurer CrawlLedgerFacts.

Lemma size_list_to_set_le (l : list string) :
  (size (list_to_set l : gset string) <= length l)%nat.
Proof.
  induction l as [|x l IH]; [reflexivity|]. cbn [list_to_set length].
  pose proof (size_union_alt ({[x]} : gset string) (list_to_set l)) as H.
  rewrite H, size_singleton.
  pose proof (subseteq_size (list_to_set l ∖ {[x]} : gset string) (list_to_set l)
                ltac:(set_solver)). lia.
Qed.

Section WithRound.
Variable round2 : float -> float.

(** The report after a crawl: [total_pages] exceeds the pages the
    structurer started with by at most [page_limit]; [failed_pages] counts
    every error, the ones at the start and one for each failed URL of the
    crawl, while [errors] lists the first 100 of them in order;
    [external_links] counts distinct links, at most the number recorded. *)
Theorem report_counts_the_crawl
        (cfg : CrawlConfig) (s : DataStructurer) (world : nat -> page_world) (n : nat)
        (_start_time _end_time : float) :
  let p := crawl_turns n world (crawl_start (new cfg s)) in
  let report := generate_report round2 (structurer (crawler p)) _start_time _end_time in
  let failed := failed_urls cfg world 0 (processed p) in
  (total_pages report <= Z.of_nat (length (_pages s)) + Z.max 0 (page_limit cfg))%Z
  /\ failed_pages report = Z.of_nat (length (_errors s) + length failed)
  /\ map fst (errors report) = take 100 (map fst (_errors s) ++ failed)
  /\ Z.of_nat (length (errors report)) = Z.min 100 (failed_pages report)
  /\ (external_links report
      <= Z.of_nat (length (_external_links (structurer (crawler p)))))%Z.
Proof.
  intros p report failed.
  destruct (crawl_turns_ledger cfg s world n _ (crawl_start_ledger cfg s world))
    as [_ Hlimit Hnonneg Herrors Hpages].
  fold p in Hlimit, Hnonneg, Herrors, Hpages. fold failed in Herrors.
  subst report. unfold generate_report.
  cbn [total_pages failed_pages errors external_links].
  assert (Hlen : length (_errors (structurer (crawler p)))
                 = (length (_errors s) + length failed)%nat).
  { rewrite <- (length_map fst (_errors (structurer (crawler p)))), Herrors.
    rewrite length_app, length_map. reflexivity. }
  split; [destruct (running p); lia|]. split; [rewrite Hlen; reflexivity|].
  split; [rewrite <- Herrors; apply (fmap_take fst)|].
  split; [rewrite length_take; lia|].
  apply inj_le, size_list_to_set_le.
Qed.

End WithRound.

End ReportFacts.

(** ** The validated configuration *)

Module ValidatorFacts.
Import PyStr UrlLib Validators Structurer.

(** A validated output format is one the export writes: what
    [validate_format] returns is parquet, csv or jsonl, validates to
    itself, and makes [_write_df] write [name.format] under the output
    directory instead of raising. *)
Theorem validated_format_is_writable (v format output_dir name : string) :
  validate_format v = Returns format ->
  in_list format ["parquet"; "csv"; "jsonl"] = true
  /\ validate_format format = Returns format
  /\ _write_df_path output_dir name format
     = Returns (ImageExtractor.path_join output_dir (name +:+ "." +:+ format)).
Proof.
  unfold validate_format. destruct (in_list (strip (lower v)) _) eqn:Hin; [|discriminate].
  cbn [negb]. intros [= <-]. split; [exact Hin|].
  unfold in_list in Hin. cbn [existsb] in Hin.
  destruct (String.eqb_spec (strip (lower v)) "parquet") as [->|_];
    [split; reflexivity|].
  destruct (String.eqb_spec (strip (lower v)) "csv") as [->|_];
    [split; reflexivity|].
  destruct (String.eqb_spec (strip (lower v)) "jsonl") as [->|_];
    [split; reflexivity|discriminate].
Qed.

Lemma validated_format_is_writable_witness :
  validate_format "  JSONL " = Returns "jsonl"
  /\ _write_df_path "out" "pages" "jsonl" = Returns "out/pages.jsonl".
Proof.
  assert (H : validate_format "  JSONL " = Returns "jsonl") by (vm_compute; reflexivity).
  split; [exact H|].
  exact (proj2 (proj2 (validated_format_is_writable _ _ "out" "pages" H))).
Defined.

(** A validated start URL that had no white space around it is one the
    frontier takes: [validate_url] returns it unchanged, with scheme http
    or https and a host, and [normalize_url] returns a URL for it. *)
Theorem validated_url_normalises (v url : string) :
  validate_url v = Returns url ->
  strip v = v ->
  url = v
  /\ (exists parsed, urlparse url = Some parsed
                     /\ in_list (scheme parsed) ["http"; "https"] = true
                     /\ nonempty (netloc parsed) = true)
  /\ exists n, Frontier.normalize_url url = Some n.
Proof.
  unfold validate_url, Frontier.normalize_url. intros H Hstrip. rewrite Hstrip in *.
  destruct (urlparse v) as [parsed|] eqn:Hp; [|discriminate].
  destruct (in_list (scheme parsed) ["http"; "https"]) eqn:Hs; [|discriminate].
  destruct (nonempty (netloc parsed)) eqn:Hn; [|discriminate].
  cbn [negb] in H. injection H as <-. split; [reflexivity|].
  rewrite Hstrip, Hp, Hs, Hn. cbn [negb]. split; eauto.
Qed.

Lemma validated_url_normalises_witness :
  validate_url "https://Example.com/docs?utm_source=x" = Returns "https://Example.com/docs?utm_source=x"
  /\ Frontier.normalize_url "https://Example.com/docs?utm_source=x"
     = Some "https://example.com/docs".
Proof.
  assert (H : validate_url "https://Example.com/docs?utm_source=x"
              = Returns "https://Example.com/docs?utm_source=x") by (vm_compute; reflexivity).
  split; [exact H|].
  destruct (validated_url_normalises _ _ H ltac:(vm_compute; reflexivity))
    as (_ & _ & n & Hn).
  rewrite Hn. f_equal. vm_compute in Hn. congruence.
Defined.

(** A URL the API accepts starts a crawl: what [CrawlRequest.validate_url]
    returns has no white space around it, passes the validator of
    [CrawlConfig] unchanged, and is a URL [normalize_url] accepts, with
    or without white space around the submitted string. *)
Theorem api_validated_url_is_accepted (v url : string) :
  Api.validate_url v = Returns url ->
  strip url = url
  /\ validate_url url = Returns url
  /\ exists n, Frontier.normalize_url url = Some n.
Proof.
  unfold Api.validate_url. destruct (urlparse (strip v)) as [parsed|] eqn:Hp; [|discriminate].
  destruct (in_list (scheme parsed) ["http"; "https"]) eqn:Hs; [|discriminate].
  destruct (nonempty (netloc parsed)) eqn:Hn; [|discriminate].
  cbn [negb]. intros [= <-].
  pose proof (LineFacts.strip_idem v) as Hidem. split; [exact Hidem|].
  unfold validate_url, Frontier.normalize_url. rewrite Hidem, Hp, Hs, Hn. cbn [negb].
  split; eauto.
Qed.

Lemma api_validated_url_is_accepted_witness :
  Api.validate_url "  https://example.com/a b  " = Returns "https://example.com/a b"
  /\ validate_url "https://example.com/a b" = Returns "https://example.com/a b".
Proof.
  assert (H : Api.validate_url "  https://example.com/a b  "
              = Returns "https://example.com/a b") by (vm_compute; reflexivity).
  split; [exact H|].
  exact (proj1 (proj2 (api_validated_url_is_accepted _ _ H))).
Defined.

End ValidatorFacts.

(** ** Lower case and the string operations *)

Module LowerFacts.
Import PyStr PyStrFacts.

Lemma eqb_lower_char (c d : ascii) :
  isalpha c = false -> Ascii.eqb c (lower_char d) = Ascii.eqb c d.
Proof.
  intros H. pose proof (contains_lower c (String d "") H) as E. cbn [lower contains] in E.
  rewrite !orb_false_r in E. exact E.
Qed.

Lemma lower_app (a b : string) : lower (a +:+ b) = lower a +:+ lower b.
Proof.
  induction a as [|c a IH]; [reflexivity|]. rewrite append_cons. cbn [lower].
  rewrite append_cons, IH. reflexivity.
Qed.

Lemma length_lower (s : string) : String.length (lower s) = String.length s.
Proof. induction s as [|c s IH]; [reflexivity|]. cbn [lower String.length]. rewrite IH. reflexivity. Qed.

Lemma partition_lower (c : ascii) (s : string) :
  isalpha c = false ->
  partition c (lower s)
  = match partition c s with Some (a, b) => Some (lower a, lower b) | None => None end.
Proof.
  intros H. induction s as [|d s IH]; [reflexivity|]. cbn [lower partition].
  rewrite (eqb_lower_char c d H). destruct (Ascii.eqb c d); [reflexivity|].
  rewrite IH. destruct (partition c s) as [[a b]|]; reflexivity.
Qed.

Lemma rpartition_lower (c : ascii) (s : string) :
  isalpha c = false ->
  rpartition c (lower s)
  = match rpartition c s with Some (a, b) => Some (lower a, lower b) | None => None end.
Proof.
  intros H. induction s as [|d s IH]; [reflexivity|]. cbn [lower rpartition].
  rewrite IH. destruct (rpartition c s) as [[a b]|]; [reflexivity|].
  rewrite (eqb_lower_char c d H). destruct (Ascii.eqb c d); reflexivity.
Qed.

Lemma after_last_lower (c : ascii) (s : string) :
  isalpha c = false -> after_last c (lower s) = lower (after_last c s).
Proof.
  intros H. unfold after_last. rewrite (rpartition_lower c s H).
  destruct (rpartition c s) as [[a b]|]; reflexivity.
Qed.

Lemma split_lower (c : ascii) (s : string) :
  isalpha c = false -> split c (lower s) = map lower (split c s).
Proof.
  intros H. induction s as [|d s IH]; [reflexivity|]. cbn [lower split].
  rewrite IH. destruct (split c s) as [|f fs]; cbn [map]; [reflexivity|].
  rewrite (eqb_lower_char c d H). destruct (Ascii.eqb c d); reflexivity.
Qed.

Lemma break_at_lower (p : ascii -> bool) (s : string) :
  (forall c, p (lower_char c) = p c) ->
  break_at p (lower s) = (lower (fst (break_at p s)), lower (snd (break_at p s))).
Proof.
  intros Hp. induction s as [|c s IH]; [reflexivity|]. cbn [lower break_at].
  rewrite Hp. destruct (p c); [reflexivity|].
  rewrite IH. destruct (break_at p s); reflexivity.
Qed.

Lemma all_chars_lower_inv (p : ascii -> bool) (s : string) :
  (forall c, p (lower_char c) = p c) -> all_chars p (lower s) = all_chars p s.
Proof.
  intros Hp. induction s as [|c s IH]; [reflexivity|]. cbn [lower all_chars].
  rewrite Hp, IH. reflexivity.
Qed.

Lemma isdigit_lower (c : ascii) : isdigit (lower_char c) = isdigit c.
Proof. destruct c as [[] [] [] [] [] [] [] []]; reflexivity. Qed.

Lemma lower_digits (s : string) : all_chars isdigit s = true -> lower s = s.
Proof.
  induction s as [|c s IH]; [reflexivity|]. cbn [all_chars lower]. intros H.
  apply andb_true_iff in H as [Hc Hs]. rewrite (IH Hs). f_equal.
  revert Hc. destruct c as [[] [] [] [] [] [] [] []]; vm_compute; congruence.
Qed.

Lemma forallb_map_lower (f : string -> bool) (l : list string) :
  (forall x, f (lower x) = f x) -> forallb f (map lower l) = forallb f l.
Proof.
  intros Hf. induction l as [|x l IH]; [reflexivity|]. cbn [map forallb].
  rewrite Hf, IH. reflexivity.
Qed.

Lemma last_map_lower (l : list string) : List.last (map lower l) "" = lower (List.last l "").
Proof.
  induction l as [|x l IH]; [reflexivity|]. destruct l as [|y l]; [reflexivity|].
  exact IH.
Qed.

Lemma removelast_map_lower (l : list string) :
  removelast (map lower l) = map lower (removelast l).
Proof.
  induction l as [|x l IH]; [reflexivity|]. destruct l as [|y l]; [reflexivity|].
  cbn [map removelast] in *. rewrite IH. reflexivity.
Qed.

Lemma hd_map_lower (l : list string) : List.hd "" (map lower l) = lower (List.hd "" l).
Proof. destruct l; reflexivity. Qed.

End LowerFacts.

(** ** Addresses in brackets, whatever the case *)

Module IpFacts.
Import PyStr PyStrFacts LowerFacts IpAddress UrlLib.

Lemma ishex_lower (c : ascii) : ishex (lower_char c) = ishex c.
Proof. destruct c as [[] [] [] [] [] [] [] []]; reflexivity. Qed.

Lemma octet_ok_lower (o : string) : octet_ok (lower o) = octet_ok o.
Proof.
  unfold octet_ok. rewrite (all_chars_lower_inv isdigit o isdigit_lower).
  destruct (all_chars isdigit o) eqn:H.
  - rewrite (lower_digits o H). reflexivity.
  - rewrite !andb_false_r. reflexivity.
Qed.

Lemma ipv4_ok_lower (s : string) : ipv4_ok (lower s) = ipv4_ok s.
Proof.
  unfold ipv4_ok. rewrite contains_lower by reflexivity.
  rewrite nonempty_lower, split_lower by reflexivity.
  rewrite length_map, (forallb_map_lower octet_ok _ octet_ok_lower). reflexivity.
Qed.

Lemma hextet_ok_lower (h : string) : hextet_ok (lower h) = hextet_ok h.
Proof.
  unfold hextet_ok.
  rewrite (all_chars_lower_inv ishex h ishex_lower), length_lower, nonempty_lower.
  reflexivity.
Qed.

Lemma interior_empty_lower (parts : list string) :
  interior_empty (map lower parts) = interior_empty parts.
Proof.
  unfold interior_empty. rewrite length_map. apply list_filter_iff. intros i.
  rewrite !bool_decide_spec. change (map lower parts) with (lower <$> parts).
  rewrite list_lookup_fmap.
  destruct (parts !! i) as [x|]; cbn; [|tauto].
  split; intros (H1 & H2 & H3); (split; [exact H1|split; [exact H2|]]).
  - injection H3 as H3. destruct x; [reflexivity|discriminate].
  - injection H3 as ->. reflexivity.
Qed.

Lemma ipv6_parts_ok_lower (s : string) : ipv6_parts_ok (lower s) = ipv6_parts_ok s.
Proof.
  unfold ipv6_parts_ok. cbv zeta.
  rewrite nonempty_lower, split_lower by reflexivity.
  set (parts := split ":" s).
  rewrite length_map, last_map_lower, removelast_map_lower.
  rewrite contains_lower by reflexivity. rewrite ipv4_ok_lower.
  set (v4 := contains "." (List.last parts "")).
  assert (E : (if v4 then (map lower (removelast parts) ++ ["0"; "0"])%list
               else map lower parts)
              = map lower (if v4 then (removelast parts ++ ["0"; "0"])%list else parts)).
  { destruct v4; [rewrite map_app; reflexivity|reflexivity]. }
  rewrite E. set (parts' := if v4 then (removelast parts ++ ["0"; "0"])%list else parts).
  rewrite length_map, interior_empty_lower, hd_map_lower, last_map_lower, !nonempty_lower.
  rewrite (forallb_map_lower hextet_ok _ hextet_ok_lower).
  destruct (interior_empty parts') as [|i [|]]; try reflexivity.
  rewrite firstn_map, skipn_map, !(forallb_map_lower hextet_ok _ hextet_ok_lower).
  reflexivity.
Qed.

Lemma ipv6_ok_lower (s : string) : ipv6_ok (lower s) = ipv6_ok s.
Proof.
  unfold ipv6_ok. rewrite contains_lower by reflexivity.
  rewrite partition_lower by reflexivity.
  destruct (partition "%" s) as [[addr scope_id]|].
  - rewrite nonempty_lower, contains_lower by reflexivity.
    rewrite ipv6_parts_ok_lower. reflexivity.
  - apply f_equal, ipv6_parts_ok_lower.
Qed.

Lemma is_ipv6_address_lower (s : string) : is_ipv6_address (lower s) = is_ipv6_address s.
Proof. unfold is_ipv6_address. rewrite ipv4_ok_lower, ipv6_ok_lower. reflexivity. Qed.

(** An IPv6 address begins with a hex digit or a colon. *)
Lemma ipv6_parts_head (c : ascii) (r : string) :
  ishex c = false -> Ascii.eqb ":" c = false -> ipv6_parts_ok (String c r) = false.
Proof.
  intros Hc Hsep. unfold ipv6_parts_ok. cbv zeta. cbn [nonempty andb split].
  destruct (split ":" r) as [|f fs] eqn:Hsp; [destruct (LineFacts.split_nonempty _ _ Hsp)|].
  rewrite Hsep. set (h := String c f). set (parts := h :: fs).
  destruct (3 <=? length parts)%nat eqn:Hlen; [|reflexivity]. cbn [andb].
  set (v4 := contains "." (List.last parts "")).
  destruct (negb v4 || ipv4_ok _); [|reflexivity]. cbn [andb].
  assert (Hparts : exists t, (if v4 then (removelast parts ++ ["0"; "0"])%list else parts)
                             = h :: t).
  { destruct v4; [|eexists; reflexivity]. subst parts.
    destruct fs as [|f2 fs2]; [discriminate Hlen|]. eexists. reflexivity. }
  destruct Hparts as [t ->].
  assert (Hh : hextet_ok h = false)
    by (unfold hextet_ok, h; cbn [all_chars]; rewrite Hc; reflexivity).
  destruct (length (h :: t) <=? 9)%nat; [|reflexivity]. cbn [andb].
  destruct (interior_empty (h :: t)) as [|k [|]] eqn:Hint; [| |reflexivity].
  - cbn [forallb]. rewrite Hh, !andb_false_r. reflexivity.
  - assert (Hk : k ∈ interior_empty (h :: t)) by (rewrite Hint; constructor).
    unfold interior_empty in Hk. apply list_elem_of_filter in Hk as [Hk _].
    apply bool_decide_spec in Hk as [Hk _].
    destruct k as [|k]; [lia|].
    assert (Hne : nonempty h = true) by reflexivity.
    cbn [List.hd]. rewrite Hne. cbn [negb firstn forallb]. rewrite Hh. cbn [andb].
    rewrite !andb_false_r. reflexivity.
Qed.

Lemma ipv6_ok_head (c : ascii) (r : string) :
  ishex c = false -> Ascii.eqb ":" c = false -> Ascii.eqb "%" c = false ->
  ipv6_ok (String c r) = false.
Proof.
  intros Hc Hsep Hpct. unfold ipv6_ok. cbn [partition]. rewrite Hpct.
  destruct (partition "%" r) as [[a b]|].
  - rewrite (ipv6_parts_head c a Hc Hsep), !andb_false_r. reflexivity.
  - rewrite (ipv6_parts_head c r Hc Hsep), !andb_false_r. reflexivity.
Qed.

(** [_check_bracketed_host], with its two patterns as tests. *)
Lemma check_bracketed_host_cons (c : ascii) (r : string) :
  check_bracketed_host (String c r)
  = if Ascii.eqb c "v"
    then let '(digits, tail) := break_at (fun c => negb (ishex c)) r in
         nonempty digits &&
         match tail with
         | EmptyString => false
         | String d more => Ascii.eqb d "." && (nonempty more && negb (contains "010" more))
         end
    else is_ipv6_address (String c r).
Proof.
  destruct c as [[] [] [] [] [] [] [] []]; try reflexivity.
  cbn [check_bracketed_host Ascii.eqb Bool.eqb]. destruct (break_at _ r) as [digits tail].
  destruct tail as [|d more]; [reflexivity|].
  destruct d as [[] [] [] [] [] [] [] []]; reflexivity.
Qed.

(** A bracketed host that passes still passes in lower case. *)
Lemma check_bracketed_host_lower (h : string) :
  check_bracketed_host h = true -> check_bracketed_host (lower h) = true.
Proof.
  destruct h as [|c r]; [auto|]. cbn [lower]. rewrite !check_bracketed_host_cons.
  destruct (Ascii.eqb_spec c "v") as [->|Hv].
  - change (lower_char "v") with "v"%char. rewrite Ascii.eqb_refl.
    rewrite (break_at_lower (fun c => negb (ishex c)) r)
      by (intros d; rewrite ishex_lower; reflexivity).
    destruct (break_at _ r) as [digits tail]. cbn [fst snd]. rewrite nonempty_lower.
    destruct tail as [|d more]; [auto|]. cbn [lower].
    rewrite (Ascii.eqb_sym (lower_char d)), (eqb_lower_char "." d eq_refl), (Ascii.eqb_sym "." d).
    rewrite nonempty_lower, contains_lower by reflexivity. auto.
  - intros H. destruct (Ascii.eqb_spec (lower_char c) "v") as [Hl|_].
    + exfalso. assert (Hc : c = "V"%char).
      { revert Hl Hv. clear. destruct c as [[] [] [] [] [] [] [] []]; vm_compute; congruence. }
      subst c. unfold is_ipv6_address in H. rewrite ipv6_ok_head in H by reflexivity.
      rewrite andb_false_r in H. discriminate.
    + rewrite <- H. apply (is_ipv6_address_lower (String c r)).
Qed.

Lemma startswith_colon_lower (s : string) : startswith ":" (lower s) = startswith ":" s.
Proof.
  destruct s as [|c s]; [reflexivity|]. cbn [lower].
  destruct s; destruct c as [[] [] [] [] [] [] [] []]; reflexivity.
Qed.

Lemma check_bracketed_netloc_lower (nl : string) :
  check_bracketed_netloc nl = true -> check_bracketed_netloc (lower nl) = true.
Proof.
  unfold check_bracketed_netloc. cbv zeta. rewrite after_last_lower by reflexivity.
  set (hp := after_last "@" nl). rewrite !partition_lower by reflexivity.
  destruct (partition "[" hp) as [[bb br]|].
  - rewrite nonempty_lower, partition_lower by reflexivity.
    destruct (partition "]" br) as [[hn port]|]; intros H;
      apply andb_true_iff in H as [H1 H2]; apply andb_true_iff in H2 as [H2 H3];
      rewrite H1; cbn [andb]; rewrite ?nonempty_lower, ?startswith_colon_lower;
      try rewrite H2; cbn [andb nonempty negb]; apply check_bracketed_host_lower, H3.
  - destruct (partition ":" hp) as [[h p]|]; apply check_bracketed_host_lower.
Qed.

Lemma bracket_ok_lower (nl : string) :
  Shape.bracket_ok nl = true -> Shape.bracket_ok (lower nl) = true.
Proof.
  unfold Shape.bracket_ok. rewrite !contains_lower by reflexivity.
  destruct (contains "[" nl), (contains "]" nl); cbn [andb orb negb]; auto.
  rewrite !negb_involutive. intros H.
  rewrite (check_bracketed_netloc_lower nl H). reflexivity.
Qed.

End IpFacts.

(** ** Parsing a normalised URL again *)

Module ReparseFacts.
Import PyStr PyStrFacts LowerFacts IpFacts UrlLib UrlFacts Frontier NormalizeFacts.

Lemma contains_remove_same (c : ascii) (s : string) : contains c (remove_char c s) = false.
Proof.
  induction s as [|d s IH]; [reflexivity|]. cbn [remove_char].
  destruct (Ascii.eqb c d) eqn:E; [exact IH|]. cbn [contains]. rewrite E, IH. reflexivity.
Qed.

Lemma contains_remove_other (c d : ascii) (s : string) :
  contains c s = false -> contains c (remove_char d s) = false.
Proof.
  induction s as [|e s IH]; [reflexivity|]. cbn [remove_char contains]. intros H.
  apply orb_false_elim in H as [He Hs].
  destruct (Ascii.eqb d e); [exact (IH Hs)|]. cbn [contains]. rewrite He, (IH Hs). reflexivity.
Qed.

Lemma remove_char_fixed (c : ascii) (s : string) :
  contains c s = false -> remove_char c s = s.
Proof.
  induction s as [|e s IH]; [reflexivity|]. cbn [remove_char contains]. intros H.
  apply orb_false_elim in H as [He Hs]. rewrite He, (IH Hs). reflexivity.
Qed.

Lemma partition_app (c : ascii) (a b : string) :
  contains c a = false -> partition c (a +:+ String c b) = Some (a, b).
Proof.
  induction a as [|d a IH]; intros H.
  - rewrite append_nil. cbn [partition]. rewrite Ascii.eqb_refl. reflexivity.
  - cbn [contains] in H. apply orb_false_elim in H as [Hd Ha].
    rewrite append_cons. cbn [partition]. rewrite Hd, (IH Ha). reflexivity.
Qed.

Lemma break_at_snd (p : ascii -> bool) (s : string) :
  snd (break_at p s) = "" \/ exists c r, snd (break_at p s) = String c r /\ p c = true.
Proof.
  induction s as [|c s IH]; [left; reflexivity|]. cbn [break_at].
  destruct (p c) eqn:Hc; [right; exists c, s; auto|].
  destruct (break_at p s) as [a b]. exact IH.
Qed.

(** The characters [urlsplit] removes are in no part of its result. *)
Lemma urlparse_parts_clean (url : string) (r : ParseResult) (c : ascii) :
  urlparse url = Some r ->
  c = "009"%char \/ c = "010"%char \/ c = "013"%char ->
  contains c (netloc r) = false /\ contains c (path r) = false
  /\ contains c (params r) = false.
Proof.
  intros H Hc. destruct (urlparse_inv url r H) as (r0 & H0 & _ & Hnl & _ & _ & Hpath).
  pose proof (urlsplit_inv url r0 H0) as Hinv. cbv zeta in Hinv.
  set (cleaned := remove_char "010" (remove_char "013" (remove_char "009"
                    (lstrip_by c0_control_or_space url)))) in Hinv.
  assert (Hclean : contains c cleaned = false).
  { subst cleaned. destruct Hc as [-> | [-> | ->]].
    - do 2 apply contains_remove_other. apply contains_remove_same.
    - apply contains_remove_same.
    - apply contains_remove_other, contains_remove_same. }
  destruct Hinv as (body & nl & rest & bh & Hscheme & Hbody & Hnl0 & Hfrag & Hquery & Hparams).
  assert (Hb : contains c body = false).
  { destruct Hscheme as [(before & Hp & _)|(_ & ->)]; [|exact Hclean].
    apply partition_Some in Hp as [Hp _]. rewrite Hp in Hclean.
    apply contains_app_false in Hclean as [_ Hclean].
    apply (contains_cons_false _ _ _ Hclean). }
  assert (Hparts : contains c nl = false /\ contains c rest = false).
  { destruct Hbody as [(-> & _ & _)|(-> & -> & _)]; [|split; [reflexivity|exact Hb]].
    apply contains_app_false in Hb as [_ Hb]. apply contains_app_false in Hb. exact Hb. }
  destruct Hparts as [Hnlc Hrest].
  assert (Hbh : contains c bh = false).
  { destruct Hfrag as [Hf|(_ & -> & _)]; [|exact Hrest].
    apply partition_Some in Hf as [-> _]. apply contains_app_false in Hrest as [Hr _].
    exact Hr. }
  assert (Hp0 : contains c (path r0) = false).
  { destruct Hquery as [Hq|(_ & -> & _)]; [|exact Hbh].
    apply partition_Some in Hq as [-> _]. apply contains_app_false in Hbh as [Hr _].
    exact Hr. }
  rewrite Hnl, Hnl0. split; [exact Hnlc|].
  destruct Hpath as [[-> ->]|[-> ->]].
  - rewrite Hparams. auto.
  - apply splitparams_parts, Hp0.
Qed.

(** After a host, the path is empty or begins with a slash, and the host
    holds none of the characters that end it. *)
Lemma urlparse_after_host (url : string) (r : ParseResult) :
  urlparse url = Some r -> nonempty (netloc r) = true ->
  (path r = "" \/ exists t, path r = String "/" t)
  /\ Shape.bracket_ok (netloc r) = true
  /\ contains "/" (netloc r) = false /\ contains "?" (netloc r) = false
  /\ contains "#" (netloc r) = false.
Proof.
  intros H Hne. destruct (urlparse_inv url r H) as (r0 & H0 & _ & Hnl & _ & _ & Hpath).
  destruct (urlsplit_inv url r0 H0)
    as (body & nl & rest & bh & _ & Hbody & Hnl0 & Hfrag & Hquery & _).
  rewrite Hnl, Hnl0 in *.
  destruct Hbody as [(_ & Hb & Hok)|(-> & _)]; [|discriminate].
  assert (Hhost : forall c, contains c "/?#" = true -> contains c nl = false).
  { intros c Hc. pose proof (break_at_fst (fun c => contains c "/?#") (nl +:+ rest) c Hc) as Hf.
    rewrite Hb in Hf. exact Hf. }
  assert (Hrest : rest = "" \/ exists c t, rest = String c t /\ contains c "/?#" = true).
  { pose proof (break_at_snd (fun c => contains c "/?#") (nl +:+ rest)) as Hs.
    rewrite Hb in Hs. exact Hs. }
  assert (Hp0 : path r0 = "" \/ exists t, path r0 = String "/" t).
  { destruct Hrest as [-> | (c & t & -> & Hc)].
    - destruct Hfrag as [Hf|(_ & -> & _)]; [discriminate|].
      destruct Hquery as [Hq|(_ & -> & _)]; [discriminate|]. left. reflexivity.
    - assert (Hbh : bh = "" \/ exists t', bh = String c t' /\ Ascii.eqb "#" c = false).
      { destruct Hfrag as [Hf|(Hf & -> & _)].
        - cbn [partition] in Hf. destruct (Ascii.eqb "#" c) eqn:E; [injection Hf as <- _; auto|].
          destruct (partition "#" t) as [[a b]|]; [|discriminate].
          injection Hf as <- _. right. eauto.
        - right. exists t. split; [reflexivity|]. cbn [partition] in Hf.
          destruct (Ascii.eqb "#" c); [discriminate|reflexivity]. }
      destruct Hbh as [-> | (t' & -> & Hhash)].
      + destruct Hquery as [Hq|(_ & -> & _)]; [discriminate|]. left. reflexivity.
      + assert (Hpq : path r0 = "" \/ exists t'', path r0 = String c t''
                                                  /\ Ascii.eqb "?" c = false).
        { destruct Hquery as [Hq|(Hq & -> & _)].
          - cbn [partition] in Hq. destruct (Ascii.eqb "?" c) eqn:E; [injection Hq as <- _; auto|].
            destruct (partition "?" t') as [[a b]|]; [|discriminate].
            injection Hq as <- _. right. eauto.
          - right. exists t'. split; [reflexivity|]. cbn [partition] in Hq.
            destruct (Ascii.eqb "?" c); [discriminate|reflexivity]. }
        destruct Hpq as [-> | (t'' & -> & Hq)]; [left; reflexivity|]. right. exists t''.
        f_equal. revert Hc Hhash Hq. clear.
        destruct c as [[] [] [] [] [] [] [] []]; vm_compute; congruence. }
  split; [|split; [exact Hok|repeat split; apply Hhost; reflexivity]].
  destruct Hpath as [[-> _]|[-> _]]; [exact Hp0|].
  destruct Hp0 as [-> | (t & ->)]; [left; reflexivity|]. right.
  unfold _splitparams. destruct (rpartition "/" (String "/" t)) as [[head tail]|] eqn:Hr.
  - destruct (partition ";" tail) as [[before after]|]; cbn [fst]; [|eauto].
    apply rpartition_Some in Hr as [Hr _]. destruct head as [|h head].
    + rewrite append_nil. eexists. reflexivity.
    + rewrite append_cons in Hr. injection Hr as <- _. rewrite append_cons. eexists.
      reflexivity.
  - cbn [rpartition] in Hr. destruct (rpartition "/" t) as [[a b]|]; discriminate.
Qed.

Lemma clean_path_head (p : string) :
  p = "" \/ (exists t, p = String "/" t) -> exists t, clean_path p = String "/" t.
Proof.
  intros [-> | (t & ->)]; [exists ""; reflexivity|].
  unfold clean_path, collapse_runs. cbn [nonempty collapse_from Ascii.eqb Bool.eqb].
  eexists. reflexivity.
Qed.

Lemma quote_plus_clean (s : string) (c : ascii) :
  c = "009"%char \/ c = "010"%char \/ c = "013"%char -> contains c (quote_plus s) = false.
Proof.
  intros Hc. induction s as [|d s IH]; [reflexivity|]. cbn [quote_plus].
  rewrite contains_app, IH, orb_false_r.
  destruct Hc as [-> | [-> | ->]]; destruct d as [[] [] [] [] [] [] [] []];
    vm_compute; reflexivity.
Qed.

Lemma urlencode_clean (q : qdict) (c : ascii) :
  c = "009"%char \/ c = "010"%char \/ c = "013"%char -> contains c (urlencode q) = false.
Proof.
  intros Hc. unfold urlencode. apply contains_join.
  - destruct Hc as [-> | [-> | ->]]; reflexivity.
  - apply Forall_forall. intros p Hp.
    apply list_elem_of_In, in_flat_map in Hp as (kv & _ & Hp).
    apply in_map_iff in Hp as (elt & <- & _).
    rewrite !contains_app, !(quote_plus_clean _ c Hc).
    destruct Hc as [-> | [-> | ->]]; reflexivity.
Qed.

(** [urlsplit] on a scheme, [://], a host and what follows it. *)
Lemma urlsplit_after_scheme (sch nl t : string) :
  sch = "http" \/ sch = "https" ->
  contains "/" nl = false -> contains "?" nl = false -> contains "#" nl = false ->
  Shape.bracket_ok nl = true ->
  (forall c, c = "009"%char \/ c = "010"%char \/ c = "013"%char ->
             contains c (nl +:+ String "/" t) = false) ->
  exists r, urlsplit (sch +:+ "://" +:+ nl +:+ String "/" t) = Some r
            /\ scheme r = sch /\ netloc r = nl.
Proof.
  intros Hs H1 H2 H3 Hok Hclean. set (X := nl +:+ String "/" t) in *.
  assert (Hurl : forall c, c = "009"%char \/ c = "010"%char \/ c = "013"%char ->
                           contains c (sch +:+ "://" +:+ X) = false).
  { intros c Hc. rewrite !contains_app, (Hclean c Hc).
    destruct Hs as [-> | ->]; destruct Hc as [-> | [-> | ->]]; reflexivity. }
  unfold urlsplit. cbv zeta.
  assert (Hl : lstrip_by c0_control_or_space (sch +:+ "://" +:+ X) = sch +:+ "://" +:+ X)
    by (destruct Hs as [-> | ->]; reflexivity).
  rewrite Hl.
  rewrite (remove_char_fixed "009") by (apply Hurl; auto).
  rewrite (remove_char_fixed "013") by (apply Hurl; auto).
  rewrite (remove_char_fixed "010") by (apply Hurl; auto).
  assert (Hp : partition ":" (sch +:+ "://" +:+ X) = Some (sch, "//" +:+ X)).
  { change ("://" +:+ X) with (String ":" ("//" +:+ X)). apply partition_app.
    destruct Hs as [-> | ->]; reflexivity. }
  rewrite Hp.
  assert (Hpick : (match sch with
                   | String c0 _ =>
                       if isascii c0 && isalpha c0 && all_chars scheme_char sch
                       then (lower sch, "//" +:+ X)
                       else ("", sch +:+ "://" +:+ X)
                   | _ => ("", sch +:+ "://" +:+ X)
                   end) = (sch, "//" +:+ X))
    by (destruct Hs as [-> | ->]; reflexivity).
  destruct sch as [|c0 sch']; [destruct Hs; discriminate|].
  rewrite Hpick. change ("//" +:+ X) with (String "/" (String "/" X)). cbv iota beta.
  assert (Hb : break_at (fun c => contains c "/?#") X = (nl, String "/" t)).
  { apply break_at_stop; [|reflexivity]. intros d Hd.
    destruct (contains d "/?#") eqn:E; [|reflexivity]. exfalso.
    cbn [contains] in E. rewrite orb_false_r in E.
    apply orb_true_iff in E as [E|E]; [|apply orb_true_iff in E as [E|E]];
      apply Ascii.eqb_eq in E; subst d; congruence. }
  rewrite Hb. unfold Shape.bracket_ok in Hok.
  apply andb_true_iff in Hok as [Hok1 Hok2].
  apply negb_true_iff in Hok1, Hok2. rewrite Hok1, Hok2.
  destruct (partition "#" (String "/" t)) as [[u f]|];
    destruct (partition "?" _) as [[u' q]|]; eexists; (split; [reflexivity|]);
    split; reflexivity.
Qed.

(** What [normalize_url] returns parses again, to the same scheme and to
    the host it wrote. *)
Lemma normalize_url_reparses (u n : string) :
  normalize_url u = Some n ->
  exists parsed again,
    urlparse (strip u) = Some parsed /\ urlparse n = Some again
    /\ scheme again = scheme parsed /\ netloc again = lower (netloc parsed).
Proof.
  intros H. destruct (normalize_url_inv u n H) as (parsed & Hp & Hs & Hn & ->).
  exists parsed.
  destruct (urlparse_after_host _ _ Hp Hn) as (Hpath & Hok & H1 & H2 & H3).
  destruct (clean_path_head _ Hpath) as [t Ht].
  set (cp := clean_path (path parsed)) in *.
  set (cq := clean_query (query parsed)).
  set (lnl := lower (netloc parsed)).
  assert (Hctl : forall c, c = "009"%char \/ c = "010"%char \/ c = "013"%char ->
                           contains c lnl = false /\ contains c cp = false
                           /\ contains c (params parsed) = false
                           /\ contains c cq = false).
  { intros c Hc. destruct (urlparse_parts_clean _ _ c Hp Hc) as (Hc1 & Hc2 & Hc3).
    assert (Hslash : contains c "/" = false) by (destruct Hc as [-> | [-> | ->]]; reflexivity).
    assert (Halpha : isalpha c = false) by (destruct Hc as [-> | [-> | ->]]; reflexivity).
    split; [subst lnl; rewrite contains_lower by exact Halpha; exact Hc1|].
    split; [|split; [exact Hc3|]].
    - subst cp. unfold clean_path, collapse_runs.
      destruct (nonempty (collapse_from _ _ _)); [|exact Hslash].
      apply contains_collapse. destruct (nonempty (path parsed)); [exact Hc2|exact Hslash].
    - subst cq. unfold clean_query. destruct (nonempty (query parsed)); [|reflexivity].
      apply urlencode_clean, Hc. }
  assert (Hshape : exists t',
             urlunparse (scheme parsed) lnl cp (params parsed) cq ""
             = scheme parsed +:+ "://" +:+ lnl +:+ String "/" t'
             /\ forall c, c = "009"%char \/ c = "010"%char \/ c = "013"%char ->
                          contains c (String "/" t') = false).
  { unfold urlunparse, urlunsplit. subst lnl. rewrite nonempty_lower, Hn. cbn [orb].
    assert (Hne : nonempty (scheme parsed) = true) by (destruct Hs as [-> | ->]; reflexivity).
    rewrite Hne. cbn [nonempty]. rewrite Ht.
    set (url1 := if nonempty (params parsed)
                 then String "/" t +:+ ";" +:+ params parsed else String "/" t).
    assert (Hurl1 : exists t1, url1 = String "/" t1
                               /\ forall c, c = "009"%char \/ c = "010"%char \/ c = "013"%char ->
                                            contains c url1 = false).
    { subst url1. destruct (nonempty (params parsed)).
      - rewrite append_cons. eexists. split; [reflexivity|]. intros c Hc.
        destruct (Hctl c Hc) as (_ & Hc2 & Hc3 & _). rewrite Ht in Hc2.
        rewrite <- append_cons, !contains_app, Hc2, Hc3.
        destruct Hc as [-> | [-> | ->]]; reflexivity.
      - eexists. split; [reflexivity|]. intros c Hc.
        destruct (Hctl c Hc) as (_ & Hc2 & _). rewrite Ht in Hc2. exact Hc2. }
    destruct Hurl1 as (t1 & Ht1 & Hc1). rewrite Ht1 in *.
    rewrite (startswith_append "/" t1 : startswith "/" (String "/" t1) = true).
    cbn [negb andb]. destruct (nonempty cq) eqn:Hq.
    - exists (t1 +:+ "?" +:+ cq). split.
      + rewrite !append_assoc. rewrite append_cons. reflexivity.
      + intros c Hc. destruct (Hctl c Hc) as (_ & _ & _ & Hc4).
        rewrite <- append_cons, !contains_app, (Hc1 c Hc), Hc4.
        destruct Hc as [-> | [-> | ->]]; reflexivity.
    - exists t1. split; [reflexivity|exact Hc1]. }
  destruct Hshape as (t' & -> & Hclean).
  destruct (urlsplit_after_scheme (scheme parsed) lnl t' Hs) as (r & Hr & Hrs & Hrn).
  - subst lnl. rewrite contains_lower by reflexivity. exact H1.
  - subst lnl. rewrite contains_lower by reflexivity. exact H2.
  - subst lnl. rewrite contains_lower by reflexivity. exact H3.
  - apply bracket_ok_lower, Hok.
  - intros c Hc. rewrite contains_app, (Hclean c Hc).
    destruct (Hctl c Hc) as (-> & _). reflexivity.
  - unfold urlparse. rewrite Hr.
    destruct (in_list (scheme r) uses_params && contains ";" (path r)).
    + destruct (_splitparams (path r)) as [p1 p2]. eexists.
      split; [exact Hp|]. split; [reflexivity|]. split; [exact Hrs|exact Hrn].
    + exists r. split; [exact Hp|]. split; [reflexivity|]. split; [exact Hrs|exact Hrn].
Qed.

End ReparseFacts.

(** ** The frontier never raises *)

Module FrontierTotalFacts.
Import PyStr UrlLib Frontier Crawler ReparseFacts.

Lemma domain_allowed_returns (f : URLFrontier) (u n : string) :
  normalize_url u = Some n -> exists b, _domain_allowed f n = Returns b.
Proof.
  intros H. destruct (normalize_url_reparses u n H) as (parsed & again & _ & Ha & _).
  unfold _domain_allowed. rewrite Ha. eexists. reflexivity.
Qed.

Lemma add_url_returns (f : URLFrontier) (u : string) (d : Z) :
  exists accepted, fst (add_url f u d) = Returns accepted.
Proof.
  unfold add_url. destruct (normalize_url u) as [n|] eqn:Hn; [|eexists; reflexivity].
  destruct (max_depth f <? d)%Z; [eexists; reflexivity|].
  destruct (_ || _); [eexists; reflexivity|].
  destruct (domain_allowed_returns f u n Hn) as [b ->].
  destruct b; eexists; reflexivity.
Qed.

Lemma enqueue_links_returns (links : list string) (f : URLFrontier) (d : Z) :
  fst (enqueue_links f links d) = Returns tt.
Proof.
  revert f. induction links as [|link links IH]; intros f; [reflexivity|].
  cbn [enqueue_links]. destruct (add_url_returns f link (d + 1)) as [b Hb].
  destruct (add_url f link (d + 1)) as [[b'|e] f']; [apply IH|discriminate].
Qed.

Lemma process_url_returns (c : t) (w : page_world) (u : string) (d : Z) :
  exists counted, fst (_process_url c w u d) = Returns counted.
Proof.
  unfold _process_url.
  destruct (_ && _); [eexists; reflexivity|].
  destruct (fst (Fetcher.fetch _ _ _)) as [result|exc]; [|eexists; reflexivity].
  destruct (negb (Fetcher.ok result)); [eexists; reflexivity|].
  destruct (parse w); [|eexists; reflexivity].
  destruct (ExtractorPipeline.run _ _) as [[extraction|exc] pipeline];
    [|eexists; reflexivity].
  pose proof (enqueue_links_returns (ExtractorPipeline.internal_links extraction)
                (frontier (with_structurer (with_pipeline c pipeline)
                             (accumulate (structurer (with_pipeline c pipeline))
                                         extraction))) d) as Hl.
  destruct (enqueue_links _ _ _) as [r f2]. cbn [fst] in Hl. subst r.
  eexists. reflexivity.
Qed.

(** [add_url] never raises: whatever the frontier, the string and the
    depth, it returns a boolean, because what [normalize_url] returns always
    parses again; so the loop that enqueues the links of a page always runs
    to its end. *)
Theorem add_url_never_raises (f : URLFrontier) (url : string) (depth : Z)
        (links : list string) :
  (exists accepted, fst (add_url f url depth) = Returns accepted)
  /\ (forall n, normalize_url url = Some n -> exists b, _domain_allowed f n = Returns b)
  /\ fst (enqueue_links f links depth) = Returns tt.
Proof.
  split; [apply add_url_returns|]. split; [|apply enqueue_links_returns].
  intros n Hn. apply (domain_allowed_returns f url n Hn).
Qed.

(** No exception leaves the processing of a page: whatever the robots
    check, the fetch, the parse and the extractors do, return or raise,
    [_process_url] returns a boolean, so a turn of the crawl loop ends by
    the page limit, by an empty frontier or with the page processed, and
    [crawl] gets past the seeding of the start URL. *)
Theorem no_exception_leaves_process_url
        (c : t) (w : page_world) (url : string) (depth pages_crawled : Z) :
  (exists counted, fst (_process_url c w url depth) = Returns counted)
  /\ (forall message c', crawl_turn w c pages_crawled <> Escaped message c')
  /\ running (crawl_start c) = true.
Proof.
  split; [apply process_url_returns|]. split.
  - intros message c'. unfold crawl_turn.
    destruct (pages_crawled <? _)%Z; [|discriminate].
    destruct (get_next (frontier c)) as [[[u d]|] f]; [|discriminate].
    destruct (process_url_returns (with_frontier c f) w u d) as [b Hb].
    destruct (_process_url _ w u d) as [r c2]. cbn [fst] in Hb. subst r. discriminate.
  - unfold crawl_start.
    destruct (add_url_returns (frontier c) (Config.start_url (config c)) 0) as [b Hb].
    destruct (add_url _ _ _) as [r f]. cbn [fst] in Hb. subst r. reflexivity.
Qed.

End FrontierTotalFacts.

(** ** The start of a crawl *)

Module SeedFacts.
Import PyStr UrlLib Config Frontier Crawler ReparseFacts FrontierTotalFacts.

Lemma set_defaults_fields (cfg : CrawlConfig) (parsed : ParseResult) :
  Config.allowed_domains cfg = [] -> urlparse (start_url cfg) = Some parsed ->
  start_url (set_defaults cfg) = start_url cfg
  /\ Config.max_depth (set_defaults cfg) = Config.max_depth cfg
  /\ page_limit (set_defaults cfg) = page_limit cfg
  /\ exists others, Config.allowed_domains (set_defaults cfg) = netloc parsed :: others.
Proof.
  intros Ha Hp. unfold set_defaults. rewrite Ha, Hp. cbn.
  repeat split. eexists. reflexivity.
Qed.

Lemma crawl_start_seed (cfg : CrawlConfig) (s : DataStructurer) (n : string) :
  Config.allowed_domains cfg = [] ->
  strip (start_url cfg) = start_url cfg ->
  normalize_url (start_url cfg) = Some n ->
  (0 <= Config.max_depth cfg)%Z ->
  let p := crawl_start (new (set_defaults cfg) s) in
  running p = true /\ processed p = [] /\ pages_crawled p = 0%Z
  /\ config (crawler p) = set_defaults cfg
  /\ _queue (frontier (crawler p)) = [mkEntry 0 n]
  /\ _visited (frontier (crawler p)) = ∅.
Proof.
  intros Ha Hstrip Hn Hd.
  destruct (normalize_url_reparses _ _ Hn) as (parsed & again & Hp & Hag & _ & Hnl).
  rewrite Hstrip in Hp.
  destruct (set_defaults_fields cfg parsed Ha Hp) as (Hs & Hm & _ & others & Hdoms).
  unfold crawl_start, new. cbn [frontier config]. rewrite Hs, Hm, Hdoms.
  unfold add_url. rewrite Hn. cbn [Frontier.max_depth Frontier.new _visited _enqueued].
  replace (Config.max_depth cfg <? 0)%Z with false by (symmetry; apply Z.ltb_ge; exact Hd).
  rewrite !bool_decide_eq_false_2 by set_solver. cbn [orb].
  unfold _domain_allowed. rewrite Hag, Hnl, ReFacts.lower_idem.
  cbn [allowed_domains map list_to_set].
  rewrite bool_decide_eq_true_2 by set_solver. cbn [orb].
  cbn [running processed pages_crawled crawler config with_frontier frontier _queue _visited].
  repeat split; reflexivity.
Qed.

(** The start URL is crawled first: for a configuration whose
    [allowed_domains] is left empty, whose start URL has no white space
    around it and normalises, and whose depth limit is not negative,
    [crawl] starts with exactly the normalised start URL in the queue at
    depth 0, and with a positive page limit the first turn of the loop
    processes that URL, whatever the page gives. *)
Theorem start_url_is_crawled_first
        (cfg : CrawlConfig) (s : DataStructurer) (n : string) (world : nat -> page_world) :
  Config.allowed_domains cfg = [] ->
  strip (start_url cfg) = start_url cfg ->
  normalize_url (start_url cfg) = Some n ->
  (0 <= Config.max_depth cfg)%Z ->
  (0 < page_limit cfg)%Z ->
  let p := crawl_start (new (set_defaults cfg) s) in
  running p = true
  /\ _queue (frontier (crawler p)) = [mkEntry 0 n]
  /\ exists counted, processed (crawl_turns 1 world p) = [(n, 0%Z, counted)].
Proof.
  intros Ha Hstrip Hn Hd Hlim p.
  destruct (crawl_start_seed cfg s n Ha Hstrip Hn Hd)
    as (Hrun & Hproc & Hpc & Hcfg & Hq & Hv).
  fold p in Hrun, Hproc, Hpc, Hcfg, Hq, Hv.
  split; [exact Hrun|]. split; [exact Hq|].
  destruct (normalize_url_reparses _ _ Hn) as (parsed & _ & Hp & _).
  rewrite Hstrip in Hp.
  destruct (set_defaults_fields cfg parsed Ha Hp) as (_ & _ & Hpl & _).
  cbn [crawl_turns]. rewrite Hrun, Hproc, Hpc. cbn [length].
  unfold crawl_turn. rewrite Hcfg, Hpl.
  replace (0 <? page_limit cfg)%Z with true by (symmetry; apply Z.ltb_lt; exact Hlim).
  assert (Hnext : exists f1, get_next (frontier (crawler p)) = (Some (n, 0%Z), f1)).
  { unfold get_next. rewrite Hq, Hv. cbn [length get_next_loop].
    cbn. rewrite bool_decide_eq_false_2 by set_solver. eexists. reflexivity. }
  destruct Hnext as [f1 ->].
  set (c1 := with_frontier (crawler p) f1).
  pose proof (process_url_returns c1 (world 0%nat) n 0) as Hret.
  destruct Hret as [b Hb]. destruct (_process_url c1 (world 0%nat) n 0) as [r c2].
  cbn [fst] in Hb. subst r. exists b. reflexivity.
Qed.

Lemma start_url_is_crawled_first_witness :
  let p := crawl_start (new (set_defaults Scenes.plain_job) (mkStructurer [] [] [] [])) in
  running p = true
  /\ _queue (frontier (crawler p)) = [mkEntry 0 "https://example.com/docs"]
  /\ exists counted,
      processed (crawl_turns 1 (fun _ => Scenes.unreachable_page) p)
      = [("https://example.com/docs", 0%Z, counted)].
Proof.
  apply (start_url_is_crawled_first Scenes.plain_job (mkStructurer [] [] [] [])
           "https://example.com/docs" (fun _ => Scenes.unreachable_page)).
  - reflexivity.
  - vm_compute. reflexivity.
  - vm_compute. reflexivity.
  - cbn. lia.
  - cbn. lia.
Defined.

End SeedFacts.

(** ** The text fields of a page *)

Module TextFieldFacts.
Import PyStr PyStrFacts RunFacts LineFacts Soup TextFields ExtractorPipeline.

Lemma strip_lstrip (s : string) : lstrip_by isspace (strip s) = strip s.
Proof.
  apply lstrip_fixed. intros c r HR. unfold strip in HR.
  destruct (rstrip_prefix isspace (lstrip_by isspace s)) as (b & Hb & _).
  rewrite HR, append_cons in Hb. apply (lstrip_head isspace s c _ Hb).
Qed.

Lemma strip_rstrip (s : string) : rstrip_by isspace (strip s) = strip s.
Proof.
  apply rstrip_fixed. intros a c HR. apply (rstrip_last isspace _ a c HR).
Qed.

Lemma strip_both (s : string) :
  lstrip_by isspace s = s -> rstrip_by isspace s = s -> strip s = s.
Proof. intros Hl Hr. unfold strip. rewrite Hl. exact Hr. Qed.

Lemma lstrip_app (p : ascii -> bool) (x rest : string) :
  nonempty x = true -> lstrip_by p x = x -> lstrip_by p (x +:+ rest) = x +:+ rest.
Proof.
  destruct x as [|c r]; [discriminate|]. intros _ H. rewrite append_cons.
  pose proof (lstrip_head p (String c r) c r H) as Hc. cbn [lstrip_by]. rewrite Hc.
  reflexivity.
Qed.

Lemma rstrip_app (p : ascii -> bool) (a b : string) :
  nonempty b = true -> rstrip_by p b = b -> rstrip_by p (a +:+ b) = a +:+ b.
Proof.
  intros Hne Hb. induction a as [|c a IH]; [rewrite append_nil; exact Hb|].
  rewrite append_cons. cbn [rstrip_by]. rewrite IH.
  destruct (a +:+ b) as [|d r] eqn:E; [|reflexivity].
  destruct a; [rewrite append_nil in E; subst b; discriminate|discriminate].
Qed.

(** Stripped strings, none of them empty, join into a stripped string. *)
Lemma concat_stripped (l : list string) :
  Forall (fun x => nonempty x = true /\ lstrip_by isspace x = x /\ rstrip_by isspace x = x) l ->
  lstrip_by isspace (String.concat "" l) = String.concat "" l
  /\ rstrip_by isspace (String.concat "" l) = String.concat "" l
  /\ (l <> [] -> nonempty (String.concat "" l) = true).
Proof.
  induction 1 as [|x l (Hne & Hl & Hr) Hrest IH]; [repeat split; congruence|].
  destruct l as [|y l]; [cbn [String.concat]; repeat split; auto|].
  destruct IH as (IHl & IHr & IHne). specialize (IHne ltac:(discriminate)).
  change (String.concat "" (x :: y :: l)) with (x +:+ "" +:+ String.concat "" (y :: l)).
  rewrite append_nil. split; [apply lstrip_app; assumption|].
  split; [apply rstrip_app; assumption|]. intros _. destruct x; [discriminate|reflexivity].
Qed.

Lemma get_text_strip_stripped (tag : node) : strip (get_text_strip tag) = get_text_strip tag.
Proof.
  unfold get_text_strip.
  destruct (concat_stripped (flat_map stripped_string (descendants tag))) as (Hl & Hr & _).
  - apply Forall_forall. intros x Hx.
    apply list_elem_of_In, in_flat_map in Hx as (n & _ & Hx).
    destruct n as [s| |]; cbn [stripped_string] in Hx; try contradiction.
    destruct (nonempty (strip s)) eqn:Hne; [|contradiction].
    destruct Hx as [<-|[]]. split; [exact Hne|]. split; [apply strip_lstrip|apply strip_rstrip].
  - apply strip_both; assumption.
Qed.

(** The text fields of a page record have no white space around them:
    the title, the content and the description [extract] returns are each
    unchanged by [strip], and the record carries the URL it was given. *)
Theorem text_fields_are_stripped (soup : node) (readable_text url : string) :
  let record := extract soup readable_text url in
  page_url record = url
  /\ strip (title record) = title record
  /\ strip (content record) = content record
  /\ strip (meta_description record) = meta_description record.
Proof.
  cbn [extract page_url title content meta_description].
  split; [reflexivity|]. split; [|split].
  - unfold _get_title. destruct (find soup "title"); [apply get_text_strip_stripped|].
    destruct (find soup "h1"); [apply get_text_strip_stripped|reflexivity].
  - unfold _clean_text. destruct (negb (nonempty readable_text)); [reflexivity|].
    apply strip_idem.
  - unfold _get_meta_description.
    destruct (content_of (find_meta soup "name" _)); [apply strip_idem|].
    destruct (content_of (find_meta soup "property" _)); [apply strip_idem|reflexivity].
Qed.

End TextFieldFacts.

(** ** The page counter of the crawl loop *)

Module CrawlCountFacts.
Import PyStr Config Frontier FrontierOrder Crawler CrawlOrder.
Import FrontierFacts CrawlerFacts CrawlLedgerFacts FrontierTotalFacts.

(** A turn that finds the limit not reached and pops an entry processes
    that entry. *)
Lemma crawl_turn_pops (w : page_world) (c : t) (pc : Z)
      (url : string) (depth : Z) (f : URLFrontier) :
  (pc < page_limit (config c))%Z ->
  get_next (frontier c) = (Some (url, depth), f) ->
  exists success c',
    crawl_turn w c pc = Processed url depth success c' (if success then pc + 1 else pc)%Z.
Proof.
  intros Hlim Hnext. unfold crawl_turn.
  replace (pc <? page_limit (config c))%Z with true by (symmetry; apply Z.ltb_lt; exact Hlim).
  rewrite Hnext.
  destruct (process_url_returns (with_frontier c f) w url depth) as [b Hb].
  destruct (_process_url (with_frontier c f) w url depth) as [r c1]. cbn [fst] in Hb.
  subst r. eexists _, _. reflexivity.
Qed.

(** The loop stops only when the limit is reached or the frontier has
    nothing left to give. *)
Lemma crawl_turns_stop (world : nat -> page_world) (n : nat) (p : progress) :
  (running p = false ->
   (page_limit (config (crawler p)) <= pages_crawled p)%Z
   \/ fst (get_next (frontier (crawler p))) = None) ->
  running (crawl_turns n world p) = false ->
  (page_limit (config (crawler (crawl_turns n world p)))
   <= pages_crawled (crawl_turns n world p))%Z
  \/ fst (get_next (frontier (crawler (crawl_turns n world p)))) = None.
Proof.
  revert p. induction n as [|n IH]; intros p Hp; [exact Hp|].
  cbn [crawl_turns]. destruct (running p) eqn:Hrun; [|rewrite Hrun; exact Hp].
  unfold crawl_turn.
  destruct (pages_crawled p <? page_limit (config (crawler p)))%Z eqn:Hlim.
  - pose proof (get_next_spec (frontier (crawler p))) as Hspec.
    destruct (get_next (frontier (crawler p))) as [[[u d]|] f].
    + destruct (process_url_returns (with_frontier (crawler p) f)
                  (world (length (processed p))) u d) as [b Hb].
      destruct (_process_url _ _ u d) as [r c1]. cbn [fst] in Hb. subst r.
      apply IH. cbn [running]. discriminate.
    + cbn [running crawler config pages_crawled with_frontier frontier]. intros _. right.
      subst f. reflexivity.
  - cbn [running crawler config pages_crawled]. intros _. left.
    apply Z.ltb_ge, Hlim.
Qed.

(** C2.  After any number of turns of the crawl loop, the page counter is
    the number of processed pages that passed every stage: a processed
    page counts exactly when robots did not block it, its fetch returned
    a result that is [ok], and its parse returned (the extraction never
    raises); a blocked page or a failed fetch leaves the counter as it
    was.  Every processed URL is marked visited, and no URL is processed
    twice.  And the loop processes every entry it pops: while the counter
    is below the limit and the frontier gives an entry, the next turn
    processes that entry, adds one to the counter exactly when the page
    passes every stage, and marks its URL visited. *)
Theorem crawl_counts_completed_pages
        (cfg : CrawlConfig) (s : DataStructurer) (world : nat -> page_world) (n : nat) :
  let p := crawl_turns n world (crawl_start (new cfg s)) in
  let q := crawl_turns (S n) world (crawl_start (new cfg s)) in
  pages_crawled p = successes p
  /\ (forall k url depth success,
        processed p !! k = Some (url, depth, success) ->
        (success = true <-> page_counts cfg (world k) url))
  /\ (forall url, url ∈ processed_urls p -> is_visited (frontier (crawler p)) url = true)
  /\ NoDup (processed_urls p)
  /\ (forall url depth f,
        (pages_crawled p < page_limit cfg)%Z ->
        get_next (frontier (crawler p)) = (Some (url, depth), f) ->
        exists success,
          processed q = (processed p ++ [(url, depth, success)])%list
          /\ (success = true <-> page_counts cfg (world (length (processed p))) url)
          /\ pages_crawled q = (if success then pages_crawled p + 1 else pages_crawled p)%Z
          /\ is_visited (frontier (crawler q)) url = true).
Proof.
  intros p q.
  destruct (crawl_turns_inv cfg world n _ (crawl_start_inv cfg s world))
    as [Hcfg Hcount Hgates Hvisited [Hnd _]].
  fold p in Hcfg, Hcount, Hgates, Hvisited, Hnd.
  split; [exact Hcount|]. split; [exact Hgates|]. split; [exact Hvisited|].
  split.
  { apply NoDup_app in Hnd as (Hnd & _ & _). apply (NoDup_fmap_1 _hash). exact Hnd. }
  intros url depth f Hlim Hnext.
  assert (Hrun : running p = true).
  { destruct (running p) eqn:Hrun; [reflexivity|]. exfalso.
    assert (Hstart : running (crawl_start (new cfg s)) = false ->
                     (page_limit (config (crawler (crawl_start (new cfg s))))
                      <= pages_crawled (crawl_start (new cfg s)))%Z
                     \/ fst (get_next (frontier (crawler (crawl_start (new cfg s))))) = None).
    { intros Hstop. unfold crawl_start in Hstop.
      destruct (add_url_returns (frontier (new cfg s)) (start_url (config (new cfg s))) 0)
        as [b Hb].
      destruct (add_url _ _ _) as [r f0]. cbn [fst] in Hb. subst r. discriminate. }
    destruct (crawl_turns_stop world n _ Hstart Hrun) as [Hstop|Hstop]; fold p in Hstop.
    - rewrite Hcfg in Hstop. lia.
    - rewrite Hnext in Hstop. discriminate. }
  rewrite <- Hcfg in Hlim.
  destruct (crawl_turn_pops (world (length (processed p))) (crawler p) (pages_crawled p)
              url depth f Hlim Hnext) as (success & c' & Hturn).
  destruct (crawl_turn_spec _ _ _ _ _ _ _ _ Hturn) as (_ & _ & Hsuccess & Hvis & _).
  assert (Hq : q = mkProgress c' (if success then pages_crawled p + 1 else pages_crawled p)%Z
                              (processed p ++ [(url, depth, success)]) true).
  { subst q. replace (S n) with (n + 1)%nat by lia. rewrite crawl_turns_add. fold p.
    cbn [crawl_turns]. rewrite Hrun, Hturn. reflexivity. }
  exists success. rewrite Hq. cbn [processed pages_crawled crawler].
  rewrite Hcfg in Hsuccess. auto.
Qed.

Lemma crawl_counts_completed_pages_witness :
  let start := crawl_start (new (set_defaults Scenes.plain_job) (mkStructurer [] [] [] [])) in
  let q := crawl_turns 1 (fun _ => Scenes.unreachable_page) start in
  exists success,
    processed q = [("https://example.com/docs", 0%Z, success)]
    /\ (success = true
        <-> page_counts (set_defaults Scenes.plain_job) Scenes.unreachable_page
                        "https://example.com/docs")
    /\ pages_crawled q = (if success then 1 else 0)%Z
    /\ is_visited (frontier (crawler q)) "https://example.com/docs" = true.
Proof.
  intros start q.
  destruct (SeedFacts.crawl_start_seed Scenes.plain_job (mkStructurer [] [] [] [])
              "https://example.com/docs" eq_refl ltac:(vm_compute; reflexivity)
              ltac:(vm_compute; reflexivity) ltac:(cbn; lia))
    as (_ & Hproc & Hpc & _ & Hqueue & Hvis).
  fold start in Hproc, Hpc, Hqueue, Hvis.
  assert (Hnext : exists f, get_next (frontier (crawler start))
                            = (Some ("https://example.com/docs", 0%Z), f)).
  { unfold get_next. rewrite Hqueue, Hvis. cbn.
    rewrite bool_decide_eq_false_2 by set_solver. eexists. reflexivity. }
  destruct Hnext as [f Hnext].
  destruct (proj2 (proj2 (proj2 (proj2
              (crawl_counts_completed_pages (set_defaults Scenes.plain_job)
                 (mkStructurer [] [] [] []) (fun _ => Scenes.unreachable_page) 0))))
              "https://example.com/docs" 0%Z f)
    as (success & H1 & H2 & H3 & H4).
  - change (pages_crawled start < page_limit (set_defaults Scenes.plain_job))%Z.
    rewrite Hpc. vm_compute. reflexivity.
  - exact Hnext.
  - change (processed q = (processed start ++ [("https://example.com/docs", 0%Z, success)])%list)
      in H1.
    change (pages_crawled q = (if success then pages_crawled start + 1
                               else pages_crawled start)%Z) in H3.
    change (is_visited (frontier (crawler q)) "https://example.com/docs" = true) in H4.
    rewrite Hproc in H1. rewrite Hpc in H3. exists success.
    split; [exact H1|]. split; [exact H2|]. split; [|exact H4].
    rewrite H3. destruct success; reflexivity.
Defined.

End CrawlCountFacts.
